(** * RaidArrayDriver: the tagline driver, its block cache and its opcode codec

    A shallow embedding of [tagline_driver.c], [raid_cache.c] and
    [raid_client.c].  C integers are [Z]; the unsigned types wrap
    ([uint8_t], [uint32_t], [uint64_t]) and the wrap is written out, while
    [int] arithmetic is left in [Z] (an [int] overflow is undefined in C and
    lies outside the model).  The globals of the two translation units are
    the fields of one state record each, and the functions that touch them
    are written in a small state monad whose outcomes include the early
    [return] of C and the two ways in which a run has no result: an access
    out of bounds, and a random stream that ran dry inside a retry loop. *)

From Stdlib Require Import ZArith Lia List Bool.
From Stdlib Require Strings.Byte.
From stdpp Require Import base option list.

Local Open Scope Z_scope.

(** * Part I: the program *)

(** ** Constants of the headers

    [raid_bus.h], [tagline_driver.h] and [raid_cache.h] are not among the
    sources; every constant the code takes from them is a field of this
    class, and the development is parametric in it. *)

Class raid_bus_h : Type := {
  RAID_DISKS : Z;
  RAID_DISKBLOCKS : Z;
  RAID_TRACK_BLOCKS : Z;
  RAID_BLOCK_SIZE : nat;
  MAX_TAGLINE_BLOCK_NUMBER : Z;
  TAGLINE_CACHE_SIZE : Z;
  RAID_INIT : Z;
  RAID_FORMAT : Z;
  RAID_READ : Z;
  RAID_WRITE : Z;
  RAID_STATUS : Z;
  RAID_CLOSE : Z;
  RAID_DISK_UNINITIALIZED : Z;
  RAID_DISK_READY : Z;
  RAID_DISK_FAILED : Z
}.

(** A small configuration, used by the worked examples. *)
Definition small_config : raid_bus_h := {|
  RAID_DISKS := 3;
  RAID_DISKBLOCKS := 16;
  RAID_TRACK_BLOCKS := 4;
  RAID_BLOCK_SIZE := 2;
  MAX_TAGLINE_BLOCK_NUMBER := 8;
  TAGLINE_CACHE_SIZE := 2;
  RAID_INIT := 0;
  RAID_FORMAT := 1;
  RAID_READ := 2;
  RAID_WRITE := 3;
  RAID_STATUS := 4;
  RAID_CLOSE := 5;
  RAID_DISK_UNINITIALIZED := 0;
  RAID_DISK_READY := 1;
  RAID_DISK_FAILED := 2
|}.

(** ** Machine integers *)

Definition u8 (x : Z) : Z := x mod 2 ^ 8.
Definition u32 (x : Z) : Z := x mod 2 ^ 32.
Definition u64 (x : Z) : Z := x mod 2 ^ 64.

(** [x << n] and [x >> n] on a [uint64_t]. *)
Definition shl64 (x n : Z) : Z := u64 (Z.shiftl x n).
Definition shr64 (x n : Z) : Z := Z.shiftr x n.

(** Modelled from the spec: the typedefs [RAIDDiskID] and [RAIDBlockID] of
    [raid_bus.h].  The opcode layout gives the disk number one byte and the
    block identifier 32 bits; a value passed as a cache key is converted to
    these types, so that the [-1] of an unassigned mapping and the [-1] the
    cache stores in an unused slot become the same all-ones value. *)
Definition RAIDDiskID (x : Z) : Z := u8 x.
Definition RAIDBlockID (x : Z) : Z := u32 x.

(** The content of one block of storage.  [None] is storage whose bytes were
    never set (fresh from [malloc]).  [TAGLINE_BLOCK_SIZE] and
    [RAID_BLOCK_SIZE] are used interchangeably by the driver as the stride of
    one buffer; the model takes them equal, so a buffer is a list of
    blocks. *)
Definition payload : Type := option (list Byte.byte).

Definition zero_block `{raid_bus_h} : payload :=
  Some (repeat Byte.x00 RAID_BLOCK_SIZE).

(** Array indexing by a C integer. *)
Definition idx {A : Type} (l : list A) (i : Z) : option A :=
  if i <? 0 then None else l !! Z.to_nat i.

Definition upd {A : Type} (l : list A) (i : Z) (x : A) : list A :=
  <[Z.to_nat i := x]> l.

(** ** Request codec ([tagline_driver.c]) *)

(** [struct RAIDresponse]; the fields of each struct live in a module of
    their own so that they keep the names of the C fields. *)
Module RAIDresponse.
Record t : Type := mk
  { status : Z; type : Z; blockQuantity : Z; diskNumber : Z; id : Z }.
Definition zero : t := mk 0 0 0 0 0.
Definition set_status (v : Z) (g : t) : t :=
  mk v (type g) (blockQuantity g) (diskNumber g) (id g).
Definition set_type (v : Z) (g : t) : t :=
  mk (status g) v (blockQuantity g) (diskNumber g) (id g).
Definition set_blockQuantity (v : Z) (g : t) : t :=
  mk (status g) (type g) v (diskNumber g) (id g).
Definition set_diskNumber (v : Z) (g : t) : t :=
  mk (status g) (type g) (blockQuantity g) v (id g).
Definition set_id (v : Z) (g : t) : t :=
  mk (status g) (type g) (blockQuantity g) (diskNumber g) v.
End RAIDresponse.

Definition RAIDOpCode : Type := Z.

(** [create_raid_request]: the four arguments are converted to the parameter
    types on entry, then packed by shifts and ors. *)
Definition create_raid_request (type blockQuantity diskNumber id : Z)
  : RAIDOpCode :=
  let type := u8 type in
  let blockQuantity := u8 blockQuantity in
  let diskNumber := u8 diskNumber in
  let id := u32 id in
  let op := type in
  let op := Z.lor (shl64 op 8) blockQuantity in
  let op := Z.lor (shl64 op 8) diskNumber in
  let op := shl64 op 8 in
  let op := Z.lor (shl64 op 32) id in
  op.

(** [extract_raid_response resp operation]: 0 on success, 1 on failure.  The
    fields of [GlobResponse] are filled in as the checks proceed, so an early
    failure leaves the later fields as they were. *)
Definition extract_raid_response `{raid_bus_h}
    (resp operation : RAIDOpCode) (g : RAIDresponse.t)
  : Z * RAIDresponse.t :=
  let g := RAIDresponse.set_id 0 g in
  let g := RAIDresponse.set_id (u32 (shr64 (shl64 resp 32) 32)) g in
  let tempID := u32 (shr64 (shl64 operation 32) 32) in
  let g := RAIDresponse.set_status (u8 (shr64 (shl64 resp 31) 63)) g in
  if RAIDresponse.status g =? 1 then (1, g) else
  let g := RAIDresponse.set_diskNumber
             (u8 (shr64 (Z.land 0xFF0000000000 resp) 40)) g in
  let temp := u8 (shr64 (Z.land 0xFF0000000000 operation) 40) in
  if negb (RAIDresponse.diskNumber g =? temp) then (1, g) else
  let g := RAIDresponse.set_blockQuantity (u8 (shr64 (shl64 resp 8) 56)) g in
  let temp := u8 (shr64 (shl64 operation 8) 56) in
  if negb (RAIDresponse.blockQuantity g =? temp) then (1, g) else
  let g := RAIDresponse.set_type (u8 (shr64 resp 56)) g in
  let temp := u8 (shr64 operation 56) in
  if negb (RAIDresponse.type g =? temp) then (1, g) else
  if negb (RAIDresponse.id g =? tempID)
     && negb (RAIDresponse.type g =? RAID_STATUS)
  then (1, g)
  else (0, g).

(** The fields of an opcode, read the way [extract_raid_response] and
    [client_raid_bus_request] read them. *)
Definition op_type (op : RAIDOpCode) : Z := u8 (shr64 op 56).
Definition op_blocks (op : RAIDOpCode) : Z := u8 (shr64 (shl64 op 8) 56).
Definition op_disk (op : RAIDOpCode) : Z :=
  u8 (shr64 (Z.land 0xFF0000000000 op) 40).
Definition op_id (op : RAIDOpCode) : Z := u32 (shr64 (shl64 op 32) 32).
Definition op_status (op : RAIDOpCode) : Z := u8 (shr64 (shl64 op 31) 63).

(** An opcode written as the sum of its five fields; [r] is byte 3, whose
    lowest bit (bit 32 of the opcode) is the status bit. *)
Definition packed (t q d r i : Z) : Z :=
  t * 2 ^ 56 + q * 2 ^ 48 + d * 2 ^ 40 + r * 2 ^ 32 + i.

Definition byte_range (x : Z) : Prop := 0 <= x < 256.
Definition word_range (x : Z) : Prop := 0 <= x < 2 ^ 32.

(** The verdict of [extract_raid_response], in terms of the fields. *)
Definition verdict `{raid_bus_h} (resp operation : RAIDOpCode) : Z :=
  if op_status resp =? 1 then 1
  else if negb (op_disk resp =? op_disk operation) then 1
  else if negb (op_blocks resp =? op_blocks operation) then 1
  else if negb (op_type resp =? op_type operation) then 1
  else if negb (op_id resp =? op_id operation)
          && negb (op_type resp =? RAID_STATUS) then 1
  else 0.


(** ** Block cache ([raid_cache.c]) *)

(** [struct cache]: one slot of the cache. *)
Module cache.
Record t : Type := mk
  { data : payload; timestamp : Z; disk : Z; block : Z }.
End cache.

(** The globals of [raid_cache.c]. *)
Module raid_cache.
Record t : Type := mk
  { glob_max_items : Z;
    objectCount : Z;
    hit : Z; miss : Z; insert : Z; get : Z;
    timea : Z;
    oldestTime : Z;
    cacheArray : list cache.t }.
(** The values the globals have when the program starts. *)
Definition boot : t := mk 0 0 0 0 0 0 0 0 [].
End raid_cache.

(** [cacheArray[i].disk == dsk && cacheArray[i].block == blk] *)
Definition slot_matches (e : cache.t) (dsk blk : Z) : bool :=
  (cache.disk e =? dsk) && (cache.block e =? blk).

(** The lookup loops: [for (i = 0; i < n; i++) if (slot i matches) { ...
    break; }], started at slot [i].  [None] is a read past the end of
    [cacheArray]; [Some None] is a loop that ran to its end. *)
Fixpoint search_slots (n : nat) (i : nat) (arr : list cache.t) (dsk blk : Z)
  : option (option nat) :=
  match n with
  | O => Some None
  | S n' =>
      match arr !! i with
      | None => None
      | Some e =>
          if slot_matches e dsk blk then Some (Some i)
          else search_slots n' (S i) arr dsk blk
      end
  end.

(** The scan for the oldest block: [for (i = 0; i < n; i++) if
    (cacheArray[i].timestamp < oldestTime) { oldestPosition = i; oldestTime =
    cacheArray[i].timestamp; }], started at slot [i]. *)
Fixpoint oldest_scan (n : nat) (i : nat) (arr : list cache.t)
    (oldestPosition : nat) (oldestTime : Z) : option (nat * Z) :=
  match n with
  | O => Some (oldestPosition, oldestTime)
  | S n' =>
      match arr !! i with
      | None => None
      | Some e =>
          if cache.timestamp e <? oldestTime
          then oldest_scan n' (S i) arr i (cache.timestamp e)
          else oldest_scan n' (S i) arr oldestPosition oldestTime
      end
  end.

(** [init_raid_cache]: [heap] gives the timestamps found in the storage
    that [malloc] returns for the slots, which the function leaves as they
    are; the data buffers are fresh.  [objectCount], the clock and the
    statistics are not touched.

    Two things the model takes for granted.  The allocations succeed, so
    the two [return (-1)] are never taken and the result is always 0.  And
    the slots are counted by an [int i] compared with the [uint32_t]
    capacity: this is the C loop for capacities below [2 ^ 31], which is the
    range the statements about a fresh cache are made for; from [2 ^ 31] on
    the C counter would overflow. *)
Definition init_raid_cache (max_items : Z) (heap : nat -> Z)
    (c : raid_cache.t) : Z * raid_cache.t :=
  let max_items := u32 max_items in
  let arr :=
    map (fun i => cache.mk None (heap i) (RAIDDiskID (-1)) (RAIDBlockID (-1)))
        (seq 0 (Z.to_nat max_items)) in
  (0, raid_cache.mk max_items
        (raid_cache.objectCount c) (raid_cache.hit c) (raid_cache.miss c)
        (raid_cache.insert c) (raid_cache.get c) (raid_cache.timea c)
        (raid_cache.oldestTime c) arr).

(** The loop of [close_raid_cache], at slot [i] with [n] slots to go:
    [free(cacheArray[i].data); cacheArray[i].data = NULL;].  [None] when a
    slot outside [cacheArray] is accessed. *)
Fixpoint free_slots (n i : nat) (arr : list cache.t)
  : option (list cache.t) :=
  match n with
  | O => Some arr
  | S n' =>
      match arr !! i with
      | None => None
      | Some e =>
          free_slots n' (S i)
            (<[i := cache.mk None (cache.timestamp e) (cache.disk e)
                      (cache.block e)]> arr)
      end
  end.

(** [close_raid_cache]: the data of each of the [glob_max_items] slots is
    freed, then [cacheArray] itself, which is [NULL] afterwards (the
    statistics are only logged).  [None] when a slot outside [cacheArray]
    is accessed, as when [cacheArray] is [NULL] already. *)
Definition close_raid_cache (c : raid_cache.t)
  : option (Z * raid_cache.t) :=
  match free_slots (Z.to_nat (raid_cache.glob_max_items c)) 0
          (raid_cache.cacheArray c) with
  | None => None
  | Some _ =>
      Some (0, raid_cache.mk (raid_cache.glob_max_items c)
                 (raid_cache.objectCount c) (raid_cache.hit c)
                 (raid_cache.miss c) (raid_cache.insert c)
                 (raid_cache.get c) (raid_cache.timea c)
                 (raid_cache.oldestTime c) [])
  end.

(** [memcpy(cacheArray[i].data, buf, RAID_BLOCK_SIZE); cacheArray[i].timestamp
    = timea;] on a slot the lookup has just read. *)
Definition refresh_slot (i : nat) (buf : payload) (timea : Z)
    (arr : list cache.t) : list cache.t :=
  match arr !! i with
  | None => arr
  | Some e => <[i := cache.mk buf timea (cache.disk e) (cache.block e)]> arr
  end.

(** [put_raid_cache dsk blk buf]; [None] when a slot outside [cacheArray]
    is accessed. *)
Definition put_raid_cache (dsk blk : Z) (buf : payload) (c : raid_cache.t)
  : option (Z * raid_cache.t) :=
  let dsk := RAIDDiskID dsk in
  let blk := RAIDBlockID blk in
  let '(raid_cache.mk max count hit miss insert get timea oldestTime arr) := c in
  let timea := u64 (timea + 1) in
  if count <? max then
    match search_slots (Z.to_nat count) 0 arr dsk blk with
    | None => None
    | Some (Some i) =>
        (* already cached: new data, new timestamp *)
        let arr := refresh_slot i buf timea arr in
        Some (0, raid_cache.mk max count (hit + 1) miss (insert + 1) get
                   timea oldestTime arr)
    | Some None =>
        (* a new block, stored in slot [objectCount] *)
        match idx arr count with
        | None => None
        | Some _ =>
            let arr := upd arr count (cache.mk buf timea dsk blk) in
            Some (0, raid_cache.mk max (count + 1) hit miss (insert + 1) get
                       timea oldestTime arr)
        end
    end
  else
    match search_slots (Z.to_nat max) 0 arr dsk blk with
    | None => None
    | Some (Some i) =>
        let arr := refresh_slot i buf timea arr in
        Some (0, raid_cache.mk max count (hit + 1) miss (insert + 1) get
                   timea oldestTime arr)
    | Some None =>
        (* a miss on a full cache: the oldest block is replaced *)
        match arr !! 0%nat with
        | None => None
        | Some e0 =>
            match oldest_scan (Z.to_nat max) 0 arr 0 (cache.timestamp e0) with
            | None => None
            | Some (oldestPosition, oldestTime) =>
                let arr :=
                  <[oldestPosition := cache.mk buf timea dsk blk]> arr in
                Some (0, raid_cache.mk max count hit (miss + 1) (insert + 1)
                           get timea oldestTime arr)
            end
        end
    end.

(** [get_raid_cache dsk blk]: the pointer it returns is the index of the slot
    whose data buffer it points to; [None] inside is [NULL]. *)
Definition get_raid_cache (dsk blk : Z) (c : raid_cache.t)
  : option (option nat * raid_cache.t) :=
  let dsk := RAIDDiskID dsk in
  let blk := RAIDBlockID blk in
  let '(raid_cache.mk max count hit miss insert get timea oldestTime arr) := c in
  let timea := u64 (timea + 1) in
  let get := get + 1 in
  match search_slots (Z.to_nat max) 0 arr dsk blk with
  | None => None
  | Some (Some i) =>
      match arr !! i with
      | None => None
      | Some e =>
          let arr :=
            <[i := cache.mk (cache.data e) timea (cache.disk e) (cache.block e)]>
              arr in
          Some (Some i, raid_cache.mk max count (hit + 1) miss insert get
                          timea oldestTime arr)
      end
  | Some None =>
      Some (None, raid_cache.mk max count hit (miss + 1) insert get
                    timea oldestTime arr)
  end.

(** What a pointer returned by [get_raid_cache] points to. *)
Definition slot_data (c : raid_cache.t) (p : nat) : option payload :=
  cache.data <$> raid_cache.cacheArray c !! p.


(** ** The driver ([tagline_driver.c]) *)

(** [struct disks]: the status of a disk and the last block in use on it
    ([-1] when the disk is empty). *)
Module disks.
Record t : Type := mk { status : Z; blocks : Z }.
End disks.

(** [struct tagline]: where one block of a tagline is stored. *)
Module tagline.
Record t : Type := mk
  { disk : Z; diskPosition : Z; backupDisk : Z; backupDiskPosition : Z }.
Definition unassigned : t := mk (-1) (-1) (-1) (-1).
Definition set_disk (v : Z) (e : t) : t :=
  mk v (diskPosition e) (backupDisk e) (backupDiskPosition e).
Definition set_diskPosition (v : Z) (e : t) : t :=
  mk (disk e) v (backupDisk e) (backupDiskPosition e).
Definition set_backupDisk (v : Z) (e : t) : t :=
  mk (disk e) (diskPosition e) v (backupDiskPosition e).
Definition set_backupDiskPosition (v : Z) (e : t) : t :=
  mk (disk e) (diskPosition e) (backupDisk e) v.
End tagline.

(** The globals of the driver, the globals of the cache, the numbers that
    [rand] is still to return, and the storage array at the other end of
    the bus.  [tagcounter] and [Globtag] are [NULL] (here: empty) until
    [tagline_driver_init] allocates them. *)
Record State (Srv : Type) : Type := mkState
  { maxtaglines : Z;
    tagcounter : list Z;
    array : list disks.t;
    Globtag : list (list tagline.t);
    GlobResponse : RAIDresponse.t;
    cache_globals : raid_cache.t;
    rand_stream : list nat;
    raid : Srv }.
Arguments mkState {Srv}.
Arguments maxtaglines {Srv}.
Arguments tagcounter {Srv}.
Arguments array {Srv}.
Arguments Globtag {Srv}.
Arguments GlobResponse {Srv}.
Arguments cache_globals {Srv}.
Arguments rand_stream {Srv}.
Arguments raid {Srv}.

(** The outcomes of running a piece of a function body. *)
Inductive outcome (S R A : Type) : Type :=
| Val (a : A) (s : S)      (* ran to its end *)
| Early (r : R) (s : S)    (* executed [return r;] *)
| Undef                    (* accessed an array out of bounds *)
| NoRand.                  (* needed more random numbers than there are *)
Arguments Val {S R A}.
Arguments Early {S R A}.
Arguments Undef {S R A}.
Arguments NoRand {S R A}.

Definition M (S R A : Type) : Type := S -> outcome S R A.

Definition ret {S R A} (a : A) : M S R A := fun s => Val a s.

Definition bind {S R A B} (m : M S R A) (k : A -> M S R B) : M S R B :=
  fun s =>
    match m s with
    | Val a s' => k a s'
    | Early r s' => Early r s'
    | Undef => Undef
    | NoRand => NoRand
    end.

(** [return r;] *)
Definition early {S R A} (r : R) : M S R A := fun s => Early r s.

Definition undef {S R A} : M S R A := fun _ => Undef.

(** A whole function body: its value is what it returns, early or not. *)
Definition body {S R} (m : M S R R) : M S R R :=
  fun s =>
    match m s with
    | Val a s' => Val a s'
    | Early r s' => Val r s'
    | Undef => Undef
    | NoRand => NoRand
    end.

(** A call of a function from the body of another one. *)
Definition call {S R R' A} (m : M S R A) : M S R' A :=
  fun s =>
    match m s with
    | Val a s' => Val a s'
    | Early _ _ => Undef
    | Undef => Undef
    | NoRand => NoRand
    end.

Declare Scope driver_scope.
Delimit Scope driver_scope with driver.
Notation "x <- m ;; k" := (bind m (fun x => k))
  (at level 100, m at next level, right associativity) : driver_scope.
Notation "'let*' p ':=' m 'in' k" := (bind m (fun p => k))
  (at level 10, p pattern, m at level 100, k at level 200) : driver_scope.
Notation "m ;; k" := (bind m (fun _ => k))
  (at level 100, right associativity) : driver_scope.
Local Open Scope driver_scope.

Definition of_option {S R A} (o : option A) : M S R A :=
  match o with Some a => ret a | None => undef end.

(** [for (i = 0; i < n; i++) body], with the variables the body assigns
    threaded through as [acc]. *)
Fixpoint for_loop {S R A} (n : nat) (i : Z) (f : Z -> A -> M S R A) (acc : A)
  : M S R A :=
  match n with
  | O => ret acc
  | S n' => acc' <- f i acc ;; for_loop n' (i + 1) f acc'
  end.

Definition for_ {S R A} (n : Z) (f : Z -> A -> M S R A) (acc : A) : M S R A :=
  for_loop (Z.to_nat n) 0 f acc.

(** [while (cond) body].  The only [while] loops of the driver are the
    retry loops around [rand]; every turn of such a loop draws at least one
    number, so a loop that is given one more turn than there are numbers
    left stops short only when the stream has run dry. *)
Fixpoint while_loop {S R A} (turns : nat) (cond : A -> M S R bool)
    (f : A -> M S R A) (acc : A) : M S R A :=
  match turns with
  | O => fun _ => NoRand
  | S n =>
      b <- cond acc ;;
      if b : bool then acc' <- f acc ;; while_loop n cond f acc'
      else ret acc
  end.

Section Driver.
Context `{raid_bus_h}.

(** The storage array is an external collaborator: [serve] is what it does
    with one request (the opcode and the blocks sent along with it), giving
    its next state, the response opcode and the blocks it sends back. *)
Context {Srv : Type}.
Variable serve :
  Srv -> RAIDOpCode -> list payload -> Srv * (RAIDOpCode * list payload).

Abbreviation St := (State Srv).
Abbreviation Body R A := (M St R A).

Definition set_maxtaglines (v : Z) (s : St) : St :=
  mkState v (tagcounter s) (array s) (Globtag s) (GlobResponse s)
    (cache_globals s) (rand_stream s) (raid s).
Definition set_tagcounter (v : list Z) (s : St) : St :=
  mkState (maxtaglines s) v (array s) (Globtag s) (GlobResponse s)
    (cache_globals s) (rand_stream s) (raid s).
Definition set_array (v : list disks.t) (s : St) : St :=
  mkState (maxtaglines s) (tagcounter s) v (Globtag s) (GlobResponse s)
    (cache_globals s) (rand_stream s) (raid s).
Definition set_Globtag (v : list (list tagline.t)) (s : St) : St :=
  mkState (maxtaglines s) (tagcounter s) (array s) v (GlobResponse s)
    (cache_globals s) (rand_stream s) (raid s).
Definition set_GlobResponse (v : RAIDresponse.t) (s : St) : St :=
  mkState (maxtaglines s) (tagcounter s) (array s) (Globtag s) v
    (cache_globals s) (rand_stream s) (raid s).
Definition set_cache_globals (v : raid_cache.t) (s : St) : St :=
  mkState (maxtaglines s) (tagcounter s) (array s) (Globtag s)
    (GlobResponse s) v (rand_stream s) (raid s).
Definition set_rand_stream (v : list nat) (s : St) : St :=
  mkState (maxtaglines s) (tagcounter s) (array s) (Globtag s)
    (GlobResponse s) (cache_globals s) v (raid s).
Definition set_raid (v : Srv) (s : St) : St :=
  mkState (maxtaglines s) (tagcounter s) (array s) (Globtag s)
    (GlobResponse s) (cache_globals s) (rand_stream s) v.

Definition gets {R A} (f : St -> A) : Body R A := fun s => Val (f s) s.
Definition modify {R} (f : St -> St) : Body R unit := fun s => Val tt (f s).

Definition while {R A} (cond : A -> Body R bool) (f : A -> Body R A) (acc : A)
  : Body R A :=
  fun s => while_loop (S (length (rand_stream s))) cond f acc s.

(** [rand()] *)
Definition rand {R} : Body R Z :=
  fun s =>
    match rand_stream s with
    | [] => NoRand
    | r :: rest => Val (Z.of_nat r) (set_rand_stream rest s)
    end.

(** *** Accesses to the tables *)

(** [tagcounter[tag]] *)
Definition read_tagcounter {R} (tag : Z) : Body R Z :=
  t <- gets tagcounter ;; of_option (idx t tag).

Definition write_tagcounter {R} (tag : Z) (v : Z) : Body R unit :=
  t <- gets tagcounter ;;
  _ <- of_option (idx t tag) ;;
  modify (set_tagcounter (upd t tag v)).

(** [array[disk]] *)
Definition read_array {R} (disk : Z) : Body R disks.t :=
  a <- gets array ;; of_option (idx a disk).

Definition write_array {R} (disk : Z) (v : disks.t) : Body R unit :=
  a <- gets array ;;
  _ <- of_option (idx a disk) ;;
  modify (set_array (upd a disk v)).

(** [Globtag[tag][k]] *)
Definition read_tag {R} (tag k : Z) : Body R tagline.t :=
  g <- gets Globtag ;;
  row <- of_option (idx g tag) ;;
  of_option (idx row k).

(** [Globtag[tag]], the pointer to the row *)
Definition read_row {R} (tag : Z) : Body R (list tagline.t) :=
  g <- gets Globtag ;; of_option (idx g tag).

(** [Globtag[tag][k].field = v], with [f] the update of the field. *)
Definition write_tag {R} (tag k : Z) (f : tagline.t -> tagline.t)
  : Body R unit :=
  g <- gets Globtag ;;
  row <- of_option (idx g tag) ;;
  e <- of_option (idx row k) ;;
  modify (set_Globtag (upd g tag (upd row k (f e)))).

(** [buf[k * RAID_BLOCK_SIZE]], one block *)
Definition buf_at {R} (buf : list payload) (k : Z) : Body R payload :=
  of_option (idx buf k).

(** [memcpy(&buf[k * RAID_BLOCK_SIZE], src, RAID_BLOCK_SIZE)] *)
Definition buf_store {R} (buf : list payload) (k : Z) (src : payload)
  : Body R (list payload) :=
  _ <- of_option (idx buf k) ;; ret (upd buf k src).

(** *** Calls into the cache and the codec *)

Definition call_put_raid_cache {R} (dsk blk : Z) (buf : payload)
  : Body R Z :=
  c <- gets cache_globals ;;
  let* (r, c') := of_option (put_raid_cache dsk blk buf c) in
  modify (set_cache_globals c') ;;
  ret r.

Definition call_get_raid_cache {R} (dsk blk : Z) : Body R (option nat) :=
  c <- gets cache_globals ;;
  let* (p, c') := of_option (get_raid_cache dsk blk c) in
  modify (set_cache_globals c') ;;
  ret p.

Definition call_close_raid_cache {R} : Body R Z :=
  c <- gets cache_globals ;;
  let* (r, c') := of_option (close_raid_cache c) in
  modify (set_cache_globals c') ;;
  ret r.

(** [*tempbuf], for a pointer that [get_raid_cache] returned *)
Definition read_slot {R} (p : nat) : Body R payload :=
  c <- gets cache_globals ;; of_option (slot_data c p).

Definition call_extract_raid_response {R} (resp operation : RAIDOpCode)
  : Body R Z :=
  g <- gets GlobResponse ;;
  let '(r, g') := extract_raid_response resp operation g in
  modify (set_GlobResponse g') ;;
  ret r.

(** *** The bus ([raid_client.c]) *)

(** What [read(sockfd, buf, RAID_BLOCK_SIZE * blocks)] leaves in [buf] when
    the array sent [src]. *)
Definition receive (blocks : nat) (src dst : list payload) : list payload :=
  take blocks src ++ drop (length (take blocks src)) dst.

(** [client_raid_bus_request(op, &buf[off * RAID_BLOCK_SIZE])].  The opcode
    and, for a READ or a WRITE, [blocks] blocks of the buffer are sent; the
    response opcode is received and, for a READ or a WRITE, [blocks] blocks
    are read back into the buffer.  The two byte-order conversions cancel.
    The socket calls are not modelled: the connection is assumed up. *)
Definition client_raid_bus_request {R} (op : RAIDOpCode)
    (buf : list payload) (off : Z) : Body R (RAIDOpCode * list payload) :=
  let type := u8 (shr64 op 56) in
  let blocks := shr64 (shl64 op 8) 56 in
  if (type =? RAID_READ) || (type =? RAID_WRITE) then
    if (off <? 0) || (Z.of_nat (length buf) <? off + blocks) then undef
    else
      let before := take (Z.to_nat off) buf in
      let window := take (Z.to_nat blocks) (drop (Z.to_nat off) buf) in
      let after := drop (Z.to_nat off + Z.to_nat blocks) buf in
      srv <- gets raid ;;
      let '(srv', (response, back)) := serve srv op window in
      modify (set_raid srv') ;;
      ret (response, before ++ receive (Z.to_nat blocks) back window ++ after)
  else
    srv <- gets raid ;;
    let '(srv', (response, _)) := serve srv op [] in
    modify (set_raid srv') ;;
    ret (response, buf).

(** *** [chooseDisk]

    The two pointers are options ([None] is [NULL]); the values they point
    to after the call are returned. *)
Definition deref {R} (p : option Z) : Body R Z := of_option p.

Definition chooseDisk {R} (disk backupDisk : option Z) (blks : Z)
  : Body R (option Z * option Z) :=
  let oldDisk := disk in
  let oldBDisk := backupDisk in
  (* Change disk *)
  disk <-
    (if backupDisk is None then
       while (fun disk => d <- deref disk ;; o <- deref oldDisk ;;
                          ret (d =? o))
             (fun _ => r <- rand ;; ret (Some (Z.rem r RAID_DISKS)))
             disk
     else ret disk) ;;
  (* Change Backup *)
  backupDisk <-
    (if disk is None then
       while (fun backupDisk => b <- deref backupDisk ;;
                                o <- deref oldBDisk ;; ret (b =? o))
             (fun _ => r <- rand ;; ret (Some (Z.rem r RAID_DISKS)))
             backupDisk
     else ret backupDisk) ;;
  (* Changing Both *)
  match disk, backupDisk with
  | Some _, Some _ =>
      while (fun '(disk, backupDisk) =>
               d <- deref disk ;; b <- deref backupDisk ;; ret (d =? b))
            (fun _ =>
               r1 <- rand ;;
               r2 <- rand ;;
               ret (Some (Z.rem r1 RAID_DISKS), Some (Z.rem r2 RAID_DISKS)))
            (disk, backupDisk)
  | _, _ => ret (disk, backupDisk)
  end.

(** *** [tagline_driver_init] *)

(** [if (extract_raid_response(response, operation)) return (r);] *)
Definition return_if_invalid {R} (response operation : RAIDOpCode) (r : R)
  : Body R unit :=
  v <- call_extract_raid_response response operation ;;
  if negb (v =? 0) then early r else ret tt.

(** [heap] is passed on to [init_raid_cache].  The allocations are assumed
    to succeed. *)
Definition tagline_driver_init (maxlines : Z) (heap : nat -> Z)
  : Body Z Z :=
  body (
    let maxlines := u32 maxlines in
    modify (set_maxtaglines maxlines) ;;
    c <- gets cache_globals ;;
    modify (set_cache_globals (snd (init_raid_cache TAGLINE_CACHE_SIZE heap c))) ;;
    modify (set_Globtag
              (replicate (Z.to_nat maxlines)
                 (replicate (Z.to_nat MAX_TAGLINE_BLOCK_NUMBER)
                    tagline.unassigned))) ;;
    modify (set_tagcounter (replicate (Z.to_nat maxlines) 0)) ;;
    (* RAID_INIT *)
    let operation :=
      create_raid_request RAID_INIT
        (Z.quot RAID_DISKBLOCKS RAID_TRACK_BLOCKS + 3) RAID_DISKS 0 in
    let* (response, _) := client_raid_bus_request operation [] 0 in
    return_if_invalid response operation 1 ;;
    (* RAID_FORMAT *)
    for_ RAID_DISKS (fun currentDisk _ =>
      d <- read_array currentDisk ;;
      if disks.status d =? RAID_DISK_UNINITIALIZED then
        let operation := create_raid_request RAID_FORMAT 0 currentDisk 0 in
        let* (response, _) := client_raid_bus_request operation [] 0 in
        return_if_invalid response operation 1 ;;
        d <- read_array currentDisk ;;
        write_array currentDisk (disks.mk RAID_DISK_READY (disks.blocks d)) ;;
        for_ RAID_DISKBLOCKS (fun _ _ =>
          d <- read_array currentDisk ;;
          write_array currentDisk (disks.mk (disks.status d) (-1))) tt
      else ret tt) tt ;;
    ret 0).

(** *** [tagline_read]

    The function returns its status; the caller's buffer, which it fills, is
    returned along with it. *)
Definition tagline_read (tag bnum blks : Z) (buf : list payload)
  : Body (Z * list payload) (Z * list payload) :=
  body (
    let blks := u8 blks in
    let* (operation, response, buf) :=
      for_ blks (fun i '(operation, response, buf) =>
        e <- read_tag tag (bnum + i) ;;
        (* But first check if data is in the cache *)
        tempbuf <- call_get_raid_cache (tagline.disk e) (tagline.diskPosition e) ;;
        match tempbuf with
        | Some p =>
            b <- read_slot p ;;
            buf <- buf_store buf i b ;;
            ret (operation, response, buf)
        | None =>
            let operation :=
              create_raid_request RAID_READ 1
                (tagline.disk e) (tagline.diskPosition e) in
            let* (response, buf) := client_raid_bus_request operation buf i in
            (* Put the block into the cache *)
            b <- buf_at buf i ;;
            call_put_raid_cache (tagline.disk e) (tagline.diskPosition e) b ;;
            ret (operation, response, buf)
        end) (0, 0, buf) in
    (* Check Response *)
    return_if_invalid response operation (1, buf) ;;
    ret (0, buf)).

(** *** [tagline_write] *)

(** The loop that counts the blocks available before the range stops being
    contiguous, for the disk and for the backup disk.  Each condition reads
    [Globtag[tag][localBnum+1]] first, and the other entries it reads have
    smaller indices, so reading the four entries at once goes out of bounds
    exactly when the C conditions do. *)
Definition count_available {R} (tag bnum blks : Z) : Body R (Z * Z) :=
  let* (blocksAvailable, blocksAvailable2, _) :=
    for_ blks (fun i '(blocksAvailable, blocksAvailable2, localBnum) =>
      next <- read_tag tag (localBnum + 1) ;;
      first <- read_tag tag bnum ;;
      cur <- read_tag tag localBnum ;;
      ith <- read_tag tag (bnum + i) ;;
      let blocksAvailable :=
        if (tagline.disk next =? tagline.disk first)
           && (tagline.diskPosition next =? tagline.diskPosition cur + 1)
           && negb (tagline.disk next =? -1)
           && (tagline.diskPosition ith =? tagline.diskPosition cur + i)
        then blocksAvailable + 1 else blocksAvailable in
      let blocksAvailable2 :=
        if (tagline.backupDisk next =? tagline.backupDisk first)
           && (tagline.backupDiskPosition next
               =? tagline.backupDiskPosition cur + 1)
           && negb (tagline.backupDisk next =? -1)
           && (tagline.backupDiskPosition ith
               =? tagline.backupDiskPosition cur + i)
        then blocksAvailable2 + 1 else blocksAvailable2 in
      ret (blocksAvailable, blocksAvailable2, localBnum + 1)) (1, 1, bnum) in
  ret (blocksAvailable, blocksAvailable2).

(** [for (i = 0; i < n; i++) put_raid_cache(Globtag[tag][bnum+i].disk,
    Globtag[tag][bnum+i].diskPosition, &buf[i*RAID_BLOCK_SIZE]);] *)
Definition cache_disk_blocks {R} (tag bnum n : Z) (buf : list payload)
  : Body R unit :=
  for_ n (fun i _ =>
    e <- read_tag tag (bnum + i) ;;
    b <- buf_at buf i ;;
    call_put_raid_cache (tagline.disk e) (tagline.diskPosition e) b ;;
    ret tt) tt.

(** The same loop for the backup disk. *)
Definition cache_backup_blocks {R} (tag bnum n : Z) (buf : list payload)
  : Body R unit :=
  for_ n (fun i _ =>
    e <- read_tag tag (bnum + i) ;;
    b <- buf_at buf i ;;
    call_put_raid_cache
      (tagline.backupDisk e) (tagline.backupDiskPosition e) b ;;
    ret tt) tt.

Abbreviation Result := (Z * list payload)%type.

(** Rewriting, enough blocks available on the disk: one WRITE of [n]
    blocks at the place of the first block.  With [n = blks] this is the
    branch [blocksAvailable >= blks]; with [n = blocksAvailable] it is the
    head of the branch [blocksAvailable < blks]. *)
Definition write_disk_batch (tag bnum n : Z) (buf : list payload)
  : Body Result (list payload) :=
  cache_disk_blocks tag bnum n buf ;;
  e <- read_tag tag bnum ;;
  let operation :=
    create_raid_request RAID_WRITE n
      (tagline.disk e) (tagline.diskPosition e) in
  let* (response, buf) := client_raid_bus_request operation buf 0 in
  return_if_invalid response operation (1, buf) ;;
  ret buf.

(** The same for the backup disk: [cached] blocks go to the cache and [n]
    blocks are written.  In the branch [blocksAvailable2 >= blks] both are
    [blks]; in the branch [blocksAvailable2 < blks] the cache loop runs to
    [blocksAvailable] and the WRITE has [blocksAvailable2] blocks. *)
Definition write_backup_batch (tag bnum cached n : Z) (buf : list payload)
  : Body Result (list payload) :=
  cache_backup_blocks tag bnum cached buf ;;
  e <- read_tag tag bnum ;;
  let operation2 :=
    create_raid_request RAID_WRITE n
      (tagline.backupDisk e) (tagline.backupDiskPosition e) in
  let* (response2, buf) := client_raid_bus_request operation2 buf 0 in
  return_if_invalid response2 operation2 (1, buf) ;;
  ret buf.

(** Rewriting but not enough blocks: "write the rest one by one", for the
    disk. *)
Definition write_disk_rest (tag bnum blks blocksAvailable disk : Z)
    (buf : list payload) : Body Result (Z * list payload) :=
  let* (disk, _, buf) :=
    for_ (blks - blocksAvailable) (fun i '(disk, localBnum, buf) =>
      (* the backup disk and the regular disk must not be the same *)
      disk <-
        while (fun disk =>
                 cur <- read_tag tag localBnum ;;
                 first <- read_tag tag bnum ;;
                 ret ((tagline.backupDisk cur =? disk)
                      || (tagline.backupDisk first =? disk)))
              (fun disk =>
                 let* (disk, _) := chooseDisk (Some disk) None 1 in
                 deref disk)
              disk ;;
      cur <- read_tag tag localBnum ;;
      buf <-
        (if tagline.diskPosition cur =? -1 then
           (* a new block: write to the end of the disk *)
           d <- read_array disk ;;
           b <- buf_at buf (blocksAvailable + i) ;;
           call_put_raid_cache disk (disks.blocks d + 1) b ;;
           let operation :=
             create_raid_request RAID_WRITE 1 disk (disks.blocks d + 1) in
           let* (response, buf) :=
             client_raid_bus_request operation buf (blocksAvailable + i) in
           return_if_invalid response operation (1, buf) ;;
           write_tag tag localBnum (tagline.set_disk disk) ;;
           d <- read_array disk ;;
           write_array disk (disks.mk (disks.status d) (disks.blocks d + 1)) ;;
           d <- read_array disk ;;
           write_tag tag localBnum (tagline.set_diskPosition (disks.blocks d)) ;;
           c <- read_tagcounter tag ;;
           write_tagcounter tag (c + 1) ;;
           ret buf
         else
           (* an old block: overwrite *)
           b <- buf_at buf (blocksAvailable + i) ;;
           call_put_raid_cache
             (tagline.disk cur) (tagline.diskPosition cur) b ;;
           let operation :=
             create_raid_request RAID_WRITE 1
               (tagline.disk cur) (tagline.diskPosition cur) in
           let* (response, buf) :=
             client_raid_bus_request operation buf (blocksAvailable + i) in
           return_if_invalid response operation (1, buf) ;;
           ret buf) ;;
      ret (disk, localBnum + 1, buf))
      (disk, bnum + blocksAvailable, buf) in
  ret (disk, buf).

(** The same for the backup disk.  The block put in the cache is
    [buf[blocksAvailable + i]], the block written is
    [buf[blocksAvailable2 + i]]. *)
Definition write_backup_rest
    (tag bnum blks blocksAvailable blocksAvailable2 backupDisk : Z)
    (buf : list payload) : Body Result (Z * list payload) :=
  let* (backupDisk, _, buf) :=
    for_ (blks - blocksAvailable2) (fun i '(backupDisk, localBnum, buf) =>
      backupDisk <-
        while (fun backupDisk =>
                 cur <- read_tag tag localBnum ;;
                 first <- read_tag tag bnum ;;
                 ret ((tagline.disk cur =? backupDisk)
                      || (tagline.disk first =? backupDisk)))
              (fun backupDisk =>
                 let* (_, backupDisk) :=
                   chooseDisk None (Some backupDisk) 1 in
                 deref backupDisk)
              backupDisk ;;
      cur <- read_tag tag localBnum ;;
      buf <-
        (if tagline.backupDiskPosition cur =? -1 then
           d <- read_array backupDisk ;;
           b <- buf_at buf (blocksAvailable + i) ;;
           call_put_raid_cache backupDisk (disks.blocks d + 1) b ;;
           let operation2 :=
             create_raid_request RAID_WRITE 1 backupDisk (disks.blocks d + 1) in
           let* (response2, buf) :=
             client_raid_bus_request operation2 buf (blocksAvailable2 + i) in
           return_if_invalid response2 operation2 (1, buf) ;;
           write_tag tag localBnum (tagline.set_backupDisk backupDisk) ;;
           d <- read_array backupDisk ;;
           write_array backupDisk
             (disks.mk (disks.status d) (disks.blocks d + 1)) ;;
           d <- read_array backupDisk ;;
           write_tag tag localBnum
             (tagline.set_backupDiskPosition (disks.blocks d)) ;;
           ret buf
         else
           b <- buf_at buf (blocksAvailable + i) ;;
           call_put_raid_cache
             (tagline.backupDisk cur) (tagline.backupDiskPosition cur) b ;;
           let operation2 :=
             create_raid_request RAID_WRITE 1
               (tagline.backupDisk cur) (tagline.backupDiskPosition cur) in
           let* (response2, buf) :=
             client_raid_bus_request operation2 buf (blocksAvailable2 + i) in
           return_if_invalid response2 operation2 (1, buf) ;;
           ret buf) ;;
      ret (backupDisk, localBnum + 1, buf))
      (backupDisk, bnum + blocksAvailable2, buf) in
  ret (backupDisk, buf).

(** Not rewriting: the blocks continue to fill the two disks linearly. *)
Definition write_append (tag bnum blks disk backupDisk : Z)
    (buf : list payload) : Body Result (list payload) :=
  (* Write to cache *)
  for_ blks (fun i _ =>
    d <- read_array disk ;;
    b <- buf_at buf i ;;
    call_put_raid_cache disk (disks.blocks d + 1 + i) b ;;
    ret tt) tt ;;
  d <- read_array disk ;;
  let operation :=
    create_raid_request RAID_WRITE blks disk (disks.blocks d + 1) in
  let* (response, buf) := client_raid_bus_request operation buf 0 in
  return_if_invalid response operation (1, buf) ;;
  (* Same thing for backup disk *)
  for_ blks (fun i _ =>
    d <- read_array backupDisk ;;
    b <- buf_at buf i ;;
    call_put_raid_cache backupDisk (disks.blocks d + 1 + i) b ;;
    ret tt) tt ;;
  d <- read_array backupDisk ;;
  let operation2 :=
    create_raid_request RAID_WRITE blks backupDisk (disks.blocks d + 1) in
  let* (response2, buf) := client_raid_bus_request operation2 buf 0 in
  return_if_invalid response2 operation2 (1, buf) ;;
  (* Save information of current operation *)
  c <- read_tagcounter tag ;;
  write_tagcounter tag (c + blks) ;;
  for_ blks (fun _ localBnum =>
    write_tag tag localBnum (tagline.set_disk disk) ;;
    write_tag tag localBnum (tagline.set_backupDisk backupDisk) ;;
    d <- read_array disk ;;
    write_array disk (disks.mk (disks.status d) (disks.blocks d + 1)) ;;
    d <- read_array backupDisk ;;
    write_array backupDisk (disks.mk (disks.status d) (disks.blocks d + 1)) ;;
    d <- read_array disk ;;
    write_tag tag localBnum (tagline.set_diskPosition (disks.blocks d)) ;;
    d <- read_array backupDisk ;;
    write_tag tag localBnum
      (tagline.set_backupDiskPosition (disks.blocks d)) ;;
    ret (localBnum + 1)) bnum ;;
  ret buf.

(** The function returns its status; the caller's buffer, which the bus
    reads back into on every WRITE, is returned along with it. *)
Definition tagline_write (tag bnum blks : Z) (buf : list payload)
  : Body Result Result :=
  body (
    let blks := u8 blks in
    (* Check if tagline is going to be overwritten *)
    c <- read_tagcounter tag ;;
    let rewritting := bnum <? c in
    (* Choose two random disks *)
    r <- rand ;;
    let disk := Z.rem r RAID_DISKS in
    r <- rand ;;
    let backupDisk := Z.rem r RAID_DISKS in
    let* (disk, backupDisk) :=
      chooseDisk (Some disk) (Some backupDisk) blks in
    disk <- deref disk ;;
    backupDisk <- deref backupDisk ;;
    let* (blocksAvailable, blocksAvailable2) :=
      (if rewritting && negb (blks =? 1) then count_available tag bnum blks
       else ret (1, 1)) in
    buf <-
      (if rewritting then
         buf <- (if blks <=? blocksAvailable
                 then write_disk_batch tag bnum blks buf else ret buf) ;;
         buf <- (if blks <=? blocksAvailable2
                 then write_backup_batch tag bnum blks blks buf
                 else ret buf) ;;
         buf <- (if blocksAvailable <? blks then
                   buf <- write_disk_batch tag bnum blocksAvailable buf ;;
                   let* (_, buf) :=
                     write_disk_rest tag bnum blks blocksAvailable disk buf in
                   ret buf
                 else ret buf) ;;
         (if blocksAvailable2 <? blks then
            buf <- write_backup_batch tag bnum blocksAvailable
                     blocksAvailable2 buf ;;
            let* (_, buf) :=
              write_backup_rest tag bnum blks blocksAvailable
                blocksAvailable2 backupDisk buf in
            ret buf
          else ret buf)
       else ret buf) ;;
    buf <- (if negb rewritting
            then write_append tag bnum blks disk backupDisk buf
            else ret buf) ;;
    ret (0, buf)).

(** *** [tagline_close]

    [free(Globtag[i])] reads row [i] of the table; [free(Globtag)] and
    [free(tagcounter)] leave the two tables [NULL]. *)
Definition tagline_close : Body Z Z :=
  body (
    let operation := create_raid_request RAID_CLOSE 0 0 0 in
    let* (response, _) := client_raid_bus_request operation [] 0 in
    return_if_invalid response operation 1 ;;
    (* Clear the cache *)
    call_close_raid_cache ;;
    (* Free Memory *)
    n <- gets maxtaglines ;;
    for_ n (fun i _ => read_row i ;; ret tt) tt ;;
    modify (set_Globtag []) ;;
    modify (set_tagcounter []) ;;
    ret 0).

(** *** [raid_disk_recover]

    [tempbuf] is a buffer of one block, zeroed by [calloc]. *)
Definition raid_disk_recover (disk : Z) : Body Z Z :=
  body (
    let disk := u8 disk in
    let tempbuf := [zero_block] in
    (* Reformat the disk *)
    let operation := create_raid_request RAID_FORMAT 0 disk 0 in
    let* (response, _) := client_raid_bus_request operation [] 0 in
    return_if_invalid response operation 1 ;;
    (* Now scan for lost blocks *)
    n <- gets maxtaglines ;;
    for_ n (fun i locals =>
      c <- read_tagcounter i ;;
      for_ c (fun j '(operation, response, tempbuf) =>
        e <- read_tag i j ;;
        (* If the block was in the disk that failed *)
        let* (operation, response, tempbuf) :=
          (if tagline.disk e =? disk then
             tempbufcache <-
               call_get_raid_cache (tagline.disk e) (tagline.diskPosition e) ;;
             let* (operation, response, tempbuf) :=
               match tempbufcache with
               | Some p =>
                   b <- read_slot p ;;
                   tempbuf <- buf_store tempbuf 0 b ;;
                   ret (operation, response, tempbuf)
               | None =>
                   (* Read from backup *)
                   let operation :=
                     create_raid_request RAID_READ 1 (tagline.backupDisk e)
                       (tagline.backupDiskPosition e) in
                   let* (response, tempbuf) :=
                     client_raid_bus_request operation tempbuf 0 in
                   b <- buf_at tempbuf 0 ;;
                   call_put_raid_cache
                     (tagline.disk e) (tagline.diskPosition e) b ;;
                   ret (operation, response, tempbuf)
               end in
             return_if_invalid response operation 1 ;;
             (* Now copy back to the disk *)
             let operation :=
               create_raid_request RAID_WRITE 1
                 (tagline.disk e) (tagline.diskPosition e) in
             let* (response, tempbuf) :=
               client_raid_bus_request operation tempbuf 0 in
             return_if_invalid response operation 1 ;;
             ret (operation, response, tempbuf)
           else ret (operation, response, tempbuf)) in
        e <- read_tag i j ;;
        if tagline.backupDisk e =? disk then
          (* Read from the other disk *)
          let operation :=
            create_raid_request RAID_READ 1
              (tagline.disk e) (tagline.diskPosition e) in
          let* (response, tempbuf) :=
            client_raid_bus_request operation tempbuf 0 in
          return_if_invalid response operation 1 ;;
          (* Now copy back to the disk *)
          let operation :=
            create_raid_request RAID_WRITE 1
              (tagline.backupDisk e) (tagline.backupDiskPosition e) in
          let* (response, tempbuf) :=
            client_raid_bus_request operation tempbuf 0 in
          return_if_invalid response operation 1 ;;
          ret (operation, response, tempbuf)
        else ret (operation, response, tempbuf)) locals)
      (operation, response, tempbuf) ;;
    (* Disk Recovered! *)
    d <- read_array disk ;;
    write_array disk (disks.mk RAID_DISK_READY (disks.blocks d)) ;;
    ret 0).

(** *** [raid_disk_signal]

    The result of [raid_disk_recover] is not looked at.  [disk] is a
    [uint8_t]: the model is the C loop for [RAID_DISKS <= 255], which is
    the range the statements that the poll returns are made for.  From 256
    disks on, [disk < RAID_DISKS] holds for every [uint8_t] and the C loop
    ends with [return (1)] only, where the model stops after [RAID_DISKS]
    turns. *)
Definition raid_disk_signal : Body Z Z :=
  body (
    for_ RAID_DISKS (fun disk _ =>
      let operation := create_raid_request RAID_STATUS 0 disk 0 in
      (* Check Status *)
      let* (response, _) := client_raid_bus_request operation [] 0 in
      return_if_invalid response operation 1 ;;
      (* Now fix the disk that failed *)
      g <- gets GlobResponse ;;
      if RAIDresponse.id g =? RAID_DISK_FAILED then
        d <- read_array disk ;;
        write_array disk (disks.mk RAID_DISK_FAILED (disks.blocks d)) ;;
        call (raid_disk_recover disk) ;;
        ret tt
      else ret tt) tt ;;
    ret 0).

End Driver.


(** The state of the driver when the program starts: [array] is the only
    table that exists, with every disk uninitialised. *)
Definition boot_state `{raid_bus_h} {Srv : Type} (rand_stream : list nat)
    (raid : Srv) : State Srv :=
  mkState 1 []
    (replicate (Z.to_nat RAID_DISKS) (disks.mk RAID_DISK_UNINITIALIZED 0))
    [] RAIDresponse.zero raid_cache.boot rand_stream raid.


(** ** A storage array

    Modelled from the spec: the storage array behind
    [client_raid_bus_request], an external collaborator that "executes
    INIT/FORMAT/READ/WRITE/STATUS operations and returns a status".  It keeps
    the blocks it is given, answers a request by echoing its opcode (a STATUS
    request: with the state of the disk in the identifier), and can be told
    to fail chosen requests, which it then answers with the status bit set
    and does not carry out.  It also records the requests it receives. *)
Record FakeArray : Type := mkFakeArray
  { stored : Z -> Z -> payload;     (* disk, position: content *)
    failed : list Z;                (* the disks that report a failure *)
    faults : list bool;             (* per request to come: does it fail? *)
    requests : list RAIDOpCode }.   (* the requests received, latest first *)

(** An empty array with healthy disks that fails the requests marked in
    [faults]. *)
Definition fresh_array (failed : list Z) (faults : list bool) : FakeArray :=
  mkFakeArray (fun _ _ => None) failed faults [].

Definition store_blocks (stored : Z -> Z -> payload) (d i : Z)
    (sent : list payload) : Z -> Z -> payload :=
  fun d' p =>
    if (d' =? d) && (i <=? p) && (p <? i + Z.of_nat (length sent))
    then default (None : payload) (sent !! Z.to_nat (p - i))
    else stored d' p.

Definition fake_serve `{raid_bus_h} (a : FakeArray) (op : RAIDOpCode)
    (sent : list payload) : FakeArray * (RAIDOpCode * list payload) :=
  let log := op :: requests a in
  match faults a with
  | true :: rest =>
      (mkFakeArray (stored a) (failed a) rest log,
       (Z.lor op (Z.shiftl 1 32), sent))
  | _ =>
      let rest := tail (faults a) in
      let d := op_disk op in
      let i := op_id op in
      if op_type op =? RAID_WRITE then
        (mkFakeArray (store_blocks (stored a) d i sent) (failed a) rest log,
         (op, sent))
      else if op_type op =? RAID_READ then
        (mkFakeArray (stored a) (failed a) rest log,
         (op, map (fun k => stored a d (i + Z.of_nat k))
                  (seq 0 (Z.to_nat (op_blocks op)))))
      else if op_type op =? RAID_STATUS then
        let health :=
          if existsb (Z.eqb d) (failed a) then RAID_DISK_FAILED
          else RAID_DISK_READY in
        (mkFakeArray (stored a) (failed a) rest log,
         (Z.lor (Z.shiftl (Z.shiftr op 32) 32) (u32 health), []))
      else if op_type op =? RAID_FORMAT then
        (mkFakeArray
           (fun d' p => if d' =? d then None else stored a d' p)
           (filter (fun x => x ≠ d) (failed a)) rest log,
         (op, []))
      else
        (mkFakeArray (stored a) (failed a) rest log, (op, []))
  end.

(** Short blocks for the examples. *)
Definition blk (n : nat) : payload :=
  Some [default Byte.x00 (Byte.of_N (N.of_nat n))].


(** ** Vocabulary of the properties *)

(** *** The cache *)

(** The key under which a slot is found. *)
Definition slot_key (e : cache.t) : Z * Z := (cache.disk e, cache.block e).

(** The key of a slot no block was ever put in: what [init_raid_cache]
    stores, which is also what the [-1] of an unassigned mapping becomes. *)
Definition unused_key : Z * Z := (RAIDDiskID (-1), RAIDBlockID (-1)).

(** The shape every cache has that [init_raid_cache] made from the boot
    globals and [put_raid_cache] and [get_raid_cache] then worked on: the
    first [objectCount] slots were filled by a put and have distinct keys,
    the others are as [init_raid_cache] left them. *)
Record cache_wf (c : raid_cache.t) : Prop := mk_cache_wf
  { wf_count :
      0 <= raid_cache.objectCount c <= raid_cache.glob_max_items c;
    wf_length :
      length (raid_cache.cacheArray c)
      = Z.to_nat (raid_cache.glob_max_items c);
    wf_range : forall j e,
      raid_cache.cacheArray c !! j = Some e ->
      byte_range (cache.disk e) /\ word_range (cache.block e);
    wf_unused : forall j e,
      raid_cache.cacheArray c !! j = Some e ->
      (Z.to_nat (raid_cache.objectCount c) <= j)%nat ->
      slot_key e = unused_key /\ cache.data e = None;
    wf_distinct : forall j1 j2 e1 e2,
      raid_cache.cacheArray c !! j1 = Some e1 ->
      raid_cache.cacheArray c !! j2 = Some e2 ->
      (j1 < Z.to_nat (raid_cache.objectCount c))%nat ->
      (j2 < Z.to_nat (raid_cache.objectCount c))%nat ->
      slot_key e1 = slot_key e2 -> j1 = j2 }.

(** No slot of the cache carries the key. *)
Definition absent (c : raid_cache.t) (k : Z * Z) : Prop :=
  forall j e, raid_cache.cacheArray c !! j = Some e -> slot_key e <> k.

(** Every slot that carries the key holds the data. *)
Definition caches (c : raid_cache.t) (k : Z * Z) (d : payload) : Prop :=
  forall j e, raid_cache.cacheArray c !! j = Some e ->
    slot_key e = k -> cache.data e = d.

(** Slot [j] holds the oldest entry: its timestamp is the smallest of all,
    and it is the first slot with that timestamp. *)
Definition oldest_slot (c : raid_cache.t) (j : nat) (victim : cache.t)
  : Prop :=
  raid_cache.cacheArray c !! j = Some victim
  /\ (forall k e, raid_cache.cacheArray c !! k = Some e ->
        cache.timestamp victim <= cache.timestamp e)
  /\ (forall k e, raid_cache.cacheArray c !! k = Some e -> (k < j)%nat ->
        cache.timestamp victim < cache.timestamp e).

(** A lookup of the key of an unassigned mapping is answered with a pointer
    into a slot that no put has filled. *)
Definition hits_unused_slot (c : raid_cache.t) : Prop :=
  exists p c', get_raid_cache (-1) (-1) c = Some (Some p, c')
    /\ (Z.to_nat (raid_cache.objectCount c) <= p)%nat
    /\ slot_data c' p = Some None.

(** A slot that differs from another one in its timestamp at most. *)
Definition same_entry (e e' : cache.t) : Prop :=
  slot_key e' = slot_key e /\ cache.data e' = cache.data e.

(** A sequence of puts. *)
Fixpoint fill (puts : list (Z * Z * payload)) (c : raid_cache.t)
  : option raid_cache.t :=
  match puts with
  | [] => Some c
  | (dsk, blk, buf) :: rest =>
      match put_raid_cache dsk blk buf c with
      | Some (_, c') => fill rest c'
      | None => None
      end
  end.

(** A fresh cache of two slots. *)
Definition two_slots : raid_cache.t :=
  snd (init_raid_cache 2 (fun _ => 0) raid_cache.boot).

(** A cache of two slots after one put under the key of an unassigned
    mapping, as [tagline_write] issues it when it rewrites a block that has
    no backup yet. *)
Definition cache_after_unassigned_put : raid_cache.t :=
  default raid_cache.boot (fill [(-1, -1, blk 7)] two_slots).

(** A cache of two slots, both filled. *)
Definition full_cache : raid_cache.t :=
  default raid_cache.boot (fill [(0, 0, blk 1); (0, 1, blk 2)] two_slots).

(** *** Running a piece of a function body *)

(** [wpx U m Q E s]: the run of [m] from [s] ends in a state satisfying [Q]
    (with its value) or leaves the function early in a state satisfying [E];
    [U] says whether a run that has no result is acceptable. *)
Definition wpx {S R A} (U : Prop) (m : M S R A)
    (Q : A -> S -> Prop) (E : R -> S -> Prop) (s : S) : Prop :=
  match m s with
  | Val a s' => Q a s'
  | Early r s' => E r s'
  | Undef => U
  | NoRand => U
  end.

(** The run keeps a part [proj] of the state as it is. *)
Definition keeps {S R A X} (proj : S -> X) (m : M S R A) : Prop :=
  forall s, wpx True m (fun _ s' => proj s' = proj s)
              (fun _ s' => proj s' = proj s) s.

(** A part of the state that does not include the cache, the array, the
    last response or the random stream: the driver's own tables, or a part
    of them. *)
Definition table_part {Srv X} (proj : State Srv -> X) : Prop :=
  (forall v s, proj (set_cache_globals v s) = proj s)
  /\ (forall v s, proj (set_raid v s) = proj s)
  /\ (forall v s, proj (set_GlobResponse v s) = proj s)
  /\ (forall v s, proj (set_rand_stream v s) = proj s).

(** *** The mapping *)

(** [Globtag[tag][k]], when it exists. *)
Definition entry (g : list (list tagline.t)) (tag k : Z) : option tagline.t :=
  match idx g tag with
  | Some row => idx row k
  | None => None
  end.

(** A block whose mapping has been assigned, on either side, has its two
    copies on different disks. *)
Definition distinct_copies (e : tagline.t) : Prop :=
  tagline.disk e <> -1 \/ tagline.backupDisk e <> -1 ->
  tagline.disk e <> tagline.backupDisk e.

Definition mirror_integrity_of (g : list (list tagline.t)) : Prop :=
  forall (tag k : nat) row e,
    g !! tag = Some row -> row !! k = Some e -> distinct_copies e.

Definition mirror_integrity {Srv} (s : State Srv) : Prop :=
  mirror_integrity_of (Globtag s).

(** The same, but for one block, of which [P] holds instead. *)
Definition integrity_but (tag k : Z) (P : tagline.t -> Prop)
    (g : list (list tagline.t)) : Prop :=
  (forall (tag' k' : nat) row e,
     g !! tag' = Some row -> row !! k' = Some e ->
     (Z.of_nat tag', Z.of_nat k') <> (tag, k) -> distinct_copies e)
  /\ (forall e, entry g tag k = Some e -> P e).

(** One operation of the driver, run to its end. *)
Inductive driver_step `{raid_bus_h} {Srv : Type}
    (serve : Srv -> RAIDOpCode -> list payload
             -> Srv * (RAIDOpCode * list payload))
  : State Srv -> State Srv -> Prop :=
| step_init maxlines heap s r s' :
    tagline_driver_init serve maxlines heap s = Val r s' ->
    driver_step serve s s'
| step_read tag bnum blks buf s r s' :
    tagline_read serve tag bnum blks buf s = Val r s' ->
    driver_step serve s s'
| step_write tag bnum blks buf s r s' :
    tagline_write serve tag bnum blks buf s = Val r s' ->
    driver_step serve s s'
| step_signal s r s' :
    raid_disk_signal serve s = Val r s' ->
    driver_step serve s s'
| step_close s r s' :
    tagline_close serve s = Val r s' ->
    driver_step serve s s'.

(** The states the driver can be in: the state at program start, and the
    states that operations lead to from there. *)
Inductive reachable `{raid_bus_h} {Srv : Type}
    (serve : Srv -> RAIDOpCode -> list payload
             -> Srv * (RAIDOpCode * list payload))
  : State Srv -> Prop :=
| reach_boot rand_stream raid :
    reachable serve (boot_state rand_stream raid)
| reach_step s s' :
    reachable serve s -> driver_step serve s s' -> reachable serve s'.

(** The state a run ends in, and whether it ran to its end. *)
Definition end_state {S R A} (m : M S R A) (s : S) : S :=
  match m s with Val _ s' => s' | Early _ s' => s' | _ => s end.

Definition returns {S R A} (m : M S R A) (s : S) : bool :=
  match m s with Val _ _ => true | _ => false end.

Definition value_of {S R A} (m : M S R A) (s : S) : option A :=
  match m s with Val a _ => Some a | _ => None end.

(** *** Worked examples, on the small configuration and the array above *)

Definition small_serve := fake_serve (H := small_config).

(** Program start, with an array that has no failed disk and fails no
    request. *)
Definition example_boot : State FakeArray :=
  boot_state (H := small_config)
    [0; 1; 2; 0; 1; 2; 0; 1; 0; 1; 0; 1; 2; 2; 1; 0]%nat (fresh_array [] []).

(** After [tagline_driver_init(2)]. *)
Definition example_ready : State FakeArray :=
  end_state (tagline_driver_init (H := small_config) small_serve 2
               (fun _ => 0)) example_boot.

(** After writing three blocks at the start of tagline 0. *)
Definition example_written : State FakeArray :=
  end_state (tagline_write (H := small_config) small_serve 0 0 3
               [blk 1; blk 2; blk 3]) example_ready.

(** *** Recovery *)

(** The allocation cursors of the disks. *)
Definition cursors {Srv} (s : State Srv) : list Z :=
  map disks.blocks (array s).

(** The cursor of the disk is back at its value for an empty disk. *)
Definition cursor_reset {Srv} (s : State Srv) (disk : Z) : Prop :=
  idx (cursors s) disk = Some (-1).

(** The array loses disk [disk]: it reports it failed from now on. *)
Definition disk_fails (disk : Z) (s : State FakeArray) : State FakeArray :=
  set_raid
    (mkFakeArray (stored (raid s)) (disk :: failed (raid s))
       (faults (raid s)) (requests (raid s))) s.

(** The three blocks are written and disk 0, which holds their primary
    copies, fails. *)
Definition example_failed : State FakeArray := disk_fails 0 example_written.

(** The requests the array has received, oldest first, as (type, block
    count, disk, identifier). *)
Definition request_log (s : State FakeArray) : list (Z * Z * Z * Z) :=
  map (fun op => (op_type op, op_blocks op, op_disk op, op_id op))
      (rev (requests (raid s))).

(** The array is told which of the coming requests to fail. *)
Definition with_faults (fs : list bool) (s : State FakeArray)
  : State FakeArray :=
  set_raid
    (mkFakeArray (stored (raid s)) (failed (raid s)) fs (requests (raid s))) s.

(** The requests received during a run. *)
Definition requests_during {R A} (m : M (State FakeArray) R A)
    (s : State FakeArray) : list (Z * Z * Z * Z) :=
  drop (length (request_log s)) (request_log (end_state m s)).

(** *** Round trip *)

(** What the round trip needs of the constants: disk numbers fit the byte
    the opcode gives them, and READ and WRITE are two request types that
    fit the type byte. *)
Definition config_ok `{raid_bus_h} : Prop :=
  0 < RAID_DISKS <= 256
  /\ byte_range RAID_READ /\ byte_range RAID_WRITE
  /\ RAID_READ <> RAID_WRITE.

(** The allocation cursors leave room for [n] more blocks within the
    range of an [int]. *)
Definition room_for {Srv} (n : Z) (s : State Srv) : Prop :=
  forall (d : nat) e, array s !! d = Some e ->
    -1 <= disks.blocks e /\ disks.blocks e + 1 + n < 2 ^ 31.

(** What an append of the blocks [data] at [bnum] leaves behind: the blocks
    are mapped to consecutive positions from [pos] on one disk, the array
    stores them there, and whatever the cache holds for those positions is
    the data. *)
Record appended `{raid_bus_h} (tag bnum : Z) (data : list payload)
    (disk pos : Z) (s : State FakeArray) : Prop := mk_appended
  { ap_disk : byte_range disk;
    ap_pos : 0 <= pos /\ pos + Z.of_nat (length data) < 2 ^ 31;
    ap_mapping : forall (i : nat), (i < length data)%nat ->
      exists e, entry (Globtag s) tag (bnum + Z.of_nat i) = Some e
        /\ tagline.disk e = disk
        /\ tagline.diskPosition e = pos + Z.of_nat i;
    ap_cache_wf : cache_wf (cache_globals s);
    ap_cache_size : (0 < length data)%nat ->
      0 < raid_cache.glob_max_items (cache_globals s);
    ap_cached : forall (i : nat) p, data !! i = Some p ->
      caches (cache_globals s) (disk, pos + Z.of_nat i) p;
    ap_faults : faults (raid s) = [];
    ap_stored : forall (i : nat) p, data !! i = Some p ->
      stored (raid s) disk (pos + Z.of_nat i) = p }.

(** The loop invariant of [tagline_read] on an appended range: the cache
    and the array still agree with the data, the last response is valid,
    and the first [i] blocks of the buffer are the data. *)
Definition reading `{raid_bus_h} (data : list payload) (disk pos : Z)
    (s0 : State FakeArray) (i : Z)
    (locals : RAIDOpCode * RAIDOpCode * list payload)
    (s : State FakeArray) : Prop :=
  let '(operation, response, buf) := locals in
  Globtag s = Globtag s0
  /\ cache_wf (cache_globals s)
  /\ raid_cache.glob_max_items (cache_globals s)
     = raid_cache.glob_max_items (cache_globals s0)
  /\ (forall (j : nat) p, data !! j = Some p ->
        caches (cache_globals s) (disk, pos + Z.of_nat j) p)
  /\ faults (raid s) = []
  /\ stored (raid s) = stored (raid s0)
  /\ verdict response operation = 0
  /\ length buf = length data
  /\ (forall j : nat, Z.of_nat j < i -> buf !! j = data !! j).

(** The state without the random stream and the last response. *)
Definition core {Srv} (s : State Srv)
  : Z * list Z * list disks.t * list (list tagline.t) * raid_cache.t * Srv :=
  (maxtaglines s, tagcounter s, array s, Globtag s, cache_globals s, raid s).


(** ** Vocabulary of the further properties *)

(** *** The cache as its callers see it *)

(** What a lookup of the key gives: [None] when it reads outside
    [cacheArray], [Some None] for a miss, [Some (Some d)] for a hit on a
    slot whose buffer holds [d]. *)
Definition found (dsk blk : Z) (c : raid_cache.t) : option (option payload) :=
  match get_raid_cache dsk blk c with
  | None => None
  | Some (None, _) => Some None
  | Some (Some p, c') => Some <$> slot_data c' p
  end.

(** The cache holds the block: a slot that a put has filled (one of the
    first [objectCount]) carries the key and holds the data. *)
Definition holds_block (c : raid_cache.t) (k : Z * Z) (d : payload) : Prop :=
  exists p e,
    (p < Z.to_nat (raid_cache.objectCount c))%nat
    /\ raid_cache.cacheArray c !! p = Some e
    /\ slot_key e = k /\ cache.data e = d.

(** A call into the cache. *)
Inductive cache_op : Type :=
| cache_put (dsk blk : Z) (buf : payload)
| cache_get (dsk blk : Z).

Definition run_cache_op (o : cache_op) (c : raid_cache.t)
  : option raid_cache.t :=
  match o with
  | cache_put dsk blk buf => snd <$> put_raid_cache dsk blk buf c
  | cache_get dsk blk => snd <$> get_raid_cache dsk blk c
  end.

(** A sequence of calls; [None] when one of them reads or writes outside
    [cacheArray]. *)
Fixpoint run_cache_ops (os : list cache_op) (c : raid_cache.t)
  : option raid_cache.t :=
  match os with
  | [] => Some c
  | o :: rest =>
      match run_cache_op o c with
      | Some c' => run_cache_ops rest c'
      | None => None
      end
  end.

(** A cache of two slots with one block. *)
Definition cache_after_one_put : raid_cache.t :=
  default raid_cache.boot (fill [(0, 0, blk 1)] two_slots).

Definition is_put (o : cache_op) : bool :=
  match o with cache_put _ _ _ => true | cache_get _ _ => false end.

(** The clock has not wrapped around and will not at the next two calls,
    and no slot carries a timestamp from the future. *)
Definition stamped (c : raid_cache.t) : Prop :=
  0 <= raid_cache.timea c /\ raid_cache.timea c + 2 < 2 ^ 64
  /\ forall j e, raid_cache.cacheArray c !! j = Some e ->
       cache.timestamp e <= raid_cache.timea c.

(** *** The driver as its callers see it *)

(** A run of [m] that ends with a value ends with one that satisfies [PV],
    and one that returns early returns a value that satisfies [PE]. *)
Definition ends {S R A} (PV : A -> Prop) (PE : R -> Prop) (m : M S R A)
  : Prop :=
  forall s, wpx True m (fun a _ => PV a) (fun r _ => PE r) s.

(** The two values that the operations of the driver return. *)
Definition status_code (r : Z) : Prop := r = 0 \/ r = 1.

(** The tables of the driver: the number of taglines, the block count of
    each tagline, the disk records and the mapping. *)
Definition tables {Srv} (s : State Srv)
  : Z * list Z * list disks.t * list (list tagline.t) :=
  (maxtaglines s, tagcounter s, array s, Globtag s).

(** A call of an operation of the driver from state [s] returns the status
    [r] in state [s']. *)
Inductive driver_returns `{raid_bus_h} {Srv : Type}
    (serve : Srv -> RAIDOpCode -> list payload
             -> Srv * (RAIDOpCode * list payload))
  : State Srv -> Z -> State Srv -> Prop :=
| returns_init maxlines heap s r s' :
    tagline_driver_init serve maxlines heap s = Val r s' ->
    driver_returns serve s r s'
| returns_read tag bnum blks buf s r buf' s' :
    tagline_read serve tag bnum blks buf s = Val (r, buf') s' ->
    driver_returns serve s r s'
| returns_write tag bnum blks buf s r buf' s' :
    tagline_write serve tag bnum blks buf s = Val (r, buf') s' ->
    driver_returns serve s r s'
| returns_close s r s' :
    tagline_close serve s = Val r s' ->
    driver_returns serve s r s'
| returns_recover disk s r s' :
    raid_disk_recover serve disk s = Val r s' ->
    driver_returns serve s r s'
| returns_signal s r s' :
    raid_disk_signal serve s = Val r s' ->
    driver_returns serve s r s'.

(** What recovery must not disturb: the tables, with the status of the
    disks left out. *)
Definition layout {Srv} (s : State Srv)
  : Z * list Z * list Z * list (list tagline.t) :=
  (maxtaglines s, tagcounter s, cursors s, Globtag s).

(** The number of blocks that go over the bus with a request. *)
Definition blocks_sent (op : RAIDOpCode) : Z := shr64 (shl64 op 8) 56.

(** The request carries blocks: it is a READ or a WRITE. *)
Definition carries_blocks `{raid_bus_h} (op : RAIDOpCode) : bool :=
  (u8 (shr64 op 56) =? RAID_READ) || (u8 (shr64 op 56) =? RAID_WRITE).

(** A part of the state that a request over the bus and the check of its
    response leave alone: one that includes neither the storage array nor
    the last response. *)
Definition bus_part {Srv X} (proj : State Srv -> X) : Prop :=
  (forall v s, proj (set_raid v s) = proj s)
  /\ (forall v s, proj (set_GlobResponse v s) = proj s).

(** All of the state that belongs to the driver and its cache. *)
Definition own {Srv} (s : State Srv)
  : Z * list Z * list disks.t * list (list tagline.t) * raid_cache.t :=
  (maxtaglines s, tagcounter s, array s, Globtag s, cache_globals s).

(** The disk records while [tagline_driver_init] formats the disks one
    after the other: the disks before [i] are ready and empty, the others
    are as they are when the program starts. *)
Definition formatted `{raid_bus_h} (i : Z) (arr : list disks.t) : Prop :=
  length arr = Z.to_nat RAID_DISKS
  /\ forall (k : nat) d, arr !! k = Some d ->
       d = if Z.of_nat k <? i then disks.mk RAID_DISK_READY (-1)
           else disks.mk RAID_DISK_UNINITIALIZED 0.

(** What [tagline_driver_init] sets up when it succeeds. *)
Definition initialised `{raid_bus_h} {Srv} (maxlines : Z) (heap : nat -> Z)
    (s : State Srv) : Prop :=
  maxtaglines s = u32 maxlines
  /\ tagcounter s = replicate (Z.to_nat (u32 maxlines)) 0
  /\ Globtag s
     = replicate (Z.to_nat (u32 maxlines))
         (replicate (Z.to_nat MAX_TAGLINE_BLOCK_NUMBER) tagline.unassigned)
  /\ cache_globals s
     = snd (init_raid_cache TAGLINE_CACHE_SIZE heap raid_cache.boot)
  /\ array s
     = replicate (Z.to_nat RAID_DISKS) (disks.mk RAID_DISK_READY (-1)).

(** The disk records after [n] blocks were allocated on each of two disks:
    the two cursors have advanced by [n]. *)
Definition advance (arr : list disks.t) (disk backupDisk : Z) (d b : disks.t)
    (n : Z) : list disks.t :=
  upd (upd arr disk (disks.mk (disks.status d) (disks.blocks d + n)))
    backupDisk (disks.mk (disks.status b) (disks.blocks b + n)).

(** What an append of [n] blocks at [bnum] to a tagline of [c] blocks does
    to the tables, from [s] to [s']: the tagline has [n] blocks more; the
    blocks are mapped to the [n] positions that follow the cursor of [disk]
    and, for the backup, to those that follow the cursor of [backupDisk];
    both cursors have advanced by [n]; nothing else has changed. *)
Definition allocated {Srv} (tag bnum n c disk backupDisk : Z)
    (s s' : State Srv) : Prop :=
  exists d b,
    idx (array s) disk = Some d
    /\ idx (array s) backupDisk = Some b
    /\ maxtaglines s' = maxtaglines s
    /\ tagcounter s' = upd (tagcounter s) tag (c + n)
    /\ array s' = advance (array s) disk backupDisk d b n
    /\ (forall i, 0 <= i < n ->
          entry (Globtag s') tag (bnum + i)
          = Some (tagline.mk disk (disks.blocks d + 1 + i)
                    backupDisk (disks.blocks b + 1 + i)))
    /\ (forall t k, ~ (t = tag /\ bnum <= k < bnum + n) ->
          entry (Globtag s') t k = entry (Globtag s) t k).

(** The small configuration with a single disk. *)
Definition one_disk_config : raid_bus_h := {|
  RAID_DISKS := 1;
  RAID_DISKBLOCKS := 16;
  RAID_TRACK_BLOCKS := 4;
  RAID_BLOCK_SIZE := 2;
  MAX_TAGLINE_BLOCK_NUMBER := 8;
  TAGLINE_CACHE_SIZE := 2;
  RAID_INIT := 0;
  RAID_FORMAT := 1;
  RAID_READ := 2;
  RAID_WRITE := 3;
  RAID_STATUS := 4;
  RAID_CLOSE := 5;
  RAID_DISK_UNINITIALIZED := 0;
  RAID_DISK_READY := 1;
  RAID_DISK_FAILED := 2
|}.

(** The driver on one disk, after [tagline_driver_init(2)]. *)
Definition one_disk_ready : State FakeArray :=
  end_state (tagline_driver_init (H := one_disk_config)
               (fake_serve (H := one_disk_config)) 2 (fun _ => 0))
    (boot_state (H := one_disk_config) [0; 5; 3; 8; 1; 4]%nat
       (fresh_array [] [])).

(** The [n] blocks of the tagline from [bnum] on that are mapped at all
    have a position on a disk and a position on a backup disk. *)
Definition assigned_range {Srv} (tag bnum n : Z) (s : State Srv) : Prop :=
  forall i e, 0 <= i < n ->
    entry (Globtag s) tag (bnum + i) = Some e ->
    tagline.diskPosition e <> -1 /\ tagline.backupDiskPosition e <> -1.

(** *** Recovery of the data *)

(** Block [j] of tagline [i] is one of the blocks that recovery scans: the
    tagline exists, the block is below the block count of the tagline, and
    [e] is its mapping. *)
Definition in_range {Srv} (s : State Srv) (i j : Z) (e : tagline.t) : Prop :=
  0 <= i < maxtaglines s
  /\ (exists c, idx (tagcounter s) i = Some c /\ 0 <= j < c)
  /\ entry (Globtag s) i j = Some e.

(** The two copies of the block are on two disks of the array, at
    positions that fit an [int]. *)
Definition well_placed (e : tagline.t) : Prop :=
  byte_range (tagline.disk e) /\ byte_range (tagline.backupDisk e)
  /\ 0 <= tagline.diskPosition e < 2 ^ 31
  /\ 0 <= tagline.backupDiskPosition e < 2 ^ 31
  /\ tagline.disk e <> tagline.backupDisk e.

(** Where the block has a copy on disk [d], if it has one. *)
Definition place_on (d : Z) (e : tagline.t) : option Z :=
  if tagline.disk e =? d then Some (tagline.diskPosition e)
  else if tagline.backupDisk e =? d then Some (tagline.backupDiskPosition e)
  else None.

(** The state before the recovery of disk [d], with [D i j] the content of
    block [j] of tagline [i]: the blocks with a copy on [d] are well placed
    and no two of them share a position on [d]; the copy that is not on [d]
    holds the content; and what the cache holds for a block whose first copy
    is on [d] is its content. *)
Definition mirrored (d : Z) (D : Z -> Z -> payload) (s : State FakeArray)
  : Prop :=
  (forall i j e p, in_range s i j e -> place_on d e = Some p ->
     well_placed e)
  /\ (forall i j e i' j' e' p,
        in_range s i j e -> in_range s i' j' e' ->
        place_on d e = Some p -> place_on d e' = Some p ->
        i = i' /\ j = j')
  /\ (forall i j e, in_range s i j e -> tagline.disk e = d ->
        stored (raid s) (tagline.backupDisk e) (tagline.backupDiskPosition e)
        = D i j
        /\ caches (cache_globals s) (d, tagline.diskPosition e) (D i j))
  /\ (forall i j e, in_range s i j e -> tagline.backupDisk e = d ->
        stored (raid s) (tagline.disk e) (tagline.diskPosition e) = D i j).

(** Disk [d] holds the content of every block that has a copy on it. *)
Definition restored (d : Z) (D : Z -> Z -> payload)
    (s s' : State FakeArray) : Prop :=
  forall i j e p, in_range s i j e -> place_on d e = Some p ->
    stored (raid s') d p = D i j.

(** What recovery needs of the constants, beyond [config_ok]: the FORMAT
    opcode is one byte and is no other request of the array. *)
Definition format_ok `{raid_bus_h} : Prop :=
  byte_range RAID_FORMAT /\ RAID_FORMAT <> RAID_WRITE
  /\ RAID_FORMAT <> RAID_READ /\ RAID_FORMAT <> RAID_STATUS.

(** The invariant of the loops of [raid_disk_recover] when they are at
    block [j] of tagline [i]. *)
Definition recovering `{raid_bus_h} (d : Z) (D : Z -> Z -> payload)
    (s0 : State FakeArray) (i j : Z)
    (locals : RAIDOpCode * RAIDOpCode * list payload)
    (s : State FakeArray) : Prop :=
  let '(operation, response, tempbuf) := locals in
  tables s = tables s0
  /\ cache_wf (cache_globals s)
  /\ faults (raid s) = []
  /\ (forall d' p, d' <> d -> stored (raid s) d' p = stored (raid s0) d' p)
  /\ (forall i' j' e, in_range s0 i' j' e -> tagline.disk e = d ->
        caches (cache_globals s) (d, tagline.diskPosition e) (D i' j'))
  /\ (forall i' j' e p, in_range s0 i' j' e -> place_on d e = Some p ->
        i' < i \/ (i' = i /\ j' < j) ->
        stored (raid s) d p = D i' j')
  /\ verdict response operation = 0
  /\ length tempbuf = 1%nat.

(** The content of the blocks of the example: block [j] of tagline 0 was
    written as [blk (j + 1)]. *)
Definition example_content (i j : Z) : payload := blk (Z.to_nat j + 1).

(** *** Reading *)

(** The cache agrees with the array: a slot that holds a block holds what
    the array stores at the key of the slot. *)
Definition coherent (s : State FakeArray) : Prop :=
  forall k e, raid_cache.cacheArray (cache_globals s) !! k = Some e ->
    slot_key e <> unused_key ->
    cache.data e = stored (raid s) (cache.disk e) (cache.block e).

(** The first copy of each of the [n] blocks from [bnum] on is on a disk
    of the array, at a position that fits an [int]. *)
Definition readable {Srv} (tag bnum n : Z) (s : State Srv) : Prop :=
  forall i e, 0 <= i < n ->
    entry (Globtag s) tag (bnum + i) = Some e ->
    byte_range (tagline.disk e) /\ 0 <= tagline.diskPosition e < 2 ^ 31.

(** The first [n] blocks of the buffer are what the array stores for the
    first copy of the blocks from [bnum] on. *)
Definition read_back (tag bnum n : Z) (s : State FakeArray)
    (buf : list payload) : Prop :=
  forall i e, 0 <= i < n ->
    entry (Globtag s) tag (bnum + i) = Some e ->
    idx buf i
    = Some (stored (raid s) (tagline.disk e) (tagline.diskPosition e)).

(** The invariant of the loop of [tagline_read] on any mapping. *)
Definition reading_stored `{raid_bus_h} (tag bnum : Z) (buf0 : list payload)
    (s0 : State FakeArray) (i : Z)
    (locals : RAIDOpCode * RAIDOpCode * list payload)
    (s : State FakeArray) : Prop :=
  let '(operation, response, buf) := locals in
  tables s = tables s0
  /\ cache_wf (cache_globals s)
  /\ faults (raid s) = []
  /\ stored (raid s) = stored (raid s0)
  /\ coherent s
  /\ verdict response operation = 0
  /\ length buf = length buf0
  /\ read_back tag bnum i s0 buf.

(** *** Polling a healthy array *)

(** What [raid_disk_signal] needs of the constants: the STATUS opcode is
    one byte and is no transfer, the identifier of a ready disk is not read
    as the one of a failed disk, and the [uint8_t] that counts the disks
    reaches [RAID_DISKS], which it does up to 255. *)
Definition status_ok `{raid_bus_h} : Prop :=
  byte_range RAID_STATUS /\ RAID_STATUS <> RAID_WRITE
  /\ RAID_STATUS <> RAID_READ /\ u32 RAID_DISK_READY <> RAID_DISK_FAILED
  /\ RAID_DISKS <= 255.

(** An array with no failed disk that fails no request. *)
Definition healthy (a : FakeArray) : Prop :=
  failed a = [] /\ faults a = [].

(** [raid_disk_signal] when it is at disk [i] of a healthy array, started
    from [s0]: the tables and the content of the array are those of [s0],
    and the array has received one request per disk polled. *)
Definition polling (s0 : State FakeArray) (i : Z) (s : State FakeArray)
  : Prop :=
  own s = own s0 /\ rand_stream s = rand_stream s0
  /\ stored (raid s) = stored (raid s0) /\ healthy (raid s)
  /\ Z.of_nat (length (requests (raid s)))
     = Z.of_nat (length (requests (raid s0))) + i.


(** * Part II: properties *)

(** ** The codec *)

Lemma u8_small x : byte_range x -> u8 x = x.
Proof. intros Hx. apply Z.mod_small. exact Hx. Qed.

Lemma u32_small x : word_range x -> u32 x = x.
Proof. intros Hx. apply Z.mod_small. exact Hx. Qed.

Lemma testbit_above (b n k : Z) :
  0 <= b < 2 ^ n -> n <= k -> Z.testbit b k = false.
Proof.
  intros Hb Hk.
  destruct (Z.eq_dec b 0) as [-> | Hb0]; [apply Z.bits_0 |].
  apply Z.bits_above_log2; [lia |].
  apply Z.lt_le_trans with n; [| exact Hk].
  apply Z.log2_lt_pow2; lia.
Qed.

(** Or-ing into the zero low bits of a shifted value adds. *)
Lemma lor_low (a b n : Z) :
  0 <= n -> 0 <= b < 2 ^ n -> Z.lor (a * 2 ^ n) b = a * 2 ^ n + b.
Proof.
  intros Hn Hb.
  rewrite <- Z.shiftl_mul_pow2 by lia.
  assert (Hdisj : Z.land (Z.shiftl a n) b = 0).
  { apply Z.bits_inj'; intros k Hk. rewrite Z.land_spec, Z.bits_0.
    destruct (Z.lt_ge_cases k n) as [Hlt | Hge].
    - rewrite Z.shiftl_spec_low by lia. reflexivity.
    - rewrite (testbit_above b n k) by lia. apply andb_false_r. }
  rewrite <- Z.lxor_lor by exact Hdisj.
  symmetry. apply Z.add_nocarry_lxor. exact Hdisj.
Qed.

Lemma shl64_small (x n : Z) :
  0 <= n -> 0 <= x -> x * 2 ^ n < 2 ^ 64 -> shl64 x n = x * 2 ^ n.
Proof.
  intros Hn Hx Hlt. unfold shl64, u64.
  rewrite Z.shiftl_mul_pow2 by lia.
  apply Z.mod_small. split; [| exact Hlt].
  apply Z.mul_nonneg_nonneg; [exact Hx | apply Z.pow_nonneg; lia].
Qed.

Lemma create_raid_request_packed t q d i :
  byte_range t -> byte_range q -> byte_range d -> word_range i ->
  create_raid_request t q d i = packed t q d 0 i.
Proof.
  unfold byte_range, word_range. intros Ht Hq Hd Hi.
  unfold create_raid_request, packed. cbv zeta.
  rewrite !u8_small, !u32_small by assumption.
  rewrite (shl64_small t 8) by lia.
  rewrite (lor_low t q 8) by lia.
  rewrite (shl64_small (t * 2 ^ 8 + q) 8) by lia.
  rewrite (lor_low _ d 8) by lia.
  rewrite (shl64_small ((t * 2 ^ 8 + q) * 2 ^ 8 + d) 8) by lia.
  rewrite (shl64_small (((t * 2 ^ 8 + q) * 2 ^ 8 + d) * 2 ^ 8) 32) by lia.
  rewrite (lor_low _ i 32) by lia.
  lia.
Qed.

(** The arguments are converted on entry, so only their low bits count. *)
Lemma create_raid_request_wrap t q d i :
  create_raid_request t q d i = packed (u8 t) (u8 q) (u8 d) 0 (u32 i).
Proof.
  rewrite <- create_raid_request_packed.
  - unfold create_raid_request, u8, u32. cbv zeta.
    rewrite !Z.mod_mod by lia. reflexivity.
  - apply Z.mod_pos_bound. lia.
  - apply Z.mod_pos_bound. lia.
  - apply Z.mod_pos_bound. lia.
  - apply Z.mod_pos_bound. lia.
Qed.

(** Setting reserved bits 33 to 39 of a request changes byte 3 only. *)
Lemma packed_reserved_bits t q d i r :
  byte_range t -> byte_range q -> byte_range d -> word_range i ->
  0 <= r < 128 ->
  Z.lor (packed t q d 0 i) (Z.shiftl r 33) = packed t q d (2 * r) i.
Proof.
  unfold byte_range, word_range. intros Ht Hq Hd Hi Hr.
  rewrite Z.shiftl_mul_pow2 by lia. unfold packed.
  replace (t * 2 ^ 56 + q * 2 ^ 48 + d * 2 ^ 40 + 0 * 2 ^ 32 + i)
    with ((t * 2 ^ 16 + q * 2 ^ 8 + d) * 2 ^ 40 + i) by lia.
  rewrite <- (lor_low _ i 40) by lia.
  rewrite <- Z.lor_assoc, (Z.lor_comm i), Z.lor_assoc.
  rewrite (lor_low _ (r * 2 ^ 33) 40) by lia.
  replace ((t * 2 ^ 16 + q * 2 ^ 8 + d) * 2 ^ 40 + r * 2 ^ 33)
    with (((t * 2 ^ 16 + q * 2 ^ 8 + d) * 2 ^ 8 + 2 * r) * 2 ^ 32) by lia.
  rewrite (lor_low _ i 32) by lia.
  lia.
Qed.

(** *** Reading the fields of a packed opcode *)

Section PackedFields.
Variables t q d r i : Z.
Hypothesis Ht : byte_range t.
Hypothesis Hq : byte_range q.
Hypothesis Hd : byte_range d.
Hypothesis Hr : byte_range r.
Hypothesis Hi : word_range i.

Lemma op_type_packed : op_type (packed t q d r i) = t.
Proof using Ht Hq Hd Hr Hi.
  unfold byte_range, word_range in *.
  unfold op_type, shr64, packed. rewrite Z.shiftr_div_pow2 by lia.
  rewrite <- (Z.div_unique _ (2 ^ 56) t
                (q * 2 ^ 48 + d * 2 ^ 40 + r * 2 ^ 32 + i)) by lia.
  apply u8_small. exact Ht.
Qed.

Lemma op_blocks_packed : op_blocks (packed t q d r i) = q.
Proof using Ht Hq Hd Hr Hi.
  unfold byte_range, word_range in *.
  unfold op_blocks, shr64, shl64, u64, packed.
  rewrite Z.shiftl_mul_pow2, Z.shiftr_div_pow2 by lia.
  rewrite <- (Z.mod_unique _ (2 ^ 64) t
                (q * 2 ^ 56 + d * 2 ^ 48 + r * 2 ^ 40 + i * 2 ^ 8)) by lia.
  rewrite <- (Z.div_unique _ (2 ^ 56) q (d * 2 ^ 48 + r * 2 ^ 40 + i * 2 ^ 8))
    by lia.
  apply u8_small. exact Hq.
Qed.

Lemma op_disk_packed : op_disk (packed t q d r i) = d.
Proof using Ht Hq Hd Hr Hi.
  unfold byte_range, word_range in *.
  unfold op_disk, shr64, packed.
  rewrite Z.shiftr_land, Z.land_comm.
  change (Z.shiftr 0xFF0000000000 40) with (Z.ones 8).
  rewrite Z.land_ones, Z.shiftr_div_pow2 by lia.
  rewrite <- (Z.div_unique _ (2 ^ 40) (t * 2 ^ 16 + q * 2 ^ 8 + d)
                (r * 2 ^ 32 + i)) by lia.
  rewrite <- (Z.mod_unique _ (2 ^ 8) (t * 2 ^ 8 + q) d) by lia.
  apply u8_small. exact Hd.
Qed.

Lemma op_id_packed : op_id (packed t q d r i) = i.
Proof using Ht Hq Hd Hr Hi.
  unfold byte_range, word_range in *.
  unfold op_id, shr64, shl64, u64, packed.
  rewrite Z.shiftl_mul_pow2, Z.shiftr_div_pow2 by lia.
  rewrite <- (Z.mod_unique _ (2 ^ 64) (t * 2 ^ 24 + q * 2 ^ 16 + d * 2 ^ 8 + r)
                (i * 2 ^ 32)) by lia.
  rewrite <- (Z.div_unique _ (2 ^ 32) i 0) by lia.
  apply u32_small. exact Hi.
Qed.

Lemma op_status_packed : op_status (packed t q d r i) = r mod 2.
Proof using Ht Hq Hd Hr Hi.
  unfold byte_range, word_range in *.
  pose proof (Z.div_mod r 2 ltac:(lia)) as Hdm.
  pose proof (Z.mod_pos_bound r 2 ltac:(lia)) as Hm.
  unfold op_status, shr64, shl64, u64, packed.
  rewrite Z.shiftl_mul_pow2, Z.shiftr_div_pow2 by lia.
  rewrite <- (Z.mod_unique _ (2 ^ 64)
                (t * 2 ^ 23 + q * 2 ^ 15 + d * 2 ^ 7 + r / 2)
                ((r mod 2) * 2 ^ 63 + i * 2 ^ 31)) by lia.
  rewrite <- (Z.div_unique _ (2 ^ 63) (r mod 2) (i * 2 ^ 31)) by lia.
  apply u8_small. unfold byte_range. lia.
Qed.
End PackedFields.

Lemma extract_raid_response_verdict `{raid_bus_h} resp operation g :
  fst (extract_raid_response resp operation g) = verdict resp operation.
Proof.
  unfold extract_raid_response, verdict. cbn.
  fold (op_status resp) (op_disk resp) (op_disk operation).
  fold (op_blocks resp) (op_blocks operation).
  fold (op_type resp) (op_type operation) (op_id resp) (op_id operation).
  repeat (match goal with |- context [if ?b then _ else _] => destruct b end;
          cbn; try reflexivity).
Qed.

(** The verdict on two packed opcodes. *)
Lemma verdict_packed `{raid_bus_h} t q d i t' q' d' r' i' :
  byte_range t -> byte_range q -> byte_range d -> word_range i ->
  byte_range t' -> byte_range q' -> byte_range d' -> byte_range r' ->
  word_range i' ->
  verdict (packed t' q' d' r' i') (packed t q d 0 i) =
  if r' mod 2 =? 1 then 1
  else if negb (d' =? d) then 1
  else if negb (q' =? q) then 1
  else if negb (t' =? t) then 1
  else if negb (i' =? i) && negb (t' =? RAID_STATUS) then 1
  else 0.
Proof.
  intros Ht Hq Hd Hi Ht' Hq' Hd' Hr' Hi'.
  assert (H0 : byte_range 0) by (unfold byte_range; lia).
  unfold verdict.
  rewrite !op_status_packed, !op_disk_packed, !op_blocks_packed,
    !op_type_packed, !op_id_packed by assumption.
  reflexivity.
Qed.

(** An unchanged echo is accepted, whatever the request. *)
Lemma echo_accepted `{raid_bus_h} operation :
  verdict operation operation = 0 \/ op_status operation = 1.
Proof.
  unfold verdict. destruct (op_status operation =? 1) eqn:E.
  - right. lia.
  - left. rewrite !Z.eqb_refl. reflexivity.
Qed.

Ltac in_range := unfold byte_range, word_range; cbn; lia.

(** The unchanged echo of a request is valid. *)
Lemma echo_valid `{raid_bus_h} t q d i :
  verdict (create_raid_request t q d i) (create_raid_request t q d i) = 0.
Proof.
  destruct (echo_accepted (create_raid_request t q d i)) as [Hv | Hs];
    [exact Hv | exfalso].
  rewrite create_raid_request_wrap in Hs.
  rewrite op_status_packed in Hs;
    try (apply Z.mod_pos_bound; lia); [discriminate | in_range].
Qed.

(** The fields of a request are the arguments it was made from. *)
Lemma request_fields t q d i :
  byte_range t -> byte_range q -> byte_range d -> word_range i ->
  let op := create_raid_request t q d i in
  op_type op = t /\ op_blocks op = q /\ op_disk op = d /\ op_id op = i
  /\ shr64 (shl64 op 8) 56 = q.
Proof.
  intros Ht Hq Hd Hi op. subst op.
  assert (H0 : byte_range 0) by in_range.
  rewrite create_raid_request_packed by assumption.
  rewrite op_type_packed, op_disk_packed, op_id_packed by assumption.
  pose proof (op_blocks_packed t q d 0 i Ht Hq Hd H0 Hi) as Hb.
  repeat split; try exact Hb.
  unfold op_blocks in Hb. rewrite <- Hb at 2. symmetry. apply u8_small.
  unfold byte_range, shr64, shl64, u64.
  rewrite Z.shiftr_div_pow2 by lia.
  pose proof (Z.mod_pos_bound (Z.shiftl (packed t q d 0 i) 8) (2 ^ 64)
                ltac:(lia)) as Hm.
  split; [apply Z.div_pos; lia |].
  apply Z.div_lt_upper_bound; lia.
Qed.

(** C6. Validating the unchanged echo of [create_raid_request t q d i]
    succeeds, and a response that differs from the echo in exactly one field
    (the type, the disk number, the block count, or the identifier when the
    operation is not a STATUS) is rejected. *)
Theorem codec_round_trip `{raid_bus_h} (t q d i : Z) (g : RAIDresponse.t) :
  byte_range t -> byte_range q -> byte_range d -> word_range i ->
  let operation := create_raid_request t q d i in
  fst (extract_raid_response operation operation g) = 0
  /\ (forall t', byte_range t' -> t' <> t ->
        fst (extract_raid_response (create_raid_request t' q d i) operation g)
        = 1)
  /\ (forall d', byte_range d' -> d' <> d ->
        fst (extract_raid_response (create_raid_request t q d' i) operation g)
        = 1)
  /\ (forall q', byte_range q' -> q' <> q ->
        fst (extract_raid_response (create_raid_request t q' d i) operation g)
        = 1)
  /\ (forall i', word_range i' -> i' <> i -> t <> RAID_STATUS ->
        fst (extract_raid_response (create_raid_request t q d i') operation g)
        = 1).
Proof.
  intros Ht Hq Hd Hi operation. subst operation.
  assert (H0 : byte_range 0) by (unfold byte_range; lia).
  assert (Hz : (0 mod 2 =? 1) = false) by reflexivity.
  repeat split.
  - rewrite extract_raid_response_verdict, create_raid_request_packed,
      verdict_packed by assumption.
    rewrite Hz, !Z.eqb_refl. reflexivity.
  - intros t' Ht' Hne.
    rewrite extract_raid_response_verdict, !create_raid_request_packed,
      verdict_packed by assumption.
    rewrite Hz, !Z.eqb_refl. cbn.
    destruct (Z.eqb_spec t' t); [contradiction | reflexivity].
  - intros d' Hd' Hne.
    rewrite extract_raid_response_verdict, !create_raid_request_packed,
      verdict_packed by assumption.
    rewrite Hz. destruct (Z.eqb_spec d' d); [contradiction | reflexivity].
  - intros q' Hq' Hne.
    rewrite extract_raid_response_verdict, !create_raid_request_packed,
      verdict_packed by assumption.
    rewrite Hz, !Z.eqb_refl. cbn.
    destruct (Z.eqb_spec q' q); [contradiction | reflexivity].
  - intros i' Hi' Hne Hst.
    rewrite extract_raid_response_verdict, !create_raid_request_packed,
      verdict_packed by assumption.
    rewrite Hz, !Z.eqb_refl. cbn.
    destruct (Z.eqb_spec i' i); [contradiction |].
    destruct (Z.eqb_spec t RAID_STATUS); [contradiction | reflexivity].
Qed.

Lemma codec_round_trip_witness :
  let operation := create_raid_request 3 2 1 7 in
  fst (@extract_raid_response small_config operation operation
         RAIDresponse.zero) = 0
  /\ fst (@extract_raid_response small_config (create_raid_request 2 2 1 7)
            operation RAIDresponse.zero) = 1
  /\ fst (@extract_raid_response small_config (create_raid_request 3 2 0 7)
            operation RAIDresponse.zero) = 1
  /\ fst (@extract_raid_response small_config (create_raid_request 3 5 1 7)
            operation RAIDresponse.zero) = 1
  /\ fst (@extract_raid_response small_config (create_raid_request 3 2 1 8)
            operation RAIDresponse.zero) = 1.
Proof.
  intros operation.
  destruct (@codec_round_trip small_config 3 2 1 7 RAIDresponse.zero)
    as (Hecho & Ht & Hd & Hq & Hi); try in_range.
  exact (conj Hecho
           (conj (Ht 2 ltac:(in_range) ltac:(in_range))
              (conj (Hd 0 ltac:(in_range) ltac:(in_range))
                 (conj (Hq 5 ltac:(in_range) ltac:(in_range))
                    (Hi 8 ltac:(in_range) ltac:(in_range)
                        ltac:(in_range)))))).
Defined.

(** C9. A response that is the unchanged echo of a request except for bits
    33 to 39 (the seven bits of byte 3 above the status bit), which hold any
    value [r], is accepted. *)
Theorem reserved_bits_ignored `{raid_bus_h} (t q d i r : Z)
    (g : RAIDresponse.t) :
  byte_range t -> byte_range q -> byte_range d -> word_range i ->
  0 <= r < 128 ->
  let operation := create_raid_request t q d i in
  fst (extract_raid_response (Z.lor operation (Z.shiftl r 33)) operation g)
  = 0.
Proof.
  intros Ht Hq Hd Hi Hr operation. subst operation.
  rewrite extract_raid_response_verdict, create_raid_request_packed
    by assumption.
  rewrite packed_reserved_bits by assumption.
  rewrite verdict_packed by (assumption || (unfold byte_range; lia)).
  replace (2 * r) with (r * 2) by lia.
  rewrite Z.mod_mul by lia. rewrite !Z.eqb_refl. reflexivity.
Qed.

Lemma reserved_bits_ignored_witness :
  let operation := create_raid_request 2 1 0 5 in
  fst (@extract_raid_response small_config
         (Z.lor operation (Z.shiftl 127 33)) operation RAIDresponse.zero) = 0.
Proof.
  apply (@reserved_bits_ignored small_config 2 1 0 5 127 RAIDresponse.zero);
    in_range.
Defined.


(** ** The cache *)

Lemma slot_matches_key e dsk blk :
  slot_matches e dsk blk = true <-> slot_key e = (dsk, blk).
Proof.
  unfold slot_matches, slot_key. rewrite andb_true_iff, !Z.eqb_eq.
  split; [intros [-> ->]; reflexivity | intros [= -> ->]; auto].
Qed.

Lemma slot_matches_not_key e dsk blk :
  slot_matches e dsk blk = false <-> slot_key e <> (dsk, blk).
Proof.
  rewrite <- slot_matches_key. destruct (slot_matches e dsk blk); split;
    congruence.
Qed.

(** The lookup loop over slots that exist finds the first match, if any. *)
Lemma search_slots_spec n : forall i arr dsk blk,
  (i + n <= length arr)%nat ->
  match search_slots n i arr dsk blk with
  | Some (Some j) =>
      (i <= j < i + n)%nat
      /\ (exists e, arr !! j = Some e /\ slot_key e = (dsk, blk))
      /\ (forall k e, (i <= k < j)%nat -> arr !! k = Some e ->
            slot_key e <> (dsk, blk))
  | Some None =>
      forall k e, (i <= k < i + n)%nat -> arr !! k = Some e ->
        slot_key e <> (dsk, blk)
  | None => False
  end.
Proof.
  induction n as [| n IH]; intros i arr dsk blk Hlen; simpl.
  - intros k e Hk. lia.
  - destruct (arr !! i) as [e |] eqn:Hi.
    2: { apply lookup_ge_None in Hi. lia. }
    destruct (slot_matches e dsk blk) eqn:Hm.
    + split; [lia |]. split.
      * exists e. split; [exact Hi | apply slot_matches_key; exact Hm].
      * intros k e' Hk. lia.
    + apply slot_matches_not_key in Hm.
      specialize (IH (S i) arr dsk blk ltac:(lia)).
      destruct (search_slots n (S i) arr dsk blk) as [[j |] |].
      * destruct IH as (Hj & He & Hbefore). split; [lia |].
        split; [exact He |].
        intros k e' Hk Hke'. destruct (decide (k = i)) as [-> | Hne].
        -- congruence.
        -- apply (Hbefore k e'); [lia | exact Hke'].
      * intros k e' Hk Hke'. destruct (decide (k = i)) as [-> | Hne].
        -- congruence.
        -- apply (IH k e'); [lia | exact Hke'].
      * exact IH.
Qed.

(** The scan for the oldest block, over slots that exist, keeps the first
    slot with the smallest timestamp seen so far. *)
Lemma oldest_scan_spec n : forall i arr p0 t0,
  (i + n <= length arr)%nat ->
  exists p t,
    oldest_scan n i arr p0 t0 = Some (p, t)
    /\ t <= t0
    /\ (forall k e, (i <= k < i + n)%nat -> arr !! k = Some e ->
          t <= cache.timestamp e)
    /\ ((p = p0 /\ t = t0)
        \/ ((i <= p < i + n)%nat /\ t < t0
            /\ (exists e, arr !! p = Some e /\ cache.timestamp e = t)
            /\ (forall k e, (i <= k < p)%nat -> arr !! k = Some e ->
                  t < cache.timestamp e))).
Proof.
  induction n as [| n IH]; intros i arr p0 t0 Hlen; simpl.
  - exists p0, t0. split; [reflexivity |]. split; [lia |].
    split; [intros; lia | left; auto].
  - destruct (arr !! i) as [e |] eqn:Hi.
    2: { apply lookup_ge_None in Hi. lia. }
    destruct (Z.ltb_spec (cache.timestamp e) t0) as [Hlt | Hge].
    + destruct (IH (S i) arr i (cache.timestamp e) ltac:(lia))
        as (p & t & Hscan & Hle & Hmin & Hcase).
      exists p, t. split; [exact Hscan |]. split; [lia |]. split.
      * intros k e' Hk Hke'. destruct (decide (k = i)) as [-> | Hne].
        -- replace e' with e by congruence. exact Hle.
        -- apply (Hmin k e'); [lia | exact Hke'].
      * right. destruct Hcase as [[-> ->] | (Hp & Hlt' & He & Hbefore)].
        -- split; [lia |]. split; [lia |]. split; [eauto |].
           intros k e' Hk. lia.
        -- split; [lia |]. split; [lia |]. split; [exact He |].
           intros k e' Hk Hke'. destruct (decide (k = i)) as [-> | Hne].
           ++ replace e' with e by congruence. lia.
           ++ apply (Hbefore k e'); [lia | exact Hke'].
    + destruct (IH (S i) arr p0 t0 ltac:(lia))
        as (p & t & Hscan & Hle & Hmin & Hcase).
      exists p, t. split; [exact Hscan |]. split; [lia |]. split.
      * intros k e' Hk Hke'. destruct (decide (k = i)) as [-> | Hne].
        -- replace e' with e by congruence. lia.
        -- apply (Hmin k e'); [lia | exact Hke'].
      * destruct Hcase as [[-> ->] | (Hp & Hlt' & He & Hbefore)].
        -- left. auto.
        -- right. split; [lia |]. split; [lia |]. split; [exact He |].
           intros k e' Hk Hke'. destruct (decide (k = i)) as [-> | Hne].
           ++ replace e' with e by congruence. lia.
           ++ apply (Hbefore k e'); [lia | exact Hke'].
Qed.

(** On a whole array, started the way [put_raid_cache] starts it, the scan
    ends on the oldest slot. *)
Lemma oldest_scan_whole arr e0 :
  arr !! 0%nat = Some e0 ->
  exists p victim,
    oldest_scan (length arr) 0 arr 0 (cache.timestamp e0)
    = Some (p, cache.timestamp victim)
    /\ arr !! p = Some victim
    /\ (forall k e, arr !! k = Some e ->
          cache.timestamp victim <= cache.timestamp e)
    /\ (forall k e, arr !! k = Some e -> (k < p)%nat ->
          cache.timestamp victim < cache.timestamp e).
Proof.
  intros H0.
  destruct (oldest_scan_spec (length arr) 0 arr 0%nat (cache.timestamp e0)
              ltac:(lia)) as (p & t & Hscan & Hle & Hmin & Hcase).
  assert (Hall : forall k e, arr !! k = Some e -> t <= cache.timestamp e).
  { intros k e Hk. apply (Hmin k e); [| exact Hk].
    apply lookup_lt_Some in Hk. lia. }
  destruct Hcase as [[-> ->] | (Hp & Hlt & (victim & Hv & Ht) & Hbefore)].
  - exists 0%nat, e0. split; [exact Hscan |]. split; [exact H0 |].
    split; [exact Hall |]. intros k e _ Hk. lia.
  - exists p, victim. subst t. split; [exact Hscan |]. split; [exact Hv |].
    split; [exact Hall |].
    intros k e Hk Hkp. apply (Hbefore k e); [lia | exact Hk].
Qed.

(** What one call of [put_raid_cache] does to a well-formed cache: it
    rewrites one slot, which is either the slot that already had the key,
    or the first unused slot, or the oldest slot of a full cache. *)
Lemma put_raid_cache_cases dsk blk buf c :
  cache_wf c -> 0 < raid_cache.glob_max_items c ->
  let k := (RAIDDiskID dsk, RAIDBlockID blk) in
  exists j c',
    put_raid_cache dsk blk buf c = Some (0, c')
    /\ raid_cache.glob_max_items c' = raid_cache.glob_max_items c
    /\ raid_cache.cacheArray c'
       = <[j := cache.mk buf (raid_cache.timea c') (fst k) (snd k)]>
           (raid_cache.cacheArray c)
    /\ (j < length (raid_cache.cacheArray c))%nat
    /\ ((raid_cache.objectCount c' = raid_cache.objectCount c
         /\ (j < Z.to_nat (raid_cache.objectCount c))%nat
         /\ exists e, raid_cache.cacheArray c !! j = Some e /\ slot_key e = k)
        \/ (raid_cache.objectCount c < raid_cache.glob_max_items c
            /\ raid_cache.objectCount c' = raid_cache.objectCount c + 1
            /\ j = Z.to_nat (raid_cache.objectCount c)
            /\ forall i e, (i < Z.to_nat (raid_cache.objectCount c))%nat ->
                 raid_cache.cacheArray c !! i = Some e -> slot_key e <> k)
        \/ (raid_cache.objectCount c = raid_cache.glob_max_items c
            /\ raid_cache.objectCount c' = raid_cache.objectCount c
            /\ absent c k
            /\ exists victim, oldest_slot c j victim)).
Proof.
  intros [Hcount Hlen Hrange Hunused Hdistinct] Hpos k. subst k.
  destruct c as [max count hit miss insert get timea oldestTime arr].
  cbn [raid_cache.glob_max_items raid_cache.objectCount
       raid_cache.cacheArray raid_cache.timea fst snd] in *.
  unfold put_raid_cache.
  destruct (Z.ltb_spec count max) as [Hroom | Hfull].
  - (* room left *)
    pose proof (search_slots_spec (Z.to_nat count) 0 arr
                  (RAIDDiskID dsk) (RAIDBlockID blk) ltac:(lia)) as Hs.
    destruct (search_slots (Z.to_nat count) 0 arr
                (RAIDDiskID dsk) (RAIDBlockID blk)) as [[j |] |];
      [| | contradiction].
    + destruct Hs as (Hj & (e & He & Hk) & _).
      eexists j, _. split; [reflexivity |]. cbn.
      split; [reflexivity |]. split.
      { unfold refresh_slot. rewrite He.
        injection Hk as -> ->. reflexivity. }
      split; [lia |]. left. split; [reflexivity |]. split; [lia |]. eauto.
    + unfold idx. destruct (Z.ltb_spec count 0) as [? | _]; [lia |].
      destruct (arr !! Z.to_nat count) as [e |] eqn:He.
      2: { apply lookup_ge_None in He. lia. }
      eexists (Z.to_nat count), _. split; [reflexivity |]. cbn.
      split; [reflexivity |]. split; [reflexivity |]. split; [lia |].
      right. left. split; [lia |]. split; [reflexivity |].
      split; [reflexivity |].
      intros i e' Hi Hie'. apply (Hs i e'); [lia | exact Hie'].
  - (* a full cache *)
    assert (count = max) as -> by lia.
    pose proof (search_slots_spec (Z.to_nat max) 0 arr
                  (RAIDDiskID dsk) (RAIDBlockID blk) ltac:(lia)) as Hs.
    destruct (search_slots (Z.to_nat max) 0 arr
                (RAIDDiskID dsk) (RAIDBlockID blk)) as [[j |] |];
      [| | contradiction].
    + destruct Hs as (Hj & (e & He & Hk) & _).
      eexists j, _. split; [reflexivity |]. cbn.
      split; [reflexivity |]. split.
      { unfold refresh_slot. rewrite He.
        injection Hk as -> ->. reflexivity. }
      split; [lia |]. left. split; [reflexivity |]. split; [lia |]. eauto.
    + destruct (arr !! 0%nat) as [e0 |] eqn:H0.
      2: { apply lookup_ge_None in H0. lia. }
      destruct (oldest_scan_whole arr e0 H0)
        as (p & victim & Hscan & Hv & Hmin & Hfirst).
      rewrite <- Hlen, Hscan.
      eexists p, _. split; [reflexivity |]. cbn.
      split; [reflexivity |]. split; [reflexivity |].
      split; [apply lookup_lt_Some in Hv; exact Hv |].
      right. right. split; [reflexivity |]. split; [reflexivity |]. split.
      * intros i e Hie. cbn in Hie. apply (Hs i e); [| exact Hie].
        apply lookup_lt_Some in Hie. lia.
      * exists victim. split; [exact Hv |]. split; assumption.
Qed.

Lemma RAIDDiskID_range x : byte_range (RAIDDiskID x).
Proof. apply Z.mod_pos_bound. lia. Qed.

Lemma RAIDBlockID_range x : word_range (RAIDBlockID x).
Proof. apply Z.mod_pos_bound. lia. Qed.

(** A put that returns found a cache with at least one slot: with none,
    it reads past the end of [cacheArray]. *)
Lemma put_raid_cache_positive dsk blk buf c r c' :
  cache_wf c -> put_raid_cache dsk blk buf c = Some (r, c') ->
  0 < raid_cache.glob_max_items c.
Proof.
  intros Hwf Hput.
  destruct (Z.le_gt_cases (raid_cache.glob_max_items c) 0) as [Hzero | Hpos];
    [exfalso | lia].
  destruct Hwf as [Hcount Hlen _ _ _].
  destruct c as [max count hit miss insert get timea oldestTime arr].
  cbn in *. assert (arr = []) as -> by (apply nil_length_inv; lia).
  unfold put_raid_cache in Hput.
  destruct (Z.ltb_spec count max); [lia |].
  replace (Z.to_nat max) with 0%nat in Hput by lia. cbn in Hput.
  discriminate.
Qed.

(** [put_raid_cache] keeps the cache well formed. *)
Lemma put_raid_cache_wf dsk blk buf c r c' :
  cache_wf c -> put_raid_cache dsk blk buf c = Some (r, c') -> cache_wf c'.
Proof.
  intros Hwf Hput.
  pose proof (put_raid_cache_positive _ _ _ _ _ _ Hwf Hput) as Hpos.
  destruct (put_raid_cache_cases dsk blk buf c Hwf Hpos)
    as (j & c'' & Hput' & Hmax & Harr & Hj & Hcase).
  rewrite Hput in Hput'. injection Hput' as -> <-.
  destruct Hwf as [Hcount Hlen Hrange Hunused Hdistinct].
  cbn [fst snd] in Harr.
  assert (Hnew_range : byte_range (RAIDDiskID dsk)
                       /\ word_range (RAIDBlockID blk))
    by (split; [apply RAIDDiskID_range | apply RAIDBlockID_range]).
  assert (Hlookup : forall i e,
            raid_cache.cacheArray c' !! i = Some e ->
            (i = j /\ slot_key e = (RAIDDiskID dsk, RAIDBlockID blk))
            \/ (i <> j /\ raid_cache.cacheArray c !! i = Some e)).
  { intros i e. rewrite Harr. destruct (decide (i = j)) as [-> | Hne].
    - rewrite list_lookup_insert_eq by exact Hj. intros [= <-]. left. auto.
    - rewrite list_lookup_insert_ne by congruence. intros Hi. right. auto. }
  split.
  - rewrite Hmax. destruct Hcase as [(-> & _) | [(? & -> & _) | (_ & -> & _)]];
      lia.
  - rewrite Harr, length_insert, Hmax. exact Hlen.
  - intros i e Hi. destruct (Hlookup i e Hi) as [[-> Hk] | [_ Hold]].
    + injection Hk as -> ->. exact Hnew_range.
    + exact (Hrange i e Hold).
  - intros i e Hi Hge. destruct (Hlookup i e Hi) as [[-> Hk] | [Hne Hold]].
    + exfalso.
      destruct Hcase as [(Hc & Hlt & _) | [(_ & Hc & -> & _) | (Hc1 & Hc & _)]];
        rewrite Hc in Hge; lia.
    + apply (Hunused i e Hold).
      destruct Hcase as [(Hc & _) | [(_ & Hc & -> & _) | (_ & Hc & _)]];
        rewrite Hc in Hge; lia.
  - intros i1 i2 e1 e2 H1 H2 Hlt1 Hlt2 Hkey.
    destruct (Hlookup i1 e1 H1) as [[-> Hk1] | [Hne1 Hold1]];
      destruct (Hlookup i2 e2 H2) as [[-> Hk2] | [Hne2 Hold2]].
    + reflexivity.
    + exfalso. rewrite Hk1 in Hkey.
      destruct Hcase as [(Hc & Hjlt & e & He & Hek)
                        | [(_ & Hc & -> & Hnone) | (_ & Hc & Habs & _)]].
      * rewrite Hc in Hlt2. apply Hne2.
        apply (Hdistinct i2 j e2 e Hold2 He Hlt2 Hjlt). congruence.
      * rewrite Hc in Hlt2. apply (Hnone i2 e2); [lia | exact Hold2 | auto].
      * apply (Habs i2 e2 Hold2). auto.
    + exfalso. rewrite Hk2 in Hkey.
      destruct Hcase as [(Hc & Hjlt & e & He & Hek)
                        | [(_ & Hc & -> & Hnone) | (_ & Hc & Habs & _)]].
      * rewrite Hc in Hlt1. apply Hne1.
        apply (Hdistinct i1 j e1 e Hold1 He Hlt1 Hjlt). congruence.
      * rewrite Hc in Hlt1. apply (Hnone i1 e1); [lia | exact Hold1 | auto].
      * apply (Habs i1 e1 Hold1). auto.
    + apply (Hdistinct i1 i2 e1 e2 Hold1 Hold2); [| | exact Hkey].
      * destruct Hcase as [(Hc & _) | [(_ & Hc & -> & _) | (_ & Hc & _)]];
          rewrite Hc in Hlt1; lia.
      * destruct Hcase as [(Hc & _) | [(_ & Hc & -> & _) | (_ & Hc & _)]];
          rewrite Hc in Hlt2; lia.
Qed.

(** What one call of [get_raid_cache] does to a well-formed cache: a hit
    on the first slot with the key, whose timestamp alone changes, or a miss
    when no slot has the key. *)
Lemma get_raid_cache_cases dsk blk c :
  cache_wf c ->
  let k := (RAIDDiskID dsk, RAIDBlockID blk) in
  exists res c',
    get_raid_cache dsk blk c = Some (res, c')
    /\ raid_cache.glob_max_items c' = raid_cache.glob_max_items c
    /\ raid_cache.objectCount c' = raid_cache.objectCount c
    /\ match res with
       | Some p =>
           exists e, raid_cache.cacheArray c !! p = Some e
             /\ slot_key e = k
             /\ (forall i e', (i < p)%nat ->
                   raid_cache.cacheArray c !! i = Some e' -> slot_key e' <> k)
             /\ raid_cache.cacheArray c'
                = <[p := cache.mk (cache.data e) (raid_cache.timea c')
                           (cache.disk e) (cache.block e)]>
                    (raid_cache.cacheArray c)
       | None =>
           absent c k /\ raid_cache.cacheArray c' = raid_cache.cacheArray c
       end.
Proof.
  intros [Hcount Hlen Hrange Hunused Hdistinct] k. subst k.
  destruct c as [max count hit miss insert get timea oldestTime arr].
  cbn [raid_cache.glob_max_items raid_cache.objectCount
       raid_cache.cacheArray raid_cache.timea] in *.
  unfold get_raid_cache.
  pose proof (search_slots_spec (Z.to_nat max) 0 arr
                (RAIDDiskID dsk) (RAIDBlockID blk) ltac:(lia)) as Hs.
  destruct (search_slots (Z.to_nat max) 0 arr
              (RAIDDiskID dsk) (RAIDBlockID blk)) as [[p |] |];
    [| | contradiction].
  - destruct Hs as (Hp & (e & He & Hk) & Hbefore). rewrite He.
    eexists (Some p), _. split; [reflexivity |]. cbn.
    split; [reflexivity |]. split; [reflexivity |].
    exists e. split; [exact He |]. split; [exact Hk |]. split; [| reflexivity].
    intros i e' Hi Hie'. apply (Hbefore i e'); [lia | exact Hie'].
  - eexists None, _. split; [reflexivity |]. cbn.
    split; [reflexivity |]. split; [reflexivity |]. split; [| reflexivity].
    intros i e Hie. cbn in Hie. apply (Hs i e); [| exact Hie].
    apply lookup_lt_Some in Hie. lia.
Qed.

Lemma get_raid_cache_entries dsk blk c res c' :
  cache_wf c -> get_raid_cache dsk blk c = Some (res, c') ->
  forall i e', raid_cache.cacheArray c' !! i = Some e' ->
    exists e, raid_cache.cacheArray c !! i = Some e /\ same_entry e e'.
Proof.
  intros Hwf Hget i e' Hi.
  destruct (get_raid_cache_cases dsk blk c Hwf)
    as (res' & c'' & Hget' & _ & _ & Hres).
  rewrite Hget in Hget'. injection Hget' as <- <-.
  destruct res as [p |].
  - destruct Hres as (e & He & _ & _ & Harr). rewrite Harr in Hi.
    destruct (decide (i = p)) as [-> | Hne].
    + rewrite list_lookup_insert_eq in Hi by (eapply lookup_lt_Some; eauto).
      injection Hi as <-. exists e. split; [exact He |]. split; reflexivity.
    + rewrite list_lookup_insert_ne in Hi by congruence.
      exists e'. split; [exact Hi |]. split; reflexivity.
  - destruct Hres as [_ Harr]. rewrite Harr in Hi.
    exists e'. split; [exact Hi |]. split; reflexivity.
Qed.

Lemma get_raid_cache_entries_back dsk blk c res c' :
  cache_wf c -> get_raid_cache dsk blk c = Some (res, c') ->
  forall i e, raid_cache.cacheArray c !! i = Some e ->
    exists e', raid_cache.cacheArray c' !! i = Some e' /\ same_entry e e'.
Proof.
  intros Hwf Hget i e Hi.
  destruct (get_raid_cache_cases dsk blk c Hwf)
    as (res' & c'' & Hget' & _ & _ & Hres).
  rewrite Hget in Hget'. injection Hget' as <- <-.
  destruct res as [p |].
  - destruct Hres as (e0 & He & _ & _ & Harr). rewrite Harr.
    destruct (decide (i = p)) as [-> | Hne].
    + rewrite list_lookup_insert_eq by (eapply lookup_lt_Some; eauto).
      replace e0 with e by congruence.
      eexists. split; [reflexivity |]. split; reflexivity.
    + rewrite list_lookup_insert_ne by congruence.
      exists e. split; [exact Hi |]. split; reflexivity.
  - destruct Hres as [_ Harr]. rewrite Harr.
    exists e. split; [exact Hi |]. split; reflexivity.
Qed.

(** [get_raid_cache] keeps the cache well formed. *)
Lemma get_raid_cache_wf dsk blk c res c' :
  cache_wf c -> get_raid_cache dsk blk c = Some (res, c') -> cache_wf c'.
Proof.
  intros Hwf Hget.
  pose proof (get_raid_cache_entries dsk blk c res c' Hwf Hget) as Hback.
  destruct (get_raid_cache_cases dsk blk c Hwf)
    as (res' & c'' & Hget' & Hmax & Hoc & Hres).
  rewrite Hget in Hget'. injection Hget' as <- <-.
  pose proof Hwf as [Hcount Hlen Hrange Hunused Hdistinct].
  split.
  - rewrite Hoc, Hmax. exact Hcount.
  - rewrite Hmax, <- Hlen. destruct res as [p |].
    + destruct Hres as (e & _ & _ & _ & ->). apply length_insert.
    + destruct Hres as [_ ->]. reflexivity.
  - intros i e' Hi. destruct (Hback i e' Hi) as (e & He & [Hk _]).
    injection Hk as -> ->. exact (Hrange i e He).
  - intros i e' Hi Hge. destruct (Hback i e' Hi) as (e & He & [Hk Hd]).
    rewrite Hoc in Hge. rewrite Hk, Hd. exact (Hunused i e He Hge).
  - intros i1 i2 e1 e2 H1 H2 Hlt1 Hlt2 Hkey.
    destruct (Hback i1 e1 H1) as (e1' & He1 & [Hk1 _]).
    destruct (Hback i2 e2 H2) as (e2' & He2 & [Hk2 _]).
    rewrite Hoc in Hlt1, Hlt2.
    apply (Hdistinct i1 i2 e1' e2' He1 He2 Hlt1 Hlt2). congruence.
Qed.

(** What [close_raid_cache] leaves when it returns: no slot, and the
    counters as they were. *)
Lemma close_raid_cache_result c r c' :
  close_raid_cache c = Some (r, c') ->
  r = 0
  /\ c' = raid_cache.mk (raid_cache.glob_max_items c)
            (raid_cache.objectCount c) (raid_cache.hit c)
            (raid_cache.miss c) (raid_cache.insert c)
            (raid_cache.get c) (raid_cache.timea c)
            (raid_cache.oldestTime c) [].
Proof.
  unfold close_raid_cache.
  destruct (free_slots _ _ _); [| discriminate].
  intros [= <- <-]. split; reflexivity.
Qed.

(** [init_raid_cache], run on the boot globals, makes a well-formed cache
    with no entry. *)
Lemma init_raid_cache_wf (max_items : Z) (heap : nat -> Z) :
  word_range max_items ->
  let c := snd (init_raid_cache max_items heap raid_cache.boot) in
  cache_wf c
  /\ raid_cache.objectCount c = 0
  /\ raid_cache.glob_max_items c = max_items.
Proof.
  intros Hrange c. subst c. unfold init_raid_cache. cbn [snd].
  rewrite (u32_small max_items) by exact Hrange.
  split; [| split; reflexivity].
  assert (Hslot : forall j e,
            map (fun i => cache.mk None (heap i)
                            (RAIDDiskID (-1)) (RAIDBlockID (-1)))
                (seq 0 (Z.to_nat max_items)) !! j = Some e ->
            slot_key e = unused_key /\ cache.data e = None).
  { intros j e Hj. rewrite list_lookup_fmap in Hj.
    destruct (seq 0 (Z.to_nat max_items) !! j); [| discriminate].
    injection Hj as <-. split; reflexivity. }
  unfold word_range in Hrange. split; cbn.
  - lia.
  - rewrite length_map, length_seq. reflexivity.
  - intros j e Hj. destruct (Hslot j e Hj) as [Hk _].
    injection Hk as -> ->.
    split; [apply RAIDDiskID_range | apply RAIDBlockID_range].
  - intros j e Hj _. exact (Hslot j e Hj).
  - intros j1 j2 e1 e2 _ _ Hlt. lia.
Qed.

(** After a put of [buf] under a key that is not the key of the unused
    slots, every slot with the key holds [buf]. *)
Lemma put_raid_cache_caches dsk blk buf c r c' :
  cache_wf c -> put_raid_cache dsk blk buf c = Some (r, c') ->
  (RAIDDiskID dsk, RAIDBlockID blk) <> unused_key ->
  caches c' (RAIDDiskID dsk, RAIDBlockID blk) buf.
Proof.
  intros Hwf Hput Hused.
  pose proof (put_raid_cache_positive _ _ _ _ _ _ Hwf Hput) as Hpos.
  destruct (put_raid_cache_cases dsk blk buf c Hwf Hpos)
    as (j & c'' & Hput' & Hmax & Harr & Hj & Hcase).
  rewrite Hput in Hput'. injection Hput' as -> <-.
  destruct Hwf as [Hcount Hlen Hrange Hunused Hdistinct].
  cbn [fst snd] in Harr.
  intros i e Hi Hk. rewrite Harr in Hi.
  destruct (decide (i = j)) as [-> | Hne].
  { rewrite list_lookup_insert_eq in Hi by exact Hj.
    injection Hi as <-. reflexivity. }
  rewrite list_lookup_insert_ne in Hi by congruence. exfalso.
  destruct (Nat.lt_ge_cases i (Z.to_nat (raid_cache.objectCount c)))
    as [Hlt | Hge].
  - destruct Hcase as [(_ & Hjlt & e0 & He0 & Hk0)
                      | [(_ & _ & -> & Hnone) | (_ & _ & Habs & _)]].
    + apply Hne. apply (Hdistinct i j e e0 Hi He0 Hlt Hjlt). congruence.
    + exact (Hnone i e Hlt Hi Hk).
    + exact (Habs i e Hi Hk).
  - destruct (Hunused i e Hi Hge) as [Hk' _]. congruence.
Qed.

(** A put under one key leaves what is cached under the other keys. *)
Lemma put_raid_cache_caches_other dsk blk buf c r c' k d :
  cache_wf c -> put_raid_cache dsk blk buf c = Some (r, c') ->
  k <> (RAIDDiskID dsk, RAIDBlockID blk) ->
  caches c k d -> caches c' k d.
Proof.
  intros Hwf Hput Hother Hc.
  pose proof (put_raid_cache_positive _ _ _ _ _ _ Hwf Hput) as Hpos.
  destruct (put_raid_cache_cases dsk blk buf c Hwf Hpos)
    as (j & c'' & Hput' & Hmax & Harr & Hj & Hcase).
  rewrite Hput in Hput'. injection Hput' as -> <-.
  cbn [fst snd] in Harr.
  intros i e Hi Hk. rewrite Harr in Hi.
  destruct (decide (i = j)) as [-> | Hne].
  - rewrite list_lookup_insert_eq in Hi by exact Hj.
    injection Hi as <-. exfalso. apply Hother. rewrite <- Hk. reflexivity.
  - rewrite list_lookup_insert_ne in Hi by congruence. exact (Hc i e Hi Hk).
Qed.

Lemma put_raid_cache_max dsk blk buf c r c' :
  cache_wf c -> put_raid_cache dsk blk buf c = Some (r, c') ->
  raid_cache.glob_max_items c' = raid_cache.glob_max_items c.
Proof.
  intros Hwf Hput.
  pose proof (put_raid_cache_positive _ _ _ _ _ _ Hwf Hput) as Hpos.
  destruct (put_raid_cache_cases dsk blk buf c Hwf Hpos)
    as (j & c'' & Hput' & Hmax & _).
  rewrite Hput in Hput'. injection Hput' as -> <-. exact Hmax.
Qed.

(** A put into a well-formed cache with at least one slot returns. *)
Lemma put_raid_cache_total dsk blk buf c :
  cache_wf c -> 0 < raid_cache.glob_max_items c ->
  exists c', put_raid_cache dsk blk buf c = Some (0, c').
Proof.
  intros Hwf Hpos.
  destruct (put_raid_cache_cases dsk blk buf c Hwf Hpos)
    as (j & c' & Hput & _). eauto.
Qed.

(** A lookup leaves what is cached under every key. *)
Lemma get_raid_cache_caches dsk blk c res c' k d :
  cache_wf c -> get_raid_cache dsk blk c = Some (res, c') ->
  caches c k d -> caches c' k d.
Proof.
  intros Hwf Hget Hc i e' Hi Hk.
  destruct (get_raid_cache_entries dsk blk c res c' Hwf Hget i e' Hi)
    as (e & He & [Hk' Hd]).
  rewrite Hd. apply (Hc i e He). congruence.
Qed.

(** C5. When the cache is full and [put_raid_cache] is called with a key
    that no slot has, the slot with the smallest timestamp (the first such
    slot, when several have it) is the one that is overwritten with the new
    entry, and a lookup of the key that was in it is then a miss. *)
Theorem eviction_of_oldest (dsk blk : Z) (buf : payload) (c : raid_cache.t) :
  cache_wf c ->
  0 < raid_cache.glob_max_items c ->
  raid_cache.objectCount c = raid_cache.glob_max_items c ->
  absent c (RAIDDiskID dsk, RAIDBlockID blk) ->
  exists j victim c',
    oldest_slot c j victim
    /\ put_raid_cache dsk blk buf c = Some (0, c')
    /\ raid_cache.cacheArray c'
       = <[j := cache.mk buf (raid_cache.timea c')
                  (RAIDDiskID dsk) (RAIDBlockID blk)]>
           (raid_cache.cacheArray c)
    /\ exists c'',
         get_raid_cache (cache.disk victim) (cache.block victim) c'
         = Some (None, c'').
Proof.
  intros Hwf Hpos Hfull Habsent.
  destruct (put_raid_cache_cases dsk blk buf c Hwf Hpos)
    as (j & c' & Hput & Hmax & Harr & Hj & Hcase).
  cbn [fst snd] in Harr.
  destruct Hcase as [(_ & _ & e & He & Hk) | [(Hroom & _) | (_ & _ & _ & Hold)]].
  { exfalso. exact (Habsent j e He Hk). }
  { lia. }
  destruct Hold as (victim & Hold).
  exists j, victim, c'. split; [exact Hold |]. split; [exact Hput |].
  split; [exact Harr |].
  pose proof (put_raid_cache_wf dsk blk buf c 0 c' Hwf Hput) as Hwf'.
  destruct Hold as (Hv & _).
  destruct Hwf as [Hcount Hlen Hrange Hunused Hdistinct].
  destruct (Hrange j victim Hv) as [Hvd Hvb].
  destruct (get_raid_cache_cases (cache.disk victim) (cache.block victim)
              c' Hwf') as (res & c'' & Hget & _ & _ & Hres).
  unfold RAIDDiskID, RAIDBlockID in Hres.
  rewrite (u8_small _ Hvd), (u32_small _ Hvb) in Hres.
  destruct res as [p |]; [exfalso | exists c''; exact Hget].
  destruct Hres as (e & He & Hk & _). rewrite Harr in He.
  destruct (decide (p = j)) as [-> | Hne].
  - rewrite list_lookup_insert_eq in He by exact Hj. injection He as <-.
    apply (Habsent j victim Hv). unfold slot_key in *. cbn in Hk.
    congruence.
  - rewrite list_lookup_insert_ne in He by congruence.
    apply Hne. apply (Hdistinct p j e victim He Hv); [| | exact Hk].
    + apply lookup_lt_Some in He. lia.
    + lia.
Qed.

Lemma fill_wf puts : forall c c',
  cache_wf c -> fill puts c = Some c' -> cache_wf c'.
Proof.
  induction puts as [| [[dsk blk] buf] rest IH]; intros c c' Hwf Hfill.
  - injection Hfill as <-. exact Hwf.
  - cbn in Hfill.
    destruct (put_raid_cache dsk blk buf c) as [[r c1] |] eqn:Hput;
      [| discriminate].
    apply (IH c1 c'); [| exact Hfill].
    exact (put_raid_cache_wf dsk blk buf c r c1 Hwf Hput).
Qed.

Lemma two_slots_wf : cache_wf two_slots.
Proof. apply (init_raid_cache_wf 2 (fun _ => 0)). unfold word_range. lia. Qed.

Lemma full_cache_wf : cache_wf full_cache.
Proof.
  apply (fill_wf [(0, 0, blk 1); (0, 1, blk 2)] two_slots);
    [exact two_slots_wf | reflexivity].
Qed.

Lemma cache_after_unassigned_put_wf : cache_wf cache_after_unassigned_put.
Proof.
  apply (fill_wf [(-1, -1, blk 7)] two_slots);
    [exact two_slots_wf | reflexivity].
Qed.

Lemma eviction_of_oldest_witness :
  exists j victim c',
    oldest_slot full_cache j victim
    /\ put_raid_cache 1 5 (blk 9) full_cache = Some (0, c')
    /\ raid_cache.cacheArray c'
       = <[j := cache.mk (blk 9) (raid_cache.timea c')
                  (RAIDDiskID 1) (RAIDBlockID 5)]>
           (raid_cache.cacheArray full_cache)
    /\ exists c'',
         get_raid_cache (cache.disk victim) (cache.block victim) c'
         = Some (None, c'').
Proof.
  apply (eviction_of_oldest 1 5 (blk 9) full_cache).
  - exact full_cache_wf.
  - vm_compute. reflexivity.
  - vm_compute. reflexivity.
  - intros j e Hj Hk. vm_compute in Hj.
    destruct j as [| [| j]]; cbn in Hj; try discriminate;
      injection Hj as <-; vm_compute in Hk; discriminate.
Defined.

(** C10, as amended. While the cache has an unused slot, a lookup of the
    key of an unassigned mapping [(-1, -1)] is never a miss: it is answered
    with slot [p], the first slot of [cacheArray] that carries that key, and
    the pointer returned points to the data of that slot.  When no slot that
    a put has filled (the slots before [objectCount]) carries the key, [p] is
    the first unused slot, whose data no put has stored.  When a filled slot
    carries the key, [p] is that slot; so after a put under that key, the
    lookup is answered with the slot that the put filled and the data that
    it stored. *)
Theorem unused_key_lookup (c : raid_cache.t) :
  cache_wf c ->
  raid_cache.objectCount c < raid_cache.glob_max_items c ->
  exists p c' e,
    get_raid_cache (-1) (-1) c = Some (Some p, c')
    /\ raid_cache.cacheArray c !! p = Some e
    /\ slot_key e = unused_key
    /\ (forall j e', (j < p)%nat ->
          raid_cache.cacheArray c !! j = Some e' -> slot_key e' <> unused_key)
    /\ slot_data c' p = Some (cache.data e)
    /\ (p <= Z.to_nat (raid_cache.objectCount c))%nat
    /\ ((forall j e', (j < Z.to_nat (raid_cache.objectCount c))%nat ->
           raid_cache.cacheArray c !! j = Some e' ->
           slot_key e' <> unused_key)
        -> p = Z.to_nat (raid_cache.objectCount c)
           /\ cache.data e = None /\ hits_unused_slot c)
    /\ (forall j e', (j < Z.to_nat (raid_cache.objectCount c))%nat ->
          raid_cache.cacheArray c !! j = Some e' ->
          slot_key e' = unused_key -> p = j /\ e = e')
    /\ (forall c0 buf r, cache_wf c0 ->
          put_raid_cache (-1) (-1) buf c0 = Some (r, c) ->
          (p < Z.to_nat (raid_cache.objectCount c))%nat
          /\ cache.data e = buf).
Proof.
  intros Hwf Hroom.
  destruct (get_raid_cache_cases (-1) (-1) c Hwf)
    as (res & c' & Hget & _ & _ & Hres).
  fold unused_key in Hres.
  pose proof Hwf as [Hcount Hlen Hrange Hunused Hdistinct].
  destruct (raid_cache.cacheArray c !! Z.to_nat (raid_cache.objectCount c))
    as [e0 |] eqn:He0.
  2: { apply lookup_ge_None in He0. lia. }
  destruct (Hunused _ e0 He0 ltac:(lia)) as [Hk0 Hd0].
  destruct res as [p |].
  2: { exfalso. destruct Hres as [Habs _]. exact (Habs _ e0 He0 Hk0). }
  destruct Hres as (e & He & Hk & Hfirst & Harr).
  assert (Hp : (p <= Z.to_nat (raid_cache.objectCount c))%nat).
  { destruct (Nat.le_gt_cases p (Z.to_nat (raid_cache.objectCount c)))
      as [Hle | Hgt]; [exact Hle |].
    exfalso. exact (Hfirst _ e0 Hgt He0 Hk0). }
  assert (Hdata : slot_data c' p = Some (cache.data e)).
  { unfold slot_data. rewrite Harr.
    rewrite list_lookup_insert_eq by (eapply lookup_lt_Some; eauto).
    reflexivity. }
  assert (Hfilled : forall j e',
            (j < Z.to_nat (raid_cache.objectCount c))%nat ->
            raid_cache.cacheArray c !! j = Some e' ->
            slot_key e' = unused_key -> p = j /\ e = e').
  { intros j e' Hj He' Hk'.
    assert (Hpj : (p <= j)%nat).
    { destruct (Nat.le_gt_cases p j) as [Hle | Hgt]; [exact Hle |].
      exfalso. exact (Hfirst _ e' Hgt He' Hk'). }
    assert (p = j) as ->
      by (apply (Hdistinct p j e e' He He'); [lia | lia | congruence]).
    split; [reflexivity | congruence]. }
  exists p, c', e. split_and!; try assumption.
  - intros Hnone.
    assert (p = Z.to_nat (raid_cache.objectCount c)) as ->.
    { destruct (Nat.lt_ge_cases p (Z.to_nat (raid_cache.objectCount c)))
        as [Hlt | Hge]; [| lia].
      exfalso. exact (Hnone p e Hlt He Hk). }
    assert (e = e0) as -> by congruence.
    split_and!; [reflexivity | exact Hd0 |].
    exists (Z.to_nat (raid_cache.objectCount c)), c'.
    split_and!; [exact Hget | lia | rewrite Hdata, Hd0; reflexivity].
  - intros c0 buf r Hwf0 Hput.
    pose proof (put_raid_cache_positive _ _ _ _ _ _ Hwf0 Hput) as Hpos.
    destruct (put_raid_cache_cases (-1) (-1) buf c0 Hwf0 Hpos)
      as (j & c1 & Hput1 & Hmax & Harr1 & Hj & Hcases).
    assert (c1 = c) as -> by congruence.
    fold unused_key in Harr1, Hcases.
    assert (Hslot : raid_cache.cacheArray c !! j
                    = Some (cache.mk buf (raid_cache.timea c)
                              (fst unused_key) (snd unused_key))).
    { rewrite Harr1. apply list_lookup_insert_eq. exact Hj. }
    assert (Hjc : (j < Z.to_nat (raid_cache.objectCount c))%nat).
    { destruct Hcases as [(Hc & Hjlt & _) | [(_ & Hc & -> & _)
                                             | (Hfull & Hc & _)]];
        pose proof (wf_count c0 Hwf0); lia. }
    destruct (Hfilled j _ Hjc Hslot eq_refl) as [-> ->].
    split; [exact Hjc | reflexivity].
Qed.

Lemma unused_key_lookup_witness :
  exists p c' e,
    get_raid_cache (-1) (-1) two_slots = Some (Some p, c')
    /\ raid_cache.cacheArray two_slots !! p = Some e
    /\ slot_key e = unused_key
    /\ (forall j e', (j < p)%nat ->
          raid_cache.cacheArray two_slots !! j = Some e' ->
          slot_key e' <> unused_key)
    /\ slot_data c' p = Some (cache.data e)
    /\ (p <= Z.to_nat (raid_cache.objectCount two_slots))%nat
    /\ ((forall j e',
           (j < Z.to_nat (raid_cache.objectCount two_slots))%nat ->
           raid_cache.cacheArray two_slots !! j = Some e' ->
           slot_key e' <> unused_key)
        -> p = Z.to_nat (raid_cache.objectCount two_slots)
           /\ cache.data e = None /\ hits_unused_slot two_slots)
    /\ (forall j e',
          (j < Z.to_nat (raid_cache.objectCount two_slots))%nat ->
          raid_cache.cacheArray two_slots !! j = Some e' ->
          slot_key e' = unused_key -> p = j /\ e = e')
    /\ (forall c0 buf r, cache_wf c0 ->
          put_raid_cache (-1) (-1) buf c0 = Some (r, two_slots) ->
          (p < Z.to_nat (raid_cache.objectCount two_slots))%nat
          /\ cache.data e = buf).
Proof.
  apply (unused_key_lookup two_slots).
  - exact two_slots_wf.
  - vm_compute. reflexivity.
Defined.

(** C10, as stated, fails: after a put under the key of an unassigned
    mapping the cache still has an unused slot, yet the lookup of that key
    is answered with the slot the put filled. *)
Lemma lookup_hits_filled_slot :
  cache_wf cache_after_unassigned_put
  /\ raid_cache.objectCount cache_after_unassigned_put
     < raid_cache.glob_max_items cache_after_unassigned_put
  /\ ~ hits_unused_slot cache_after_unassigned_put.
Proof.
  split; [exact cache_after_unassigned_put_wf |].
  split; [vm_compute; reflexivity |].
  intros (p & c' & Hget & Hp & _).
  vm_compute in Hget. injection Hget as <- _.
  vm_compute in Hp. lia.
Qed.


(** ** Reasoning about function bodies *)

Section Wpx.
Context {S R : Type}.
Variable U : Prop.

Lemma wpx_ret {A} (a : A) (Q : A -> S -> Prop) (E : R -> S -> Prop) s :
  Q a s -> wpx U (ret a) Q E s.
Proof. intros HQ. exact HQ. Qed.

Lemma wpx_early {A} (r : R) (Q : A -> S -> Prop) (E : R -> S -> Prop) s :
  E r s -> wpx U (early r) Q E s.
Proof. intros HE. exact HE. Qed.

Lemma wpx_bind {A B} (m : M S R A) (k : A -> M S R B) Q E s :
  wpx U m (fun a s' => wpx U (k a) Q E s') E s -> wpx U (bind m k) Q E s.
Proof.
  unfold wpx, bind. destruct (m s) as [a s' | r s' | |]; auto.
Qed.

Lemma wpx_mono {A} (m : M S R A) (Q Q' : A -> S -> Prop)
    (E E' : R -> S -> Prop) s :
  wpx U m Q E s ->
  (forall a s', Q a s' -> Q' a s') ->
  (forall r s', E r s' -> E' r s') ->
  wpx U m Q' E' s.
Proof.
  unfold wpx. intros Hm HQ HE. destruct (m s) as [a s' | r s' | |]; auto.
Qed.

Lemma wpx_of_option {A} (o : option A) (Q : A -> S -> Prop)
    (E : R -> S -> Prop) s :
  match o with Some a => Q a s | None => U end ->
  wpx U (of_option o) Q E s.
Proof. destruct o; intros HQ; exact HQ. Qed.

(** A [for] loop, with an invariant that depends on the counter. *)
Lemma wpx_for_loop {A} (f : Z -> A -> M S R A)
    (I : Z -> A -> S -> Prop) E n : forall i acc s,
  I i acc s ->
  (forall j acc s, i <= j < i + Z.of_nat n -> I j acc s ->
     wpx U (f j acc) (fun acc' s' => I (j + 1) acc' s') E s) ->
  wpx U (for_loop n i f acc) (fun acc' s' => I (i + Z.of_nat n) acc' s') E s.
Proof.
  induction n as [| n IH]; intros i acc s HI Hstep.
  - cbn. replace (i + Z.of_nat 0) with i by lia. exact HI.
  - cbn [for_loop]. apply wpx_bind.
    eapply wpx_mono; [apply (Hstep i acc s); [lia | exact HI] | | auto].
    intros acc' s' HI'. cbv beta.
    replace (i + Z.of_nat (Datatypes.S n)) with (i + 1 + Z.of_nat n) by lia.
    apply IH; [exact HI' |].
    intros j acc0 s0 Hj. apply Hstep. lia.
Qed.

Lemma wpx_for_ {A} (f : Z -> A -> M S R A)
    (I : Z -> A -> S -> Prop) E n acc s :
  I 0 acc s ->
  (forall j acc s, 0 <= j < n -> I j acc s ->
     wpx U (f j acc) (fun acc' s' => I (j + 1) acc' s') E s) ->
  wpx U (for_ n f acc) (fun acc' s' => I (Z.max 0 n) acc' s') E s.
Proof.
  intros HI Hstep. unfold for_.
  replace (Z.max 0 n) with (0 + Z.of_nat (Z.to_nat n)) by lia.
  apply wpx_for_loop; [exact HI |].
  intros j acc0 s0 Hj. apply Hstep. lia.
Qed.

End Wpx.

(** A retry loop, with an invariant [I] and what its exit adds, [C]. *)
Lemma wpx_while_loop {S R A} (cond : A -> M S R bool) (f : A -> M S R A)
    (I C : A -> S -> Prop) (E : R -> S -> Prop) turns : forall acc s,
  I acc s ->
  (forall acc s, I acc s ->
     wpx True (cond acc)
       (fun b s' => I acc s' /\ (b = false -> C acc s')) E s) ->
  (forall acc s, I acc s ->
     wpx True (f acc) (fun acc' s' => I acc' s') E s) ->
  wpx True (while_loop turns cond f acc)
    (fun acc' s' => I acc' s' /\ C acc' s') E s.
Proof.
  induction turns as [| n IH]; intros acc s HI Hcond Hbody.
  - exact Logic.I.
  - cbn [while_loop]. apply wpx_bind.
    eapply wpx_mono; [apply (Hcond acc s HI) | | auto].
    intros b s' [HI' HC]. cbv beta. destruct b.
    + apply wpx_bind.
      eapply wpx_mono; [apply (Hbody acc s' HI') | | auto].
      intros acc' s'' HI''. cbv beta. apply IH; assumption.
    + apply wpx_ret. split; [exact HI' | apply HC; reflexivity].
Qed.

(** A function body: an early return is a return. *)
Lemma wpx_body {S R} U (m : M S R R) (Q : R -> S -> Prop) E s :
  wpx U m Q Q s -> wpx U (body m) Q E s.
Proof.
  unfold wpx, body. destruct (m s) as [a s' | r s' | |]; auto.
Qed.

(** A call: what the callee does, for a callee that is a [body]. *)
Lemma wpx_call_body {S R R'} (m : M S R R) (Q : R -> S -> Prop)
    (E : R' -> S -> Prop) s :
  wpx True m Q Q s -> wpx True (call (body m)) Q E s.
Proof.
  unfold wpx, call, body. destruct (m s) as [a s' | r s' | |]; auto.
Qed.

(** From a fact about runs to a fact about a run that returned. *)
Lemma wpx_val {S R A} U (m : M S R A) Q E s a s' :
  wpx U m Q E s -> m s = Val a s' -> Q a s'.
Proof. unfold wpx. intros Hm Heq. rewrite Heq in Hm. exact Hm. Qed.

Lemma wpx_total_val {S R} (m : M S R R) (Q : R -> S -> Prop) E s :
  wpx False (body m) Q E s -> exists a s', body m s = Val a s' /\ Q a s'.
Proof.
  unfold wpx. destruct (body m s) as [a s' | r s' | |] eqn:Hm;
    intros H; try contradiction.
  - eauto.
  - unfold body in Hm. destruct (m s); discriminate.
Qed.

(** *** Parts of the state that a run keeps *)

Section Keeps.
Context {S R X : Type} (proj : S -> X).

Lemma keeps_ret {A} (a : A) : keeps proj (ret (R := R) a).
Proof. intros s. reflexivity. Qed.

Lemma keeps_early {A} (r : R) : keeps proj (early (A := A) r).
Proof. intros s. reflexivity. Qed.

Lemma keeps_undef {A} : keeps proj (undef (R := R) (A := A)).
Proof. intros s. exact I. Qed.

Lemma keeps_of_option {A} (o : option A) : keeps proj (of_option (R := R) o).
Proof. destruct o; [apply keeps_ret | apply keeps_undef]. Qed.

Lemma keeps_bind {A B} (m : M S R A) (k : A -> M S R B) :
  keeps proj m -> (forall a, keeps proj (k a)) -> keeps proj (bind m k).
Proof.
  intros Hm Hk s. apply wpx_bind.
  eapply wpx_mono; [apply Hm | | auto].
  intros a s' Hs'. cbv beta.
  eapply wpx_mono; [apply Hk | |]; cbv beta; intros; congruence.
Qed.

Lemma keeps_for_loop {A} (f : Z -> A -> M S R A) n :
  (forall i acc, keeps proj (f i acc)) ->
  forall i acc, keeps proj (for_loop n i f acc).
Proof.
  intros Hf. induction n as [| n IH]; intros i acc.
  - apply keeps_ret.
  - cbn [for_loop]. apply keeps_bind; [apply Hf | intros acc'; apply IH].
Qed.

Lemma keeps_for_ {A} (f : Z -> A -> M S R A) n acc :
  (forall i acc, keeps proj (f i acc)) -> keeps proj (for_ n f acc).
Proof. intros Hf. apply keeps_for_loop. exact Hf. Qed.

Lemma keeps_while_loop {A} (cond : A -> M S R bool) (f : A -> M S R A) n :
  (forall acc, keeps proj (cond acc)) ->
  (forall acc, keeps proj (f acc)) ->
  forall acc, keeps proj (while_loop n cond f acc).
Proof.
  intros Hcond Hf. induction n as [| n IH]; intros acc.
  - intros s. exact I.
  - cbn [while_loop]. apply keeps_bind; [apply Hcond |].
    intros [|]; [| apply keeps_ret].
    apply keeps_bind; [apply Hf | intros acc'; apply IH].
Qed.

End Keeps.

Lemma keeps_body {S R X} (proj : S -> X) (m : M S R R) :
  keeps proj m -> keeps proj (body m).
Proof. intros Hm s. apply wpx_body. apply Hm. Qed.

Lemma keeps_call {S R R' A X} (proj : S -> X) (m : M S R A) :
  keeps proj m -> keeps proj (call (R' := R') m).
Proof.
  intros Hm s. specialize (Hm s). unfold wpx, call in *.
  destruct (m s); auto.
Qed.

(** Decomposes a goal [keeps proj m] along the structure of [m]. *)
Ltac keeps_structure :=
  repeat match goal with
         | |- forall _, _ => intros
         | |- keeps _ (ret _) => apply keeps_ret
         | |- keeps _ (early _) => apply keeps_early
         | |- keeps _ undef => apply keeps_undef
         | |- keeps _ (of_option _) => apply keeps_of_option
         | |- keeps _ (bind _ _) => apply keeps_bind
         | |- keeps _ (for_ _ _ _) => apply keeps_for_
         | |- keeps _ (body _) => apply keeps_body
         | |- keeps _ (call _) => apply keeps_call
         | |- keeps _ (match ?x with _ => _ end) => destruct x
         end.

Section KeepsDriver.
Context `{raid_bus_h} {Srv : Type}.
Variable serve :
  Srv -> RAIDOpCode -> list payload -> Srv * (RAIDOpCode * list payload).
Context {X : Type} (proj : State Srv -> X).

Lemma keeps_gets {R A} (f : State Srv -> A) : keeps proj (gets (R := R) f).
Proof. intros s. reflexivity. Qed.

Lemma keeps_modify {R} (f : State Srv -> State Srv) :
  (forall s, proj (f s) = proj s) -> keeps proj (modify (R := R) f).
Proof. intros Hf s. apply Hf. Qed.

Lemma keeps_while {R A} (cond : A -> M (State Srv) R bool)
    (f : A -> M (State Srv) R A) acc :
  (forall acc, keeps proj (cond acc)) ->
  (forall acc, keeps proj (f acc)) ->
  keeps proj (while cond f acc).
Proof.
  intros Hcond Hf s. unfold while.
  apply (keeps_while_loop proj cond f _ Hcond Hf acc s).
Qed.

Lemma keeps_read_tagcounter {R} tag :
  keeps proj (read_tagcounter (R := R) tag).
Proof. unfold read_tagcounter. keeps_structure. apply keeps_gets. Qed.

Lemma keeps_read_array {R} disk : keeps proj (read_array (R := R) disk).
Proof. unfold read_array. keeps_structure. apply keeps_gets. Qed.

Lemma keeps_read_tag {R} tag k : keeps proj (read_tag (R := R) tag k).
Proof. unfold read_tag. keeps_structure. apply keeps_gets. Qed.

Lemma keeps_buf_at {R} buf k : keeps proj (buf_at (R := R) buf k).
Proof. unfold buf_at. keeps_structure. Qed.

Lemma keeps_buf_store {R} buf k src :
  keeps proj (buf_store (R := R) buf k src).
Proof. unfold buf_store. keeps_structure. Qed.

Lemma keeps_read_slot {R} p : keeps proj (read_slot (R := R) p).
Proof. unfold read_slot. keeps_structure. apply keeps_gets. Qed.

Lemma keeps_rand {R} :
  (forall v s, proj (set_rand_stream v s) = proj s) ->
  keeps proj (rand (R := R)).
Proof.
  intros Hrand s. unfold wpx, rand. destruct (rand_stream s); [exact I |].
  apply Hrand.
Qed.

Lemma keeps_chooseDisk {R} disk backupDisk blks :
  (forall v s, proj (set_rand_stream v s) = proj s) ->
  keeps proj (chooseDisk (R := R) disk backupDisk blks).
Proof.
  intros Hrand. unfold chooseDisk, deref.
  keeps_structure; try apply keeps_while; keeps_structure;
    apply keeps_rand, Hrand.
Qed.

Hypothesis Hpart : table_part proj.

Lemma keeps_call_put_raid_cache {R} dsk blk buf :
  keeps proj (call_put_raid_cache (R := R) dsk blk buf).
Proof using Hpart.
  unfold call_put_raid_cache. keeps_structure; try apply keeps_gets.
  apply keeps_modify. apply Hpart.
Qed.

Lemma keeps_call_get_raid_cache {R} dsk blk :
  keeps proj (call_get_raid_cache (R := R) dsk blk).
Proof using Hpart.
  unfold call_get_raid_cache. keeps_structure; try apply keeps_gets.
  apply keeps_modify. apply Hpart.
Qed.

Lemma keeps_call_extract_raid_response {R} resp operation :
  keeps proj (call_extract_raid_response (R := R) resp operation).
Proof using Hpart.
  unfold call_extract_raid_response. keeps_structure; try apply keeps_gets.
  apply keeps_modify. apply Hpart.
Qed.

Lemma keeps_return_if_invalid {R} resp operation (r : R) :
  keeps proj (return_if_invalid resp operation r).
Proof using Hpart.
  unfold return_if_invalid. keeps_structure.
  apply keeps_call_extract_raid_response.
Qed.

Lemma keeps_client_raid_bus_request {R} op buf off :
  keeps proj (client_raid_bus_request (R := R) serve op buf off).
Proof using Hpart.
  unfold client_raid_bus_request.
  keeps_structure; try apply keeps_gets; apply keeps_modify; apply Hpart.
Qed.

End KeepsDriver.

(** Solves [keeps proj m] for a part [proj] of the tables, given the proof
    [part] of [table_part proj], when [m] is made of reads of the tables,
    calls into the cache and the codec, bus requests and random draws;
    [others] is tried on the pieces it does not know. *)
Ltac keeps_io part others :=
  keeps_structure;
  lazymatch goal with
  | |- keeps _ (gets _) => apply keeps_gets
  | |- keeps _ (read_tag _ _) => apply keeps_read_tag
  | |- keeps _ (read_array _) => apply keeps_read_array
  | |- keeps _ (read_tagcounter _) => apply keeps_read_tagcounter
  | |- keeps _ (buf_at _ _) => apply keeps_buf_at
  | |- keeps _ (buf_store _ _ _) => apply keeps_buf_store
  | |- keeps _ (read_slot _) => apply keeps_read_slot
  | |- keeps _ rand => apply keeps_rand, part
  | |- keeps _ (call_put_raid_cache _ _ _) =>
      apply keeps_call_put_raid_cache, part
  | |- keeps _ (call_get_raid_cache _ _) =>
      apply keeps_call_get_raid_cache, part
  | |- keeps _ (call_extract_raid_response _ _) =>
      apply keeps_call_extract_raid_response, part
  | |- keeps _ (return_if_invalid _ _ _) =>
      apply keeps_return_if_invalid, part
  | |- keeps _ (client_raid_bus_request _ _ _ _) =>
      apply keeps_client_raid_bus_request, part
  | |- keeps _ (chooseDisk _ _ _) => apply keeps_chooseDisk, part
  | |- keeps _ (modify _) => apply keeps_modify; reflexivity
  | _ => others
  end.


(** ** Mirror integrity *)

Lemma wpx_and {S R A} U (m : M S R A) Q1 Q2 E1 E2 s :
  wpx U m Q1 E1 s -> wpx U m Q2 E2 s ->
  wpx U m (fun a s' => Q1 a s' /\ Q2 a s') (fun r s' => E1 r s' /\ E2 r s') s.
Proof. unfold wpx. destruct (m s); auto. Qed.

(** A run that keeps a part of the state keeps what holds of that part. *)
Lemma keeps_wpx {S R A X} (proj : S -> X) (m : M S R A) (P : X -> Prop) s :
  keeps proj m -> P (proj s) ->
  wpx True m (fun _ s' => P (proj s')) (fun _ s' => P (proj s')) s.
Proof.
  intros Hm HP. eapply wpx_mono; [apply Hm | |]; cbv beta;
    intros ? s' ->; exact HP.
Qed.

Lemma returns_end_state {S R A} (m : M S R A) (s : S) :
  returns m s = true -> exists a, m s = Val a (end_state m s).
Proof.
  unfold returns, end_state. destruct (m s) as [a s' | | |];
    try discriminate. eauto.
Qed.

Lemma idx_lookup {A} (l : list A) (i : Z) (x : A) :
  idx l i = Some x -> 0 <= i /\ l !! Z.to_nat i = Some x.
Proof.
  unfold idx. destruct (Z.ltb_spec i 0); [discriminate |]. auto.
Qed.

Lemma entry_lookup g tag k e :
  entry g tag k = Some e ->
  exists row, 0 <= tag /\ 0 <= k /\ g !! Z.to_nat tag = Some row
              /\ row !! Z.to_nat k = Some e.
Proof.
  unfold entry. destruct (idx g tag) as [row |] eqn:Hrow; [| discriminate].
  intros Hk. apply idx_lookup in Hrow as [? ?]. apply idx_lookup in Hk as [? ?].
  eauto 10.
Qed.

Lemma integrity_but_intro tag k g :
  mirror_integrity_of g -> integrity_but tag k distinct_copies g.
Proof.
  intros Hg. split.
  - intros tag' k' row e Hrow He _. exact (Hg tag' k' row e Hrow He).
  - intros e He. apply entry_lookup in He as (row & _ & _ & Hrow & He).
    exact (Hg _ _ row e Hrow He).
Qed.

Lemma integrity_but_elim tag k P g :
  integrity_but tag k P g -> (forall e, P e -> distinct_copies e) ->
  mirror_integrity_of g.
Proof.
  intros [Hothers Hthis] HP tag' k' row e Hrow He.
  destruct (decide ((Z.of_nat tag', Z.of_nat k') = (tag, k))) as [Heq | Hne].
  - injection Heq as <- <-. apply HP, Hthis. unfold entry, idx.
    destruct (Z.ltb_spec (Z.of_nat tag') 0); [lia |].
    rewrite Nat2Z.id, Hrow.
    destruct (Z.ltb_spec (Z.of_nat k') 0); [lia |].
    rewrite Nat2Z.id. exact He.
  - exact (Hothers tag' k' row e Hrow He Hne).
Qed.

Lemma integrity_but_weaken tag k (P P' : tagline.t -> Prop) g :
  integrity_but tag k P g -> (forall e, P e -> P' e) ->
  integrity_but tag k P' g.
Proof. intros [Hothers Hthis] HP. split; [exact Hothers | auto]. Qed.

Section Tables.
Context `{raid_bus_h} {Srv : Type}.
Variable serve :
  Srv -> RAIDOpCode -> list payload -> Srv * (RAIDOpCode * list payload).
Variable U : Prop.

Lemma wpx_gets {R A} (f : State Srv -> A) Q (E : R -> State Srv -> Prop) s :
  Q (f s) s -> wpx U (gets f) Q E s.
Proof. intros HQ. exact HQ. Qed.

Lemma wpx_modify {R} (f : State Srv -> State Srv) Q
    (E : R -> State Srv -> Prop) s :
  Q tt (f s) -> wpx U (modify f) Q E s.
Proof. intros HQ. exact HQ. Qed.

Lemma wpx_read_tag {R} tag k Q (E : R -> State Srv -> Prop) s :
  match entry (Globtag s) tag k with Some e => Q e s | None => U end ->
  wpx U (read_tag tag k) Q E s.
Proof.
  intros HQ. unfold read_tag, entry in *.
  apply wpx_bind, wpx_gets, wpx_bind, wpx_of_option.
  destruct (idx (Globtag s) tag) as [row |]; [| exact HQ].
  apply wpx_of_option. exact HQ.
Qed.

Lemma wpx_read_row {R} tag Q (E : R -> State Srv -> Prop) s :
  match idx (Globtag s) tag with Some row => Q row s | None => U end ->
  wpx U (read_row tag) Q E s.
Proof.
  intros HQ. unfold read_row.
  apply wpx_bind, wpx_gets, wpx_of_option. exact HQ.
Qed.

(** The loop of [tagline_close] over the rows changes nothing. *)
Lemma wpx_free_rows {R} n Q (E : R -> State Srv -> Prop) s :
  U -> Q tt s ->
  wpx U (for_ n (fun i _ => read_row (R := R) i ;; ret tt) tt) Q E s.
Proof.
  intros HU HQ.
  eapply wpx_mono;
    [apply (wpx_for_ U _ (fun _ _ st => st = s) (fun _ _ => False))
    | intros [] s' ->; exact HQ
    | intros r s' []].
  - reflexivity.
  - intros j [] st _ ->. apply wpx_bind, wpx_read_row.
    destruct (idx (Globtag s) j); [| exact HU].
    apply wpx_ret. reflexivity.
Qed.

Lemma wpx_call_close_raid_cache {R} Q (E : R -> State Srv -> Prop) s :
  match close_raid_cache (cache_globals s) with
  | Some (r, c') => Q r (set_cache_globals c' s)
  | None => U
  end ->
  wpx U call_close_raid_cache Q E s.
Proof.
  intros HQ. unfold call_close_raid_cache.
  apply wpx_bind, wpx_gets, wpx_bind, wpx_of_option.
  destruct (close_raid_cache (cache_globals s)) as [[r c'] |]; [| exact HQ].
  apply wpx_bind, wpx_modify, wpx_ret. exact HQ.
Qed.

Lemma wpx_write_tag {R} tag k f Q (E : R -> State Srv -> Prop) s :
  match idx (Globtag s) tag with
  | Some row =>
      match idx row k with
      | Some e => Q tt (set_Globtag (upd (Globtag s) tag (upd row k (f e))) s)
      | None => U
      end
  | None => U
  end ->
  wpx U (write_tag tag k f) Q E s.
Proof.
  intros HQ. unfold write_tag.
  apply wpx_bind, wpx_gets, wpx_bind, wpx_of_option.
  destruct (idx (Globtag s) tag) as [row |]; [| exact HQ].
  apply wpx_bind, wpx_of_option.
  destruct (idx row k) as [e |]; [| exact HQ].
  apply wpx_modify. exact HQ.
Qed.

End Tables.

Section Integrity.
Context `{raid_bus_h} {Srv : Type}.
Variable serve :
  Srv -> RAIDOpCode -> list payload -> Srv * (RAIDOpCode * list payload).

(** An assignment to a field of [Globtag[tag][k]] changes that block of
    the mapping only. *)
Lemma wpx_write_tag_integrity {R} tag k f (P P' : tagline.t -> Prop)
    (E : R -> State Srv -> Prop) s :
  integrity_but tag k P (Globtag s) ->
  (forall e, P e -> P' (f e)) ->
  wpx True (write_tag tag k f)
    (fun _ s' => integrity_but tag k P' (Globtag s')) E s.
Proof.
  intros [Hothers Hthis] HP. unfold write_tag.
  apply wpx_bind, wpx_gets, wpx_bind, wpx_of_option.
  destruct (idx (Globtag s) tag) as [row |] eqn:Hrow; [| exact I].
  apply wpx_bind, wpx_of_option.
  destruct (idx row k) as [e |] eqn:He; [| exact I].
  apply wpx_modify. cbn.
  assert (Hentry : entry (Globtag s) tag k = Some e).
  { unfold entry. rewrite Hrow. exact He. }
  apply idx_lookup in Hrow as [Htag Hrow]. apply idx_lookup in He as [Hk He].
  pose proof (lookup_lt_Some _ _ _ Hrow) as Hlt.
  pose proof (lookup_lt_Some _ _ _ He) as Hltk.
  unfold upd. split.
  - intros tag' k' row' e' Hrow' He' Hne.
    destruct (decide (tag' = Z.to_nat tag)) as [-> | Htag'].
    + rewrite list_lookup_insert_eq in Hrow' by exact Hlt.
      injection Hrow' as <-.
      destruct (decide (k' = Z.to_nat k)) as [-> | Hk'].
      * exfalso. apply Hne. f_equal; lia.
      * rewrite list_lookup_insert_ne in He' by congruence.
        exact (Hothers _ _ row e' Hrow He' Hne).
    + rewrite list_lookup_insert_ne in Hrow' by congruence.
      exact (Hothers _ _ row' e' Hrow' He' Hne).
  - intros e'. unfold entry, idx.
    destruct (Z.ltb_spec tag 0); [lia |].
    rewrite list_lookup_insert_eq by exact Hlt.
    destruct (Z.ltb_spec k 0); [lia |].
    rewrite list_lookup_insert_eq by exact Hltk.
    intros [= <-]. apply HP, Hthis, Hentry.
Qed.


Lemma Globtag_table_part : table_part (Globtag (Srv := Srv)).
Proof. repeat split. Qed.

Lemma keeps_Globtag_write_array {R} disk v :
  keeps Globtag (write_array (Srv := Srv) (R := R) disk v).
Proof.
  unfold write_array. keeps_structure; try apply keeps_gets.
  apply keeps_modify. reflexivity.
Qed.

Lemma keeps_Globtag_write_tagcounter {R} tag v :
  keeps Globtag (write_tagcounter (Srv := Srv) (R := R) tag v).
Proof.
  unfold write_tagcounter. keeps_structure; try apply keeps_gets.
  apply keeps_modify. reflexivity.
Qed.

(** Solves [keeps Globtag m] for the pieces of the driver that do not
    assign to the mapping. *)
Ltac keeps_Globtag :=
  keeps_io Globtag_table_part
    ltac:(idtac; lazymatch goal with
          | |- keeps _ (write_array _ _) => apply keeps_Globtag_write_array
          | |- keeps _ (write_tagcounter _ _) =>
              apply keeps_Globtag_write_tagcounter
          | |- keeps _ (count_available _ _ _) =>
              unfold count_available; keeps_Globtag
          | |- keeps _ (cache_disk_blocks _ _ _ _) =>
              unfold cache_disk_blocks; keeps_Globtag
          | |- keeps _ (cache_backup_blocks _ _ _ _) =>
              unfold cache_backup_blocks; keeps_Globtag
          | |- keeps _ (write_disk_batch _ _ _ _ _) =>
              unfold write_disk_batch; keeps_Globtag
          | |- keeps _ (write_backup_batch _ _ _ _ _ _) =>
              unfold write_backup_batch; keeps_Globtag
          end).

(** One step of a body that keeps the mapping, under a fact [P] about the
    mapping that implies mirror integrity. *)
Lemma wpx_keep_step {R A B} (m : M (State Srv) R A) (k : A -> M (State Srv) R B)
    (P : list (list tagline.t) -> Prop) Q s :
  keeps Globtag m ->
  P (Globtag s) ->
  (forall g, P g -> mirror_integrity_of g) ->
  (forall a s', P (Globtag s') ->
     wpx True (k a) Q (fun _ s'' => mirror_integrity s'') s') ->
  wpx True (bind m k) Q (fun _ s'' => mirror_integrity s'') s.
Proof.
  intros Hm HP Hinv Hk. apply wpx_bind.
  eapply wpx_mono; [apply (keeps_wpx Globtag m P s Hm HP) | |].
  - cbv beta. intros a s' HP'. apply Hk. exact HP'.
  - cbv beta. intros r s' HP'. apply Hinv. exact HP'.
Qed.

Lemma wpx_keep_last {R A} (m : M (State Srv) R A)
    (P : list (list tagline.t) -> Prop) s :
  keeps Globtag m ->
  P (Globtag s) ->
  (forall g, P g -> mirror_integrity_of g) ->
  wpx True m (fun _ s' => P (Globtag s')) (fun _ s'' => mirror_integrity s'') s.
Proof.
  intros Hm HP Hinv.
  eapply wpx_mono; [apply (keeps_wpx Globtag m P s Hm HP) | |]; cbv beta.
  - auto.
  - intros r s' HP'. apply Hinv. exact HP'.
Qed.

(** [chooseDisk] on two disks returns two different disks. *)
Lemma wpx_chooseDisk_both {R} d0 b0 blks (E : R -> State Srv -> Prop) s :
  wpx True (chooseDisk (Some d0) (Some b0) blks)
    (fun p _ => exists d b, p = (Some d, Some b) /\ d <> b) E s.
Proof.
  unfold chooseDisk. apply wpx_bind, wpx_ret, wpx_bind, wpx_ret.
  unfold while.
  eapply wpx_mono;
    [ apply (wpx_while_loop _ _
               (fun p _ => exists d b, p = (Some d, Some b))
               (fun p _ => forall d b, p = (Some d, Some b) -> d <> b) E)
    | | auto ].
  - eauto.
  - intros [d b] s0 (dv & bv & [= -> ->]).
    unfold deref. apply wpx_bind, wpx_ret, wpx_bind, wpx_ret, wpx_ret.
    split; [eauto |].
    intros Hne d b [= <- <-]. apply Z.eqb_neq. exact Hne.
  - intros acc s0 _. apply wpx_bind.
    unfold wpx, rand. destruct (rand_stream s0); [exact I |].
    apply wpx_bind.
    unfold wpx, rand. cbn. destruct l; [exact I |].
    cbn. eauto.
  - cbv beta. intros [d b] s' [(dv & bv & Heq) Hne].
    exists dv, bv. split; [exact Heq | apply Hne; exact Heq].
Qed.

Ltac solve_copies :=
  first
    [ exact (fun g Hg => Hg)
    | let g := fresh "g" in
      let Hg := fresh "Hg" in
      intros g Hg; apply (integrity_but_elim _ _ _ _ Hg);
      intros ?; unfold distinct_copies; cbn; intuition congruence ].

(** Steps over a piece of the body that keeps the mapping, carrying the
    fact about the mapping found among the hypotheses. *)
Ltac keep_step :=
  lazymatch goal with
  | HP : ?P (Globtag ?s) |- wpx True (bind _ _) _ _ ?s =>
      apply (wpx_keep_step _ _ P _ s);
      [ keeps_Globtag | exact HP | solve_copies
      | clear HP; intros ? ? HP; cbv beta ]
  | HP : mirror_integrity ?s |- wpx True (bind _ _) _ _ ?s =>
      apply (wpx_keep_step _ _ mirror_integrity_of _ s);
      [ keeps_Globtag | exact HP | solve_copies
      | clear HP; intros ? ? HP; cbv beta ]
  end.

(** The retry loop of [write_disk_rest] stops on a disk that is not the
    backup disk of the block. *)
Lemma wpx_retry_disk {R} tag bnum localBnum disk (s : State Srv) :
  mirror_integrity s ->
  wpx True
    (while (R := R)
       (fun disk =>
          cur <- read_tag tag localBnum ;;
          first <- read_tag tag bnum ;;
          ret ((tagline.backupDisk cur =? disk)
               || (tagline.backupDisk first =? disk)))
       (fun disk =>
          let* (disk, _) := chooseDisk (Some disk) None 1 in
          deref disk)
       disk)
    (fun disk s' =>
       integrity_but tag localBnum
         (fun e => distinct_copies e /\ tagline.backupDisk e <> disk)
         (Globtag s'))
    (fun _ s' => mirror_integrity s') s.
Proof.
  intros Hs. unfold while.
  eapply wpx_mono;
    [ apply (wpx_while_loop _ _
               (fun _ s' => mirror_integrity s')
               (fun disk s' => forall e,
                  entry (Globtag s') tag localBnum = Some e ->
                  tagline.backupDisk e <> disk)
               (fun _ s' => mirror_integrity s'))
    | | auto ].
  - exact Hs.
  - intros acc s0 Hs0. apply wpx_bind, wpx_read_tag.
    destruct (entry (Globtag s0) tag localBnum) as [cur |] eqn:Hcur;
      [| exact I].
    apply wpx_bind, wpx_read_tag.
    destruct (entry (Globtag s0) tag bnum) as [first |]; [| exact I].
    apply wpx_ret. split; [exact Hs0 |].
    intros Hb e He. rewrite Hcur in He. injection He as <-.
    apply orb_false_iff in Hb as [Hb _].
    apply Z.eqb_neq. exact Hb.
  - intros acc s0 Hs0.
    apply (wpx_keep_last _ mirror_integrity_of); [| exact Hs0 | solve_copies].
    unfold deref. keeps_Globtag.
  - cbv beta. intros disk' s' [Hs' Hexit].
    destruct (integrity_but_intro tag localBnum _ Hs') as [Hothers Hthis].
    split; [exact Hothers |]. intros e He. split; [auto | auto].
Qed.

(** The same for the backup disk. *)
Lemma wpx_retry_backup {R} tag bnum localBnum backupDisk (s : State Srv) :
  mirror_integrity s ->
  wpx True
    (while (R := R)
       (fun backupDisk =>
          cur <- read_tag tag localBnum ;;
          first <- read_tag tag bnum ;;
          ret ((tagline.disk cur =? backupDisk)
               || (tagline.disk first =? backupDisk)))
       (fun backupDisk =>
          let* (_, backupDisk) := chooseDisk None (Some backupDisk) 1 in
          deref backupDisk)
       backupDisk)
    (fun backupDisk s' =>
       integrity_but tag localBnum
         (fun e => distinct_copies e /\ tagline.disk e <> backupDisk)
         (Globtag s'))
    (fun _ s' => mirror_integrity s') s.
Proof.
  intros Hs. unfold while.
  eapply wpx_mono;
    [ apply (wpx_while_loop _ _
               (fun _ s' => mirror_integrity s')
               (fun backupDisk s' => forall e,
                  entry (Globtag s') tag localBnum = Some e ->
                  tagline.disk e <> backupDisk)
               (fun _ s' => mirror_integrity s'))
    | | auto ].
  - exact Hs.
  - intros acc s0 Hs0. apply wpx_bind, wpx_read_tag.
    destruct (entry (Globtag s0) tag localBnum) as [cur |] eqn:Hcur;
      [| exact I].
    apply wpx_bind, wpx_read_tag.
    destruct (entry (Globtag s0) tag bnum) as [first |]; [| exact I].
    apply wpx_ret. split; [exact Hs0 |].
    intros Hb e He. rewrite Hcur in He. injection He as <-.
    apply orb_false_iff in Hb as [Hb _].
    apply Z.eqb_neq. exact Hb.
  - intros acc s0 Hs0.
    apply (wpx_keep_last _ mirror_integrity_of); [| exact Hs0 | solve_copies].
    unfold deref. keeps_Globtag.
  - cbv beta. intros disk' s' [Hs' Hexit].
    destruct (integrity_but_intro tag localBnum _ Hs') as [Hothers Hthis].
    split; [exact Hothers |]. intros e He. split; [auto | auto].
Qed.

(** The outcome of a step is the outcome asked for. *)
Ltac pass_on :=
  let Hx := fresh "Hx" in cbv beta; intros ? ? Hx; exact Hx.

(** An assignment to the mapping, under a fact about the block. *)
Ltac assign_step P' :=
  lazymatch goal with
  | HP : integrity_but ?tag ?k ?P (Globtag ?s)
    |- wpx True (bind (write_tag ?tag ?k ?f) _) _ _ ?s =>
      apply wpx_bind;
      eapply wpx_mono;
      [ apply (wpx_write_tag_integrity tag k f P P'
                 (fun _ s'' => mirror_integrity s'') s HP);
        intros ?; unfold distinct_copies; cbn; intuition congruence
      | cbv beta; clear HP; intros ? ? HP
      | pass_on ]
  end.

Ltac split_pair :=
  match goal with
  | |- wpx _ (let '(_, _) := ?p in _) _ _ _ => destruct p
  end.

(** Closes a goal of mirror integrity from the fact at hand. *)
Ltac close_integrity :=
  lazymatch goal with
  | HP : ?P (Globtag ?s) |- mirror_integrity ?s =>
      revert HP; unfold mirror_integrity; generalize (Globtag s);
      solve_copies
  | HP : mirror_integrity ?s |- mirror_integrity ?s => exact HP
  end.

Lemma write_disk_rest_integrity tag bnum blks blocksAvailable disk buf
    (s : State Srv) :
  mirror_integrity s ->
  wpx True (write_disk_rest serve tag bnum blks blocksAvailable disk buf)
    (fun _ s' => mirror_integrity s') (fun _ s' => mirror_integrity s') s.
Proof.
  intros Hs. unfold write_disk_rest. apply wpx_bind.
  eapply wpx_mono;
    [ apply (wpx_for_ True _ (fun _ _ s' => mirror_integrity s'));
      [exact Hs |]
    | cbv beta; intros [[? ?] ?] s' Hs'; apply wpx_ret; exact Hs'
    | pass_on ].
  clear s Hs. intros i [[disk0 localBnum] buf0] s _ Hs.
  apply wpx_bind.
  eapply wpx_mono; [apply (wpx_retry_disk tag bnum localBnum disk0 s Hs) | |
                    pass_on].
  cbv beta. clear s Hs. intros disk1 s Hs.
  keep_step.
  apply wpx_bind.
  match goal with
  | |- wpx True (if ?b then _ else _) _ _ _ => destruct b
  end.
  - do 4 keep_step. split_pair. keep_step.
    assign_step (fun e => tagline.disk e = disk1
                          /\ tagline.backupDisk e <> disk1).
    do 3 keep_step.
    assign_step (fun e => tagline.disk e = disk1
                          /\ tagline.backupDisk e <> disk1).
    do 2 keep_step.
    apply wpx_ret, wpx_ret. close_integrity.
  - do 3 keep_step. split_pair. keep_step.
    apply wpx_ret, wpx_ret. close_integrity.
Qed.

Lemma write_backup_rest_integrity tag bnum blks blocksAvailable
    blocksAvailable2 backupDisk buf (s : State Srv) :
  mirror_integrity s ->
  wpx True
    (write_backup_rest serve tag bnum blks blocksAvailable blocksAvailable2
       backupDisk buf)
    (fun _ s' => mirror_integrity s') (fun _ s' => mirror_integrity s') s.
Proof.
  intros Hs. unfold write_backup_rest. apply wpx_bind.
  eapply wpx_mono;
    [ apply (wpx_for_ True _ (fun _ _ s' => mirror_integrity s'));
      [exact Hs |]
    | cbv beta; intros [[? ?] ?] s' Hs'; apply wpx_ret; exact Hs'
    | pass_on ].
  clear s Hs. intros i [[backupDisk0 localBnum] buf0] s _ Hs.
  apply wpx_bind.
  eapply wpx_mono;
    [apply (wpx_retry_backup tag bnum localBnum backupDisk0 s Hs) | | pass_on].
  cbv beta. clear s Hs. intros backupDisk1 s Hs.
  keep_step.
  apply wpx_bind.
  match goal with
  | |- wpx True (if ?b then _ else _) _ _ _ => destruct b
  end.
  - do 4 keep_step. split_pair. keep_step.
    assign_step (fun e => tagline.backupDisk e = backupDisk1
                          /\ tagline.disk e <> backupDisk1).
    do 3 keep_step.
    assign_step (fun e => tagline.backupDisk e = backupDisk1
                          /\ tagline.disk e <> backupDisk1).
    apply wpx_ret, wpx_ret. close_integrity.
  - do 3 keep_step. split_pair. keep_step.
    apply wpx_ret, wpx_ret. close_integrity.
Qed.

(** Appending assigns both disks of every block of the range, and the two
    disks differ. *)
Lemma write_append_integrity tag bnum blks disk backupDisk buf
    (s : State Srv) :
  mirror_integrity s -> disk <> backupDisk ->
  wpx True (write_append serve tag bnum blks disk backupDisk buf)
    (fun _ s' => mirror_integrity s') (fun _ s' => mirror_integrity s') s.
Proof.
  intros Hs Hne. unfold write_append.
  do 3 keep_step. split_pair. do 4 keep_step. split_pair. do 3 keep_step.
  apply wpx_bind.
  eapply wpx_mono;
    [ apply (wpx_for_ True _ (fun _ _ s' => mirror_integrity s'));
      [exact Hs |]
    | cbv beta; intros ? ? Hs'; apply wpx_ret; exact Hs'
    | pass_on ].
  clear Hs. intros i localBnum s0 _ Hs.
  apply (integrity_but_intro tag localBnum) in Hs.
  assign_step (fun e => tagline.disk e = disk).
  assign_step (fun e => tagline.disk e = disk
                        /\ tagline.backupDisk e = backupDisk).
  do 5 keep_step.
  assign_step (fun e => tagline.disk e = disk
                        /\ tagline.backupDisk e = backupDisk).
  keep_step.
  assign_step (fun e => tagline.disk e = disk
                        /\ tagline.backupDisk e = backupDisk).
  apply wpx_ret. close_integrity.
Qed.

Lemma chooseDisk_both_integrity {R} d0 b0 blks (s : State Srv) :
  mirror_integrity s ->
  wpx True (chooseDisk (R := R) (Some d0) (Some b0) blks)
    (fun p s' => mirror_integrity s'
                 /\ exists d b, p = (Some d, Some b) /\ d <> b)
    (fun _ s' => mirror_integrity s') s.
Proof.
  intros Hs.
  assert (Hkeeps : keeps Globtag
                     (chooseDisk (Srv := Srv) (R := R) (Some d0) (Some b0) blks))
    by keeps_Globtag.
  eapply wpx_mono;
    [ apply (wpx_and True _ _ _ _ _ s
               (wpx_keep_last _ mirror_integrity_of s Hkeeps Hs
                  ltac:(solve_copies))
               (wpx_chooseDisk_both d0 b0 blks (fun _ _ => True) s))
    | cbv beta; auto
    | cbv beta; tauto ].
Qed.

(** [tagline_write] keeps mirror integrity, whether it succeeds or fails. *)
Lemma tagline_write_integrity tag bnum blks buf (s : State Srv) :
  mirror_integrity s ->
  wpx True (tagline_write serve tag bnum blks buf)
    (fun _ s' => mirror_integrity s') (fun _ s' => mirror_integrity s') s.
Proof.
  intros Hs. unfold tagline_write. apply wpx_body.
  do 3 keep_step.
  apply wpx_bind.
  eapply wpx_mono; [apply (chooseDisk_both_integrity _ _ _ _ Hs) | | pass_on].
  cbv beta. clear Hs. intros [? ?] s0 [Hs (disk & backupDisk & [= -> ->] & Hne)].
  unfold deref. apply wpx_bind, wpx_ret, wpx_bind, wpx_ret.
  keep_step. split_pair.
  apply wpx_bind.
  eapply wpx_mono with (Q := fun _ s' => mirror_integrity s');
    [ | cbv beta; clear Hs; intros ? ? Hs | pass_on ].
  - destruct (bnum <? a); [| apply wpx_ret; exact Hs].
    do 2 keep_step.
    apply wpx_bind.
    eapply wpx_mono with (Q := fun _ s' => mirror_integrity s');
      [ | cbv beta; clear Hs; intros ? ? Hs | pass_on ].
    + match goal with
      | |- wpx True (if ?b then _ else _) _ _ _ => destruct b
      end; [| apply wpx_ret; exact Hs].
      keep_step. apply wpx_bind.
      eapply wpx_mono; [apply write_disk_rest_integrity; exact Hs | | pass_on].
      cbv beta. intros [? ?] ? Hs'. apply wpx_ret. exact Hs'.
    + match goal with
      | |- wpx True (if ?b then _ else _) _ _ _ => destruct b
      end; [| apply wpx_ret; exact Hs].
      keep_step. apply wpx_bind.
      eapply wpx_mono;
        [apply write_backup_rest_integrity; exact Hs | | pass_on].
      cbv beta. intros [? ?] ? Hs'. apply wpx_ret. exact Hs'.
  - apply wpx_bind.
    eapply wpx_mono with (Q := fun _ s' => mirror_integrity s');
      [ | cbv beta; intros ? ? Hs'; apply wpx_ret; exact Hs' | pass_on ].
    match goal with
    | |- wpx True (if ?b then _ else _) _ _ _ => destruct b
    end; [| apply wpx_ret; exact Hs].
    apply write_append_integrity; assumption.
Qed.

Lemma tagline_read_keeps tag bnum blks buf :
  keeps Globtag (tagline_read serve tag bnum blks buf).
Proof. unfold tagline_read. keeps_Globtag. Qed.

Lemma raid_disk_recover_keeps disk :
  keeps Globtag (raid_disk_recover serve disk).
Proof. unfold raid_disk_recover. keeps_Globtag. Qed.

Lemma raid_disk_signal_keeps : keeps Globtag (raid_disk_signal serve).
Proof.
  unfold raid_disk_signal.
  keeps_structure;
    lazymatch goal with
    | |- keeps _ (raid_disk_recover _ _) => apply raid_disk_recover_keeps
    | _ => keeps_Globtag
    end.
Qed.

Lemma unassigned_integrity n m :
  mirror_integrity_of (replicate n (replicate m tagline.unassigned)).
Proof.
  intros tag k row e Hrow He.
  apply lookup_replicate in Hrow as [-> _].
  apply lookup_replicate in He as [-> _].
  unfold distinct_copies. cbn. intros [Hd | Hb]; contradiction.
Qed.

Lemma no_tables_integrity : mirror_integrity_of [].
Proof. intros tag k row e Hrow. rewrite lookup_nil in Hrow. discriminate. Qed.

(** [tagline_driver_init] makes a mapping with no block assigned. *)
Lemma tagline_driver_init_integrity maxlines heap (s : State Srv) :
  wpx True (tagline_driver_init serve maxlines heap)
    (fun _ s' => mirror_integrity s') (fun _ s' => mirror_integrity s') s.
Proof.
  unfold tagline_driver_init. apply wpx_body.
  apply wpx_bind, wpx_modify, wpx_bind, wpx_gets, wpx_bind, wpx_modify,
    wpx_bind, wpx_modify.
  match goal with
  | |- wpx True ?m _ _ ?s0 =>
      assert (Hs : mirror_integrity s0) by apply unassigned_integrity;
      assert (Hm : keeps Globtag m) by keeps_Globtag;
      exact (wpx_keep_last m mirror_integrity_of s0 Hm Hs
               ltac:(solve_copies))
  end.
Qed.

(** [tagline_close] frees the mapping. *)
Lemma tagline_close_integrity (s : State Srv) :
  mirror_integrity s ->
  wpx True (tagline_close serve)
    (fun _ s' => mirror_integrity s') (fun _ s' => mirror_integrity s') s.
Proof.
  intros Hs. unfold tagline_close. apply wpx_body.
  keep_step. split_pair. keep_step.
  apply wpx_bind, wpx_call_close_raid_cache.
  destruct (close_raid_cache _) as [[r0 c0] |]; [| exact I].
  apply wpx_bind, wpx_gets, wpx_bind, wpx_free_rows; [exact I |].
  apply wpx_bind, wpx_modify, wpx_bind, wpx_modify, wpx_ret.
  apply no_tables_integrity.
Qed.

(** Every operation of the driver keeps mirror integrity. *)
Lemma driver_step_integrity (s s' : State Srv) :
  mirror_integrity s -> driver_step serve s s' -> mirror_integrity s'.
Proof.
  intros Hs Hstep.
  destruct Hstep as [maxlines heap s r s' Hrun | tag bnum blks buf s r s' Hrun
                    | tag bnum blks buf s r s' Hrun | s r s' Hrun
                    | s r s' Hrun].
  - exact (wpx_val _ _ _ _ _ _ _
             (tagline_driver_init_integrity maxlines heap s) Hrun).
  - exact (wpx_val _ _ _ _ _ _ _
             (wpx_keep_last _ mirror_integrity_of s
                (tagline_read_keeps tag bnum blks buf) Hs
                ltac:(solve_copies)) Hrun).
  - exact (wpx_val _ _ _ _ _ _ _
             (tagline_write_integrity tag bnum blks buf s Hs) Hrun).
  - exact (wpx_val _ _ _ _ _ _ _
             (wpx_keep_last _ mirror_integrity_of s
                raid_disk_signal_keeps Hs ltac:(solve_copies)) Hrun).
  - exact (wpx_val _ _ _ _ _ _ _ (tagline_close_integrity s Hs) Hrun).
Qed.

End Integrity.

(** C2. In every state the driver can reach from program start by any
    sequence of its operations (init, read, write, signal-and-recover,
    close; successful or failed; whatever the array answers), every block
    of every tagline whose mapping has been assigned has its primary disk
    different from its backup disk. *)
Theorem mirror_integrity_always `{raid_bus_h} {Srv : Type}
    (serve : Srv -> RAIDOpCode -> list payload
             -> Srv * (RAIDOpCode * list payload))
    (s : State Srv) :
  reachable serve s -> mirror_integrity s.
Proof.
  intros Hreach. induction Hreach as [rand_stream raid | s s' _ IH Hstep].
  - exact no_tables_integrity.
  - exact (driver_step_integrity serve s s' IH Hstep).
Qed.

Lemma example_ready_reachable :
  reachable (H := small_config) small_serve example_ready.
Proof.
  apply (reach_step _ example_boot); [apply reach_boot |].
  destruct (returns_end_state
              (tagline_driver_init (H := small_config) small_serve 2
                 (fun _ => 0)) example_boot) as [r Hrun];
    [vm_compute; reflexivity |].
  exact (step_init _ _ _ _ _ _ Hrun).
Qed.

Lemma example_written_reachable :
  reachable (H := small_config) small_serve example_written.
Proof.
  apply (reach_step _ example_ready); [exact example_ready_reachable |].
  destruct (returns_end_state
              (tagline_write (H := small_config) small_serve 0 0 3
                 [blk 1; blk 2; blk 3]) example_ready) as [r Hrun];
    [vm_compute; reflexivity |].
  exact (step_write _ _ _ _ _ _ _ _ Hrun).
Qed.

Lemma mirror_integrity_always_witness :
  reachable (H := small_config) small_serve example_written
  /\ mirror_integrity example_written.
Proof.
  split; [exact example_written_reachable |].
  apply (mirror_integrity_always (H := small_config) small_serve).
  exact example_written_reachable.
Defined.


(** ** Recovery *)

Lemma value_of_end_state {S R A} (m : M S R A) (s : S) (a : A) :
  value_of m s = Some a -> m s = Val a (end_state m s).
Proof.
  unfold value_of, end_state. destruct (m s); try discriminate.
  intros [= ->]. reflexivity.
Qed.

Section Recovery.
Context `{raid_bus_h} {Srv : Type}.
Variable serve :
  Srv -> RAIDOpCode -> list payload -> Srv * (RAIDOpCode * list payload).

Lemma cursors_table_part : table_part (cursors (Srv := Srv)).
Proof. repeat split. Qed.

(** [array[disk].status = st;] leaves the cursor of the disk. *)
Lemma keeps_cursors_set_status {R A} disk st (k : unit -> M (State Srv) R A) :
  (forall u, keeps cursors (k u)) ->
  keeps cursors
    (bind (read_array disk)
       (fun d => bind (write_array disk (disks.mk st (disks.blocks d))) k)).
Proof.
  intros Hk s. unfold read_array, write_array.
  apply wpx_bind, wpx_bind, wpx_gets, wpx_of_option.
  destruct (idx (array s) disk) as [d |] eqn:Hd; [| exact I].
  apply wpx_bind, wpx_bind, wpx_gets, wpx_bind, wpx_of_option.
  rewrite Hd. apply wpx_modify.
  assert (Hsame : cursors
                    (set_array (upd (array s) disk
                                  (disks.mk st (disks.blocks d))) s)
                  = cursors s).
  { unfold cursors, upd. cbn. rewrite list_fmap_insert. cbn.
    apply list_insert_id. rewrite list_lookup_fmap.
    apply idx_lookup in Hd as [_ ->]. reflexivity. }
  eapply wpx_mono; [apply Hk | |]; cbv beta; intros; congruence.
Qed.

Ltac keeps_cursors := keeps_io cursors_table_part ltac:(fail).

Lemma raid_disk_recover_keeps_cursors disk :
  keeps cursors (raid_disk_recover serve disk).
Proof.
  unfold raid_disk_recover. apply keeps_body.
  apply keeps_bind; [keeps_cursors | intros [? ?]].
  apply keeps_bind; [keeps_cursors | intros ?].
  apply keeps_bind; [keeps_cursors | intros ?].
  apply keeps_bind; [keeps_cursors | intros ?].
  apply keeps_cursors_set_status. intros u. apply keeps_ret.
Qed.

End Recovery.

(** C8, as amended. Recovery of a disk does not reset its allocation
    cursor: [raid_disk_recover] leaves the cursor of every disk and the
    whole mapping as they were, so the lost blocks go back to the positions
    recorded for them. *)
Theorem recovery_keeps_cursors `{raid_bus_h} {Srv : Type}
    (serve : Srv -> RAIDOpCode -> list payload
             -> Srv * (RAIDOpCode * list payload))
    (disk : Z) (s s' : State Srv) (r : Z) :
  raid_disk_recover serve disk s = Val r s' ->
  cursors s' = cursors s /\ Globtag s' = Globtag s.
Proof.
  intros Hrun. split.
  - exact (wpx_val _ _ _ _ _ _ _
             (raid_disk_recover_keeps_cursors serve disk s) Hrun).
  - exact (wpx_val _ _ _ _ _ _ _
             (raid_disk_recover_keeps serve disk s) Hrun).
Qed.

Lemma recovery_keeps_cursors_witness :
  let m := raid_disk_recover (H := small_config) small_serve 0 in
  cursors (end_state m example_failed) = cursors example_failed
  /\ Globtag (end_state m example_failed) = Globtag example_failed.
Proof.
  intros m.
  apply (recovery_keeps_cursors (H := small_config) small_serve 0
           example_failed (end_state m example_failed) 0).
  apply value_of_end_state. vm_compute. reflexivity.
Defined.

(** C8, as stated, fails: disk 0 holds three blocks and fails; recovery
    reformats it, writes the three blocks back and succeeds, and the cursor
    of the disk is where it was, not at the value of an empty disk. *)
Lemma recovery_leaves_cursor :
  let m := raid_disk_recover (H := small_config) small_serve 0 in
  value_of m example_failed = Some 0
  /\ idx (cursors (end_state m example_failed)) 0 = Some 2
  /\ ~ cursor_reset (end_state m example_failed) 0.
Proof.
  intros m. split; [vm_compute; reflexivity |].
  split; [vm_compute; reflexivity |].
  unfold cursor_reset. vm_compute. discriminate.
Qed.


(** ** Round trip *)

Section Bus.
Context `{raid_bus_h}.
Hypothesis Hconfig : config_ok.
Variable U : Prop.

Lemma fake_serve_write a op sent :
  faults a = [] -> op_type op = RAID_WRITE ->
  fake_serve a op sent
  = (mkFakeArray (store_blocks (stored a) (op_disk op) (op_id op) sent)
       (failed a) [] (op :: requests a), (op, sent)).
Proof.
  intros Hf Ht. unfold fake_serve. rewrite Hf, Ht, Z.eqb_refl. reflexivity.
Qed.

Lemma fake_serve_read a op sent :
  faults a = [] -> op_type op = RAID_READ ->
  fake_serve a op sent
  = (mkFakeArray (stored a) (failed a) [] (op :: requests a),
     (op, map (fun k => stored a (op_disk op) (op_id op + Z.of_nat k))
              (seq 0 (Z.to_nat (op_blocks op))))).
Proof using Hconfig.
  intros Hf Ht. unfold fake_serve. rewrite Hf, Ht.
  destruct Hconfig as (_ & _ & _ & Hne).
  destruct (Z.eqb_spec RAID_READ RAID_WRITE); [contradiction |].
  rewrite Z.eqb_refl. reflexivity.
Qed.

(** A WRITE of the whole buffer: the array stores the blocks and echoes. *)
Lemma wpx_client_write {R} (data : list payload) disk pos
    (Q : RAIDOpCode * list payload -> State FakeArray -> Prop)
    (E : R -> State FakeArray -> Prop) s :
  byte_range disk -> word_range pos ->
  Z.of_nat (length data) <= 255 ->
  faults (raid s) = [] ->
  let op := create_raid_request RAID_WRITE (Z.of_nat (length data)) disk pos in
  Q (op, data)
    (set_raid
       (mkFakeArray (store_blocks (stored (raid s)) disk pos data)
          (failed (raid s)) [] (op :: requests (raid s))) s) ->
  wpx U (client_raid_bus_request fake_serve op data 0) Q E s.
Proof using Hconfig.
  intros Hd Hp Hn Hf op HQ.
  destruct Hconfig as (_ & _ & Hw & _).
  destruct (request_fields RAID_WRITE (Z.of_nat (length data)) disk pos)
    as (Ht & Hb & Hdk & Hid & Hblocks);
    [assumption | unfold byte_range; lia | assumption | assumption |].
  fold op in Ht, Hb, Hdk, Hid, Hblocks.
  unfold client_raid_bus_request.
  change (u8 (shr64 op 56)) with (op_type op).
  rewrite Ht, Z.eqb_refl, orb_true_r, Hblocks.
  destruct (Z.ltb_spec 0 0); [lia |].
  destruct (Z.ltb_spec (Z.of_nat (length data))
              (0 + Z.of_nat (length data))); [lia |].
  cbn [orb]. apply wpx_bind, wpx_gets.
  rewrite fake_serve_write by assumption.
  apply wpx_bind, wpx_modify, wpx_ret.
  rewrite Hdk, Hid.
  replace (Z.to_nat 0) with 0%nat by lia.
  rewrite Nat2Z.id. cbn [take drop app Nat.add].
  rewrite firstn_all, drop_all, app_nil_r.
  unfold receive. rewrite firstn_all, drop_all, app_nil_r.
  exact HQ.
Qed.

(** A READ of one block into block [i] of the buffer: the array sends what
    it stores. *)
Lemma wpx_client_read {R} (buf : list payload) (i : nat) disk pos
    (Q : RAIDOpCode * list payload -> State FakeArray -> Prop)
    (E : R -> State FakeArray -> Prop) s :
  byte_range disk -> word_range pos ->
  (i < length buf)%nat ->
  faults (raid s) = [] ->
  let op := create_raid_request RAID_READ 1 disk pos in
  Q (op, <[i := stored (raid s) disk pos]> buf)
    (set_raid
       (mkFakeArray (stored (raid s)) (failed (raid s)) []
          (op :: requests (raid s))) s) ->
  wpx U (client_raid_bus_request fake_serve op buf (Z.of_nat i)) Q E s.
Proof using Hconfig.
  intros Hd Hp Hi Hf op HQ.
  destruct Hconfig as (_ & Hr & _ & _).
  destruct (request_fields RAID_READ 1 disk pos)
    as (Ht & Hb & Hdk & Hid & Hblocks);
    [assumption | unfold byte_range; lia | assumption | assumption |].
  fold op in Ht, Hb, Hdk, Hid, Hblocks.
  unfold client_raid_bus_request.
  change (u8 (shr64 op 56)) with (op_type op).
  rewrite Ht, Z.eqb_refl, Hblocks. cbn [orb].
  destruct (Z.ltb_spec (Z.of_nat i) 0); [lia |].
  destruct (Z.ltb_spec (Z.of_nat (length buf)) (Z.of_nat i + 1)); [lia |].
  cbn [orb]. apply wpx_bind, wpx_gets.
  rewrite fake_serve_read by assumption.
  apply wpx_bind, wpx_modify, wpx_ret.
  rewrite Hdk, Hid, Hb, Nat2Z.id.
  replace (Z.to_nat 1) with 1%nat by lia. cbn [seq map].
  replace (pos + Z.of_nat 0) with pos by lia.
  destruct (drop i buf) as [| x rest] eqn:Hdrop.
  { apply (f_equal length) in Hdrop. rewrite length_drop in Hdrop.
    cbn in Hdrop. lia. }
  unfold receive. cbn [take length drop app].
  rewrite (insert_take_drop buf i _ Hi) in HQ.
  replace (i + 1)%nat with (Datatypes.S i) by lia.
  exact HQ.
Qed.

End Bus.

Section Steps.
Context `{raid_bus_h} {Srv : Type}.
Variable U : Prop.
Context {R : Type}.
Implicit Types (s : State Srv) (E : R -> State Srv -> Prop).

Lemma wpx_read_array disk (Q : disks.t -> State Srv -> Prop) E s :
  match idx (array s) disk with Some d => Q d s | None => U end ->
  wpx U (read_array disk) Q E s.
Proof.
  intros HQ. unfold read_array.
  apply wpx_bind, wpx_gets, wpx_of_option. exact HQ.
Qed.

Lemma wpx_write_array disk v (Q : unit -> State Srv -> Prop) E s :
  match idx (array s) disk with
  | Some _ => Q tt (set_array (upd (array s) disk v) s)
  | None => U
  end ->
  wpx U (write_array disk v) Q E s.
Proof.
  intros HQ. unfold write_array.
  apply wpx_bind, wpx_gets, wpx_bind, wpx_of_option.
  destruct (idx (array s) disk); [| exact HQ].
  apply wpx_modify. exact HQ.
Qed.

Lemma wpx_read_tagcounter tag (Q : Z -> State Srv -> Prop) E s :
  match idx (tagcounter s) tag with Some c => Q c s | None => U end ->
  wpx U (read_tagcounter tag) Q E s.
Proof.
  intros HQ. unfold read_tagcounter.
  apply wpx_bind, wpx_gets, wpx_of_option. exact HQ.
Qed.

Lemma wpx_write_tagcounter tag v (Q : unit -> State Srv -> Prop) E s :
  match idx (tagcounter s) tag with
  | Some _ => Q tt (set_tagcounter (upd (tagcounter s) tag v) s)
  | None => U
  end ->
  wpx U (write_tagcounter tag v) Q E s.
Proof.
  intros HQ. unfold write_tagcounter.
  apply wpx_bind, wpx_gets, wpx_bind, wpx_of_option.
  destruct (idx (tagcounter s) tag); [| exact HQ].
  apply wpx_modify. exact HQ.
Qed.

Lemma wpx_buf_at buf k (Q : payload -> State Srv -> Prop) E s :
  match idx buf k with Some b => Q b s | None => U end ->
  wpx U (buf_at buf k) Q E s.
Proof. intros HQ. unfold buf_at. apply wpx_of_option. exact HQ. Qed.

Lemma wpx_buf_store buf k src (Q : list payload -> State Srv -> Prop) E s :
  match idx buf k with Some _ => Q (upd buf k src) s | None => U end ->
  wpx U (buf_store buf k src) Q E s.
Proof.
  intros HQ. unfold buf_store. apply wpx_bind, wpx_of_option.
  destruct (idx buf k); [| exact HQ]. apply wpx_ret. exact HQ.
Qed.

Lemma wpx_call_put_raid_cache dsk blk buf (Q : Z -> State Srv -> Prop) E s :
  match put_raid_cache dsk blk buf (cache_globals s) with
  | Some (r, c') => Q r (set_cache_globals c' s)
  | None => U
  end ->
  wpx U (call_put_raid_cache dsk blk buf) Q E s.
Proof.
  intros HQ. unfold call_put_raid_cache.
  apply wpx_bind, wpx_gets, wpx_bind, wpx_of_option.
  destruct (put_raid_cache dsk blk buf (cache_globals s)) as [[r c'] |];
    [| exact HQ].
  apply wpx_bind, wpx_modify, wpx_ret. exact HQ.
Qed.

Lemma wpx_call_get_raid_cache dsk blk (Q : option nat -> State Srv -> Prop)
    E s :
  match get_raid_cache dsk blk (cache_globals s) with
  | Some (p, c') => Q p (set_cache_globals c' s)
  | None => U
  end ->
  wpx U (call_get_raid_cache dsk blk) Q E s.
Proof.
  intros HQ. unfold call_get_raid_cache.
  apply wpx_bind, wpx_gets, wpx_bind, wpx_of_option.
  destruct (get_raid_cache dsk blk (cache_globals s)) as [[p c'] |];
    [| exact HQ].
  apply wpx_bind, wpx_modify, wpx_ret. exact HQ.
Qed.

Lemma wpx_read_slot p (Q : payload -> State Srv -> Prop) E s :
  match slot_data (cache_globals s) p with Some b => Q b s | None => U end ->
  wpx U (read_slot p) Q E s.
Proof.
  intros HQ. unfold read_slot.
  apply wpx_bind, wpx_gets, wpx_of_option. exact HQ.
Qed.

(** A valid response lets the body go on; only [GlobResponse] changes. *)
Lemma wpx_return_if_valid response operation (r : R)
    (Q : unit -> State Srv -> Prop) E s :
  verdict response operation = 0 ->
  (forall g, Q tt (set_GlobResponse g s)) ->
  wpx U (return_if_invalid response operation r) Q E s.
Proof.
  intros Hv HQ. unfold return_if_invalid, call_extract_raid_response.
  apply wpx_bind, wpx_bind, wpx_gets.
  pose proof (extract_raid_response_verdict response operation
                (GlobResponse s)) as Hfst.
  destruct (extract_raid_response response operation (GlobResponse s))
    as [v g]. cbn in Hfst. subst v.
  apply wpx_bind, wpx_modify, wpx_ret. rewrite Hv. exact (HQ g).
Qed.

End Steps.

Lemma key_of_position disk pos :
  byte_range disk -> 0 <= pos < 2 ^ 31 ->
  (RAIDDiskID disk, RAIDBlockID pos) = (disk, pos)
  /\ (disk, pos) <> unused_key.
Proof.
  intros Hd Hp. unfold RAIDDiskID, RAIDBlockID.
  rewrite (u8_small disk Hd), (u32_small pos) by (unfold word_range; lia).
  split; [reflexivity |]. unfold unused_key, RAIDDiskID, RAIDBlockID.
  change (u32 (-1)) with (2 ^ 32 - 1). intros [= _ Hpos]. lia.
Qed.

Section ReadBack.
Context `{raid_bus_h}.
Hypothesis Hconfig : config_ok.
Variables (tag bnum disk pos : Z) (data : list payload).
Variable s0 : State FakeArray.
Hypothesis Happ : appended tag bnum data disk pos s0.
Hypothesis Hshort : Z.of_nat (length data) <= 255.

(** One turn of the loop of [tagline_read]. *)
Lemma tagline_read_turn (E : Z * list payload -> State FakeArray -> Prop)
    (i : Z) operation response buf s :
  0 <= i < Z.of_nat (length data) ->
  reading data disk pos s0 i (operation, response, buf) s ->
  wpx False
    (e <- read_tag tag (bnum + i) ;;
     tempbuf <- call_get_raid_cache (tagline.disk e) (tagline.diskPosition e) ;;
     match tempbuf with
     | Some p =>
         b <- read_slot p ;;
         buf <- buf_store buf i b ;;
         ret (operation, response, buf)
     | None =>
         let operation :=
           create_raid_request RAID_READ 1
             (tagline.disk e) (tagline.diskPosition e) in
         let* (response, buf) :=
           client_raid_bus_request fake_serve operation buf i in
         b <- buf_at buf i ;;
         call_put_raid_cache (tagline.disk e) (tagline.diskPosition e) b ;;
         ret (operation, response, buf)
     end)
    (fun locals s' => reading data disk pos s0 (i + 1) locals s') E s.
Proof using Hconfig Happ Hshort.
  intros Hi (Htags & Hwf & Hmax & Hcached & Hfaults & Hstored & Hvalid
             & Hlen & Hdone).
  destruct Happ as [Hdisk Hpos Hmapping _ Hsize _ _ Hdata].
  set (n := Z.to_nat i).
  assert (Hn : i = Z.of_nat n) by lia.
  assert (Hnlt : (n < length data)%nat) by lia.
  destruct (Hmapping n Hnlt) as (e & He & Hed & Hep).
  destruct (lookup_lt_is_Some_2 data n Hnlt) as [p Hp].
  destruct (key_of_position disk (pos + i) Hdisk ltac:(lia)) as [Hkey Hused].
  apply wpx_bind, wpx_read_tag. rewrite Htags, Hn, He, Hed, Hep, <- Hn.
  apply wpx_bind, wpx_call_get_raid_cache.
  destruct (get_raid_cache_cases disk (pos + i) (cache_globals s) Hwf)
    as (res & c' & Hget & Hmax' & _ & Hres).
  rewrite Hget.
  pose proof (get_raid_cache_wf _ _ _ _ _ Hwf Hget) as Hwf'.
  assert (Hcached' : forall (j : nat) q, data !! j = Some q ->
            caches c' (disk, pos + Z.of_nat j) q).
  { intros j q Hq.
    exact (get_raid_cache_caches _ _ _ _ _ _ _ Hwf Hget (Hcached j q Hq)). }
  assert (Hidx : forall (b : list payload), length b = length data ->
            exists x, idx b i = Some x).
  { intros b Hb. unfold idx. destruct (Z.ltb_spec i 0); [lia |].
    apply lookup_lt_is_Some_2. fold n. lia. }
  assert (Hnext : forall (b : list payload) (x : payload),
            length b = length data ->
            (forall j : nat, Z.of_nat j < i -> b !! j = data !! j) ->
            forall j : nat, Z.of_nat j < i + 1 ->
              <[n := p]> b !! j = data !! j).
  { intros b _ Hb Hbefore j Hj. destruct (decide (j = n)) as [-> | Hne].
    - rewrite list_lookup_insert_eq by lia. symmetry. exact Hp.
    - rewrite list_lookup_insert_ne by congruence. apply Hbefore. lia. }
  destruct res as [slot |].
  - (* a hit: the slot holds the data *)
    destruct Hres as (e0 & He0 & Hk0 & _ & Harr).
    rewrite Hkey in Hk0.
    assert (Hd0 : cache.data e0 = p).
    { apply (Hcached n p Hp slot e0 He0). rewrite <- Hn. exact Hk0. }
    apply wpx_bind, wpx_read_slot. unfold slot_data. cbn.
    rewrite Harr, list_lookup_insert_eq by (eapply lookup_lt_Some; eauto).
    cbn. rewrite Hd0.
    apply wpx_bind, wpx_buf_store.
    destruct (Hidx buf Hlen) as [x ->].
    apply wpx_ret. cbn.
    split_and!; try assumption.
    + rewrite Hmax'. exact Hmax.
    + unfold upd. rewrite length_insert. exact Hlen.
    + unfold upd. fold n. apply (Hnext buf p); assumption.
  - (* a miss: the array sends the data, which goes to the cache *)
    destruct Hres as [_ Harr].
    rewrite Hn. apply wpx_bind.
    apply wpx_client_read;
      [exact Hconfig | exact Hdisk | unfold word_range; lia | lia
      | exact Hfaults |].
    rewrite <- Hn. change (raid (set_cache_globals c' s)) with (raid s).
    rewrite Hstored, Hn, (Hdata n p Hp), <- Hn.
    apply wpx_bind, wpx_buf_at.
    unfold idx. destruct (Z.ltb_spec i 0); [lia |]. fold n.
    rewrite list_lookup_insert_eq by lia.
    apply wpx_bind, wpx_call_put_raid_cache. cbn [cache_globals set_raid
      set_cache_globals].
    assert (Hpos' : 0 < raid_cache.glob_max_items c').
    { rewrite Hmax', Hmax. apply Hsize. lia. }
    destruct (put_raid_cache_cases disk (pos + i) p c' Hwf' Hpos')
      as (slot & c'' & Hput & Hmax'' & _).
    rewrite Hput. apply wpx_ret. cbn.
    pose proof (put_raid_cache_wf _ _ _ _ _ _ Hwf' Hput) as Hwf''.
    split_and!; try assumption; try reflexivity.
    + rewrite Hmax'', Hmax'. exact Hmax.
    + intros j q Hq. destruct (decide (j = n)) as [-> | Hne].
      * replace q with p by congruence. rewrite <- Hn, <- Hkey.
        apply (put_raid_cache_caches _ _ _ _ _ _ Hwf' Hput).
        rewrite Hkey. exact Hused.
      * apply (put_raid_cache_caches_other _ _ _ _ _ _ _ _ Hwf' Hput);
          [| apply Hcached'; exact Hq].
        rewrite Hkey. intros [= Heq]. lia.
    + apply echo_valid.
    + rewrite length_insert. exact Hlen.
    + apply (Hnext buf p); assumption.
Qed.

(** Reading an appended range back: every block comes from the cache or
    from the array, and the call succeeds. *)
Lemma tagline_read_after_append (buf0 : list payload) :
  length buf0 = length data ->
  wpx False
    (tagline_read fake_serve tag bnum (Z.of_nat (length data)) buf0)
    (fun r _ => r = (0, data)) (fun r _ => r = (0, data)) s0.
Proof using Hconfig Happ Hshort.
  intros Hlen0. unfold tagline_read. apply wpx_body.
  rewrite (u8_small (Z.of_nat (length data))) by (unfold byte_range; lia).
  apply wpx_bind.
  eapply wpx_mono;
    [ apply (wpx_for_ False _ (reading data disk pos s0)
               (fun r _ => r = (0, data)))
    | | cbv beta; intros ? ? Hx; exact Hx ].
  - destruct Happ as [_ _ _ Hwf _ Hcached Hfaults _].
    cbn. split_and!; try assumption; try reflexivity.
    intros j Hj. lia.
  - intros i [[operation response] buf] s Hi Hreading.
    apply tagline_read_turn; assumption.
  - cbv beta. intros [[operation response] buf] s Hreading.
    destruct Hreading as (_ & _ & _ & _ & _ & _ & Hvalid & Hlen & Hdone).
    apply wpx_bind, wpx_return_if_valid; [exact Hvalid |].
    intros g. apply wpx_ret. f_equal.
    apply list_eq. intros j.
    destruct (Nat.lt_ge_cases j (length data)) as [Hlt | Hge].
    + apply Hdone. lia.
    + rewrite !lookup_ge_None_2 by lia. reflexivity.
Qed.

End ReadBack.


(** *** Appending *)

Lemma idx_upd_eq {A} (l : list A) (i : Z) (x v : A) :
  idx l i = Some x -> idx (upd l i v) i = Some v.
Proof.
  intros Hi. apply idx_lookup in Hi as [Hpos Hi]. unfold idx, upd.
  destruct (Z.ltb_spec i 0); [lia |].
  apply list_lookup_insert_eq. eapply lookup_lt_Some; eauto.
Qed.

Lemma idx_upd_ne {A} (l : list A) (i j : Z) (v : A) :
  0 <= i -> i <> j -> idx (upd l i v) j = idx l j.
Proof.
  intros Hpos Hne. unfold idx, upd. destruct (Z.ltb_spec j 0); [reflexivity |].
  apply list_lookup_insert_ne. lia.
Qed.

Lemma entry_upd_eq g tag k row e x :
  idx g tag = Some row -> idx row k = Some e ->
  entry (upd g tag (upd row k x)) tag k = Some x.
Proof.
  intros Hrow He. unfold entry.
  rewrite (idx_upd_eq g tag row _ Hrow). exact (idx_upd_eq row k e x He).
Qed.

Lemma entry_upd_ne g tag k row e x tag' k' :
  idx g tag = Some row -> idx row k = Some e ->
  (tag', k') <> (tag, k) ->
  entry (upd g tag (upd row k x)) tag' k' = entry g tag' k'.
Proof.
  intros Hrow He Hne. unfold entry.
  pose proof (idx_lookup _ _ _ Hrow) as [Htag _].
  pose proof (idx_lookup _ _ _ He) as [Hk _].
  destruct (decide (tag' = tag)) as [-> | Htag'].
  - rewrite (idx_upd_eq g tag row _ Hrow), Hrow.
    apply idx_upd_ne; [exact Hk | congruence].
  - rewrite idx_upd_ne by (assumption || congruence). reflexivity.
Qed.

(** An assignment to a field of [Globtag[tag][k]], seen through [entry]. *)
Lemma wpx_write_tag_entry {Srv R} tag k f
    (Q : unit -> State Srv -> Prop) (E : R -> State Srv -> Prop) s :
  (forall e g',
     entry (Globtag s) tag k = Some e ->
     entry g' tag k = Some (f e) ->
     (forall tag' k', (tag', k') <> (tag, k) ->
        entry g' tag' k' = entry (Globtag s) tag' k') ->
     Q tt (set_Globtag g' s)) ->
  wpx True (write_tag tag k f) Q E s.
Proof.
  intros HQ. apply wpx_write_tag.
  destruct (idx (Globtag s) tag) as [row |] eqn:Hrow; [| exact I].
  destruct (idx row k) as [e |] eqn:He; [| exact I].
  apply (HQ e).
  - unfold entry. rewrite Hrow. exact He.
  - exact (entry_upd_eq _ _ _ _ _ _ Hrow He).
  - intros tag' k' Hne. exact (entry_upd_ne _ _ _ _ _ _ _ _ Hrow He Hne).
Qed.

Lemma store_blocks_inside stored d pos (sent : list payload) (j : nat) p :
  sent !! j = Some p ->
  store_blocks stored d pos sent d (pos + Z.of_nat j) = p.
Proof.
  intros Hj. unfold store_blocks.
  pose proof (lookup_lt_Some _ _ _ Hj) as Hlt.
  rewrite Z.eqb_refl.
  destruct (Z.leb_spec pos (pos + Z.of_nat j)); [| lia].
  destruct (Z.ltb_spec (pos + Z.of_nat j) (pos + Z.of_nat (length sent)));
    [| lia].
  cbn [andb]. replace (Z.to_nat (pos + Z.of_nat j - pos)) with j by lia.
  rewrite Hj. reflexivity.
Qed.

Lemma store_blocks_other_disk stored d pos (sent : list payload) d' p :
  d' <> d -> store_blocks stored d pos sent d' p = stored d' p.
Proof.
  intros Hne. unfold store_blocks.
  destruct (Z.eqb_spec d' d); [contradiction | reflexivity].
Qed.

Lemma set_cache_globals_same {Srv} (s : State Srv) :
  s = set_cache_globals (cache_globals s) s.
Proof. destruct s. reflexivity. Qed.

(** The loop that puts the blocks of an append in the cache, for the disk
    [dsk] whose next free position is [base]: the blocks end up cached under
    their positions, and what the cache held for another disk ([F]) is
    still what it holds for it. *)
Lemma wpx_put_loop `{raid_bus_h} {R} (dsk base : Z) (data : list payload)
    (F : Z * Z -> payload -> Prop) (E : R -> State FakeArray -> Prop)
    (s : State FakeArray) dk :
  byte_range dsk ->
  idx (array s) dsk = Some dk -> base = disks.blocks dk + 1 ->
  0 <= base -> base + Z.of_nat (length data) < 2 ^ 31 ->
  cache_wf (cache_globals s) ->
  (forall k q, F k q -> caches (cache_globals s) k q) ->
  (forall k q, F k q -> fst k <> dsk) ->
  wpx True
    (for_ (Z.of_nat (length data))
       (fun i _ =>
          d <- read_array dsk ;;
          b <- buf_at data i ;;
          call_put_raid_cache dsk (disks.blocks d + 1 + i) b ;;
          ret tt) tt)
    (fun _ s' =>
       exists c', s' = set_cache_globals c' s
         /\ cache_wf c'
         /\ ((0 < length data)%nat -> 0 < raid_cache.glob_max_items c')
         /\ (forall k q, F k q -> caches c' k q)
         /\ (forall (j : nat) p, data !! j = Some p ->
               caches c' (dsk, base + Z.of_nat j) p)) E s.
Proof.
  intros Hdsk Hdk Hbase Hpos Hroom Hwf HF Hother.
  eapply wpx_mono;
    [ apply (wpx_for_ True _
               (fun i _ s' =>
                  exists c', s' = set_cache_globals c' s
                    /\ cache_wf c'
                    /\ (0 < i -> 0 < raid_cache.glob_max_items c')
                    /\ (forall k q, F k q -> caches c' k q)
                    /\ (forall (j : nat) p, Z.of_nat j < i ->
                          data !! j = Some p ->
                          caches c' (dsk, base + Z.of_nat j) p)) E)
    | | cbv beta; intros ? ? Hx; exact Hx ].
  - exists (cache_globals s). split; [apply set_cache_globals_same |].
    split; [exact Hwf |]. split; [lia |]. split; [exact HF |].
    intros j p Hj. lia.
  - intros i [] s' Hi (c' & -> & Hwf' & _ & HF' & Hdone).
    apply wpx_bind, wpx_read_array.
    change (array (set_cache_globals c' s)) with (array s). rewrite Hdk.
    apply wpx_bind, wpx_buf_at.
    destruct (idx data i) as [b |] eqn:Hb; [| exact I].
    apply idx_lookup in Hb as [_ Hb].
    apply wpx_bind, wpx_call_put_raid_cache.
    change (cache_globals (set_cache_globals c' s)) with c'.
    rewrite <- Hbase.
    destruct (put_raid_cache dsk (base + i) b c') as [[r c''] |] eqn:Hput;
      [| exact I].
    apply wpx_ret.
    destruct (key_of_position dsk (base + i) Hdsk ltac:(lia)) as [Hkey Hused].
    exists c''. split; [reflexivity |].
    split; [exact (put_raid_cache_wf _ _ _ _ _ _ Hwf' Hput) |].
    split.
    { intros _. rewrite (put_raid_cache_max _ _ _ _ _ _ Hwf' Hput).
      exact (put_raid_cache_positive _ _ _ _ _ _ Hwf' Hput). }
    split.
    + intros k q Hk.
      apply (put_raid_cache_caches_other _ _ _ _ _ _ _ _ Hwf' Hput);
        [| exact (HF' k q Hk)].
      rewrite Hkey. intros ->. exact (Hother _ q Hk eq_refl).
    + intros j p Hj Hp. destruct (decide (Z.of_nat j = i)) as [<- | Hne].
      * rewrite Nat2Z.id in Hb. replace p with b by congruence.
        rewrite <- Hkey.
        apply (put_raid_cache_caches _ _ _ _ _ _ Hwf' Hput).
        rewrite Hkey. exact Hused.
      * apply (put_raid_cache_caches_other _ _ _ _ _ _ _ _ Hwf' Hput);
          [| apply Hdone; [lia | exact Hp]].
        rewrite Hkey. intros [= Heq]. lia.
  - cbv beta. intros [] s' (c' & -> & Hwf' & Hmax & HF' & Hdone).
    exists c'. split; [reflexivity |]. split; [exact Hwf' |].
    split; [intros; apply Hmax; lia |]. split; [exact HF' |].
    intros j p Hp. apply Hdone; [| exact Hp].
    apply lookup_lt_Some in Hp. lia.
Qed.

(** The loop that records an append in the mapping: block [bnum + j] is
    mapped to position [base + j] of the disk. *)
Lemma wpx_record_loop {Srv R} tag bnum n disk backupDisk base
    (E : R -> State Srv -> Prop) (s : State Srv) dk :
  disk <> backupDisk ->
  idx (array s) disk = Some dk -> base = disks.blocks dk + 1 ->
  wpx True
    (for_ n
       (fun _ localBnum =>
          write_tag tag localBnum (tagline.set_disk disk) ;;
          write_tag tag localBnum (tagline.set_backupDisk backupDisk) ;;
          d <- read_array disk ;;
          write_array disk (disks.mk (disks.status d) (disks.blocks d + 1)) ;;
          d <- read_array backupDisk ;;
          write_array backupDisk
            (disks.mk (disks.status d) (disks.blocks d + 1)) ;;
          d <- read_array disk ;;
          write_tag tag localBnum (tagline.set_diskPosition (disks.blocks d)) ;;
          d <- read_array backupDisk ;;
          write_tag tag localBnum
            (tagline.set_backupDiskPosition (disks.blocks d)) ;;
          ret (localBnum + 1)) bnum)
    (fun _ s' =>
       cache_globals s' = cache_globals s /\ raid s' = raid s
       /\ forall j : nat, Z.of_nat j < n ->
            exists e, entry (Globtag s') tag (bnum + Z.of_nat j) = Some e
              /\ tagline.disk e = disk
              /\ tagline.diskPosition e = base + Z.of_nat j) E s.
Proof.
  intros Hne Hdk Hbase.
  pose proof (idx_lookup _ _ _ Hdk) as [Hdisk _].
  eapply wpx_mono;
    [ apply (wpx_for_ True _
               (fun i localBnum s' =>
                  localBnum = bnum + i
                  /\ cache_globals s' = cache_globals s /\ raid s' = raid s
                  /\ (exists dk', idx (array s') disk = Some dk'
                        /\ disks.blocks dk' + 1 = base + i)
                  /\ forall j : nat, Z.of_nat j < i ->
                       exists e,
                         entry (Globtag s') tag (bnum + Z.of_nat j) = Some e
                         /\ tagline.disk e = disk
                         /\ tagline.diskPosition e = base + Z.of_nat j) E)
    | | cbv beta; intros ? ? Hx; exact Hx ].
  - split; [lia |]. split; [reflexivity |]. split; [reflexivity |].
    split; [exists dk; split; [exact Hdk | lia] |]. intros j Hj. lia.
  - intros i localBnum s' Hi (-> & Hcache & Hraid & (dk' & Hdk' & Hcur) & Hdone).
    apply wpx_bind, wpx_write_tag_entry. intros e1 g1 He1 Hg1 Hrest1.
    apply wpx_bind, wpx_write_tag_entry. cbn [Globtag set_Globtag].
    intros e2 g2 He2 Hg2 Hrest2.
    apply wpx_bind, wpx_read_array. cbn [array set_Globtag]. rewrite Hdk'.
    apply wpx_bind, wpx_write_array. cbn [array set_Globtag]. rewrite Hdk'.
    apply wpx_bind, wpx_read_array. cbn [array set_array set_Globtag].
    rewrite idx_upd_ne by assumption.
    destruct (idx (array s') backupDisk) as [bk |] eqn:Hbk; [| exact I].
    pose proof (idx_lookup _ _ _ Hbk) as [Hbackup _].
    apply wpx_bind, wpx_write_array. cbn [array set_array set_Globtag].
    rewrite idx_upd_ne, Hbk by assumption.
    apply wpx_bind, wpx_read_array. cbn [array set_array set_Globtag].
    rewrite idx_upd_ne by (assumption || congruence).
    rewrite (idx_upd_eq _ _ _ _ Hdk').
    apply wpx_bind, wpx_write_tag_entry. cbn [Globtag set_array set_Globtag].
    intros e3 g3 He3 Hg3 Hrest3.
    apply wpx_bind, wpx_read_array. cbn [array set_array set_Globtag].
    rewrite (idx_upd_eq _ _ _ _ (eq_trans (idx_upd_ne _ _ _ _ Hdisk Hne) Hbk)).
    apply wpx_bind, wpx_write_tag_entry. cbn [Globtag set_array set_Globtag].
    intros e4 g4 He4 Hg4 Hrest4.
    apply wpx_ret. cbn.
    split; [lia |]. split; [exact Hcache |]. split; [exact Hraid |]. split.
    { eexists. split.
      - rewrite idx_upd_ne by (assumption || congruence).
        exact (idx_upd_eq _ _ _ _ Hdk').
      - cbn. lia. }
    intros j Hj. destruct (decide (Z.of_nat j = i)) as [<- | Hji].
    + eexists. split; [exact Hg4 |]. cbn in Hg3.
      assert (e2 = tagline.set_disk disk e1) as -> by congruence.
      assert (e3 = tagline.set_backupDisk backupDisk
                     (tagline.set_disk disk e1)) as -> by congruence.
      assert (e4 = tagline.set_diskPosition (disks.blocks dk' + 1)
                     (tagline.set_backupDisk backupDisk
                        (tagline.set_disk disk e1))) as -> by congruence.
      cbn. split; [reflexivity | lia].
    + destruct (Hdone j ltac:(lia)) as (e & He & Hed & Hep).
      exists e. split; [| split; assumption].
      rewrite Hrest4, Hrest3, Hrest2, Hrest1; try exact He;
        intros [= Heq]; lia.
  - cbv beta. intros localBnum s' (_ & Hcache & Hraid & _ & Hdone).
    split; [exact Hcache |]. split; [exact Hraid |].
    intros j Hj. apply Hdone. lia.
Qed.

Section Append.
Context `{raid_bus_h}.
Hypothesis Hconfig : config_ok.
Variables (tag bnum : Z) (data : list payload).
Hypothesis Hshort : Z.of_nat (length data) <= 255.

(** The append branch of [tagline_write], on an array that fails no
    request. *)
Lemma write_append_appends disk backupDisk (s : State FakeArray) :
  length (array s) = Z.to_nat RAID_DISKS ->
  room_for (Z.of_nat (length data)) s ->
  cache_wf (cache_globals s) ->
  faults (raid s) = [] ->
  disk <> backupDisk ->
  0 <= disk < RAID_DISKS -> 0 <= backupDisk < RAID_DISKS ->
  wpx True
    (write_append fake_serve tag bnum (Z.of_nat (length data)) disk
       backupDisk data)
    (fun buf s' =>
       buf = data /\ exists pos, appended tag bnum data disk pos s')
    (fun _ _ => False) s.
Proof using Hconfig Hshort.
  intros Hlen Hroom Hwf Hfaults Hne Hdisk Hbackup.
  pose proof Hconfig as (Hdisks & _).
  assert (Hidx : forall d, 0 <= d < RAID_DISKS ->
            exists e, idx (array s) d = Some e
              /\ -1 <= disks.blocks e
              /\ disks.blocks e + 1 + Z.of_nat (length data) < 2 ^ 31).
  { intros d Hd. unfold idx. destruct (Z.ltb_spec d 0); [lia |].
    destruct (lookup_lt_is_Some_2 (array s) (Z.to_nat d) ltac:(lia))
      as [e He].
    exists e. split; [exact He | exact (Hroom _ e He)]. }
  destruct (Hidx disk Hdisk) as (dk & Hdk & Hdk1 & Hdk2).
  destruct (Hidx backupDisk Hbackup) as (bk & Hbk & Hbk1 & Hbk2).
  assert (Hbyte : byte_range disk) by (unfold byte_range; lia).
  assert (Hbyte2 : byte_range backupDisk) by (unfold byte_range; lia).
  set (base := disks.blocks dk + 1).
  set (base2 := disks.blocks bk + 1).
  unfold write_append.
  (* the blocks go to the cache under their positions on the disk *)
  apply wpx_bind.
  eapply wpx_mono;
    [ apply (wpx_put_loop disk base data (fun _ _ => False) _ s dk);
      try assumption; try reflexivity; try lia; try contradiction
    | | cbv beta; intros ? ? Hx; exact Hx ].
  cbv beta. intros [] s1 (c1 & -> & Hwf1 & Hmax1 & _ & Hcached1).
  apply wpx_bind, wpx_read_array.
  change (array (set_cache_globals c1 s)) with (array s). rewrite Hdk.
  (* and to the disk *)
  apply wpx_bind. fold base.
  apply wpx_client_write;
    [exact Hconfig | exact Hbyte | unfold word_range; lia | exact Hshort
    | exact Hfaults |].
  cbv iota beta.
  apply wpx_bind, wpx_return_if_valid; [apply echo_valid |]. intros g1.
  match goal with |- wpx _ _ _ _ ?st => set (s2 := st) end.
  (* the same for the backup disk *)
  apply wpx_bind.
  eapply wpx_mono;
    [ apply (wpx_put_loop backupDisk base2 data
               (fun k q => exists j : nat,
                  data !! j = Some q /\ k = (disk, base + Z.of_nat j))
               _ s2 bk);
      try assumption; try reflexivity; try lia
    | | cbv beta; intros ? ? Hx; exact Hx ].
  1: { intros k q (j & Hq & ->). exact (Hcached1 j q Hq). }
  1: { intros k q (j & _ & ->). exact Hne. }
  cbv beta. intros [] s3 (c2 & -> & Hwf2 & Hmax2 & Hcached2 & _).
  apply wpx_bind, wpx_read_array.
  change (array (set_cache_globals c2 s2)) with (array s). rewrite Hbk.
  apply wpx_bind. fold base2.
  apply wpx_client_write;
    [exact Hconfig | exact Hbyte2 | unfold word_range; lia | exact Hshort
    | reflexivity |].
  cbv iota beta.
  apply wpx_bind, wpx_return_if_valid; [apply echo_valid |]. intros g2.
  (* the mapping and the counters *)
  apply wpx_bind, wpx_read_tagcounter.
  match goal with
  | |- match ?o with _ => _ end => destruct o as [c |]; [| exact I]
  end.
  apply wpx_bind, wpx_write_tagcounter.
  match goal with
  | |- match ?o with _ => _ end => destruct o as [? |]; [| exact I]
  end.
  match goal with |- wpx _ _ _ _ ?st => set (s4 := st) end.
  apply wpx_bind.
  eapply wpx_mono;
    [ apply (wpx_record_loop tag bnum (Z.of_nat (length data)) disk
               backupDisk base _ s4 dk Hne Hdk eq_refl)
    | | cbv beta; intros ? ? Hx; exact Hx ].
  cbv beta. intros localBnum s5 (Hcache5 & Hraid5 & Hmapped).
  apply wpx_ret. split; [reflexivity |].
  exists base. split.
  - exact Hbyte.
  - lia.
  - intros i Hi. apply Hmapped. lia.
  - rewrite Hcache5. exact Hwf2.
  - rewrite Hcache5. exact Hmax2.
  - intros i p Hp. rewrite Hcache5. apply Hcached2. eauto.
  - rewrite Hraid5. reflexivity.
  - intros i p Hp. rewrite Hraid5. cbn.
    rewrite store_blocks_other_disk by exact Hne.
    exact (store_blocks_inside _ _ _ _ _ _ Hp).
Qed.

End Append.

Section Write.
Context `{raid_bus_h}.
Hypothesis Hconfig : config_ok.
Variables (tag bnum : Z) (data : list payload).

Lemma rem_range (r : nat) :
  0 <= Z.rem (Z.of_nat r) RAID_DISKS < RAID_DISKS.
Proof using Hconfig.
  destruct Hconfig as (Hdisks & _). apply Z.rem_bound_pos; lia.
Qed.

(** [chooseDisk] on two disks returns two disks of the array. *)
Lemma wpx_chooseDisk_range {Srv R} d0 b0 blks (E : R -> State Srv -> Prop)
    (s : State Srv) :
  0 <= d0 < RAID_DISKS -> 0 <= b0 < RAID_DISKS ->
  wpx True (chooseDisk (Some d0) (Some b0) blks)
    (fun p _ => exists d b, p = (Some d, Some b)
                  /\ 0 <= d < RAID_DISKS /\ 0 <= b < RAID_DISKS) E s.
Proof using Hconfig.
  intros Hd0 Hb0.
  unfold chooseDisk. apply wpx_bind, wpx_ret, wpx_bind, wpx_ret.
  unfold while.
  eapply wpx_mono;
    [ apply (wpx_while_loop _ _
               (fun p _ => exists d b, p = (Some d, Some b)
                             /\ 0 <= d < RAID_DISKS /\ 0 <= b < RAID_DISKS)
               (fun _ _ => True) E)
    | | cbv beta; intros ? ? Hx; exact Hx ].
  - eauto.
  - intros [d b] s0 (dv & bv & [= -> ->] & Hdv & Hbv).
    unfold deref. apply wpx_bind, wpx_ret, wpx_bind, wpx_ret, wpx_ret.
    split; [eauto 10 | auto].
  - intros acc s0 _. apply wpx_bind.
    unfold wpx at 1, rand. destruct (rand_stream s0) as [| r1 rest];
      [exact I |].
    apply wpx_bind.
    unfold wpx at 1, rand. cbn [rand_stream set_rand_stream].
    destruct rest as [| r2 rest]; [exact I |].
    apply wpx_ret. eexists _, _. split; [reflexivity |].
    split; apply rem_range.
  - cbv beta. intros p s' [Hp _]. exact Hp.
Qed.

Lemma core_rand_part {Srv} :
  forall v (s : State Srv), core (set_rand_stream v s) = core s.
Proof. reflexivity. Qed.

(** The draws at the start of [tagline_write]: two different disks of the
    array, and nothing but the random stream has changed. *)
Lemma wpx_draw_disks {Srv R X} (blks : Z)
    (k : option Z * option Z -> M (State Srv) R X) Q
    (E : R -> State Srv -> Prop) (s : State Srv) :
  (forall disk backupDisk s',
     core s' = core s -> disk <> backupDisk ->
     0 <= disk < RAID_DISKS -> 0 <= backupDisk < RAID_DISKS ->
     wpx True (k (Some disk, Some backupDisk)) Q E s') ->
  wpx True
    (r <- rand ;;
     let disk := Z.rem r RAID_DISKS in
     r <- rand ;;
     let backupDisk := Z.rem r RAID_DISKS in
     bind (chooseDisk (Some disk) (Some backupDisk) blks) k) Q E s.
Proof using Hconfig.
  intros Hk.
  apply wpx_bind. unfold wpx at 1, rand.
  destruct (rand_stream s) as [| r1 rest] eqn:Hs; [exact I |].
  apply wpx_bind. unfold wpx at 1, rand. cbn [rand_stream set_rand_stream].
  destruct rest as [| r2 rest]; [exact I |].
  match goal with |- wpx _ _ _ _ ?st => set (s1 := st) end.
  assert (Hcore1 : core s1 = core s) by reflexivity.
  clearbody s1. cbv zeta. apply wpx_bind.
  pose proof (rem_range r1) as Hr1. pose proof (rem_range r2) as Hr2.
  assert (Hkeeps : keeps core
            (chooseDisk (Srv := Srv) (R := R)
               (Some (Z.rem (Z.of_nat r1) RAID_DISKS))
               (Some (Z.rem (Z.of_nat r2) RAID_DISKS)) blks))
    by (apply keeps_chooseDisk, core_rand_part).
  eapply wpx_mono;
    [ apply (wpx_and True _ _ _ _ _ s1
               (wpx_and True _ _ _ _ _ s1
                  (keeps_wpx core _ (fun c => c = core s) s1 Hkeeps Hcore1)
                  (wpx_chooseDisk_both _ _ blks (fun _ _ => True) s1))
               (wpx_chooseDisk_range _ _ blks (fun _ _ => False) s1 Hr1 Hr2))
    | | ].
  - cbv beta.
    intros p s' [[Hcore (d & b & -> & Hne)] (d' & b' & [= <- <-] & Hd & Hb)].
    apply Hk; assumption.
  - cbv beta. intros r s' [_ []].
Qed.

(** An append through [tagline_write]: the mapping, the cache and the array
    afterwards hold the blocks written. *)
Lemma tagline_write_appends (s : State FakeArray) :
  length (array s) = Z.to_nat RAID_DISKS ->
  room_for (Z.of_nat (length data)) s ->
  cache_wf (cache_globals s) ->
  faults (raid s) = [] ->
  Z.of_nat (length data) <= 255 ->
  idx (tagcounter s) tag = Some bnum ->
  wpx True (tagline_write fake_serve tag bnum (Z.of_nat (length data)) data)
    (fun r s' => r = (0, data)
                 /\ exists disk pos, appended tag bnum data disk pos s')
    (fun r s' => r = (0, data)
                 /\ exists disk pos, appended tag bnum data disk pos s') s.
Proof using Hconfig.
  intros Hlen Hroom Hwf Hfaults Hshort Hcounter.
  unfold tagline_write. apply wpx_body.
  rewrite (u8_small (Z.of_nat (length data))) by (unfold byte_range; lia). cbv zeta.
  apply wpx_bind, wpx_read_tagcounter. rewrite Hcounter.
  rewrite Z.ltb_irrefl. cbn [andb negb].
  apply wpx_draw_disks.
  intros disk backupDisk s' Hcore Hne Hdisk Hbackup.
  unfold core in Hcore. injection Hcore as Hm Htc Harr Hglob Hcache Hraid.
  unfold deref. apply wpx_bind, wpx_ret, wpx_bind, wpx_ret.
  apply wpx_bind, wpx_ret, wpx_bind, wpx_ret, wpx_bind.
  eapply wpx_mono;
    [ apply (write_append_appends Hconfig tag bnum data Hshort
               disk backupDisk s')
    | | ].
  - rewrite Harr. exact Hlen.
  - unfold room_for. rewrite Harr. exact Hroom.
  - rewrite Hcache. exact Hwf.
  - rewrite Hraid. exact Hfaults.
  - exact Hne.
  - exact Hdisk.
  - exact Hbackup.
  - cbv beta. intros buf s2 [-> (pos & Happ)]. apply wpx_ret. eauto.
  - cbv beta. intros r s2 [].
Qed.

End Write.


(** *** The round trip *)

(** C1. Round trip. The array fails no request, the tagline [tag] holds
    [bnum] blocks, and [tagline_write] appends the blocks [data] at [bnum]
    and returns. Then it has returned 0, and a [tagline_read] of the same
    range that follows returns 0 with the buffer holding exactly [data].
    The state before the write is one the driver keeps: a record for each
    disk, a well-formed cache, and cursors that leave room for the blocks
    in an [int]. *)
Theorem round_trip `{raid_bus_h} (tag bnum : Z) (data buf0 : list payload)
    (s s1 : State FakeArray) (r : Z * list payload) :
  config_ok ->
  Z.of_nat (length data) <= 255 ->
  length buf0 = length data ->
  length (array s) = Z.to_nat RAID_DISKS ->
  room_for (Z.of_nat (length data)) s ->
  cache_wf (cache_globals s) ->
  faults (raid s) = [] ->
  idx (tagcounter s) tag = Some bnum ->
  tagline_write fake_serve tag bnum (Z.of_nat (length data)) data s
  = Val r s1 ->
  r = (0, data)
  /\ exists s2,
       tagline_read fake_serve tag bnum (Z.of_nat (length data)) buf0 s1
       = Val (0, data) s2.
Proof.
  intros Hconfig Hshort Hbuf Hlen Hroom Hwf Hfaults Hcounter Hwrite.
  destruct (wpx_val _ _ _ _ _ _ _
              (tagline_write_appends Hconfig tag bnum data s
                 Hlen Hroom Hwf Hfaults Hshort Hcounter) Hwrite)
    as [Hr (disk & pos & Happ)].
  split; [exact Hr |].
  pose proof (tagline_read_after_append Hconfig tag bnum disk pos data s1
                Happ Hshort buf0 Hbuf) as Hread.
  unfold tagline_read in Hread |- *.
  destruct (wpx_total_val _ _ _ _ Hread) as (a & s2 & Hrun & ->).
  exists s2. exact Hrun.
Qed.

Lemma small_config_ok : config_ok (H := small_config).
Proof. unfold config_ok, byte_range. cbn. lia. Qed.

Lemma example_ready_cache_wf : cache_wf (cache_globals example_ready).
Proof.
  assert (Hrange : word_range 2) by (unfold word_range; lia).
  exact (proj1 (init_raid_cache_wf 2 (fun _ => 0) Hrange)).
Qed.

Lemma example_ready_room : room_for 3 example_ready.
Proof.
  unfold room_for. intros d e Hd.
  assert (Hall : Forall (fun e => disks.blocks e = -1) (array example_ready))
    by (vm_compute; repeat constructor).
  rewrite Forall_lookup in Hall. rewrite (Hall d e Hd). lia.
Qed.

Lemma round_trip_witness :
  exists s2,
    tagline_read (H := small_config) small_serve 0 0 3 [None; None; None]
      example_written
    = Val (0, [blk 1; blk 2; blk 3]) s2.
Proof.
  refine (proj2 (round_trip (H := small_config) 0 0 [blk 1; blk 2; blk 3]
                   [None; None; None] example_ready example_written
                   (0, [blk 1; blk 2; blk 3])
                   small_config_ok _ _ _ example_ready_room
                   example_ready_cache_wf _ _ _)).
  - cbn. lia.
  - reflexivity.
  - vm_compute. reflexivity.
  - vm_compute. reflexivity.
  - vm_compute. reflexivity.
  - vm_compute. reflexivity.
Defined.


(** ** Where the code departs from its description *)

(** The count of contiguous blocks never exceeds two, whatever the
    mapping: the last conjunct of each condition compares the position of
    block [bnum + i] with itself plus [i], which holds for [i = 0] only. *)
Lemma count_available_at_most_two `{raid_bus_h} {Srv R} tag bnum blks
    (E : R -> State Srv -> Prop) (s : State Srv) :
  wpx True (count_available tag bnum blks)
    (fun '(blocksAvailable, blocksAvailable2) _ =>
       1 <= blocksAvailable <= 2 /\ 1 <= blocksAvailable2 <= 2) E s.
Proof.
  unfold count_available. apply wpx_bind.
  eapply wpx_mono;
    [ apply (wpx_for_ True _
               (fun i '(a, a2, localBnum) _ =>
                  localBnum = bnum + i
                  /\ 1 <= a <= (if i <=? 0 then 1 else 2)
                  /\ 1 <= a2 <= (if i <=? 0 then 1 else 2)) E)
    | cbv beta; intros [[a a2] localBnum] s' (_ & Ha & Ha2);
      apply wpx_ret;
      destruct (Z.max 0 blks <=? 0); lia
    | cbv beta; intros ? ? Hx; exact Hx ].
  - cbn. lia.
  - intros i [[a a2] localBnum] s0 Hi (-> & Ha & Ha2).
    replace (i <=? 0) with (i =? 0) in Ha, Ha2
      by (destruct (Z.eqb_spec i 0), (Z.leb_spec i 0); lia).
    apply wpx_bind, wpx_read_tag.
    destruct (entry (Globtag s0) tag (bnum + i + 1)) as [next |]; [| exact I].
    apply wpx_bind, wpx_read_tag.
    destruct (entry (Globtag s0) tag bnum) as [first |]; [| exact I].
    apply wpx_bind, wpx_read_tag.
    destruct (entry (Globtag s0) tag (bnum + i)) as [cur |] eqn:Hcur;
      [| exact I].
    apply wpx_bind, wpx_read_tag. rewrite Hcur. apply wpx_ret.
    assert (Hself : forall x, (x =? x + i) = (i =? 0)).
    { intros x. destruct (Z.eqb_spec x (x + i)), (Z.eqb_spec i 0);
        try reflexivity; lia. }
    rewrite !Hself.
    replace (i + 1 <=? 0) with false by (symmetry; apply Z.leb_gt; lia).
    split; [lia |].
    destruct (i =? 0); rewrite ?andb_false_r;
      repeat match goal with
             | |- context [if ?b then _ else _] => destruct b
             end; lia.
Qed.

(** C4. Tagline 0 holds blocks 0 to 2, written by one append and contiguous
    on disk 0 and on backup disk 1.  Rewriting the three blocks succeeds,
    but not with one WRITE of three blocks per disk: each disk receives a
    WRITE of two blocks at position 0 and then a WRITE of one block at
    position 2.  (Rewriting two of them does issue a single WRITE of two
    blocks per disk.) *)
Theorem rewrite_of_three_blocks_is_split :
  let m := tagline_write (H := small_config) small_serve 0 0 3
             [blk 4; blk 5; blk 6] in
  let m2 := tagline_write (H := small_config) small_serve 0 0 2
              [blk 4; blk 5] in
  map tagline.diskPosition (take 3 (default [] (Globtag example_written !! 0%nat)))
  = [0; 1; 2]
  /\ map tagline.disk (take 3 (default [] (Globtag example_written !! 0%nat)))
     = [0; 0; 0]
  /\ value_of m example_written = Some (0, [blk 4; blk 5; blk 6])
  /\ requests_during m example_written
     = [(3, 2, 0, 0); (3, 1, 0, 2); (3, 2, 1, 0); (3, 1, 1, 2)]
  /\ requests_during m2 example_written = [(3, 2, 0, 0); (3, 2, 1, 0)].
Proof. vm_compute. repeat split. Qed.

(** C3. The three blocks are no longer in the cache, and the array fails
    the first of the three READ requests (it answers with the status bit
    set, which [extract_raid_response] rejects).  [tagline_read] issues the
    three requests and returns 0, with the first block of the buffer never
    filled.  Only a failure of the last request makes it return 1. *)
Theorem read_validates_last_response_only :
  let m := tagline_read (H := small_config) small_serve 0 0 3
             [None; None; None] in
  let s := with_faults [true] example_written in
  let operation :=
    create_raid_request (RAID_READ (raid_bus_h := small_config)) 1 0 0 in
  fst (extract_raid_response (H := small_config)
         (fst (snd (small_serve (raid s) operation [None]))) operation
         RAIDresponse.zero) = 1
  /\ requests_during m s = [(2, 1, 0, 0); (2, 1, 0, 1); (2, 1, 0, 2)]
  /\ value_of m s = Some (0, [None; blk 2; blk 3])
  /\ value_of m (with_faults [false; false; true] example_written)
     = Some (1, [blk 1; blk 2; None]).
Proof. vm_compute. repeat split. Qed.

(** C7. Disk 0 has failed, and the array also fails the FORMAT request
    that starts its recovery.  [raid_disk_recover] returns 1 on that, but
    [raid_disk_signal], which does not look at the result, goes on to the
    other disks and returns 0.  The disk stays marked as failed. *)
Theorem signal_reports_success_after_failed_recovery :
  let signal := raid_disk_signal (H := small_config) small_serve in
  let recover := raid_disk_recover (H := small_config) small_serve 0 in
  let s := with_faults [false; true] example_failed in
  value_of recover (with_faults [true] example_failed) = Some 1
  /\ value_of signal s = Some 0
  /\ requests_during signal s
     = [(4, 0, 0, 0); (1, 0, 0, 0); (4, 0, 1, 0); (4, 0, 2, 0)]
  /\ disks.status <$> idx (array (end_state signal s)) 0
     = Some (RAID_DISK_FAILED (raid_bus_h := small_config)).
Proof. vm_compute. repeat split. Qed.


(** ** The cache as its callers see it *)

(** A lookup hits the first slot that carries the key. *)
Lemma found_hit dsk blk c p e :
  cache_wf c ->
  raid_cache.cacheArray c !! p = Some e ->
  slot_key e = (RAIDDiskID dsk, RAIDBlockID blk) ->
  (forall i e', (i < p)%nat -> raid_cache.cacheArray c !! i = Some e' ->
     slot_key e' <> (RAIDDiskID dsk, RAIDBlockID blk)) ->
  found dsk blk c = Some (Some (cache.data e)).
Proof.
  intros Hwf Hp Hkey Hfirst.
  destruct (get_raid_cache_cases dsk blk c Hwf)
    as (res & c' & Hget & _ & _ & Hres).
  unfold found. rewrite Hget. destruct res as [q |].
  - destruct Hres as (e0 & Hq & Hkey0 & Hfirst0 & Harr).
    assert (q = p) as ->.
    { destruct (Nat.lt_trichotomy q p) as [Hlt | [Heq | Hgt]]; [| exact Heq |].
      - destruct (Hfirst q e0 Hlt Hq Hkey0).
      - destruct (Hfirst0 p e Hgt Hp Hkey). }
    assert (e0 = e) as -> by congruence.
    unfold slot_data. rewrite Harr, list_lookup_insert_eq
      by (apply lookup_lt_Some in Hp; exact Hp).
    reflexivity.
  - destruct Hres as [Habs _]. destruct (Habs p e Hp Hkey).
Qed.

Lemma found_hit_inv dsk blk c d :
  cache_wf c -> found dsk blk c = Some (Some d) ->
  exists p e,
    raid_cache.cacheArray c !! p = Some e
    /\ slot_key e = (RAIDDiskID dsk, RAIDBlockID blk)
    /\ cache.data e = d
    /\ forall i e', (i < p)%nat -> raid_cache.cacheArray c !! i = Some e' ->
         slot_key e' <> (RAIDDiskID dsk, RAIDBlockID blk).
Proof.
  intros Hwf Hfound.
  destruct (get_raid_cache_cases dsk blk c Hwf)
    as (res & c' & Hget & _ & _ & Hres).
  unfold found in Hfound. rewrite Hget in Hfound. destruct res as [q |].
  - destruct Hres as (e0 & Hq & Hkey0 & Hfirst0 & Harr).
    exists q, e0. split_and!; [exact Hq | exact Hkey0 | | exact Hfirst0].
    unfold slot_data in Hfound.
    rewrite Harr, list_lookup_insert_eq in Hfound
      by (apply lookup_lt_Some in Hq; exact Hq).
    cbn in Hfound. congruence.
  - discriminate.
Qed.

Lemma found_miss dsk blk c :
  cache_wf c -> absent c (RAIDDiskID dsk, RAIDBlockID blk) ->
  found dsk blk c = Some None.
Proof.
  intros Hwf Habs.
  destruct (get_raid_cache_cases dsk blk c Hwf)
    as (res & c' & Hget & _ & _ & Hres).
  unfold found. rewrite Hget. destruct res as [q |]; [| reflexivity].
  destruct Hres as (e0 & Hq & Hkey0 & _). destruct (Habs q e0 Hq Hkey0).
Qed.

(** X1. A cache that [init_raid_cache] has just made (at program start),
    of a capacity that the [int] counter of its loop can reach, is empty:
    it has the capacity asked for, no object, and a lookup of any key other
    than the one unused slots carry is a miss. *)
Theorem fresh_cache_misses (max_items : Z) (heap : nat -> Z) (dsk blk : Z) :
  0 <= max_items < 2 ^ 31 ->
  (RAIDDiskID dsk, RAIDBlockID blk) <> unused_key ->
  let c := snd (init_raid_cache max_items heap raid_cache.boot) in
  cache_wf c
  /\ raid_cache.glob_max_items c = max_items
  /\ raid_cache.objectCount c = 0
  /\ length (raid_cache.cacheArray c) = Z.to_nat max_items
  /\ found dsk blk c = Some None.
Proof.
  intros Hint Hkey c.
  assert (Hrange : word_range max_items) by (unfold word_range; lia).
  destruct (init_raid_cache_wf max_items heap Hrange) as (Hwf & Hcount & Hmax).
  fold c in Hwf, Hcount, Hmax.
  split_and!; [exact Hwf | exact Hmax | exact Hcount | |].
  - rewrite (wf_length c Hwf), Hmax. reflexivity.
  - apply found_miss; [exact Hwf |].
    intros j e Hj Hk.
    destruct (wf_unused c Hwf j e Hj) as [Hunused _]; [lia |].
    congruence.
Qed.

Lemma fresh_cache_misses_witness :
  let c := snd (init_raid_cache 2 (fun _ => 0) raid_cache.boot) in
  cache_wf c
  /\ raid_cache.glob_max_items c = 2
  /\ raid_cache.objectCount c = 0
  /\ length (raid_cache.cacheArray c) = Z.to_nat 2
  /\ found 1 5 c = Some None.
Proof.
  apply (fresh_cache_misses 2 (fun _ => 0) 1 5).
  - lia.
  - vm_compute. discriminate.
Defined.

(** The slot a put writes is the first one that carries its key. *)
Lemma put_raid_cache_first dsk blk buf c r c' :
  cache_wf c -> put_raid_cache dsk blk buf c = Some (r, c') ->
  r = 0
  /\ cache_wf c'
  /\ exists j,
       (j < length (raid_cache.cacheArray c))%nat
       /\ raid_cache.cacheArray c'
          = <[j := cache.mk buf (raid_cache.timea c')
                     (RAIDDiskID dsk) (RAIDBlockID blk)]>
              (raid_cache.cacheArray c)
       /\ forall i e, (i < j)%nat -> raid_cache.cacheArray c !! i = Some e ->
            slot_key e <> (RAIDDiskID dsk, RAIDBlockID blk).
Proof.
  intros Hwf Hput.
  pose proof (put_raid_cache_positive _ _ _ _ _ _ Hwf Hput) as Hpos.
  pose proof (put_raid_cache_wf _ _ _ _ _ _ Hwf Hput) as Hwf'.
  destruct (put_raid_cache_cases dsk blk buf c Hwf Hpos)
    as (j & c0 & Hput0 & _ & Harr & Hj & Hcases).
  rewrite Hput in Hput0. injection Hput0 as -> ->.
  split_and!; [reflexivity | exact Hwf' |].
  exists j. split_and!; [exact Hj | exact Harr |].
  intros i e Hi He Hkey.
  destruct Hcases as [(_ & Hjc & ej & Hej & Hkj)
                     | [(_ & _ & -> & Hnone) | (_ & _ & Habs & _)]].
  - assert (i = j); [| lia].
    apply (wf_distinct c Hwf i j e ej He Hej); [lia | exact Hjc | congruence].
  - exact (Hnone i e Hi He Hkey).
  - exact (Habs i e He Hkey).
Qed.

(** X2. Insert and look up: after [put_raid_cache] has stored a block under
    a key, which it reports with 0, a lookup of that key is a hit on a
    buffer that holds the block. *)
Theorem put_then_get (dsk blk : Z) (buf : payload) (c c' : raid_cache.t)
    (r : Z) :
  cache_wf c ->
  put_raid_cache dsk blk buf c = Some (r, c') ->
  r = 0 /\ found dsk blk c' = Some (Some buf).
Proof.
  intros Hwf Hput.
  destruct (put_raid_cache_first _ _ _ _ _ _ Hwf Hput)
    as (Hr & Hwf' & j & Hj & Harr & Hfirst).
  split; [exact Hr |].
  apply (found_hit dsk blk c' j
           (cache.mk buf (raid_cache.timea c')
              (RAIDDiskID dsk) (RAIDBlockID blk)) Hwf').
  - rewrite Harr. apply list_lookup_insert_eq. exact Hj.
  - reflexivity.
  - intros i e' Hi He'. rewrite Harr, list_lookup_insert_ne in He' by lia.
    exact (Hfirst i e' Hi He').
Qed.

Lemma put_then_get_witness :
  exists c',
    put_raid_cache 1 5 (blk 9) full_cache = Some (0, c')
    /\ found 1 5 c' = Some (Some (blk 9)).
Proof.
  eexists. split; [vm_compute; reflexivity |].
  eapply (put_then_get 1 5 (blk 9) full_cache _ 0).
  - exact full_cache_wf.
  - vm_compute. reflexivity.
Defined.

Lemma cache_after_one_put_wf : cache_wf cache_after_one_put.
Proof.
  apply (fill_wf [(0, 0, blk 1)] two_slots); [exact two_slots_wf |].
  vm_compute. reflexivity.
Qed.

(** A slot that carries a key other than the one of unused slots was
    filled by a put. *)
Lemma used_slot c p e :
  cache_wf c -> raid_cache.cacheArray c !! p = Some e ->
  slot_key e <> unused_key ->
  (p < Z.to_nat (raid_cache.objectCount c))%nat.
Proof.
  intros Hwf Hp Hkey.
  destruct (Nat.lt_ge_cases p (Z.to_nat (raid_cache.objectCount c)))
    as [Hlt | Hge]; [exact Hlt |].
  destruct (wf_unused c Hwf p e Hp Hge) as [Hunused _]. contradiction.
Qed.

(** A block that a put has stored is found under its key. *)
Lemma found_held dsk blk c d :
  cache_wf c -> holds_block c (RAIDDiskID dsk, RAIDBlockID blk) d ->
  found dsk blk c = Some (Some d).
Proof.
  intros Hwf (p & e & Hp & He & Hkey & <-).
  apply (found_hit dsk blk c p e Hwf He Hkey).
  intros i e' Hi He' Hkey'.
  assert (i = p) by (apply (wf_distinct c Hwf i p e' e He' He);
                     [lia | exact Hp | congruence]).
  lia.
Qed.

(** X3. A put that needs no eviction (the cache has room, or it holds the
    key already) leaves every other block of the cache in place: a block
    that a put has stored under another key, the key of unused slots
    included, is still held afterwards, and a lookup of its key is a hit on
    its data before the put and after it. *)
Theorem put_keeps_other_keys (dsk blk dsk' blk' : Z) (d buf : payload)
    (c c' : raid_cache.t) (r : Z) :
  cache_wf c ->
  holds_block c (RAIDDiskID dsk, RAIDBlockID blk) d ->
  (RAIDDiskID dsk, RAIDBlockID blk) <> (RAIDDiskID dsk', RAIDBlockID blk') ->
  raid_cache.objectCount c < raid_cache.glob_max_items c
  \/ ~ absent c (RAIDDiskID dsk', RAIDBlockID blk') ->
  put_raid_cache dsk' blk' buf c = Some (r, c') ->
  found dsk blk c = Some (Some d)
  /\ holds_block c' (RAIDDiskID dsk, RAIDBlockID blk) d
  /\ found dsk blk c' = Some (Some d).
Proof.
  intros Hwf Hheld Hne Hroom Hput.
  split; [exact (found_held _ _ _ _ Hwf Hheld) |].
  pose proof (put_raid_cache_positive _ _ _ _ _ _ Hwf Hput) as Hpos.
  pose proof (put_raid_cache_wf _ _ _ _ _ _ Hwf Hput) as Hwf'.
  assert (Hheld' : holds_block c' (RAIDDiskID dsk, RAIDBlockID blk) d).
  { destruct Hheld as (p & e & Hp & He & Hkey & Hd).
    destruct (put_raid_cache_cases dsk' blk' buf c Hwf Hpos)
      as (j & c0 & Hput0 & _ & Harr & Hj & Hcases).
    assert (c0 = c') as -> by congruence. clear Hput0.
    assert (Hpj : p <> j /\ raid_cache.objectCount c
                            <= raid_cache.objectCount c').
    { destruct Hcases as [(Hc & _ & ej & Hej & Hkj)
                         | [(_ & Hc & Hjc & _) | (Hfull & _ & Habs & _)]].
      - split; [| lia]. intros ->. congruence.
      - split; lia.
      - destruct Hroom as [Hroom | Hpresent]; [lia | contradiction]. }
    destruct Hpj as [Hpj Hcount].
    exists p, e. split_and!; [lia | | exact Hkey | exact Hd].
    rewrite Harr, list_lookup_insert_ne by congruence. exact He. }
  split; [exact Hheld' | exact (found_held _ _ _ _ Hwf' Hheld')].
Qed.

Lemma cache_after_unassigned_put_holds :
  holds_block cache_after_unassigned_put (RAIDDiskID (-1), RAIDBlockID (-1))
    (blk 7).
Proof.
  exists 0%nat, (cache.mk (blk 7) 1 (RAIDDiskID (-1)) (RAIDBlockID (-1))).
  split_and!; vm_compute; reflexivity.
Qed.

Lemma put_keeps_other_keys_witness :
  exists c',
    put_raid_cache 0 1 (blk 2) cache_after_unassigned_put = Some (0, c')
    /\ found (-1) (-1) cache_after_unassigned_put = Some (Some (blk 7))
    /\ holds_block c' (RAIDDiskID (-1), RAIDBlockID (-1)) (blk 7)
    /\ found (-1) (-1) c' = Some (Some (blk 7)).
Proof.
  eexists. split; [vm_compute; reflexivity |].
  eapply (put_keeps_other_keys (-1) (-1) 0 1 (blk 7) (blk 2)
            cache_after_unassigned_put _ 0).
  - exact cache_after_unassigned_put_wf.
  - exact cache_after_unassigned_put_holds.
  - vm_compute. discriminate.
  - left. vm_compute. reflexivity.
  - vm_compute. reflexivity.
Defined.

(** Each call into the cache advances the clock by one. *)
Lemma get_raid_cache_clock dsk blk c res c' :
  get_raid_cache dsk blk c = Some (res, c') ->
  raid_cache.timea c' = u64 (raid_cache.timea c + 1).
Proof.
  unfold get_raid_cache. destruct c as [max count h m ins g t ot arr].
  cbv zeta. cbn [raid_cache.timea].
  destruct (search_slots _ _ _ _ _) as [[i |] |]; try discriminate.
  - destruct (arr !! i); [| discriminate]. intros [= <- <-]. reflexivity.
  - intros [= <- <-]. reflexivity.
Qed.

Lemma put_raid_cache_clock dsk blk buf c r c' :
  put_raid_cache dsk blk buf c = Some (r, c') ->
  raid_cache.timea c' = u64 (raid_cache.timea c + 1).
Proof.
  unfold put_raid_cache. destruct c as [max count h m ins g t ot arr].
  cbv zeta. cbn [raid_cache.timea].
  destruct (count <? max).
  - destruct (search_slots _ _ _ _ _) as [[i |] |]; try discriminate.
    + intros [= <- <-]. reflexivity.
    + destruct (idx arr count); [| discriminate].
      intros [= <- <-]. reflexivity.
  - destruct (search_slots _ _ _ _ _) as [[i |] |]; try discriminate.
    + intros [= <- <-]. reflexivity.
    + destruct (arr !! 0%nat); [| discriminate].
      destruct (oldest_scan _ _ _ _ _) as [[op ot'] |]; [| discriminate].
      intros [= <- <-]. reflexivity.
Qed.

(** X4. Least recently used: in a full cache of two slots or more, a block
    that a lookup has just touched is not the one the next put evicts; it is
    still a hit afterwards, on the same data. *)
Theorem recently_used_survives (dsk blk dsk' blk' : Z) (d buf : payload)
    (c c1 c2 : raid_cache.t) (p : nat) (r : Z) :
  cache_wf c ->
  stamped c ->
  raid_cache.objectCount c = raid_cache.glob_max_items c ->
  2 <= raid_cache.glob_max_items c ->
  (RAIDDiskID dsk, RAIDBlockID blk) <> (RAIDDiskID dsk', RAIDBlockID blk') ->
  get_raid_cache dsk blk c = Some (Some p, c1) ->
  slot_data c1 p = Some d ->
  put_raid_cache dsk' blk' buf c1 = Some (r, c2) ->
  found dsk blk c2 = Some (Some d).
Proof.
  intros Hwf (Hclock0 & Hclock & Hstamps) Hfull Htwo Hne Hget Hd Hput.
  pose proof (get_raid_cache_wf _ _ _ _ _ Hwf Hget) as Hwf1.
  pose proof (get_raid_cache_clock _ _ _ _ _ Hget) as Ht1.
  unfold u64 in Ht1. rewrite Z.mod_small in Ht1 by lia.
  destruct (get_raid_cache_cases dsk blk c Hwf)
    as (res & c0 & Hget0 & Hmax1 & Hcount1 & Hres).
  assert (res = Some p /\ c0 = c1) as [-> ->] by (split; congruence).
  clear Hget0. destruct Hres as (e & Hp & Hkey & Hfirst & Harr1).
  set (e1 := cache.mk (cache.data e) (raid_cache.timea c1)
               (cache.disk e) (cache.block e)) in *.
  assert (Hplen : (p < length (raid_cache.cacheArray c))%nat)
    by (apply lookup_lt_Some in Hp; exact Hp).
  assert (Hp1 : raid_cache.cacheArray c1 !! p = Some e1)
    by (rewrite Harr1; apply list_lookup_insert_eq; exact Hplen).
  assert (d = cache.data e) as ->.
  { unfold slot_data in Hd. rewrite Hp1 in Hd. cbn in Hd. congruence. }
  pose proof (put_raid_cache_positive _ _ _ _ _ _ Hwf1 Hput) as Hpos.
  pose proof (put_raid_cache_wf _ _ _ _ _ _ Hwf1 Hput) as Hwf2.
  destruct (put_raid_cache_cases dsk' blk' buf c1 Hwf1 Hpos)
    as (j & c0 & Hput0 & _ & Harr2 & Hj & Hcases).
  assert (c0 = c2) as -> by congruence. clear Hput0.
  assert (Hpj : p <> j).
  { intros <-.
    destruct Hcases as [(_ & _ & ej & Hej & Hkj)
                       | [(Hroom & _) | (_ & _ & _ & victim & Hold)]].
    - rewrite Hp1 in Hej. injection Hej as <-.
      unfold slot_key in Hkj, Hkey. cbn in Hkj. congruence.
    - lia.
    - destruct Hold as (Hv & Hleast & _).
      rewrite Hp1 in Hv. injection Hv as <-.
      pose proof (wf_length c Hwf) as Hlen.
      set (q := if decide (p = 0%nat) then 1%nat else 0%nat).
      assert (Hqp : q <> p) by (unfold q; destruct (decide (p = 0%nat)); lia).
      destruct (lookup_lt_is_Some_2 (raid_cache.cacheArray c) q) as [eq Hq].
      { unfold q. destruct (decide (p = 0%nat)); lia. }
      assert (Hq1 : raid_cache.cacheArray c1 !! q = Some eq)
        by (rewrite Harr1, list_lookup_insert_ne by congruence; exact Hq).
      specialize (Hleast q eq Hq1). specialize (Hstamps q eq Hq).
      cbn in Hleast. lia. }
  apply (found_hit dsk blk c2 p e1 Hwf2).
  - rewrite Harr2, list_lookup_insert_ne by congruence. exact Hp1.
  - exact Hkey.
  - intros i e' Hi He'. rewrite Harr2 in He'.
    destruct (decide (i = j)) as [-> | Hij].
    + rewrite list_lookup_insert_eq in He' by exact Hj.
      injection He' as <-. unfold slot_key. cbn. congruence.
    + rewrite list_lookup_insert_ne in He' by congruence.
      rewrite Harr1, list_lookup_insert_ne in He' by lia.
      exact (Hfirst i e' Hi He').
Qed.

Lemma full_cache_stamped : stamped full_cache.
Proof.
  split_and!; [vm_compute; discriminate | vm_compute; reflexivity |].
  assert (Hall : Forall (fun e => cache.timestamp e <= 2)
                   (raid_cache.cacheArray full_cache))
    by (vm_compute; repeat constructor; discriminate).
  rewrite Forall_lookup in Hall. exact Hall.
Qed.

Lemma recently_used_survives_witness :
  exists c1 c2,
    get_raid_cache 0 0 full_cache = Some (Some 0%nat, c1)
    /\ put_raid_cache 1 5 (blk 9) c1 = Some (0, c2)
    /\ found 0 0 c2 = Some (Some (blk 1)).
Proof.
  eexists _, _. split; [vm_compute; reflexivity |].
  split; [vm_compute; reflexivity |].
  eapply (recently_used_survives 0 0 1 5 (blk 1) (blk 9) full_cache _ _
            0%nat 0).
  - exact full_cache_wf.
  - exact full_cache_stamped.
  - vm_compute. reflexivity.
  - vm_compute. discriminate.
  - vm_compute. discriminate.
  - vm_compute. reflexivity.
  - vm_compute. reflexivity.
  - vm_compute. reflexivity.
Defined.

(** What a put and a lookup do to the counters. *)
Lemma put_raid_cache_counters dsk blk buf c r c' :
  put_raid_cache dsk blk buf c = Some (r, c') ->
  raid_cache.insert c' = raid_cache.insert c + 1
  /\ raid_cache.get c' = raid_cache.get c
  /\ raid_cache.hit c <= raid_cache.hit c'
  /\ raid_cache.miss c <= raid_cache.miss c'
  /\ raid_cache.hit c' + raid_cache.miss c'
     <= raid_cache.hit c + raid_cache.miss c + 1.
Proof.
  unfold put_raid_cache. destruct c as [max count h m ins g t ot arr].
  cbv zeta. cbn.
  destruct (count <? max).
  - destruct (search_slots _ _ _ _ _) as [[i |] |]; try discriminate.
    + intros [= <- <-]. cbn. lia.
    + destruct (idx arr count); [| discriminate].
      intros [= <- <-]. cbn. lia.
  - destruct (search_slots _ _ _ _ _) as [[i |] |]; try discriminate.
    + intros [= <- <-]. cbn. lia.
    + destruct (arr !! 0%nat); [| discriminate].
      destruct (oldest_scan _ _ _ _ _) as [[op ot'] |]; [| discriminate].
      intros [= <- <-]. cbn. lia.
Qed.

Lemma get_raid_cache_counters dsk blk c res c' :
  get_raid_cache dsk blk c = Some (res, c') ->
  raid_cache.insert c' = raid_cache.insert c
  /\ raid_cache.get c' = raid_cache.get c + 1
  /\ raid_cache.hit c' + raid_cache.miss c'
     = raid_cache.hit c + raid_cache.miss c + 1
  /\ raid_cache.hit c' = raid_cache.hit c + match res with Some _ => 1 | None => 0 end.
Proof.
  unfold get_raid_cache. destruct c as [max count h m ins g t ot arr].
  cbv zeta. cbn.
  destruct (search_slots _ _ _ _ _) as [[i |] |]; try discriminate.
  - destruct (arr !! i); [| discriminate]. intros [= <- <-]. cbn. lia.
  - intros [= <- <-]. cbn. lia.
Qed.

(** A run of calls on a well-formed cache with a slot: no access outside
    [cacheArray], and each of the statistics grows by at most one per
    call. *)
Lemma run_cache_ops_bounds (ops : list cache_op) : forall c,
  cache_wf c -> 0 < raid_cache.glob_max_items c ->
  exists c',
    run_cache_ops ops c = Some c'
    /\ cache_wf c'
    /\ raid_cache.glob_max_items c' = raid_cache.glob_max_items c
    /\ raid_cache.insert c <= raid_cache.insert c'
       <= raid_cache.insert c + Z.of_nat (length ops)
    /\ raid_cache.get c <= raid_cache.get c'
       <= raid_cache.get c + Z.of_nat (length ops)
    /\ raid_cache.hit c <= raid_cache.hit c'
       <= raid_cache.hit c + Z.of_nat (length ops)
    /\ raid_cache.miss c <= raid_cache.miss c'
       <= raid_cache.miss c + Z.of_nat (length ops).
Proof.
  induction ops as [| o ops IH]; intros c Hwf Hpos.
  - exists c. cbn. split_and!; first [reflexivity | assumption | lia].
  - cbn [run_cache_ops]. destruct o as [dsk blk buf | dsk blk]; cbn.
    + destruct (put_raid_cache_total dsk blk buf c Hwf) as [c1 Hput];
        [lia |].
      rewrite Hput. cbn.
      pose proof (put_raid_cache_counters _ _ _ _ _ _ Hput) as Hcnt.
      pose proof (put_raid_cache_max _ _ _ _ _ _ Hwf Hput) as Hmax.
      destruct (IH c1 (put_raid_cache_wf _ _ _ _ _ _ Hwf Hput)
                  ltac:(lia))
        as (c' & Hrun & Hwf' & Hmax' & Hi & Hg & Hh & Hm).
      exists c'. rewrite Nat2Z.inj_succ.
      split_and!; first [assumption | lia].
    + destruct (get_raid_cache_cases dsk blk c Hwf)
        as (res & c1 & Hget & Hmax & _).
      rewrite Hget. cbn.
      pose proof (get_raid_cache_counters _ _ _ _ _ Hget) as Hcnt.
      destruct (IH c1 (get_raid_cache_wf _ _ _ _ _ Hwf Hget) ltac:(lia))
        as (c' & Hrun & Hwf' & Hmax' & Hi & Hg & Hh & Hm).
      exists c'. rewrite Nat2Z.inj_succ.
      destruct res; split_and!; first [assumption | lia].
Qed.

(** X5. From a fresh cache of one slot or more, of a capacity that an
    [int] can count, every sequence of puts and lookups that an [int] can
    count runs without an access outside [cacheArray], and leaves a cache
    of the same capacity whose object count is within the capacity and
    whose filled slots have distinct keys; the four statistics stay
    between 0 and the number of calls, so that no [int] of the cache
    overflows. *)
Theorem cache_calls_stay_in_bounds (max_items : Z) (heap : nat -> Z)
    (ops : list cache_op) :
  0 < max_items < 2 ^ 31 ->
  Z.of_nat (length ops) < 2 ^ 31 ->
  exists c,
    run_cache_ops ops (snd (init_raid_cache max_items heap raid_cache.boot))
    = Some c
    /\ cache_wf c
    /\ raid_cache.glob_max_items c = max_items
    /\ length (raid_cache.cacheArray c) = Z.to_nat max_items
    /\ 0 <= raid_cache.objectCount c <= max_items
    /\ 0 <= raid_cache.insert c <= Z.of_nat (length ops)
    /\ 0 <= raid_cache.get c <= Z.of_nat (length ops)
    /\ 0 <= raid_cache.hit c <= Z.of_nat (length ops)
    /\ 0 <= raid_cache.miss c <= Z.of_nat (length ops).
Proof.
  intros Hint _.
  assert (Hrange : word_range max_items) by (unfold word_range; lia).
  destruct (init_raid_cache_wf max_items heap Hrange) as (Hwf & _ & Hmax).
  cbv zeta in Hwf, Hmax.
  destruct (run_cache_ops_bounds ops _ Hwf ltac:(lia))
    as (c & Hrun & Hwf' & Hmax' & Hi & Hg & Hh & Hm).
  rewrite Hmax in Hmax'. cbn in Hi, Hg, Hh, Hm.
  exists c. split_and!; try assumption; try lia.
  - rewrite (wf_length c Hwf'), Hmax'. reflexivity.
  - pose proof (wf_count c Hwf'). lia.
  - pose proof (wf_count c Hwf'). lia.
Qed.

Lemma cache_calls_stay_in_bounds_witness :
  exists c,
    run_cache_ops
      [cache_put 0 0 (blk 1); cache_get 0 1; cache_put 0 1 (blk 2);
       cache_put 1 5 (blk 9); cache_get 0 0]
      (snd (init_raid_cache 2 (fun _ => 0) raid_cache.boot))
    = Some c
    /\ cache_wf c
    /\ raid_cache.glob_max_items c = 2
    /\ length (raid_cache.cacheArray c) = Z.to_nat 2
    /\ 0 <= raid_cache.objectCount c <= 2
    /\ 0 <= raid_cache.insert c <= 5
    /\ 0 <= raid_cache.get c <= 5
    /\ 0 <= raid_cache.hit c <= 5
    /\ 0 <= raid_cache.miss c <= 5.
Proof.
  apply (cache_calls_stay_in_bounds 2 (fun _ => 0)
           [cache_put 0 0 (blk 1); cache_get 0 1; cache_put 0 1 (blk 2);
            cache_put 1 5 (blk 9); cache_get 0 0]).
  - lia.
  - cbn. lia.
Defined.

(** X6. The statistics that [close_raid_cache] logs: over any sequence of
    calls, the insert count grows by the number of puts and the get count
    by the number of lookups; each lookup counts as one hit or one miss,
    and a put as at most one of them (a new block put in a free slot is
    neither). *)
Theorem cache_statistics (ops : list cache_op) (c c' : raid_cache.t) :
  run_cache_ops ops c = Some c' ->
  let puts := Z.of_nat (length (filter (fun o => is_put o = true) ops)) in
  let gets := Z.of_nat (length (filter (fun o => is_put o = false) ops)) in
  raid_cache.insert c' = raid_cache.insert c + puts
  /\ raid_cache.get c' = raid_cache.get c + gets
  /\ raid_cache.hit c + raid_cache.miss c + gets
     <= raid_cache.hit c' + raid_cache.miss c'
     <= raid_cache.hit c + raid_cache.miss c + gets + puts.
Proof.
  revert c. induction ops as [| o ops IH]; intros c Hrun.
  - injection Hrun as <-. cbn. lia.
  - cbn [run_cache_ops] in Hrun.
    destruct (run_cache_op o c) as [c1 |] eqn:Hop; [| discriminate].
    specialize (IH c1 Hrun). cbv zeta in IH |- *.
    destruct o as [dsk blk buf | dsk blk]; cbn in Hop.
    + destruct (put_raid_cache dsk blk buf c) as [[r c0] |] eqn:Hput;
        [| discriminate].
      injection Hop as ->.
      pose proof (put_raid_cache_counters _ _ _ _ _ _ Hput).
      rewrite filter_cons_True by reflexivity.
      rewrite filter_cons_False by (cbn; discriminate).
      cbn [length]. lia.
    + destruct (get_raid_cache dsk blk c) as [[res c0] |] eqn:Hget;
        [| discriminate].
      injection Hop as ->.
      pose proof (get_raid_cache_counters _ _ _ _ _ Hget).
      rewrite filter_cons_False by (cbn; discriminate).
      rewrite filter_cons_True by reflexivity.
      cbn [length]. lia.
Qed.

Lemma cache_statistics_witness :
  let ops := [cache_put 0 0 (blk 1); cache_get 0 1; cache_put 0 1 (blk 2);
              cache_put 1 5 (blk 9); cache_get 0 0] in
  let c := snd (init_raid_cache 2 (fun _ => 0) raid_cache.boot) in
  let c' := default c (run_cache_ops ops c) in
  raid_cache.insert c' = raid_cache.insert c + 3
  /\ raid_cache.get c' = raid_cache.get c + 2
  /\ raid_cache.hit c + raid_cache.miss c + 2
     <= raid_cache.hit c' + raid_cache.miss c'
     <= raid_cache.hit c + raid_cache.miss c + 2 + 3.
Proof.
  intros ops c c'.
  apply (cache_statistics ops c c'). vm_compute. reflexivity.
Defined.

(** X7. A cache of no slot: every lookup is a miss, and every put reads
    [cacheArray[0]], which does not exist. *)
Theorem cache_without_slots (max_items : Z) (heap : nat -> Z) (dsk blk : Z)
    (buf : payload) :
  u32 max_items = 0 ->
  let c := snd (init_raid_cache max_items heap raid_cache.boot) in
  found dsk blk c = Some None
  /\ put_raid_cache dsk blk buf c = None.
Proof.
  intros Hzero c. unfold c, found, init_raid_cache, get_raid_cache,
    put_raid_cache. cbv zeta. rewrite Hzero. cbn. split; reflexivity.
Qed.

Lemma cache_without_slots_witness :
  let c := snd (init_raid_cache (2 ^ 32) (fun _ => 0) raid_cache.boot) in
  found 0 0 c = Some None /\ put_raid_cache 0 0 (blk 1) c = None.
Proof.
  apply (cache_without_slots (2 ^ 32) (fun _ => 0) 0 0 (blk 1)).
  vm_compute. reflexivity.
Defined.


(** ** More on the request codec *)

(** X8. The layout of a request: the type in byte 0 (the most significant
    one), the block count in byte 1, the disk in byte 2, nothing in byte 3,
    and the identifier in the low 32 bits.  An argument wider than its field
    is cut to the field and does not reach the neighbouring ones. *)
Theorem request_layout (t q d i : Z) :
  create_raid_request t q d i
  = u8 t * 2 ^ 56 + u8 q * 2 ^ 48 + u8 d * 2 ^ 40 + u32 i
  /\ 0 <= create_raid_request t q d i < 2 ^ 64.
Proof.
  rewrite create_raid_request_wrap. unfold packed, u8, u32.
  pose proof (Z.mod_pos_bound t (2 ^ 8) ltac:(lia)).
  pose proof (Z.mod_pos_bound q (2 ^ 8) ltac:(lia)).
  pose proof (Z.mod_pos_bound d (2 ^ 8) ltac:(lia)).
  pose proof (Z.mod_pos_bound i (2 ^ 32) ltac:(lia)).
  split; lia.
Qed.

(** X9. Two requests are the same opcode only if they have the same four
    fields. *)
Theorem create_raid_request_injective (t q d i t' q' d' i' : Z) :
  byte_range t -> byte_range q -> byte_range d -> word_range i ->
  byte_range t' -> byte_range q' -> byte_range d' -> word_range i' ->
  create_raid_request t q d i = create_raid_request t' q' d' i' ->
  t = t' /\ q = q' /\ d = d' /\ i = i'.
Proof.
  intros Ht Hq Hd Hi Ht' Hq' Hd' Hi' Heq.
  destruct (request_fields t q d i Ht Hq Hd Hi) as (H1 & H2 & H3 & H4 & _).
  destruct (request_fields t' q' d' i' Ht' Hq' Hd' Hi')
    as (H1' & H2' & H3' & H4' & _).
  cbv zeta in *. rewrite Heq in H1, H2, H3, H4.
  split_and!; congruence.
Qed.

Lemma create_raid_request_injective_witness :
  (3 : Z) = 3 /\ (2 : Z) = 2 /\ (1 : Z) = 1 /\ (7 : Z) = 7.
Proof.
  apply (create_raid_request_injective 3 2 1 7 3 2 1 7);
    unfold byte_range, word_range; first [lia | reflexivity].
Defined.

(** The status that [extract_raid_response] reads is bit 32 of the
    response. *)
Lemma op_status_bit resp :
  op_status resp = Z.b2z (Z.testbit resp 32).
Proof.
  unfold op_status, shr64, shl64, u64.
  assert (Hbit : Z.shiftr (Z.shiftl resp 31 mod 2 ^ 64) 63
                 = Z.b2z (Z.testbit resp 32)).
  { apply Z.bits_inj'. intros k Hk.
    rewrite Z.shiftr_spec by lia.
    destruct (Z.eq_dec k 0) as [-> | Hne].
    - rewrite Z.mod_pow2_bits_low by lia.
      rewrite Z.shiftl_spec by lia. rewrite Z.b2z_bit0.
      f_equal.
    - rewrite Z.mod_pow2_bits_high by lia.
      destruct (Z.testbit resp 32); cbn [Z.b2z].
      + rewrite Z.bits_above_log2; [reflexivity | lia | cbn; lia].
      + rewrite Z.bits_0. reflexivity. }
  rewrite Hbit. unfold u8. destruct (Z.testbit resp 32); reflexivity.
Qed.

(** X10. A response with the status bit (bit 32) set is a failure, whatever
    its other fields and whatever the request was. *)
Theorem status_bit_rejected `{raid_bus_h} (resp operation : RAIDOpCode)
    (g : RAIDresponse.t) :
  Z.testbit resp 32 = true ->
  fst (extract_raid_response resp operation g) = 1.
Proof.
  intros Hbit. rewrite extract_raid_response_verdict. unfold verdict.
  rewrite op_status_bit, Hbit. reflexivity.
Qed.

Lemma status_bit_rejected_witness :
  fst (extract_raid_response (H := small_config)
         (Z.lor (create_raid_request 2 1 0 5) (Z.shiftl 1 32))
         (create_raid_request 2 1 0 5) RAIDresponse.zero) = 1.
Proof.
  apply (status_bit_rejected (H := small_config)). vm_compute. reflexivity.
Defined.

(** What [GlobResponse] holds after a response was accepted. *)
Lemma extract_raid_response_accepted `{raid_bus_h}
    (resp operation : RAIDOpCode) (g g' : RAIDresponse.t) :
  extract_raid_response resp operation g = (0, g') ->
  g' = RAIDresponse.mk 0 (op_type resp) (op_blocks resp) (op_disk resp)
         (op_id resp)
  /\ op_status resp = 0.
Proof.
  intros Hrun.
  assert (Hstatus : op_status resp = 0).
  { pose proof (extract_raid_response_verdict resp operation g) as Hv.
    rewrite Hrun in Hv. cbn in Hv. unfold verdict in Hv.
    rewrite op_status_bit in *.
    destruct (Z.testbit resp 32); [discriminate | reflexivity]. }
  split; [| exact Hstatus].
  revert Hrun. unfold extract_raid_response. cbv zeta.
  destruct g as [st ty bq dn id]. cbn.
  fold (op_status resp) (op_disk resp) (op_blocks resp) (op_type resp)
    (op_id resp).
  rewrite Hstatus. cbn.
  repeat match goal with
         | |- context [if ?b then _ else _] => destruct b
         end; intros [= <-]; reflexivity.
Qed.

(** X11. When [extract_raid_response] accepts a response, [GlobResponse]
    holds the five fields of that response, and the status bit of the
    response is clear. *)
Theorem accepted_response_recorded `{raid_bus_h}
    (resp operation : RAIDOpCode) (g g' : RAIDresponse.t) :
  extract_raid_response resp operation g = (0, g') ->
  g' = RAIDresponse.mk 0 (op_type resp) (op_blocks resp) (op_disk resp)
         (op_id resp)
  /\ Z.testbit resp 32 = false.
Proof.
  intros Hrun.
  destruct (extract_raid_response_accepted _ _ _ _ Hrun) as [Hg Hstatus].
  split; [exact Hg |].
  rewrite op_status_bit in Hstatus.
  destruct (Z.testbit resp 32); [discriminate | reflexivity].
Qed.

Lemma accepted_response_recorded_witness :
  let resp := create_raid_request 2 1 0 5 in
  RAIDresponse.mk 0 2 1 0 5
  = RAIDresponse.mk 0 (op_type resp) (op_blocks resp) (op_disk resp)
      (op_id resp)
  /\ Z.testbit resp 32 = false.
Proof.
  intros resp.
  apply (accepted_response_recorded (H := small_config) resp resp
           RAIDresponse.zero).
  vm_compute. reflexivity.
Defined.

(** A response to a STATUS request that differs from it in the identifier
    only is accepted, and recorded. *)
Lemma extract_status_response `{raid_bus_h} (q d i v : Z)
    (g : RAIDresponse.t) :
  byte_range RAID_STATUS ->
  byte_range q -> byte_range d -> word_range i -> word_range v ->
  extract_raid_response (create_raid_request RAID_STATUS q d v)
    (create_raid_request RAID_STATUS q d i) g
  = (0, RAIDresponse.mk 0 RAID_STATUS q d v).
Proof.
  intros Ht Hq Hd Hi Hv.
  destruct (extract_raid_response (create_raid_request RAID_STATUS q d v)
              (create_raid_request RAID_STATUS q d i) g) as [r g'] eqn:Hrun.
  assert (r = 0) as ->.
  { pose proof (extract_raid_response_verdict
                  (create_raid_request RAID_STATUS q d v)
                  (create_raid_request RAID_STATUS q d i) g) as Hver.
    rewrite Hrun in Hver. cbn in Hver. rewrite Hver.
    rewrite !create_raid_request_packed by assumption.
    rewrite verdict_packed by (unfold byte_range in *; first [assumption | lia]).
    replace (0 mod 2 =? 1) with false by reflexivity.
    rewrite !Z.eqb_refl. cbn. rewrite andb_false_r. reflexivity. }
  destruct (extract_raid_response_accepted _ _ _ _ Hrun) as [-> _].
  destruct (request_fields RAID_STATUS q d v Ht Hq Hd Hv)
    as (-> & -> & -> & -> & _).
  reflexivity.
Qed.

(** X12. The answer to a STATUS request: the identifier of the response is
    not compared with the one of the request, and it is what
    [GlobResponse.id] holds afterwards, where [raid_disk_signal] reads the
    state of the disk. *)
Theorem status_response_accepted `{raid_bus_h} (q d i v : Z)
    (g : RAIDresponse.t) :
  byte_range RAID_STATUS ->
  byte_range q -> byte_range d -> word_range i -> word_range v ->
  extract_raid_response (create_raid_request RAID_STATUS q d v)
    (create_raid_request RAID_STATUS q d i) g
  = (0, RAIDresponse.mk 0 RAID_STATUS q d v).
Proof. apply extract_status_response. Qed.

Lemma status_response_accepted_witness :
  extract_raid_response (H := small_config) (create_raid_request 4 0 1 2)
    (create_raid_request 4 0 1 0) RAIDresponse.zero
  = (0, RAIDresponse.mk 0 4 0 1 2).
Proof.
  apply (status_response_accepted (H := small_config) 0 1 0 2);
    unfold byte_range, word_range; cbn; lia.
Defined.


(** ** The values that runs end with *)

Section Ends.
Context {S R : Type}.

Lemma ends_ret {A} (PV : A -> Prop) (PE : R -> Prop) (a : A) :
  PV a -> ends (S := S) PV PE (ret a).
Proof. intros Ha s. exact Ha. Qed.

Lemma ends_early {A} (PV : A -> Prop) (PE : R -> Prop) (r : R) :
  PE r -> ends (S := S) (A := A) PV PE (early r).
Proof. intros Hr s. exact Hr. Qed.

Lemma ends_undef {A} (PV : A -> Prop) (PE : R -> Prop) :
  ends (S := S) (A := A) PV PE undef.
Proof. intros s. exact I. Qed.

Lemma ends_weaken {A} (PV PV' : A -> Prop) (PE : R -> Prop) (m : M S R A) :
  ends PV PE m -> (forall a, PV a -> PV' a) -> ends PV' PE m.
Proof.
  intros Hm HP s. eapply wpx_mono; [apply Hm | |]; cbv beta; auto.
Qed.

Lemma ends_of_option {A} (PE : R -> Prop) (o : option A) :
  ends (S := S) (fun _ => True) PE (of_option o).
Proof. destruct o; [apply ends_ret; exact I | apply ends_undef]. Qed.

Lemma ends_bind {A B} (PV : B -> Prop) (PE : R -> Prop) (m : M S R A)
    (k : A -> M S R B) :
  ends (fun _ => True) PE m -> (forall a, ends PV PE (k a)) ->
  ends PV PE (bind m k).
Proof.
  intros Hm Hk s. apply wpx_bind.
  eapply wpx_mono; [apply Hm | |]; cbv beta; [| auto].
  intros a s' _. apply Hk.
Qed.

Lemma ends_for_loop {A} (PE : R -> Prop) (f : Z -> A -> M S R A) n :
  (forall i acc, ends (fun _ => True) PE (f i acc)) ->
  forall i acc, ends (fun _ => True) PE (for_loop n i f acc).
Proof.
  intros Hf. induction n as [| n IH]; intros i acc.
  - apply ends_ret. exact I.
  - cbn [for_loop]. apply ends_bind; [apply Hf | intros acc'; apply IH].
Qed.

Lemma ends_for_ {A} (PE : R -> Prop) (f : Z -> A -> M S R A) n acc :
  (forall i acc, ends (fun _ => True) PE (f i acc)) ->
  ends (fun _ => True) PE (for_ n f acc).
Proof. intros Hf. apply ends_for_loop. exact Hf. Qed.

Lemma ends_while_loop {A} (PE : R -> Prop) (cond : A -> M S R bool)
    (f : A -> M S R A) n :
  (forall acc, ends (fun _ => True) PE (cond acc)) ->
  (forall acc, ends (fun _ => True) PE (f acc)) ->
  forall acc, ends (fun _ => True) PE (while_loop n cond f acc).
Proof.
  intros Hcond Hf. induction n as [| n IH]; intros acc.
  - intros s. exact I.
  - cbn [while_loop]. apply ends_bind; [apply Hcond |].
    intros [|]; [| apply ends_ret; exact I].
    apply ends_bind; [apply Hf | intros acc'; apply IH].
Qed.

(** The body of a function ends with what it returns, early or not. *)
Lemma ends_body (P : R -> Prop) (m : M S R R) :
  ends P P m -> ends (R := R) P (fun _ => False) (body m).
Proof. intros Hm s. apply wpx_body. apply Hm. Qed.

(** A call never returns early from the caller. *)
Lemma ends_call {R' A} (PE : R -> Prop) (m : M S R' A) :
  ends (fun _ => True) PE (call m).
Proof.
  intros s. unfold wpx, call. destruct (m s); exact I.
Qed.

End Ends.

(** Decomposes a goal [ends PV PE m] along the structure of [m]. *)
Ltac ends_structure :=
  repeat match goal with
         | |- forall _, _ => intros
         | |- ends _ _ (ret _) => apply ends_ret; try exact I
         | |- ends _ _ (early _) => apply ends_early
         | |- ends _ _ undef => apply ends_undef
         | |- ends _ _ (of_option _) => apply ends_of_option
         | |- ends _ _ (bind _ _) => apply ends_bind
         | |- ends _ _ (for_ _ _ _) => apply ends_for_
         | |- ends _ _ (call _) => apply ends_call
         | |- ends _ _ (match ?x with _ => _ end) => destruct x
         end.

Section EndsDriver.
Context `{raid_bus_h} {Srv : Type}.
Variable serve :
  Srv -> RAIDOpCode -> list payload -> Srv * (RAIDOpCode * list payload).
Context {R : Type} (PE : R -> Prop).

Abbreviation quiet m := (ends (S := State Srv) (fun _ => True) PE m).

Lemma ends_gets {A} (f : State Srv -> A) : quiet (gets f).
Proof. intros s. exact I. Qed.

Lemma ends_modify (f : State Srv -> State Srv) : quiet (modify f).
Proof. intros s. exact I. Qed.

Lemma ends_rand : quiet rand.
Proof. intros s. unfold wpx, rand. destruct (rand_stream s); exact I. Qed.

Lemma ends_while {A} (cond : A -> M (State Srv) R bool)
    (f : A -> M (State Srv) R A) acc :
  (forall acc, quiet (cond acc)) -> (forall acc, quiet (f acc)) ->
  quiet (while cond f acc).
Proof.
  intros Hcond Hf s. unfold while.
  apply (ends_while_loop PE cond f _ Hcond Hf acc s).
Qed.

Lemma ends_read_tagcounter tag : quiet (read_tagcounter tag).
Proof. unfold read_tagcounter. ends_structure. apply ends_gets. Qed.

Lemma ends_write_tagcounter tag v : quiet (write_tagcounter tag v).
Proof.
  unfold write_tagcounter.
  ends_structure; first [apply ends_gets | apply ends_modify].
Qed.

Lemma ends_read_array disk : quiet (read_array disk).
Proof. unfold read_array. ends_structure. apply ends_gets. Qed.

Lemma ends_write_array disk v : quiet (write_array disk v).
Proof.
  unfold write_array.
  ends_structure; first [apply ends_gets | apply ends_modify].
Qed.

Lemma ends_read_tag tag k : quiet (read_tag tag k).
Proof. unfold read_tag. ends_structure. apply ends_gets. Qed.

Lemma ends_read_row tag : quiet (read_row tag).
Proof. unfold read_row. ends_structure. apply ends_gets. Qed.

Lemma ends_write_tag tag k f : quiet (write_tag tag k f).
Proof.
  unfold write_tag.
  ends_structure; first [apply ends_gets | apply ends_modify].
Qed.

Lemma ends_buf_at buf k : quiet (buf_at buf k).
Proof. unfold buf_at. ends_structure. Qed.

Lemma ends_buf_store buf k src : quiet (buf_store buf k src).
Proof. unfold buf_store. ends_structure. Qed.

Lemma ends_read_slot p : quiet (read_slot p).
Proof. unfold read_slot. ends_structure. apply ends_gets. Qed.

Lemma ends_call_put_raid_cache dsk blk buf :
  quiet (call_put_raid_cache dsk blk buf).
Proof.
  unfold call_put_raid_cache.
  ends_structure; first [apply ends_gets | apply ends_modify].
Qed.

Lemma ends_call_get_raid_cache dsk blk : quiet (call_get_raid_cache dsk blk).
Proof.
  unfold call_get_raid_cache.
  ends_structure; first [apply ends_gets | apply ends_modify].
Qed.

Lemma ends_call_close_raid_cache : quiet call_close_raid_cache.
Proof.
  unfold call_close_raid_cache.
  ends_structure; first [apply ends_gets | apply ends_modify].
Qed.

Lemma ends_call_extract_raid_response resp operation :
  quiet (call_extract_raid_response resp operation).
Proof.
  unfold call_extract_raid_response.
  ends_structure; first [apply ends_gets | apply ends_modify].
Qed.

(** The one place where a function of the driver returns early. *)
Lemma ends_return_if_invalid resp operation (r : R) :
  PE r -> quiet (return_if_invalid resp operation r).
Proof.
  intros Hr. unfold return_if_invalid. ends_structure.
  - apply ends_call_extract_raid_response.
  - exact Hr.
Qed.

Lemma ends_client_raid_bus_request op buf off :
  quiet (client_raid_bus_request serve op buf off).
Proof.
  unfold client_raid_bus_request.
  ends_structure; first [apply ends_gets | apply ends_modify].
Qed.

Lemma ends_chooseDisk disk backupDisk blks :
  quiet (chooseDisk disk backupDisk blks).
Proof.
  unfold chooseDisk, deref.
  ends_structure; try apply ends_while; ends_structure; apply ends_rand.
Qed.

End EndsDriver.

(** Solves [ends (fun _ => True) PE m] when [m] is made of the accesses to
    the tables, calls into the cache and the codec, bus requests, random
    draws and early returns of values that [exit] shows to satisfy [PE]. *)
Ltac ends_io exit :=
  ends_structure;
  lazymatch goal with
  | |- ends _ _ (gets _) => apply ends_gets
  | |- ends _ _ (modify _) => apply ends_modify
  | |- ends _ _ rand => apply ends_rand
  | |- ends _ _ (read_tag _ _) => apply ends_read_tag
  | |- ends _ _ (read_row _) => apply ends_read_row
  | |- ends _ _ (write_tag _ _ _) => apply ends_write_tag
  | |- ends _ _ (read_array _) => apply ends_read_array
  | |- ends _ _ (write_array _ _) => apply ends_write_array
  | |- ends _ _ (read_tagcounter _) => apply ends_read_tagcounter
  | |- ends _ _ (write_tagcounter _ _) => apply ends_write_tagcounter
  | |- ends _ _ (buf_at _ _) => apply ends_buf_at
  | |- ends _ _ (buf_store _ _ _) => apply ends_buf_store
  | |- ends _ _ (read_slot _) => apply ends_read_slot
  | |- ends _ _ (call_put_raid_cache _ _ _) => apply ends_call_put_raid_cache
  | |- ends _ _ (call_get_raid_cache _ _) => apply ends_call_get_raid_cache
  | |- ends _ _ call_close_raid_cache => apply ends_call_close_raid_cache
  | |- ends _ _ (call_extract_raid_response _ _) =>
      apply ends_call_extract_raid_response
  | |- ends _ _ (return_if_invalid _ _ _) =>
      apply ends_return_if_invalid; exit
  | |- ends _ _ (client_raid_bus_request _ _ _ _) =>
      apply ends_client_raid_bus_request
  | |- ends _ _ (chooseDisk _ _ _) => apply ends_chooseDisk
  | |- ends _ _ (while _ _ _) => apply ends_while; ends_io exit
  | |- _ => exit
  end.

Section StatusCodes.
Context `{raid_bus_h} {Srv : Type}.
Variable serve :
  Srv -> RAIDOpCode -> list payload -> Srv * (RAIDOpCode * list payload).

Ltac status_exit := cbn; first [left; reflexivity | right; reflexivity].

Lemma tagline_driver_init_status maxlines heap :
  ends (S := State Srv) status_code (fun _ => False)
    (tagline_driver_init serve maxlines heap).
Proof.
  unfold tagline_driver_init. apply ends_body. cbv zeta.
  ends_io status_exit.
Qed.

Lemma tagline_read_status tag bnum blks buf :
  ends (S := State Srv) (fun r => status_code (fst r)) (fun _ => False)
    (tagline_read serve tag bnum blks buf).
Proof.
  unfold tagline_read. apply ends_body. cbv zeta.
  ends_io status_exit.
Qed.

Lemma tagline_close_status :
  ends (S := State Srv) status_code (fun _ => False) (tagline_close serve).
Proof.
  unfold tagline_close. apply ends_body. cbv zeta.
  ends_io status_exit.
Qed.

Lemma raid_disk_recover_status disk :
  ends (S := State Srv) status_code (fun _ => False)
    (raid_disk_recover serve disk).
Proof.
  unfold raid_disk_recover. apply ends_body. cbv zeta.
  ends_io status_exit.
Qed.

Lemma raid_disk_signal_status :
  ends (S := State Srv) status_code (fun _ => False) (raid_disk_signal serve).
Proof.
  unfold raid_disk_signal. apply ends_body. cbv zeta.
  ends_io status_exit.
Qed.

Abbreviation write_status :=
  (fun r : Z * list payload => status_code (fst r)).

Lemma count_available_status tag bnum blks :
  ends (S := State Srv) (fun _ => True) write_status
    (count_available tag bnum blks).
Proof. unfold count_available. ends_io status_exit. Qed.

Lemma write_disk_batch_status tag bnum n buf :
  ends (S := State Srv) (fun _ => True) write_status
    (write_disk_batch serve tag bnum n buf).
Proof.
  unfold write_disk_batch, cache_disk_blocks. ends_io status_exit.
Qed.

Lemma write_backup_batch_status tag bnum cached n buf :
  ends (S := State Srv) (fun _ => True) write_status
    (write_backup_batch serve tag bnum cached n buf).
Proof.
  unfold write_backup_batch, cache_backup_blocks. ends_io status_exit.
Qed.

Lemma write_disk_rest_status tag bnum blks blocksAvailable disk buf :
  ends (S := State Srv) (fun _ => True) write_status
    (write_disk_rest serve tag bnum blks blocksAvailable disk buf).
Proof. unfold write_disk_rest, deref. ends_io status_exit. Qed.

Lemma write_backup_rest_status tag bnum blks blocksAvailable blocksAvailable2
    backupDisk buf :
  ends (S := State Srv) (fun _ => True) write_status
    (write_backup_rest serve tag bnum blks blocksAvailable blocksAvailable2
       backupDisk buf).
Proof. unfold write_backup_rest, deref. ends_io status_exit. Qed.

Lemma write_append_status tag bnum blks disk backupDisk buf :
  ends (S := State Srv) (fun _ => True) write_status
    (write_append serve tag bnum blks disk backupDisk buf).
Proof. unfold write_append. ends_io status_exit. Qed.

Lemma tagline_write_status tag bnum blks buf :
  ends (S := State Srv) write_status (fun _ => False)
    (tagline_write serve tag bnum blks buf).
Proof.
  unfold tagline_write. apply ends_body. cbv zeta. unfold deref.
  ends_io
    ltac:(idtac;
          lazymatch goal with
          | |- ends _ _ (count_available _ _ _) =>
              apply count_available_status
          | |- ends _ _ (write_disk_batch _ _ _ _ _) =>
              apply write_disk_batch_status
          | |- ends _ _ (write_backup_batch _ _ _ _ _ _) =>
              apply write_backup_batch_status
          | |- ends _ _ (write_disk_rest _ _ _ _ _ _ _) =>
              apply write_disk_rest_status
          | |- ends _ _ (write_backup_rest _ _ _ _ _ _ _ _) =>
              apply write_backup_rest_status
          | |- ends _ _ (write_append _ _ _ _ _ _ _) =>
              apply write_append_status
          | |- _ => status_exit
          end).
Qed.

End StatusCodes.

(** X13. Every operation of the driver that returns, returns 0 or 1,
    whatever the storage array answers. *)
Theorem status_is_zero_or_one `{raid_bus_h} {Srv : Type}
    (serve : Srv -> RAIDOpCode -> list payload
             -> Srv * (RAIDOpCode * list payload))
    (s s' : State Srv) (r : Z) :
  driver_returns serve s r s' -> r = 0 \/ r = 1.
Proof.
  intros Hcall.
  destruct Hcall as [maxlines heap s r s' Hrun
                    | tag bnum blks buf s r buf' s' Hrun
                    | tag bnum blks buf s r buf' s' Hrun
                    | s r s' Hrun | disk s r s' Hrun | s r s' Hrun].
  - exact (wpx_val _ _ _ _ _ _ _
             (tagline_driver_init_status serve maxlines heap s) Hrun).
  - exact (wpx_val _ _ _ _ _ _ _
             (tagline_read_status serve tag bnum blks buf s) Hrun).
  - exact (wpx_val _ _ _ _ _ _ _
             (tagline_write_status serve tag bnum blks buf s) Hrun).
  - exact (wpx_val _ _ _ _ _ _ _ (tagline_close_status serve s) Hrun).
  - exact (wpx_val _ _ _ _ _ _ _
             (raid_disk_recover_status serve disk s) Hrun).
  - exact (wpx_val _ _ _ _ _ _ _ (raid_disk_signal_status serve s) Hrun).
Qed.

Lemma status_is_zero_or_one_witness : (1 : Z) = 0 \/ (1 : Z) = 1.
Proof.
  apply (status_is_zero_or_one (H := small_config) small_serve
           (with_faults [false; false; true] example_written)
           (end_state
              (tagline_read (H := small_config) small_serve 0 0 3
                 [None; None; None])
              (with_faults [false; false; true] example_written)) 1).
  apply (returns_read small_serve 0 0 3 [None; None; None] _ 1
           [blk 1; blk 2; None]).
  vm_compute. reflexivity.
Defined.


(** ** The bus *)

Lemma receive_length (n : nat) (src dst : list payload) :
  length dst = n -> length (receive n src dst) = n.
Proof.
  intros Hdst. unfold receive.
  rewrite length_app, length_drop, !length_take. lia.
Qed.

(** X14. A request over the bus changes nothing of the caller's buffer but
    the blocks that go with the request: the buffer keeps its length, the
    blocks before the offset and after the blocks sent keep their content,
    and a request that is neither a READ nor a WRITE leaves the whole
    buffer.  Of the state, only the storage array changes. *)
Theorem bus_request_window `{raid_bus_h} {Srv R : Type}
    (serve : Srv -> RAIDOpCode -> list payload
             -> Srv * (RAIDOpCode * list payload))
    (op : RAIDOpCode) (buf buf' : list payload) (off : Z)
    (response : RAIDOpCode) (s s' : State Srv) :
  client_raid_bus_request (R := R) serve op buf off s
  = Val (response, buf') s' ->
  length buf' = length buf
  /\ (forall j : nat,
        (Z.of_nat j < off \/ off + blocks_sent op <= Z.of_nat j) ->
        buf' !! j = buf !! j)
  /\ (carries_blocks op = false -> buf' = buf)
  /\ s' = set_raid (raid s') s.
Proof.
  unfold client_raid_bus_request, carries_blocks, blocks_sent. cbv zeta.
  destruct ((u8 (shr64 op 56) =? RAID_READ) || (u8 (shr64 op 56) =? RAID_WRITE)).
  - assert (Hblocks : 0 <= shr64 (shl64 op 8) 56).
    { unfold shr64. apply Z.shiftr_nonneg. unfold shl64, u64.
      apply Z.mod_pos_bound. lia. }
    generalize dependent (shr64 (shl64 op 8) 56). intros blocks Hblocks.
    destruct (Z.ltb_spec off 0) as [Hneg | Hoff]; [discriminate |].
    destruct (Z.ltb_spec (Z.of_nat (length buf)) (off + blocks))
      as [Hover | Hin]; [discriminate |].
    cbn [orb]. unfold bind, gets, modify, ret.
    destruct (serve (raid s) op _) as [srv' [resp back]] eqn:Hserve.
    intros [= <- <- <-].
    set (window := take (Z.to_nat blocks) (drop (Z.to_nat off) buf)).
    assert (Hwindow : length window = Z.to_nat blocks).
    { unfold window. rewrite length_take, length_drop. lia. }
    pose proof (receive_length (Z.to_nat blocks) back window Hwindow) as Hrecv.
    split_and!.
    + rewrite !length_app, Hrecv, length_take, length_drop. lia.
    + intros j [Hj | Hj].
      * rewrite lookup_app_l by (rewrite length_take; lia).
        apply lookup_take_lt. lia.
      * rewrite lookup_app_r by (rewrite length_take; lia).
        rewrite lookup_app_r by (rewrite length_take, Hrecv; lia).
        rewrite Hrecv, length_take, lookup_drop. f_equal. lia.
    + discriminate.
    + reflexivity.
  - unfold bind, gets, modify, ret.
    destruct (serve (raid s) op []) as [srv' [resp back]].
    intros [= <- <- <-]. split_and!; reflexivity || auto.
Qed.

Lemma bus_request_window_witness :
  let op := create_raid_request 2 1 0 1 in
  let buf := [None; None; None] in
  let buf' := [None; blk 2; None] in
  let s' := end_state
              (client_raid_bus_request (H := small_config) (R := Z)
                 small_serve op buf 1) example_written in
  length buf' = length buf
  /\ (forall j : nat,
        (Z.of_nat j < 1 \/ 1 + blocks_sent op <= Z.of_nat j) ->
        buf' !! j = buf !! j)
  /\ (carries_blocks (H := small_config) op = false -> buf' = buf)
  /\ s' = set_raid (raid s') example_written.
Proof.
  intros op buf buf' s'.
  apply (bus_request_window (H := small_config) (R := Z) small_serve op buf
           buf' 1 op example_written s').
  vm_compute. reflexivity.
Defined.

(** ** What the operations leave as it is *)

Section Kept.
Context `{raid_bus_h} {Srv : Type}.
Variable serve :
  Srv -> RAIDOpCode -> list payload -> Srv * (RAIDOpCode * list payload).

Lemma tables_table_part : table_part (tables (Srv := Srv)).
Proof. repeat split. Qed.

Lemma layout_table_part : table_part (layout (Srv := Srv)).
Proof. repeat split. Qed.

Lemma tagline_read_keeps_tables tag bnum blks buf :
  keeps tables (tagline_read serve tag bnum blks buf).
Proof.
  unfold tagline_read. keeps_io tables_table_part ltac:(fail).
Qed.

(** [array[disk].status = st;] leaves the layout. *)
Lemma keeps_layout_set_status {R A} disk st
    (k : unit -> M (State Srv) R A) :
  (forall u, keeps layout (k u)) ->
  keeps layout
    (bind (read_array disk)
       (fun d => bind (write_array disk (disks.mk st (disks.blocks d))) k)).
Proof.
  intros Hk s. unfold read_array, write_array.
  apply wpx_bind, wpx_bind, wpx_gets, wpx_of_option.
  destruct (idx (array s) disk) as [d |] eqn:Hd; [| exact I].
  apply wpx_bind, wpx_bind, wpx_gets, wpx_bind, wpx_of_option.
  rewrite Hd. apply wpx_modify.
  assert (Hsame : layout
                    (set_array (upd (array s) disk
                                  (disks.mk st (disks.blocks d))) s)
                  = layout s).
  { unfold layout, cursors, upd. cbn. rewrite list_fmap_insert. cbn.
    rewrite list_insert_id; [reflexivity |]. rewrite list_lookup_fmap.
    apply idx_lookup in Hd as [_ ->]. reflexivity. }
  eapply wpx_mono; [apply Hk | |]; cbv beta; intros; congruence.
Qed.

Lemma raid_disk_recover_keeps_layout disk :
  keeps layout (raid_disk_recover serve disk).
Proof.
  unfold raid_disk_recover. apply keeps_body.
  apply keeps_bind; [keeps_io layout_table_part ltac:(fail) | intros [? ?]].
  apply keeps_bind; [keeps_io layout_table_part ltac:(fail) | intros ?].
  apply keeps_bind; [keeps_io layout_table_part ltac:(fail) | intros ?].
  apply keeps_bind; [keeps_io layout_table_part ltac:(fail) | intros ?].
  apply keeps_layout_set_status. intros u. apply keeps_ret.
Qed.

Lemma raid_disk_signal_keeps_layout : keeps layout (raid_disk_signal serve).
Proof.
  unfold raid_disk_signal. apply keeps_body.
  apply keeps_bind; [| intros ?; apply keeps_ret].
  apply keeps_for_. intros disk u.
  apply keeps_bind; [keeps_io layout_table_part ltac:(fail) | intros [? ?]].
  apply keeps_bind; [keeps_io layout_table_part ltac:(fail) | intros ?].
  apply keeps_bind; [keeps_io layout_table_part ltac:(fail) | intros g].
  destruct (RAIDresponse.id g =? RAID_DISK_FAILED); [| apply keeps_ret].
  apply keeps_layout_set_status. intros ?.
  apply keeps_bind; [| intros ?; apply keeps_ret].
  apply keeps_call, raid_disk_recover_keeps_layout.
Qed.

End Kept.

(** X15. A read changes none of the tables of the driver (the number of
    taglines, their block counts, the disk records, the mapping), whatever
    it is asked to read and whatever the storage array answers. *)
Theorem read_keeps_tables `{raid_bus_h} {Srv : Type}
    (serve : Srv -> RAIDOpCode -> list payload
             -> Srv * (RAIDOpCode * list payload))
    (tag bnum blks : Z) (buf : list payload) (s s' : State Srv)
    (r : Z * list payload) :
  tagline_read serve tag bnum blks buf s = Val r s' ->
  tables s' = tables s.
Proof.
  intros Hrun.
  exact (wpx_val _ _ _ _ _ _ _
           (tagline_read_keeps_tables serve tag bnum blks buf s) Hrun).
Qed.

Lemma read_keeps_tables_witness :
  let m := tagline_read (H := small_config) small_serve 0 0 3
             [None; None; None] in
  tables (end_state m example_written) = tables example_written.
Proof.
  intros m.
  apply (read_keeps_tables (H := small_config) small_serve 0 0 3
           [None; None; None] example_written
           (end_state m example_written) (0, [blk 1; blk 2; blk 3])).
  vm_compute. reflexivity.
Defined.

(** X16. Checking the disks, with whatever recoveries it starts and
    however they end, changes the status of disks only: the number of
    taglines, their block counts, the allocation cursors and the mapping
    stay as they are. *)
Theorem signal_keeps_layout `{raid_bus_h} {Srv : Type}
    (serve : Srv -> RAIDOpCode -> list payload
             -> Srv * (RAIDOpCode * list payload))
    (s s' : State Srv) (r : Z) :
  raid_disk_signal serve s = Val r s' ->
  layout s' = layout s.
Proof.
  intros Hrun.
  exact (wpx_val _ _ _ _ _ _ _ (raid_disk_signal_keeps_layout serve s) Hrun).
Qed.

Lemma signal_keeps_layout_witness :
  let m := raid_disk_signal (H := small_config) small_serve in
  layout (end_state m example_failed) = layout example_failed.
Proof.
  intros m.
  apply (signal_keeps_layout (H := small_config) small_serve example_failed
           (end_state m example_failed) 0).
  vm_compute. reflexivity.
Defined.


(** ** How the operations end *)

(** One step of a body that keeps a part of the state and returns early
    with values in [PE] only. *)
Lemma wpx_quiet_step {S R A B X} (proj : S -> X) (PE : R -> Prop)
    (m : M S R A) (k : A -> M S R B) Q (E : R -> S -> Prop) s :
  keeps proj m -> ends (fun _ => True) PE m ->
  (forall r s', PE r -> proj s' = proj s -> E r s') ->
  (forall a s', proj s' = proj s -> wpx True (k a) Q E s') ->
  wpx True (bind m k) Q E s.
Proof.
  intros Hkeeps Hends HE Hk. apply wpx_bind.
  eapply wpx_mono; [exact (wpx_and True _ _ _ _ _ s (Hkeeps s) (Hends s)) | |];
    cbv beta.
  - intros a s' [Hs' _]. apply Hk. exact Hs'.
  - intros r s' [Hs' Hr]. apply HE; assumption.
Qed.

(** A piece of a body that never returns early. *)
Lemma wpx_no_exit {S R A} (m : M S R A) (E : R -> S -> Prop) s :
  ends (fun _ => True) (fun _ => False) m ->
  wpx True m (fun _ _ => True) E s.
Proof.
  intros Hm. eapply wpx_mono; [apply Hm | |]; cbv beta; [auto | tauto].
Qed.

Section BusPart.
Context `{raid_bus_h} {Srv : Type}.
Variable serve :
  Srv -> RAIDOpCode -> list payload -> Srv * (RAIDOpCode * list payload).
Context {X : Type} (proj : State Srv -> X).
Hypothesis Hpart : bus_part proj.

Lemma keeps_bus_request {R} op buf off :
  keeps proj (client_raid_bus_request (R := R) serve op buf off).
Proof using Hpart.
  unfold client_raid_bus_request.
  keeps_structure; try apply keeps_gets; apply keeps_modify; apply Hpart.
Qed.

Lemma keeps_bus_check {R} resp operation (r : R) :
  keeps proj (return_if_invalid resp operation r).
Proof using Hpart.
  unfold return_if_invalid, call_extract_raid_response.
  keeps_structure; try apply keeps_gets. apply keeps_modify; apply Hpart.
Qed.

End BusPart.

Section Outcomes.
Context `{raid_bus_h} {Srv : Type}.
Variable serve :
  Srv -> RAIDOpCode -> list payload -> Srv * (RAIDOpCode * list payload).

Lemma array_table_part : table_part (array (Srv := Srv)).
Proof. repeat split. Qed.

Ltac exit_one := cbn; reflexivity.

Lemma raid_disk_recover_outcome disk (s : State Srv) :
  let P := fun r s' =>
    (r = 0 /\ exists d, idx (array s) (u8 disk) = Some d
       /\ array s'
          = upd (array s) (u8 disk)
              (disks.mk RAID_DISK_READY (disks.blocks d)))
    \/ (r = 1 /\ array s' = array s) in
  wpx True (raid_disk_recover serve disk) P (fun _ _ => False) s.
Proof.
  intros P. unfold raid_disk_recover. apply wpx_body. cbv zeta.
  assert (HE : forall (r : Z) s', r = 1 -> array s' = array s -> P r s')
    by (intros r s' -> Hs'; right; auto).
  apply (wpx_quiet_step array (fun r => r = 1));
    [ keeps_io array_table_part ltac:(fail) | ends_io exit_one
    | exact HE | intros [response _] s1 Hs1 ].
  apply (wpx_quiet_step array (fun r => r = 1));
    [ keeps_io array_table_part ltac:(fail) | ends_io exit_one
    | intros r s' Hr Hs'; apply HE; congruence | intros _ s2 Hs2 ].
  apply (wpx_quiet_step array (fun r => r = 1));
    [ keeps_io array_table_part ltac:(fail) | ends_io exit_one
    | intros r s' Hr Hs'; apply HE; congruence | intros n s3 Hs3 ].
  apply (wpx_quiet_step array (fun r => r = 1));
    [ keeps_io array_table_part ltac:(fail) | ends_io exit_one
    | intros r s' Hr Hs'; apply HE; congruence | intros locals s4 Hs4 ].
  assert (Harr : array s4 = array s) by congruence.
  apply wpx_bind, wpx_read_array. rewrite Harr.
  destruct (idx (array s) (u8 disk)) as [d |] eqn:Hd; [| exact I].
  apply wpx_bind, wpx_write_array. rewrite Harr, Hd.
  apply wpx_ret. left. split; [reflexivity |]. exists d.
  split; [reflexivity |]. reflexivity.
Qed.

End Outcomes.

(** X17. How a recovery ends: either it returns 0 and has marked the disk
    as ready, or it returns 1 and has left every disk record as it was (the
    disk stays marked as failed when it was).  No other disk record
    changes, and the cursor of the recovered disk is kept. *)
Theorem recovery_outcome `{raid_bus_h} {Srv : Type}
    (serve : Srv -> RAIDOpCode -> list payload
             -> Srv * (RAIDOpCode * list payload))
    (disk : Z) (s s' : State Srv) (r : Z) :
  raid_disk_recover serve disk s = Val r s' ->
  (r = 0 /\ exists d, idx (array s) (u8 disk) = Some d
     /\ array s'
        = upd (array s) (u8 disk)
            (disks.mk RAID_DISK_READY (disks.blocks d)))
  \/ (r = 1 /\ array s' = array s).
Proof.
  intros Hrun.
  exact (wpx_val _ _ _ _ _ _ _ (raid_disk_recover_outcome serve disk s) Hrun).
Qed.

Lemma recovery_outcome_witness :
  let s := with_faults [true] example_failed in
  let s' := end_state (raid_disk_recover (H := small_config) small_serve 0) s in
  ((1 : Z) = 0 /\ exists d, idx (array s) (u8 0) = Some d
     /\ array s'
        = upd (array s) (u8 0)
            (disks.mk (RAID_DISK_READY (raid_bus_h := small_config))
               (disks.blocks d)))
  \/ ((1 : Z) = 1 /\ array s' = array s).
Proof.
  intros s s'.
  apply (recovery_outcome (H := small_config) small_serve 0 s s' 1).
  vm_compute. reflexivity.
Defined.

Section Append.
Context `{raid_bus_h} {Srv : Type}.
Variable serve :
  Srv -> RAIDOpCode -> list payload -> Srv * (RAIDOpCode * list payload).

Ltac any_exit := exact I.

Ltac tables_step :=
  apply (wpx_quiet_step tables (fun _ => True));
    [ keeps_io (tables_table_part (Srv := Srv)) ltac:(fail)
    | ends_io any_exit
    | intros ? ? _ ?; congruence
    | ].

(** An append assigns to the tables only after both WRITE requests have
    been answered and accepted. *)
Lemma write_append_atomic tag bnum blks disk backupDisk buf (s : State Srv) :
  wpx True (write_append serve tag bnum blks disk backupDisk buf)
    (fun _ _ => True) (fun _ s' => tables s' = tables s) s.
Proof.
  unfold write_append.
  tables_step. intros _ s1 Hs1.
  tables_step. intros d s2 Hs2.
  tables_step. intros [response buf1] s3 Hs3.
  tables_step. intros _ s4 Hs4.
  tables_step. intros _ s5 Hs5.
  tables_step. intros d2 s6 Hs6.
  tables_step. intros [response2 buf2] s7 Hs7.
  tables_step. intros _ s8 Hs8.
  apply wpx_no_exit. ends_io ltac:(fail).
Qed.

Lemma tagline_write_append_atomic tag bnum blks buf c (s : State Srv) :
  idx (tagcounter s) tag = Some c -> c <= bnum ->
  wpx True (tagline_write serve tag bnum blks buf)
    (fun r s' => fst r = 0 \/ tables s' = tables s) (fun _ _ => False) s.
Proof.
  intros Hc Hle. unfold tagline_write. apply wpx_body. cbv zeta.
  apply wpx_bind, wpx_read_tagcounter. rewrite Hc.
  replace (bnum <? c) with false by (symmetry; apply Z.ltb_ge; exact Hle).
  cbn [andb negb]. unfold deref.
  apply (wpx_quiet_step tables (fun _ => True));
    [ keeps_io (tables_table_part (Srv := Srv)) ltac:(fail)
    | ends_io any_exit | intros ? ? _ ?; right; congruence
    | intros r1 s1 Hs1 ].
  apply (wpx_quiet_step tables (fun _ => True));
    [ keeps_io (tables_table_part (Srv := Srv)) ltac:(fail)
    | ends_io any_exit | intros ? ? _ ?; right; congruence
    | intros r2 s2 Hs2 ].
  apply (wpx_quiet_step tables (fun _ => True));
    [ keeps_io (tables_table_part (Srv := Srv)) ltac:(fail)
    | ends_io any_exit | intros ? ? _ ?; right; congruence
    | intros [disk backupDisk] s3 Hs3 ].
  apply wpx_bind, wpx_of_option. destruct disk as [disk |]; [| exact I].
  apply wpx_bind, wpx_of_option.
  destruct backupDisk as [backupDisk |]; [| exact I].
  apply wpx_bind, wpx_ret, wpx_bind, wpx_ret, wpx_bind.
  eapply wpx_mono;
    [ apply (write_append_atomic tag bnum (u8 blks) disk backupDisk buf s3)
    | | ]; cbv beta.
  - intros buf' s' _. apply wpx_ret. left. reflexivity.
  - intros r s' Hs'. right. congruence.
Qed.

End Append.

(** X18. An append that fails changes none of the tables of the driver:
    when a write at or past the end of a tagline returns a status other
    than 0, the block counts, the disk records and the mapping are what
    they were before the call. *)
Theorem failed_append_keeps_tables `{raid_bus_h} {Srv : Type}
    (serve : Srv -> RAIDOpCode -> list payload
             -> Srv * (RAIDOpCode * list payload))
    (tag bnum blks c : Z) (buf buf' : list payload) (s s' : State Srv)
    (r : Z) :
  idx (tagcounter s) tag = Some c -> c <= bnum ->
  tagline_write serve tag bnum blks buf s = Val (r, buf') s' ->
  r <> 0 ->
  tables s' = tables s.
Proof.
  intros Hc Hle Hrun Hr.
  destruct (wpx_val _ _ _ _ _ _ _
              (tagline_write_append_atomic serve tag bnum blks buf c s Hc Hle)
              Hrun) as [Hzero | Hsame].
  - cbn in Hzero. contradiction.
  - exact Hsame.
Qed.

Lemma failed_append_keeps_tables_witness :
  let s := with_faults [false; true] example_ready in
  let m := tagline_write (H := small_config) small_serve 0 0 3
             [blk 1; blk 2; blk 3] in
  tables (end_state m s) = tables s.
Proof.
  intros s m.
  apply (failed_append_keeps_tables (H := small_config) small_serve 0 0 3 0
           [blk 1; blk 2; blk 3] [blk 1; blk 2; blk 3] s (end_state m s) 1).
  - vm_compute. reflexivity.
  - lia.
  - vm_compute. reflexivity.
  - discriminate.
Defined.

Lemma bind_undef {S R A B} (m : M S R A) (k : A -> M S R B) s :
  m s = Undef -> bind m k s = Undef.
Proof. intros Hm. unfold bind. rewrite Hm. reflexivity. Qed.

Lemma body_undef {S R} (m : M S R R) s : m s = Undef -> body m s = Undef.
Proof. intros Hm. unfold body. rewrite Hm. reflexivity. Qed.

Section Close.
Context `{raid_bus_h} {Srv : Type}.
Variable serve :
  Srv -> RAIDOpCode -> list payload -> Srv * (RAIDOpCode * list payload).

Lemma own_bus_part : bus_part (own (Srv := Srv)).
Proof. split; reflexivity. Qed.

Lemma tagline_close_outcome (s : State Srv) :
  let P := fun r s' =>
    (r = 0 /\ Globtag s' = [] /\ tagcounter s' = []
     /\ raid_cache.cacheArray (cache_globals s') = []
     /\ array s' = array s /\ maxtaglines s' = maxtaglines s)
    \/ (r = 1 /\ own s' = own s) in
  wpx True (tagline_close serve) P (fun _ _ => False) s.
Proof.
  intros P. unfold tagline_close. apply wpx_body. cbv zeta.
  assert (HE : forall (r : Z) s', r = 1 -> own s' = own s -> P r s')
    by (intros r s' -> Hs'; right; auto).
  apply (wpx_quiet_step own (fun r => r = 1));
    [ apply keeps_bus_request, own_bus_part
    | ends_io ltac:(cbn; reflexivity)
    | exact HE | intros [response _] s1 Hs1 ].
  apply (wpx_quiet_step own (fun r => r = 1));
    [ apply keeps_bus_check, own_bus_part
    | ends_io ltac:(cbn; reflexivity)
    | intros r s' Hr Hs'; apply HE; congruence | intros _ s2 Hs2 ].
  assert (Hown : own s2 = own s) by congruence.
  unfold own in Hown. injection Hown as Hm Htc Harr Hg Hc.
  apply wpx_bind, wpx_call_close_raid_cache.
  destruct (close_raid_cache (cache_globals s2)) as [[r0 c0] |] eqn:Hclose;
    [| exact I].
  destruct (close_raid_cache_result _ _ _ Hclose) as [_ ->].
  apply wpx_bind, wpx_gets, wpx_bind, wpx_free_rows; [exact I |].
  apply wpx_bind, wpx_modify, wpx_bind, wpx_modify, wpx_ret.
  left. cbn. split_and!; auto.
Qed.

End Close.

(** X19. How a close ends: either it returns 0 and the mapping, the block
    counts and the slots of the cache are gone, with the disk records left
    as they were; or the array did not accept the CLOSE request, the call
    returns 1, and the tables and the cache are all still there. *)
Theorem close_outcome `{raid_bus_h} {Srv : Type}
    (serve : Srv -> RAIDOpCode -> list payload
             -> Srv * (RAIDOpCode * list payload))
    (s s' : State Srv) (r : Z) :
  tagline_close serve s = Val r s' ->
  (r = 0 /\ Globtag s' = [] /\ tagcounter s' = []
   /\ raid_cache.cacheArray (cache_globals s') = []
   /\ array s' = array s /\ maxtaglines s' = maxtaglines s)
  \/ (r = 1 /\ own s' = own s).
Proof.
  intros Hrun.
  exact (wpx_val _ _ _ _ _ _ _ (tagline_close_outcome serve s) Hrun).
Qed.

Lemma close_outcome_witness :
  let s' := end_state (tagline_close (H := small_config) small_serve)
              example_written in
  ((0 : Z) = 0 /\ Globtag s' = [] /\ tagcounter s' = []
   /\ raid_cache.cacheArray (cache_globals s') = []
   /\ array s' = array example_written
   /\ maxtaglines s' = maxtaglines example_written)
  \/ ((0 : Z) = 1 /\ own s' = own example_written).
Proof.
  intros s'.
  apply (close_outcome (H := small_config) small_serve example_written s' 0).
  vm_compute. reflexivity.
Defined.

(** X20. After a close that returned 0, a read of one block or more and
    any write go through the tables that the close has freed: the model
    has no value for them. *)
Theorem no_access_after_close `{raid_bus_h} {Srv : Type}
    (serve : Srv -> RAIDOpCode -> list payload
             -> Srv * (RAIDOpCode * list payload))
    (s s' : State Srv) (tag bnum blks : Z) (buf : list payload) :
  tagline_close serve s = Val 0 s' ->
  (0 < u8 blks -> tagline_read serve tag bnum blks buf s' = Undef)
  /\ tagline_write serve tag bnum blks buf s' = Undef.
Proof.
  intros Hrun.
  destruct (wpx_val _ _ _ _ _ _ _ (tagline_close_outcome serve s) Hrun)
    as [(_ & Hg & Htc & _) | [Hone _]]; [| discriminate].
  assert (Htag : forall k, read_tag (R := Z * list payload) tag k s' = Undef).
  { intros k. unfold read_tag, bind, gets, of_option. rewrite Hg.
    unfold idx. destruct (tag <? 0); reflexivity. }
  assert (Hcount : read_tagcounter (R := Z * list payload) tag s' = Undef).
  { unfold read_tagcounter, bind, gets, of_option. rewrite Htc.
    unfold idx. destruct (tag <? 0); reflexivity. }
  split.
  - intros Hblks. unfold tagline_read. cbv zeta.
    apply body_undef, bind_undef. unfold for_.
    destruct (Z.to_nat (u8 blks)) as [| n] eqn:Hn; [lia |].
    cbn [for_loop]. apply bind_undef, bind_undef. apply Htag.
  - unfold tagline_write. cbv zeta.
    apply body_undef, bind_undef. exact Hcount.
Qed.

Lemma no_access_after_close_witness :
  let s' := end_state (tagline_close (H := small_config) small_serve)
              example_written in
  (0 < u8 1 ->
   tagline_read (H := small_config) small_serve 0 0 1 [blk 1] s' = Undef)
  /\ tagline_write (H := small_config) small_serve 0 0 1 [blk 1] s' = Undef.
Proof.
  intros s'.
  apply (no_access_after_close (H := small_config) small_serve
           example_written s' 0 0 1).
  vm_compute. reflexivity.
Defined.


(** ** Initialisation *)

Section Init.
Context `{raid_bus_h} {Srv : Type}.
Variable serve :
  Srv -> RAIDOpCode -> list payload -> Srv * (RAIDOpCode * list payload).
Hypothesis Hblocks : 0 < RAID_DISKBLOCKS.

Lemma formatted_boot :
  formatted 0
    (replicate (Z.to_nat RAID_DISKS) (disks.mk RAID_DISK_UNINITIALIZED 0)).
Proof.
  split; [apply length_replicate |].
  intros k d Hk. apply lookup_replicate in Hk as [-> _].
  destruct (Z.ltb_spec (Z.of_nat k) 0); [lia | reflexivity].
Qed.

Lemma formatted_all arr :
  formatted (Z.max 0 RAID_DISKS) arr ->
  arr = replicate (Z.to_nat RAID_DISKS) (disks.mk RAID_DISK_READY (-1)).
Proof.
  intros [Hlen Hall]. apply list_eq. intros k.
  destruct (arr !! k) as [d |] eqn:Hk.
  - pose proof (lookup_lt_Some _ _ _ Hk) as Hlt.
    rewrite (Hall k d Hk).
    destruct (Z.ltb_spec (Z.of_nat k) (Z.max 0 RAID_DISKS)); [| lia].
    symmetry. apply lookup_replicate. split; [reflexivity | lia].
  - apply lookup_ge_None in Hk. symmetry. apply lookup_ge_None.
    rewrite length_replicate. lia.
Qed.

Lemma formatted_next j arr :
  0 <= j < RAID_DISKS -> formatted j arr ->
  formatted (j + 1) (upd arr j (disks.mk RAID_DISK_READY (-1))).
Proof.
  intros Hj [Hlen Hall]. unfold upd. split.
  - rewrite length_insert. exact Hlen.
  - intros k d Hk.
    destruct (decide (k = Z.to_nat j)) as [-> | Hne].
    + rewrite list_lookup_insert_eq in Hk by lia. injection Hk as <-.
      destruct (Z.ltb_spec (Z.of_nat (Z.to_nat j)) (j + 1)); [reflexivity | lia].
    + rewrite list_lookup_insert_ne in Hk by congruence.
      rewrite (Hall k d Hk).
      destruct (Z.ltb_spec (Z.of_nat k) j), (Z.ltb_spec (Z.of_nat k) (j + 1));
        try reflexivity; lia.
Qed.

Lemma rest_bus_part :
  bus_part (fun s : State Srv =>
              (maxtaglines s, tagcounter s, Globtag s, cache_globals s,
               array s)).
Proof. split; reflexivity. Qed.

Lemma tagline_driver_init_outcome maxlines heap rand_stream (srv : Srv) :
  wpx True (tagline_driver_init serve maxlines heap)
    (fun r s' => r = 1 \/ (r = 0 /\ initialised maxlines heap s'))
    (fun _ _ => False) (boot_state rand_stream srv).
Proof using Hblocks.
  unfold tagline_driver_init. apply wpx_body. cbv zeta.
  apply wpx_bind, wpx_modify, wpx_bind, wpx_gets, wpx_bind, wpx_modify,
    wpx_bind, wpx_modify, wpx_bind, wpx_modify.
  set (proj := fun s : State Srv =>
                 (maxtaglines s, tagcounter s, Globtag s, cache_globals s,
                  array s)).
  match goal with |- wpx _ _ _ _ ?st => set (s1 := st) end.
  assert (Hs1 : proj s1
                = (u32 maxlines, replicate (Z.to_nat (u32 maxlines)) 0,
                   replicate (Z.to_nat (u32 maxlines))
                     (replicate (Z.to_nat MAX_TAGLINE_BLOCK_NUMBER)
                        tagline.unassigned),
                   snd (init_raid_cache TAGLINE_CACHE_SIZE heap
                          raid_cache.boot),
                   replicate (Z.to_nat RAID_DISKS)
                     (disks.mk RAID_DISK_UNINITIALIZED 0)))
    by reflexivity.
  clearbody s1.
  apply (wpx_quiet_step proj (fun r => r = 1));
    [ apply keeps_bus_request, rest_bus_part
    | ends_io ltac:(cbn; reflexivity)
    | intros r s' Hr _; left; exact Hr | intros [response _] s2 Hs2 ].
  apply (wpx_quiet_step proj (fun r => r = 1));
    [ apply keeps_bus_check, rest_bus_part
    | ends_io ltac:(cbn; reflexivity)
    | intros r s' Hr _; left; exact Hr | intros _ s3 Hs3 ].
  assert (Hstart : proj s3 = proj s1) by congruence. clear Hs2 Hs3.
  rewrite Hs1 in Hstart. clear Hs1 s1 s2. unfold proj in Hstart.
  assert (Hm : maxtaglines s3 = u32 maxlines) by congruence.
  assert (Htc : tagcounter s3 = replicate (Z.to_nat (u32 maxlines)) 0)
    by congruence.
  assert (Hg : Globtag s3
               = replicate (Z.to_nat (u32 maxlines))
                   (replicate (Z.to_nat MAX_TAGLINE_BLOCK_NUMBER)
                      tagline.unassigned)) by congruence.
  assert (Hc : cache_globals s3
               = snd (init_raid_cache TAGLINE_CACHE_SIZE heap
                        raid_cache.boot)) by congruence.
  assert (Harr : array s3
                 = replicate (Z.to_nat RAID_DISKS)
                     (disks.mk RAID_DISK_UNINITIALIZED 0)) by congruence.
  clear Hstart.
  apply wpx_bind.
  eapply wpx_mono;
    [ apply (wpx_for_ True _
               (fun i _ s' =>
                  (maxtaglines s', tagcounter s', Globtag s', cache_globals s')
                  = (maxtaglines s3, tagcounter s3, Globtag s3,
                     cache_globals s3)
                  /\ formatted i (array s'))
               (fun r _ => r = 1))
    | | cbv beta; intros r s' Hr; left; exact Hr ].
  - split; [reflexivity |]. rewrite Harr. apply formatted_boot.
  - intros j _ s Hj [Hrest Hfmt].
    pose proof Hfmt as [Hlen Hall].
    apply wpx_bind, wpx_read_array.
    destruct (idx (array s) j) as [d |] eqn:Hd; [| exact I].
    assert (d = disks.mk RAID_DISK_UNINITIALIZED 0) as ->.
    { apply idx_lookup in Hd as [_ Hd]. rewrite (Hall _ d Hd).
      destruct (Z.ltb_spec (Z.of_nat (Z.to_nat j)) j); [lia | reflexivity]. }
    cbn [disks.status]. rewrite Z.eqb_refl.
    apply (wpx_quiet_step proj (fun r => r = 1));
      [ apply keeps_bus_request, rest_bus_part
      | ends_io ltac:(cbn; reflexivity)
      | intros r s' Hr _; exact Hr | intros [response2 _] s4 Hs4 ].
    apply (wpx_quiet_step proj (fun r => r = 1));
      [ apply keeps_bus_check, rest_bus_part
      | ends_io ltac:(cbn; reflexivity)
      | intros r s' Hr _; exact Hr | intros _ s5 Hs5 ].
    assert (Hsame : proj s5 = proj s) by congruence. clear Hs4 Hs5 s4.
    unfold proj in Hsame.
    assert (Harr5 : array s5 = array s) by congruence.
    assert (Hrest5 : (maxtaglines s5, tagcounter s5, Globtag s5,
                      cache_globals s5)
                     = (maxtaglines s3, tagcounter s3, Globtag s3,
                        cache_globals s3)) by congruence.
    clear Hsame.
    apply wpx_bind, wpx_read_array. rewrite Harr5, Hd.
    apply wpx_bind, wpx_write_array. rewrite Harr5, Hd. cbn [disks.blocks].
    eapply wpx_mono;
      [ apply (wpx_for_ True _
                 (fun k _ s' =>
                    (maxtaglines s', tagcounter s', Globtag s',
                     cache_globals s')
                    = (maxtaglines s3, tagcounter s3, Globtag s3,
                       cache_globals s3)
                    /\ array s'
                       = upd (array s) j
                           (disks.mk RAID_DISK_READY
                              (if k <=? 0 then 0 else -1)))
                 (fun r _ => r = 1))
      | | cbv beta; intros r s' Hr; exact Hr ].
    + split; [exact Hrest5 | reflexivity].
    + intros k _ s6 Hk [Hrest6 Harr6].
      apply wpx_bind, wpx_read_array. rewrite Harr6.
      rewrite (idx_upd_eq _ _ _ _ Hd).
      apply wpx_write_array. rewrite Harr6, (idx_upd_eq _ _ _ _ Hd).
      cbn. split; [exact Hrest6 |].
      unfold upd. rewrite list_insert_insert_eq.
      destruct (Z.leb_spec (k + 1) 0); [lia | reflexivity].
    + cbv beta. intros _ s' [Hrest' Harr'].
      split; [exact Hrest' |]. rewrite Harr'.
      destruct (Z.leb_spec (Z.max 0 RAID_DISKBLOCKS) 0); [lia |].
      apply formatted_next; assumption.
  - cbv beta. intros _ s' [Hrest Hfmt]. apply wpx_ret. right.
    split; [reflexivity |].
    unfold initialised. split_and!; try congruence.
    apply formatted_all. exact Hfmt.
Qed.

End Init.




(** ** Allocation *)

Lemma idx_nonneg {A} (l : list A) (i : Z) (x : A) :
  idx l i = Some x -> 0 <= i.
Proof. intros Hi. apply idx_lookup in Hi as [Hi _]. exact Hi. Qed.

Lemma advance_succ arr disk backupDisk d b n :
  disk <> backupDisk ->
  idx arr disk = Some d -> idx arr backupDisk = Some b ->
  upd (upd (advance arr disk backupDisk d b n) disk
         (disks.mk (disks.status d) (disks.blocks d + n + 1)))
    backupDisk (disks.mk (disks.status b) (disks.blocks b + n + 1))
  = advance arr disk backupDisk d b (n + 1).
Proof.
  intros Hne Hd Hb. unfold advance, upd.
  pose proof (idx_nonneg _ _ _ Hd). pose proof (idx_nonneg _ _ _ Hb).
  assert (Hnat : Z.to_nat disk <> Z.to_nat backupDisk) by lia.
  rewrite (list_insert_insert_ne _ (Z.to_nat backupDisk) (Z.to_nat disk))
    by congruence.
  rewrite list_insert_insert_eq.
  rewrite (list_insert_insert_ne _ (Z.to_nat disk) (Z.to_nat backupDisk))
    by congruence.
  rewrite list_insert_insert_eq.
  replace (disks.blocks d + (n + 1)) with (disks.blocks d + n + 1) by lia.
  replace (disks.blocks b + (n + 1)) with (disks.blocks b + n + 1) by lia.
  reflexivity.
Qed.

Lemma advance_disk arr disk backupDisk d b n :
  disk <> backupDisk ->
  idx arr disk = Some d -> idx arr backupDisk = Some b ->
  idx (advance arr disk backupDisk d b n) disk
  = Some (disks.mk (disks.status d) (disks.blocks d + n)).
Proof.
  intros Hne Hd Hb. unfold advance.
  rewrite idx_upd_ne by (first [exact (idx_nonneg _ _ _ Hb) | congruence]).
  exact (idx_upd_eq _ _ _ _ Hd).
Qed.

Lemma advance_backupDisk arr disk backupDisk d b n :
  disk <> backupDisk ->
  idx arr disk = Some d -> idx arr backupDisk = Some b ->
  idx (advance arr disk backupDisk d b n) backupDisk
  = Some (disks.mk (disks.status b) (disks.blocks b + n)).
Proof.
  intros Hne Hd Hb. unfold advance.
  apply (idx_upd_eq _ _ b).
  rewrite idx_upd_ne by (first [exact (idx_nonneg _ _ _ Hd) | congruence]).
  exact Hb.
Qed.

Lemma advance_zero arr disk backupDisk d b :
  idx arr disk = Some d -> idx arr backupDisk = Some b ->
  advance arr disk backupDisk d b 0 = arr.
Proof.
  intros Hd Hb. unfold advance, upd. rewrite !Z.add_0_r.
  apply idx_lookup in Hd as [_ Hd]. apply idx_lookup in Hb as [_ Hb].
  destruct d as [sd bd], b as [sb bb]. cbn.
  rewrite (list_insert_id _ _ _ Hd). apply list_insert_id. exact Hb.
Qed.

(** The loop of an append that records where the blocks went. *)
Lemma wpx_allocate_loop {Srv R} tag bnum n disk backupDisk d b
    (E : R -> State Srv -> Prop) (s : State Srv) :
  disk <> backupDisk ->
  idx (array s) disk = Some d -> idx (array s) backupDisk = Some b ->
  wpx True
    (for_ n
       (fun _ localBnum =>
          write_tag tag localBnum (tagline.set_disk disk) ;;
          write_tag tag localBnum (tagline.set_backupDisk backupDisk) ;;
          d <- read_array disk ;;
          write_array disk (disks.mk (disks.status d) (disks.blocks d + 1)) ;;
          d <- read_array backupDisk ;;
          write_array backupDisk
            (disks.mk (disks.status d) (disks.blocks d + 1)) ;;
          d <- read_array disk ;;
          write_tag tag localBnum (tagline.set_diskPosition (disks.blocks d)) ;;
          d <- read_array backupDisk ;;
          write_tag tag localBnum
            (tagline.set_backupDiskPosition (disks.blocks d)) ;;
          ret (localBnum + 1)) bnum)
    (fun _ s' =>
       maxtaglines s' = maxtaglines s
       /\ tagcounter s' = tagcounter s
       /\ array s' = advance (array s) disk backupDisk d b (Z.max 0 n)
       /\ (forall i, 0 <= i < n ->
             entry (Globtag s') tag (bnum + i)
             = Some (tagline.mk disk (disks.blocks d + 1 + i)
                       backupDisk (disks.blocks b + 1 + i)))
       /\ (forall t k, ~ (t = tag /\ bnum <= k < bnum + n) ->
             entry (Globtag s') t k = entry (Globtag s) t k)) E s.
Proof.
  intros Hne Hd Hb.
  pose proof (idx_nonneg _ _ _ Hd) as Hdisk.
  pose proof (idx_nonneg _ _ _ Hb) as Hbackup.
  eapply wpx_mono;
    [ apply (wpx_for_ True _
               (fun i localBnum s' =>
                  localBnum = bnum + i
                  /\ maxtaglines s' = maxtaglines s
                  /\ tagcounter s' = tagcounter s
                  /\ array s' = advance (array s) disk backupDisk d b i
                  /\ (forall j, 0 <= j < i ->
                        entry (Globtag s') tag (bnum + j)
                        = Some (tagline.mk disk (disks.blocks d + 1 + j)
                                  backupDisk (disks.blocks b + 1 + j)))
                  /\ (forall t k, ~ (t = tag /\ bnum <= k < bnum + i) ->
                        entry (Globtag s') t k = entry (Globtag s) t k)) E)
    | | cbv beta; intros ? ? Hx; exact Hx ].
  - split_and!; try reflexivity.
    + lia.
    + symmetry. apply advance_zero; assumption.
    + intros j Hj. lia.
  - intros i localBnum s' Hi (-> & Hm & Htc & Harr & Hdone & Hrest).
    pose proof (advance_disk _ _ _ _ _ i Hne Hd Hb) as Hdi.
    pose proof (advance_backupDisk _ _ _ _ _ i Hne Hd Hb) as Hbi.
    rewrite <- Harr in Hdi, Hbi.
    apply wpx_bind, wpx_write_tag_entry. intros e1 g1 He1 Hg1 Hrest1.
    apply wpx_bind, wpx_write_tag_entry. cbn [Globtag set_Globtag].
    intros e2 g2 He2 Hg2 Hrest2.
    apply wpx_bind, wpx_read_array. cbn [array set_Globtag]. rewrite Hdi.
    apply wpx_bind, wpx_write_array. cbn [array set_Globtag]. rewrite Hdi.
    cbn [disks.status disks.blocks].
    apply wpx_bind, wpx_read_array. cbn [array set_array set_Globtag].
    rewrite idx_upd_ne, Hbi by assumption.
    apply wpx_bind, wpx_write_array. cbn [array set_array set_Globtag].
    rewrite idx_upd_ne, Hbi by assumption.
    cbn [disks.status disks.blocks].
    apply wpx_bind, wpx_read_array. cbn [array set_array set_Globtag].
    rewrite idx_upd_ne by (assumption || congruence).
    rewrite (idx_upd_eq _ _ _ _ Hdi).
    apply wpx_bind, wpx_write_tag_entry. cbn [Globtag set_array set_Globtag].
    intros e3 g3 He3 Hg3 Hrest3.
    apply wpx_bind, wpx_read_array. cbn [array set_array set_Globtag].
    rewrite (idx_upd_eq _ _ _ _ (eq_trans (idx_upd_ne _ _ _ _ Hdisk Hne) Hbi)).
    apply wpx_bind, wpx_write_tag_entry. cbn [Globtag set_array set_Globtag].
    intros e4 g4 He4 Hg4 Hrest4.
    apply wpx_ret. cbn.
    split; [lia |]. split; [exact Hm |]. split; [exact Htc |]. split.
    { rewrite Harr. apply advance_succ; assumption. }
    split.
    + intros j Hj. destruct (decide (j = i)) as [-> | Hji].
      * rewrite Hg4. cbn in Hg3.
        assert (e2 = tagline.set_disk disk e1) as -> by congruence.
        assert (e3 = tagline.set_backupDisk backupDisk
                       (tagline.set_disk disk e1)) as -> by congruence.
        assert (e4 = tagline.set_diskPosition (disks.blocks d + i + 1)
                       (tagline.set_backupDisk backupDisk
                          (tagline.set_disk disk e1))) as -> by congruence.
        unfold tagline.set_backupDiskPosition, tagline.set_diskPosition,
          tagline.set_backupDisk, tagline.set_disk. cbn.
        f_equal. f_equal; lia.
      * rewrite Hrest4, Hrest3, Hrest2, Hrest1;
          try (apply Hdone; lia); intros [= Heq]; lia.
    + intros t k Hout.
      rewrite Hrest4, Hrest3, Hrest2, Hrest1;
        first
          [ apply Hrest; intros [-> Hk]; apply Hout; split; [reflexivity | lia]
          | intros [= -> ->]; apply Hout; split; [reflexivity | lia] ].
  - cbv beta. intros localBnum s' (_ & Hm & Htc & Harr & Hdone & Hrest).
    split_and!; try assumption.
    + intros i Hi. apply Hdone. lia.
    + intros t k Hout. apply Hrest. intros [-> Hk]. apply Hout.
      split; [reflexivity | lia].
Qed.

Lemma allocated_tables {Srv} tag bnum n c disk backupDisk
    (s0 s s' : State Srv) :
  tables s = tables s0 ->
  allocated tag bnum n c disk backupDisk s s' ->
  allocated tag bnum n c disk backupDisk s0 s'.
Proof.
  unfold tables. intros [= Hm Htc Harr Hg].
  unfold allocated. rewrite Hm, Htc, Harr, Hg. auto.
Qed.

Section Allocation.
Context `{raid_bus_h} {Srv : Type}.
Variable serve :
  Srv -> RAIDOpCode -> list payload -> Srv * (RAIDOpCode * list payload).

Ltac failure_exit := cbn; reflexivity.

Ltac quiet_step :=
  apply (wpx_quiet_step tables (fun r : Z * list payload => fst r = 1));
    [ keeps_io (tables_table_part (Srv := Srv)) ltac:(fail)
    | ends_io failure_exit
    | intros ? ? Hexit _; exact Hexit
    | ].

Lemma write_append_allocates tag bnum blks disk backupDisk buf c
    (s : State Srv) :
  0 <= blks -> disk <> backupDisk ->
  idx (tagcounter s) tag = Some c ->
  wpx True (write_append serve tag bnum blks disk backupDisk buf)
    (fun _ s' => allocated tag bnum blks c disk backupDisk s s')
    (fun r _ => fst r = 1) s.
Proof.
  intros Hblks Hne Hc. unfold write_append.
  quiet_step. intros _ s1 Hs1.
  apply wpx_bind, wpx_read_array.
  destruct (idx (array s1) disk) as [d |] eqn:Hd; [| exact I].
  quiet_step. intros [response buf1] s3 Hs3.
  quiet_step. intros _ s4 Hs4.
  quiet_step. intros _ s5 Hs5.
  apply wpx_bind, wpx_read_array.
  destruct (idx (array s5) backupDisk) as [b |] eqn:Hb; [| exact I].
  quiet_step. intros [response2 buf2] s7 Hs7.
  quiet_step. intros _ s8 Hs8.
  assert (Htables : tables s8 = tables s) by congruence.
  assert (Htables1 : tables s1 = tables s) by congruence.
  assert (Htables5 : tables s5 = tables s) by congruence.
  clear Hs1 Hs3 Hs4 Hs5 Hs7 Hs8.
  unfold tables in Htables, Htables1, Htables5.
  assert (Hd8 : idx (array s8) disk = Some d) by congruence.
  assert (Hb8 : idx (array s8) backupDisk = Some b) by congruence.
  assert (Hc8 : idx (tagcounter s8) tag = Some c) by congruence.
  apply wpx_bind, wpx_read_tagcounter. rewrite Hc8.
  apply wpx_bind, wpx_write_tagcounter. rewrite Hc8.
  apply wpx_bind.
  eapply wpx_mono;
    [ apply (wpx_allocate_loop tag bnum blks disk backupDisk d b
               (fun r _ => fst r = 1)) | | ];
    [exact Hne | exact Hd8 | exact Hb8 | | cbv beta; auto].
  cbv beta. intros _ s' (Hm & Htc & Harr & Hdone & Hrest).
  apply wpx_ret. cbn in Hm, Htc, Harr, Hrest.
  rewrite Z.max_r in Harr by exact Hblks.
  apply (allocated_tables tag bnum blks c disk backupDisk s s8 s');
    [unfold tables; congruence |].
  exists d, b. split_and!; assumption.
Qed.

Lemma tagline_write_allocates tag bnum blks buf c (s : State Srv) :
  idx (tagcounter s) tag = Some c -> c <= bnum ->
  wpx True (tagline_write serve tag bnum blks buf)
    (fun r s' =>
       fst r = 1
       \/ (fst r = 0
           /\ exists disk backupDisk,
                disk <> backupDisk
                /\ allocated tag bnum (u8 blks) c disk backupDisk s s'))
    (fun _ _ => False) s.
Proof.
  intros Hc Hle. unfold tagline_write. apply wpx_body. cbv zeta.
  apply wpx_bind, wpx_read_tagcounter. rewrite Hc.
  replace (bnum <? c) with false by (symmetry; apply Z.ltb_ge; exact Hle).
  cbn [andb negb]. unfold deref.
  apply (wpx_quiet_step tables (fun _ => False));
    [ keeps_io (tables_table_part (Srv := Srv)) ltac:(fail)
    | ends_io ltac:(fail) | intros ? ? [] | intros r1 s1 Hs1 ].
  apply (wpx_quiet_step tables (fun _ => False));
    [ keeps_io (tables_table_part (Srv := Srv)) ltac:(fail)
    | ends_io ltac:(fail) | intros ? ? [] | intros r2 s2 Hs2 ].
  assert (Htables : tables s2 = tables s) by congruence.
  apply wpx_bind.
  assert (Hkeeps : keeps tables
            (chooseDisk (Srv := Srv) (R := Z * list payload)
               (Some (Z.rem r1 RAID_DISKS)) (Some (Z.rem r2 RAID_DISKS))
               (u8 blks)))
    by (apply keeps_chooseDisk; reflexivity).
  eapply wpx_mono;
    [ exact (wpx_and True _ _ _ _ _ s2
               (keeps_wpx tables _ (fun t => t = tables s) s2 Hkeeps Htables)
               (wpx_chooseDisk_both _ _ (u8 blks) (fun _ _ => False) s2))
    | | cbv beta; intros ? ? [_ []] ].
  cbv beta. intros p s3 [Hs3 (disk & backupDisk & -> & Hne)].
  apply wpx_bind, wpx_ret, wpx_bind, wpx_ret, wpx_bind, wpx_ret.
  apply wpx_bind, wpx_ret, wpx_bind.
  assert (Hc3 : idx (tagcounter s3) tag = Some c)
    by (unfold tables in Hs3; congruence).
  eapply wpx_mono;
    [ apply (write_append_allocates tag bnum (u8 blks) disk backupDisk buf c
               s3)
    | | ].
  - unfold u8. apply Z.mod_pos_bound. lia.
  - exact Hne.
  - exact Hc3.
  - cbv beta. intros buf' s' Halloc. apply wpx_ret. right.
    split; [reflexivity |]. exists disk, backupDisk. split; [exact Hne |].
    exact (allocated_tables _ _ _ _ _ _ s s3 s' Hs3 Halloc).
  - cbv beta. intros r s' Hr. left. exact Hr.
Qed.

End Allocation.

(** X22. What a successful append does to the tables: two different disks
    are chosen; the blocks are mapped to the positions that follow the
    cursor of the first, and their copies to the positions that follow the
    cursor of the second; both cursors advance by the number of blocks, and
    so does the block count of the tagline.  No other mapping, cursor or
    count changes.  (A start block past the end of the tagline is taken as
    an append too, and the count still grows by the number of blocks
    only.) *)
Theorem append_allocates `{raid_bus_h} {Srv : Type}
    (serve : Srv -> RAIDOpCode -> list payload
             -> Srv * (RAIDOpCode * list payload))
    (tag bnum blks c : Z) (buf buf' : list payload) (s s' : State Srv) :
  idx (tagcounter s) tag = Some c -> c <= bnum ->
  tagline_write serve tag bnum blks buf s = Val (0, buf') s' ->
  exists disk backupDisk,
    disk <> backupDisk
    /\ allocated tag bnum (u8 blks) c disk backupDisk s s'.
Proof.
  intros Hc Hle Hrun.
  destruct (wpx_val _ _ _ _ _ _ _
              (tagline_write_allocates serve tag bnum blks buf c s Hc Hle)
              Hrun) as [Hone | [_ Halloc]].
  - discriminate.
  - exact Halloc.
Qed.

Lemma append_allocates_witness :
  exists disk backupDisk,
    disk <> backupDisk
    /\ allocated 0 0 (u8 3) 0 disk backupDisk example_ready example_written.
Proof.
  apply (append_allocates (H := small_config) small_serve 0 0 3 0
           [blk 1; blk 2; blk 3] [blk 1; blk 2; blk 3]).
  - vm_compute. reflexivity.
  - lia.
  - vm_compute. reflexivity.
Defined.


(** ** The choice of disks *)

Section Choice.
Context `{raid_bus_h} {Srv : Type}.

Lemma rem_in_range (r : nat) :
  0 < RAID_DISKS -> 0 <= Z.rem (Z.of_nat r) RAID_DISKS < RAID_DISKS.
Proof. intros Hdisks. apply Z.rem_bound_pos; lia. Qed.

(** One disk given: the loop leaves with another disk. *)
Lemma wpx_redraw {R} (old : Z) (start : option Z)
    (E : R -> State Srv -> Prop) (s : State Srv) :
  start = Some old ->
  wpx True
    (while (fun disk => d <- deref disk ;; o <- deref (Some old) ;;
                        ret (d =? o))
           (fun _ => r <- rand ;; ret (Some (Z.rem r RAID_DISKS)))
           start)
    (fun disk _ => exists d', disk = Some d' /\ d' <> old
                     /\ (0 < RAID_DISKS -> 0 <= d' < RAID_DISKS)) E s.
Proof.
  intros ->. unfold while.
  eapply wpx_mono;
    [ apply (wpx_while_loop _ _
               (fun disk _ => exists d', disk = Some d'
                                /\ (d' = old
                                    \/ (0 < RAID_DISKS ->
                                        0 <= d' < RAID_DISKS)))
               (fun disk _ => forall d', disk = Some d' -> d' <> old) E)
    | | cbv beta; intros ? ? Hx; exact Hx ].
  - eauto.
  - intros disk s0 (d' & -> & Hd').
    unfold deref. apply wpx_bind, wpx_ret, wpx_bind, wpx_ret, wpx_ret.
    split; [eauto |].
    intros Hexit x [= <-]. apply Z.eqb_neq. exact Hexit.
  - intros disk s0 _. apply wpx_bind.
    unfold wpx at 1, rand. destruct (rand_stream s0) as [| r rest];
      [exact I |].
    apply wpx_ret. eexists. split; [reflexivity |]. right.
    apply rem_in_range.
  - cbv beta. intros disk s' [(d' & -> & Hd') Hexit].
    exists d'. split; [reflexivity |].
    pose proof (Hexit d' eq_refl) as Hne. split; [exact Hne |].
    destruct Hd' as [-> | Hrange]; [contradiction | exact Hrange].
Qed.

Lemma chooseDisk_outcome {R} disk backupDisk blks (s : State Srv) :
  wpx True (chooseDisk (R := R) disk backupDisk blks)
    (fun p s' =>
       core s' = core s
       /\ match disk, backupDisk with
          | Some d, Some b =>
              exists d' b', p = (Some d', Some b') /\ d' <> b'
          | Some d, None =>
              exists d', p = (Some d', None) /\ d' <> d
                /\ (0 < RAID_DISKS -> 0 <= d' < RAID_DISKS)
          | None, Some b =>
              exists b', p = (None, Some b') /\ b' <> b
                /\ (0 < RAID_DISKS -> 0 <= b' < RAID_DISKS)
          | None, None => False
          end)
    (fun _ _ => False) s.
Proof.
  assert (Hkeeps : keeps core (chooseDisk (Srv := Srv) (R := R)
                                 disk backupDisk blks))
    by (apply keeps_chooseDisk; reflexivity).
  enough (Hp : wpx True (chooseDisk (R := R) disk backupDisk blks)
                 (fun p _ =>
                    match disk, backupDisk with
                    | Some d, Some b =>
                        exists d' b', p = (Some d', Some b') /\ d' <> b'
                    | Some d, None =>
                        exists d', p = (Some d', None) /\ d' <> d
                          /\ (0 < RAID_DISKS -> 0 <= d' < RAID_DISKS)
                    | None, Some b =>
                        exists b', p = (None, Some b') /\ b' <> b
                          /\ (0 < RAID_DISKS -> 0 <= b' < RAID_DISKS)
                    | None, None => False
                    end)
                 (fun _ _ => False) s).
  { eapply wpx_mono;
      [ exact (wpx_and True _ _ _ _ _ s
                 (keeps_wpx core _ (fun c => c = core s) s Hkeeps eq_refl)
                 Hp)
      | cbv beta; intros p s' Hx; exact Hx
      | cbv beta; intros r s' [_ Hx]; exact Hx ]. }
  clear Hkeeps.
  destruct disk as [d |], backupDisk as [b |].
  - apply wpx_chooseDisk_both.
  - unfold chooseDisk. cbv zeta. apply wpx_bind.
    eapply wpx_mono;
      [ apply (wpx_redraw d (Some d) (fun _ _ => False) s eq_refl)
      | | cbv beta; intros ? ? Hx; exact Hx ].
    cbv beta. intros disk s' (d' & -> & Hne & Hrange).
    apply wpx_bind, wpx_ret, wpx_ret. eauto.
  - unfold chooseDisk. cbv zeta. apply wpx_bind, wpx_ret. apply wpx_bind.
    eapply wpx_mono;
      [ apply (wpx_redraw b (Some b) (fun _ _ => False) s eq_refl)
      | | cbv beta; intros ? ? Hx; exact Hx ].
    cbv beta. intros backupDisk s' (b' & -> & Hne & Hrange).
    apply wpx_ret. eauto.
  - unfold chooseDisk, while. cbv zeta. apply wpx_bind.
    cbn [while_loop]. apply wpx_bind, wpx_bind. exact I.
Qed.

(** Two different disks are left as they are, without a draw. *)
Lemma chooseDisk_distinct {R} d b blks (s : State Srv) :
  d <> b ->
  chooseDisk (R := R) (Some d) (Some b) blks s = Val (Some d, Some b) s.
Proof.
  intros Hne. unfold chooseDisk, while. cbv zeta. cbn [while_loop].
  cbv [bind ret deref of_option].
  rewrite (proj2 (Z.eqb_neq d b) Hne). reflexivity.
Qed.

End Choice.

(** X23. What [chooseDisk] returns.  Given one disk, it returns another
    disk, drawn from the disks of the array.  Given two disks, it returns
    two different disks, and the two it was given when they differ
    already.  It draws random numbers and changes nothing else; the number
    of blocks asked for plays no part. *)
Theorem chooseDisk_result `{raid_bus_h} {Srv R : Type}
    (disk backupDisk : option Z) (blks : Z) (s s' : State Srv)
    (p : option Z * option Z) :
  chooseDisk (R := R) disk backupDisk blks s = Val p s' ->
  core s' = core s
  /\ match disk, backupDisk with
     | Some d, Some b =>
         exists d' b', p = (Some d', Some b') /\ d' <> b'
           /\ (d <> b -> d' = d /\ b' = b /\ s' = s)
     | Some d, None =>
         exists d', p = (Some d', None) /\ d' <> d
           /\ (0 < RAID_DISKS -> 0 <= d' < RAID_DISKS)
     | None, Some b =>
         exists b', p = (None, Some b') /\ b' <> b
           /\ (0 < RAID_DISKS -> 0 <= b' < RAID_DISKS)
     | None, None => False
     end.
Proof.
  intros Hrun.
  destruct (wpx_val _ _ _ _ _ _ _
              (chooseDisk_outcome disk backupDisk blks s) Hrun)
    as [Hcore Hp].
  split; [exact Hcore |].
  destruct disk as [d |], backupDisk as [b |]; try exact Hp.
  destruct Hp as (d' & b' & -> & Hne). exists d', b'.
  split; [reflexivity |]. split; [exact Hne |].
  intros Hdb. rewrite (chooseDisk_distinct d b blks s Hdb) in Hrun.
  injection Hrun as <- <- <-. auto.
Qed.

Lemma chooseDisk_result_witness :
  let s' := end_state
              (chooseDisk (H := small_config) (R := Z) (Some 1) None 3)
              example_ready in
  core s' = core example_ready
  /\ exists d', (Some 0, @None Z) = (Some d', None) /\ d' <> 1
       /\ (0 < RAID_DISKS (raid_bus_h := small_config) ->
           0 <= d' < RAID_DISKS (raid_bus_h := small_config)).
Proof.
  intros s'.
  apply (chooseDisk_result (H := small_config) (R := Z) (Some 1) None 3
           example_ready s' (Some 0, None)).
  vm_compute. reflexivity.
Defined.

Section OneDisk.
Context `{raid_bus_h} {Srv : Type}.
Variable serve :
  Srv -> RAIDOpCode -> list payload -> Srv * (RAIDOpCode * list payload).
Hypothesis Hone : RAID_DISKS = 1.

(** With one disk, every draw is disk 0, and the loop that waits for two
    different disks has no way out. *)
Lemma chooseDisk_one_disk {R} blks (E : R -> State Srv -> Prop)
    (s : State Srv) :
  wpx True (chooseDisk (Some 0) (Some 0) blks) (fun _ _ => False) E s.
Proof using Hone.
  unfold chooseDisk, deref. cbv zeta.
  apply wpx_bind, wpx_ret, wpx_bind, wpx_ret. unfold while.
  eapply wpx_mono;
    [ apply (wpx_while_loop _ _
               (fun p _ => p = (Some 0, Some 0)) (fun _ _ => False) E)
    | | cbv beta; intros ? ? Hx; exact Hx ].
  - reflexivity.
  - intros p s0 ->. apply wpx_bind, wpx_ret, wpx_bind, wpx_ret, wpx_ret.
    split; [reflexivity | discriminate].
  - intros p s0 _. apply wpx_bind.
    unfold wpx at 1, rand. destruct (rand_stream s0) as [| r1 rest];
      [exact I |].
    apply wpx_bind.
    unfold wpx at 1, rand. cbn [rand_stream set_rand_stream].
    destruct rest as [| r2 rest]; [exact I |].
    apply wpx_ret. rewrite Hone, !Z.rem_1_r. reflexivity.
  - cbv beta. intros p s' [_ []].
Qed.

Lemma tagline_write_one_disk tag bnum blks buf (s : State Srv) :
  wpx True (tagline_write serve tag bnum blks buf)
    (fun _ _ => False) (fun _ _ => False) s.
Proof using Hone.
  unfold tagline_write. apply wpx_body. cbv zeta.
  apply wpx_bind, wpx_read_tagcounter.
  destruct (idx (tagcounter s) tag) as [c |]; [| exact I].
  apply wpx_bind.
  unfold wpx at 1, rand. destruct (rand_stream s) as [| r1 rest];
    [exact I |].
  apply wpx_bind.
  unfold wpx at 1, rand. cbn [rand_stream set_rand_stream].
  destruct rest as [| r2 rest]; [exact I |].
  rewrite Hone, !Z.rem_1_r. apply wpx_bind.
  eapply wpx_mono; [apply chooseDisk_one_disk | |]; cbv beta;
    [intros ? ? [] | intros ? ? Hx; exact Hx].
Qed.

End OneDisk.

(** X24. An array of a single disk: no write ever returns, because
    [chooseDisk] keeps drawing until it has two different disks. *)
Theorem single_disk_write_never_returns `{raid_bus_h} {Srv : Type}
    (serve : Srv -> RAIDOpCode -> list payload
             -> Srv * (RAIDOpCode * list payload))
    (tag bnum blks : Z) (buf : list payload) (s : State Srv) :
  RAID_DISKS = 1 ->
  value_of (tagline_write serve tag bnum blks buf) s = None.
Proof.
  intros Hone.
  pose proof (tagline_write_one_disk serve Hone tag bnum blks buf s) as Hrun.
  unfold wpx in Hrun. unfold value_of.
  destruct (tagline_write serve tag bnum blks buf s); [contradiction | ..];
    reflexivity.
Qed.

Lemma single_disk_write_never_returns_witness :
  value_of
    (tagline_write (H := one_disk_config)
       (fake_serve (H := one_disk_config)) 0 0 1 [blk 1]) one_disk_ready
  = None.
Proof.
  apply (single_disk_write_never_returns (H := one_disk_config)).
  reflexivity.
Defined.


(** ** Rewriting *)

Lemma assigned_range_tables {Srv} tag bnum n (s s' : State Srv) :
  tables s' = tables s -> assigned_range tag bnum n s ->
  assigned_range tag bnum n s'.
Proof.
  unfold tables. intros [= _ _ _ Hg] Hs. unfold assigned_range.
  rewrite Hg. exact Hs.
Qed.

Section Rewrite.
Context `{raid_bus_h} {Srv : Type}.
Variable serve :
  Srv -> RAIDOpCode -> list payload -> Srv * (RAIDOpCode * list payload).

Ltac kept :=
  keeps_io (tables_table_part (Srv := Srv))
    ltac:(idtac;
          lazymatch goal with
          | |- keeps _ (while _ _ _) => apply keeps_while; kept
          end).

Ltac any_exit := exact I.

Ltac kept_step :=
  apply (wpx_quiet_step tables (fun _ => True));
    [ kept | ends_io any_exit | intros ? ? _ ?; congruence | ].

Lemma write_disk_rest_kept tag bnum blks blocksAvailable disk buf
    (s0 s : State Srv) :
  0 <= blocksAvailable ->
  assigned_range tag bnum blks s0 -> tables s = tables s0 ->
  wpx True (write_disk_rest serve tag bnum blks blocksAvailable disk buf)
    (fun _ s' => tables s' = tables s0) (fun _ s' => tables s' = tables s0) s.
Proof.
  intros Hba Hrange Hs. unfold write_disk_rest, deref. apply wpx_bind.
  eapply wpx_mono;
    [ apply (wpx_for_ True _
               (fun i '(_, localBnum, _) s' =>
                  localBnum = bnum + blocksAvailable + i
                  /\ tables s' = tables s0)
               (fun _ s' => tables s' = tables s0))
    | | cbv beta; intros ? ? Hx; exact Hx ].
  - split; [lia | exact Hs].
  - intros i [[dk localBnum] bf] s1 Hi [-> Hs1].
    kept_step. intros dk' s2 Hs2.
    apply wpx_bind, wpx_read_tag.
    destruct (entry (Globtag s2) tag (bnum + blocksAvailable + i))
      as [cur |] eqn:Hcur; [| exact I].
    assert (Hs20 : tables s2 = tables s0) by congruence.
    destruct (assigned_range_tables _ _ _ _ _ Hs20 Hrange
                (blocksAvailable + i) cur ltac:(lia)
                ltac:(rewrite Z.add_assoc; exact Hcur)) as [Hpos _].
    rewrite (proj2 (Z.eqb_neq _ _) Hpos).
    kept_step. intros bf' s3 Hs3.
    apply wpx_ret. split; [lia | congruence].
  - cbv beta. intros [[dk localBnum] bf] s' [_ Hs']. apply wpx_ret.
    exact Hs'.
Qed.

Lemma write_backup_rest_kept tag bnum blks blocksAvailable blocksAvailable2
    backupDisk buf (s0 s : State Srv) :
  0 <= blocksAvailable2 ->
  assigned_range tag bnum blks s0 -> tables s = tables s0 ->
  wpx True
    (write_backup_rest serve tag bnum blks blocksAvailable blocksAvailable2
       backupDisk buf)
    (fun _ s' => tables s' = tables s0) (fun _ s' => tables s' = tables s0) s.
Proof.
  intros Hba Hrange Hs. unfold write_backup_rest, deref. apply wpx_bind.
  eapply wpx_mono;
    [ apply (wpx_for_ True _
               (fun i '(_, localBnum, _) s' =>
                  localBnum = bnum + blocksAvailable2 + i
                  /\ tables s' = tables s0)
               (fun _ s' => tables s' = tables s0))
    | | cbv beta; intros ? ? Hx; exact Hx ].
  - split; [lia | exact Hs].
  - intros i [[dk localBnum] bf] s1 Hi [-> Hs1].
    kept_step. intros dk' s2 Hs2.
    apply wpx_bind, wpx_read_tag.
    destruct (entry (Globtag s2) tag (bnum + blocksAvailable2 + i))
      as [cur |] eqn:Hcur; [| exact I].
    assert (Hs20 : tables s2 = tables s0) by congruence.
    destruct (assigned_range_tables _ _ _ _ _ Hs20 Hrange
                (blocksAvailable2 + i) cur ltac:(lia)
                ltac:(rewrite Z.add_assoc; exact Hcur)) as [_ Hpos].
    rewrite (proj2 (Z.eqb_neq _ _) Hpos).
    kept_step. intros bf' s3 Hs3.
    apply wpx_ret. split; [lia | congruence].
  - cbv beta. intros [[dk localBnum] bf] s' [_ Hs']. apply wpx_ret.
    exact Hs'.
Qed.

Lemma count_available_kept tag bnum blks (s0 s : State Srv) :
  tables s = tables s0 ->
  wpx True (count_available (R := Z * list payload) tag bnum blks)
    (fun '(blocksAvailable, blocksAvailable2) s' =>
       tables s' = tables s0
       /\ 1 <= blocksAvailable /\ 1 <= blocksAvailable2)
    (fun _ s' => tables s' = tables s0) s.
Proof.
  intros Hs.
  assert (Hkeeps : keeps tables
            (count_available (Srv := Srv) (R := Z * list payload)
               tag bnum blks))
    by (unfold count_available; kept).
  eapply wpx_mono;
    [ exact (wpx_and True _ _ _ _ _ s
               (keeps_wpx tables _ (fun t => t = tables s0) s Hkeeps Hs)
               (count_available_at_most_two tag bnum blks
                  (fun _ _ => True) s))
    | | ]; cbv beta.
  - intros [ba ba2] s' [Hs' [Hba Hba2]]. split; [exact Hs' | lia].
  - intros r s' [Hs' _]. exact Hs'.
Qed.

Lemma tagline_write_rewrite_kept tag bnum blks buf c (s : State Srv) :
  idx (tagcounter s) tag = Some c -> bnum < c ->
  assigned_range tag bnum (u8 blks) s ->
  wpx True (tagline_write serve tag bnum blks buf)
    (fun _ s' => tables s' = tables s) (fun _ _ => False) s.
Proof.
  intros Hc Hlt Hrange. unfold tagline_write. apply wpx_body. cbv zeta.
  apply wpx_bind, wpx_read_tagcounter. rewrite Hc.
  replace (bnum <? c) with true by (symmetry; apply Z.ltb_lt; exact Hlt).
  cbn [andb negb]. unfold deref.
  kept_step. intros r1 s1 Hs1.
  kept_step. intros r2 s2 Hs2.
  kept_step. intros [disk backupDisk] s3 Hs3.
  apply wpx_bind, wpx_of_option. destruct disk as [disk |]; [| exact I].
  apply wpx_bind, wpx_of_option.
  destruct backupDisk as [backupDisk |]; [| exact I].
  assert (Hs30 : tables s3 = tables s) by congruence.
  clear Hs1 Hs2 Hs3 s1 s2.
  apply wpx_bind.
  apply (wpx_mono True _
           (fun '(blocksAvailable, blocksAvailable2) s' =>
              tables s' = tables s
              /\ 1 <= blocksAvailable /\ 1 <= blocksAvailable2)
           _ (fun _ s' => tables s' = tables s)
           (fun _ s' => tables s' = tables s));
    [ destruct (negb (u8 blks =? 1));
      [ apply count_available_kept; exact Hs30
      | apply wpx_ret; split; [exact Hs30 | lia] ]
    | | auto ].
  intros [blocksAvailable blocksAvailable2] s4 (Hs4 & Hba & Hba2).
  cbv beta. apply wpx_bind, wpx_bind.
  (* the batch on the disk *)
  apply (wpx_mono True _ (fun _ s' => tables s' = tables s) _
           (fun _ s' => tables s' = tables s)
           (fun _ s' => tables s' = tables s));
    [ destruct (u8 blks <=? blocksAvailable);
      [ eapply wpx_mono;
        [ apply (keeps_wpx tables _ (fun t => t = tables s) s4);
          [unfold write_disk_batch, cache_disk_blocks; kept | exact Hs4]
        | auto | auto ]
      | apply wpx_ret; exact Hs4 ]
    | | auto ].
  intros buf1 s5 Hs5. cbv beta. apply wpx_bind.
  (* the batch on the backup disk *)
  apply (wpx_mono True _ (fun _ s' => tables s' = tables s) _
           (fun _ s' => tables s' = tables s)
           (fun _ s' => tables s' = tables s));
    [ destruct (u8 blks <=? blocksAvailable2);
      [ eapply wpx_mono;
        [ apply (keeps_wpx tables _ (fun t => t = tables s) s5);
          [unfold write_backup_batch, cache_backup_blocks; kept | exact Hs5]
        | auto | auto ]
      | apply wpx_ret; exact Hs5 ]
    | | auto ].
  intros buf2 s6 Hs6. cbv beta. apply wpx_bind.
  (* the rest on the disk, block by block *)
  apply (wpx_mono True _ (fun _ s' => tables s' = tables s) _
           (fun _ s' => tables s' = tables s)
           (fun _ s' => tables s' = tables s));
    [ destruct (blocksAvailable <? u8 blks);
      [ apply wpx_bind;
        apply (wpx_mono True _ (fun _ s' => tables s' = tables s) _
                 (fun _ s' => tables s' = tables s)
                 (fun _ s' => tables s' = tables s));
        [ eapply wpx_mono;
          [ apply (keeps_wpx tables _ (fun t => t = tables s) s6);
            [unfold write_disk_batch, cache_disk_blocks; kept | exact Hs6]
          | auto | auto ]
        | | auto ];
        intros buf3 s7 Hs7; cbv beta; apply wpx_bind;
        eapply wpx_mono;
        [ apply (write_disk_rest_kept tag bnum (u8 blks) blocksAvailable
                   disk buf3 s s7); [lia | exact Hrange | exact Hs7]
        | cbv beta; intros [? ?] s8 Hs8; apply wpx_ret; exact Hs8
        | auto ]
      | apply wpx_ret; exact Hs6 ]
    | | auto ].
  intros buf4 s9 Hs9. cbv beta.
  (* the rest on the backup disk *)
  apply (wpx_mono True _ (fun _ s' => tables s' = tables s) _
           (fun _ s' => tables s' = tables s)
           (fun _ s' => tables s' = tables s));
    [ destruct (blocksAvailable2 <? u8 blks);
      [ apply wpx_bind;
        apply (wpx_mono True _ (fun _ s' => tables s' = tables s) _
                 (fun _ s' => tables s' = tables s)
                 (fun _ s' => tables s' = tables s));
        [ eapply wpx_mono;
          [ apply (keeps_wpx tables _ (fun t => t = tables s) s9);
            [unfold write_backup_batch, cache_backup_blocks; kept | exact Hs9]
          | auto | auto ]
        | | auto ];
        intros buf5 s10 Hs10; cbv beta; apply wpx_bind;
        eapply wpx_mono;
        [ apply (write_backup_rest_kept tag bnum (u8 blks) blocksAvailable
                   blocksAvailable2 backupDisk buf5 s s10);
          [lia | exact Hrange | exact Hs10]
        | cbv beta; intros [? ?] s11 Hs11; apply wpx_ret; exact Hs11
        | auto ]
      | apply wpx_ret; exact Hs9 ]
    | | auto ].
  intros buf6 s12 Hs12. cbv beta.
  apply wpx_bind, wpx_ret, wpx_ret. exact Hs12.
Qed.

End Rewrite.

(** X25. A rewrite of blocks that are stored already moves nothing: when
    every block of the range has its two positions, a write that starts
    before the end of the tagline leaves the block counts, the disk records
    and the whole mapping as they were, whether it succeeds or not. *)
Theorem rewrite_keeps_tables `{raid_bus_h} {Srv : Type}
    (serve : Srv -> RAIDOpCode -> list payload
             -> Srv * (RAIDOpCode * list payload))
    (tag bnum blks c : Z) (buf : list payload) (s s' : State Srv)
    (r : Z * list payload) :
  idx (tagcounter s) tag = Some c -> bnum < c ->
  assigned_range tag bnum (u8 blks) s ->
  tagline_write serve tag bnum blks buf s = Val r s' ->
  tables s' = tables s.
Proof.
  intros Hc Hlt Hrange Hrun.
  exact (wpx_val _ _ _ _ _ _ _
           (tagline_write_rewrite_kept serve tag bnum blks buf c s
              Hc Hlt Hrange) Hrun).
Qed.

Lemma example_written_assigned : assigned_range 0 0 (u8 3) example_written.
Proof.
  intros i e Hi He.
  change (u8 3) with 3 in Hi.
  assert (Hcases : i = 0 \/ i = 1 \/ i = 2) by lia.
  destruct Hcases as [-> | [-> | ->]]; vm_compute in He;
    injection He as <-; split; discriminate.
Qed.

Lemma rewrite_keeps_tables_witness :
  let m := tagline_write (H := small_config) small_serve 0 0 3
             [blk 4; blk 5; blk 6] in
  tables (end_state m example_written) = tables example_written.
Proof.
  intros m.
  apply (rewrite_keeps_tables (H := small_config) small_serve 0 0 3 3
           [blk 4; blk 5; blk 6] example_written
           (end_state m example_written) (0, [blk 4; blk 5; blk 6])).
  - vm_compute. reflexivity.
  - lia.
  - exact example_written_assigned.
  - vm_compute. reflexivity.
Defined.


(** ** Recovery of the data *)

Lemma store_blocks_single stored d pos (x : payload) d' p' :
  store_blocks stored d pos [x] d' p'
  = if (d' =? d) && (p' =? pos) then x else stored d' p'.
Proof.
  unfold store_blocks. cbn [length].
  destruct (Z.eqb_spec d' d) as [-> | Hd]; cbn [andb]; [| reflexivity].
  destruct (Z.eqb_spec p' pos) as [-> | Hp].
  - destruct (Z.leb_spec pos pos); [| lia].
    destruct (Z.ltb_spec pos (pos + Z.of_nat 1)); [| lia].
    cbn [andb]. rewrite Z.sub_diag. reflexivity.
  - destruct (Z.leb_spec pos p'); cbn [andb]; [| reflexivity].
    destruct (Z.ltb_spec p' (pos + Z.of_nat 1)); [lia | reflexivity].
Qed.

(** A hit on a key under which the cache holds [x] points to [x]. *)
Lemma get_raid_cache_hit_data dsk blk c p c' k (x : payload) :
  cache_wf c -> (RAIDDiskID dsk, RAIDBlockID blk) = k ->
  caches c k x ->
  get_raid_cache dsk blk c = Some (Some p, c') ->
  slot_data c' p = Some x.
Proof.
  intros Hwf Hk Hx Hget.
  destruct (get_raid_cache_cases dsk blk c Hwf)
    as (res & c0 & Hget0 & _ & _ & Hres).
  assert (res = Some p /\ c0 = c') as [-> ->] by (split; congruence).
  destruct Hres as (e & He & Hkey & _ & Harr).
  unfold slot_data. rewrite Harr, list_lookup_insert_eq
    by (apply lookup_lt_Some in He; exact He).
  cbn. f_equal. apply (Hx p e He). congruence.
Qed.

Lemma place_on_disk d e :
  tagline.disk e = d -> place_on d e = Some (tagline.diskPosition e).
Proof. intros <-. unfold place_on. rewrite Z.eqb_refl. reflexivity. Qed.

Lemma place_on_backupDisk d e :
  tagline.disk e <> d -> tagline.backupDisk e = d ->
  place_on d e = Some (tagline.backupDiskPosition e).
Proof.
  intros Hne <-. unfold place_on.
  rewrite (proj2 (Z.eqb_neq _ _) Hne), Z.eqb_refl. reflexivity.
Qed.

Lemma place_on_nowhere d e :
  tagline.disk e <> d -> tagline.backupDisk e <> d -> place_on d e = None.
Proof.
  intros Hd Hb. unfold place_on.
  rewrite (proj2 (Z.eqb_neq _ _) Hd), (proj2 (Z.eqb_neq _ _) Hb).
  reflexivity.
Qed.

Section Format.
Context `{raid_bus_h}.
Hypothesis Hformat : format_ok.

(** A FORMAT request on an array that fails nothing: the disk is emptied,
    the other disks keep their content, and the array echoes. *)
Lemma wpx_client_format {R} U (d : Z)
    (Q : RAIDOpCode * list payload -> State FakeArray -> Prop)
    (E : R -> State FakeArray -> Prop) s :
  byte_range d -> faults (raid s) = [] ->
  let op := create_raid_request RAID_FORMAT 0 d 0 in
  (forall a, faults a = [] ->
     (forall d' p, d' <> d -> stored a d' p = stored (raid s) d' p) ->
     Q (op, []) (set_raid a s)) ->
  wpx U (client_raid_bus_request fake_serve op [] 0) Q E s.
Proof using Hformat.
  intros Hd Hf op HQ.
  destruct Hformat as (Hbyte & Hw & Hr & Hs).
  destruct (request_fields RAID_FORMAT 0 d 0)
    as (Ht & Hb & Hdk & Hid & Hblocks);
    [assumption | unfold byte_range; lia | assumption
    | unfold word_range; lia |].
  fold op in Ht, Hb, Hdk, Hid, Hblocks.
  unfold client_raid_bus_request.
  change (u8 (shr64 op 56)) with (op_type op). rewrite Ht.
  rewrite (proj2 (Z.eqb_neq _ _) Hr), (proj2 (Z.eqb_neq _ _) Hw).
  cbn [orb]. apply wpx_bind, wpx_gets.
  unfold fake_serve. rewrite Hf, Ht.
  rewrite (proj2 (Z.eqb_neq _ _) Hr), (proj2 (Z.eqb_neq _ _) Hw),
    (proj2 (Z.eqb_neq _ _) Hs), Z.eqb_refl.
  apply wpx_bind, wpx_modify, wpx_ret. apply HQ; [reflexivity |].
  intros d' p Hne. cbn. rewrite Hdk.
  rewrite (proj2 (Z.eqb_neq _ _) Hne). reflexivity.
Qed.

End Format.

Section Recover.
Context `{raid_bus_h}.
Hypothesis Hconfig : config_ok.
Variables (d : Z) (D : Z -> Z -> payload) (s0 : State FakeArray).
Hypothesis Hd : byte_range d.
Hypothesis Hmirrored : mirrored d D s0.

Lemma in_range_entry i j e e' :
  in_range s0 i j e -> in_range s0 i j e' -> e = e'.
Proof. intros (_ & _ & He) (_ & _ & He'). congruence. Qed.

Lemma place_range i j e p :
  in_range s0 i j e -> place_on d e = Some p -> 0 <= p < 2 ^ 31.
Proof using Hmirrored.
  intros Hin Hp.
  destruct Hmirrored as (Hplaced & _).
  destruct (Hplaced i j e p Hin Hp) as (_ & _ & Hpos & Hbpos & _).
  unfold place_on in Hp.
  destruct (tagline.disk e =? d); [injection Hp as <-; exact Hpos |].
  destruct (tagline.backupDisk e =? d); [| discriminate].
  injection Hp as <-. exact Hbpos.
Qed.

(** The block is written back to its place on the disk. *)
Lemma recover_write (E : Z -> State FakeArray -> Prop) i j e p
    operation response tempbuf s :
  in_range s0 i j e -> place_on d e = Some p ->
  recovering d D s0 i j (operation, response, tempbuf) s ->
  tempbuf = [D i j] ->
  wpx True
    (let* (response, tempbuf) :=
       client_raid_bus_request fake_serve
         (create_raid_request RAID_WRITE 1 d p) tempbuf 0 in
     return_if_invalid response (create_raid_request RAID_WRITE 1 d p) 1 ;;
     ret (create_raid_request RAID_WRITE 1 d p, response, tempbuf))
    (fun locals s' => recovering d D s0 i (j + 1) locals s') E s.
Proof using Hconfig Hd Hmirrored.
  intros Hin Hp (Htab & Hwf & Hfaults & Helse & Hcached & Hdone & Hvalid
                 & Hlen) ->.
  pose proof (place_range i j e p Hin Hp) as Hrange.
  apply wpx_bind.
  apply (wpx_client_write Hconfig True [D i j] d p);
    [exact Hd | unfold word_range; lia | cbn; lia | exact Hfaults |].
  apply wpx_bind, wpx_return_if_valid; [apply echo_valid |].
  intros g. apply wpx_ret. cbn.
  split_and!; try assumption; try reflexivity.
  - intros d' p' Hne. rewrite store_blocks_single.
    rewrite (proj2 (Z.eqb_neq _ _) Hne). cbn [andb]. apply Helse. exact Hne.
  - intros i' j' e' p' Hin' Hp' Hbefore. rewrite store_blocks_single.
    rewrite Z.eqb_refl. cbn [andb].
    destruct (Z.eqb_spec p' p) as [-> | Hpp].
    + destruct Hmirrored as (_ & Hinj & _).
      destruct (Hinj i j e i' j' e' p Hin Hin' Hp Hp') as [<- <-].
      reflexivity.
    + apply (Hdone i' j' e' p' Hin' Hp').
      destruct Hbefore as [Hlt | [-> Hlt]]; [left; exact Hlt |].
      destruct (Z.eq_dec j' j) as [-> | Hjj]; [| right; split; [reflexivity | lia]].
      exfalso. apply Hpp.
      rewrite (in_range_entry i j e' e Hin' Hin) in Hp'. congruence.
  - apply echo_valid.
Qed.

(** The invariant looks at the tables, the cache, and what the array
    stores and whether it fails requests. *)
Lemma recovering_same i j operation response tempbuf operation' response'
    tempbuf' (s s' : State FakeArray) :
  recovering d D s0 i j (operation, response, tempbuf) s ->
  tables s' = tables s -> cache_globals s' = cache_globals s ->
  stored (raid s') = stored (raid s) -> faults (raid s') = [] ->
  verdict response' operation' = 0 -> length tempbuf' = 1%nat ->
  recovering d D s0 i j (operation', response', tempbuf') s'.
Proof.
  intros (Htab & Hwf & Hfaults & Helse & Hcached & Hdone & Hvalid & Hlen)
    Htab' Hc' Hst' Hf' Hv' Hl'.
  unfold recovering. rewrite Htab', Hc', Hst'.
  split_and!; assumption.
Qed.

(** A block with no copy on the disk needs no work. *)
Lemma recovering_skip i j locals (s : State FakeArray) :
  recovering d D s0 i j locals s ->
  (forall e p, in_range s0 i j e -> place_on d e = Some p -> False) ->
  recovering d D s0 i (j + 1) locals s.
Proof.
  destruct locals as [[operation response] tempbuf].
  intros (Htab & Hwf & Hfaults & Helse & Hcached & Hdone & Hvalid & Hlen)
    Hnone.
  unfold recovering. split_and!; try assumption.
  intros i' j' e p Hin Hp Hbefore. apply (Hdone i' j' e p Hin Hp).
  destruct Hbefore as [Hlt | [-> Hlt]]; [left; exact Hlt |].
  destruct (Z.eq_dec j' j) as [-> | Hjj]; [| right; split; [reflexivity | lia]].
  destruct (Hnone e p Hin Hp).
Qed.

Hypothesis Hformat : format_ok.

Lemma raid_disk_recover_restores :
  cache_wf (cache_globals s0) -> faults (raid s0) = [] ->
  wpx True (raid_disk_recover fake_serve d)
    (fun r s' => r = 0 /\ restored d D s0 s') (fun _ _ => False) s0.
Proof using Hconfig Hd Hmirrored Hformat.
  intros Hwf0 Hfaults0.
  unfold raid_disk_recover. apply wpx_body. cbv zeta.
  rewrite (u8_small d Hd).
  apply wpx_bind.
  apply (wpx_client_format Hformat True d); [exact Hd | exact Hfaults0 |].
  intros a Ha Hstored.
  apply wpx_bind, wpx_return_if_valid; [apply echo_valid |]. intros g.
  apply wpx_bind, wpx_gets. cbn [maxtaglines set_raid set_GlobResponse].
  apply wpx_bind.
  eapply wpx_mono;
    [ apply (wpx_for_ True _
               (fun i locals s' => recovering d D s0 i 0 locals s')
               (fun _ _ => False))
    | | cbv beta; intros ? ? [] ].
  - (* before the scan *)
    cbn. split_and!; try assumption; try reflexivity.
    + intros i' j' e Hin He.
      destruct Hmirrored as (_ & _ & Hprimary & _).
      exact (proj2 (Hprimary i' j' e Hin He)).
    + intros i' j' e p (Hi' & (c & _ & Hj') & _) _ Hbefore. lia.
    + apply echo_valid.
  - (* one tagline *)
    intros i [[operation response] tempbuf] s Hi Hinv.
    pose proof Hinv as (Htab & _).
    assert (Htc : tagcounter s = tagcounter s0)
      by (unfold tables in Htab; congruence).
    apply wpx_bind, wpx_read_tagcounter. rewrite Htc.
    destruct (idx (tagcounter s0) i) as [c |] eqn:Hc; [| exact I].
    eapply wpx_mono;
      [ apply (wpx_for_ True _
                 (fun j locals s' => recovering d D s0 i j locals s')
                 (fun _ _ => False))
      | | cbv beta; intros ? ? [] ].
    + exact Hinv.
    + (* one block *)
      clear Hinv Htab Htc s operation response tempbuf.
      intros j [[operation response] tempbuf] s Hj Hinv.
      cbv beta iota.
      pose proof Hinv as (Htab & Hwf & Hfaults & Helse & Hcached & Hdone
                          & Hvalid & Hlen).
      assert (Hg : Globtag s = Globtag s0)
        by (unfold tables in Htab; congruence).
      apply wpx_bind, wpx_read_tag. rewrite Hg.
      destruct (entry (Globtag s0) i j) as [e |] eqn:He; [| exact I].
      assert (Hin : in_range s0 i j e).
      { split; [exact Hi |]. split; [exists c; auto | exact He]. }
      destruct Hmirrored as (Hplaced & Hinj & Hprimary & Hbackup).
      destruct tempbuf as [| t [| ? ?]]; try discriminate Hlen.
      apply wpx_bind.
      destruct (Z.eqb_spec (tagline.disk e) d) as [Hed | Hed].
      * (* the first copy is on the disk *)
        pose proof (place_on_disk d e Hed) as Hp.
        destruct (Hplaced i j e _ Hin Hp) as (_ & Hbb & Hpos & Hbpos & Hne).
        destruct (Hprimary i j e Hin Hed) as [Hcopy _].
        destruct (key_of_position d (tagline.diskPosition e) Hd Hpos)
          as [Hkey Hused].
        rewrite Hed in Hne |- *.
        apply wpx_bind, wpx_call_get_raid_cache.
        destruct (get_raid_cache d (tagline.diskPosition e) (cache_globals s))
          as [[res c'] |] eqn:Hget; [| exact I].
        pose proof (get_raid_cache_wf _ _ _ _ _ Hwf Hget) as Hwf'.
        assert (Hcached' : forall i' j' e', in_range s0 i' j' e' ->
                  tagline.disk e' = d ->
                  caches c' (d, tagline.diskPosition e') (D i' j')).
        { intros i' j' e' Hin' He'.
          exact (get_raid_cache_caches _ _ _ _ _ _ _ Hwf Hget
                   (Hcached i' j' e' Hin' He')). }
        apply wpx_bind.
        apply (wpx_mono True _
                 (fun locals s' =>
                    recovering d D s0 i j locals s'
                    /\ snd locals = [D i j])
                 _ (fun _ _ => False) (fun _ _ => False));
          [ | | auto ].
        -- destruct res as [slot |].
           ++ (* a hit *)
              apply wpx_bind, wpx_read_slot.
              cbn [cache_globals set_cache_globals].
              rewrite (get_raid_cache_hit_data _ _ _ _ _ _ (D i j) Hwf Hkey
                         (Hcached i j e Hin Hed) Hget).
              apply wpx_bind, wpx_buf_store.
              change (idx [t] 0) with (Some t). apply wpx_ret.
              split; [| reflexivity].
              unfold recovering. cbn. split_and!; assumption.
           ++ (* a miss: the copy on the backup disk is read *)
              apply wpx_bind.
              apply (wpx_client_read Hconfig True [t] 0%nat
                       (tagline.backupDisk e) (tagline.backupDiskPosition e));
                [ exact Hbb | unfold word_range; lia | cbn; lia
                | exact Hfaults |].
              cbn [raid set_cache_globals].
              rewrite (Helse _ _ (not_eq_sym Hne)), Hcopy.
              apply wpx_bind, wpx_buf_at.
              change (idx (<[0%nat := D i j]> [t]) 0) with (Some (D i j)).
              apply wpx_bind, wpx_call_put_raid_cache.
              cbn [cache_globals set_raid set_cache_globals].
              destruct (put_raid_cache d (tagline.diskPosition e) (D i j) c')
                as [[r c''] |] eqn:Hput; [| exact I].
              apply wpx_ret. split; [| reflexivity].
              unfold recovering. cbn.
              split_and!; try assumption; try reflexivity.
              ** exact (put_raid_cache_wf _ _ _ _ _ _ Hwf' Hput).
              ** intros i' j' e' Hin' He'.
                 destruct (Z.eq_dec (tagline.diskPosition e')
                             (tagline.diskPosition e)) as [Heq | Hdiff].
                 --- destruct (Hinj i j e i' j' e' _ Hin Hin' Hp
                                 ltac:(rewrite (place_on_disk d e' He');
                                       congruence)) as [<- <-].
                     rewrite Heq, <- Hkey.
                     apply (put_raid_cache_caches _ _ _ _ _ _ Hwf' Hput).
                     rewrite Hkey. exact Hused.
                 --- apply (put_raid_cache_caches_other _ _ _ _ _ _ _ _
                              Hwf' Hput); [| exact (Hcached' i' j' e' Hin' He')].
                     rewrite Hkey. congruence.
              ** apply echo_valid.
        -- (* the block is written back *)
           cbv beta. intros [[operation1 response1] tempbuf1] s1 [Hrec Htb].
           cbn in Htb. subst tempbuf1.
           pose proof Hrec as (_ & _ & _ & _ & _ & _ & Hvalid1 & _).
           apply wpx_bind, wpx_return_if_valid; [exact Hvalid1 |]. intros g1.
           eapply wpx_mono;
             [ apply (recover_write (fun _ _ => False) i j e
                        (tagline.diskPosition e) operation1 response1
                        [D i j] (set_GlobResponse g1 s1) Hin Hp);
               [| reflexivity]
             | | auto ].
           ++ apply (recovering_same i j _ _ _ _ _ _ s1 _ Hrec);
                try reflexivity.
              ** destruct Hrec as (_ & _ & Hf1 & _). exact Hf1.
              ** exact Hvalid1.
           ++ (* the second copy is elsewhere *)
              cbv beta. intros [[operation2 response2] tempbuf2] s2 Hrec2.
              pose proof Hrec2 as (Htab2 & _).
              apply wpx_bind, wpx_read_tag.
              replace (Globtag s2) with (Globtag s0)
                by (unfold tables in Htab2; congruence).
              rewrite He. rewrite (proj2 (Z.eqb_neq _ _) (not_eq_sym Hne)).
              apply wpx_ret. exact Hrec2.
      * (* the first copy is elsewhere *)
        apply wpx_ret. apply wpx_bind, wpx_read_tag. rewrite Hg, He.
        destruct (Z.eqb_spec (tagline.backupDisk e) d) as [Heb | Heb].
        -- (* the second copy is on the disk: the first one is read *)
           pose proof (place_on_backupDisk d e Hed Heb) as Hp.
           destruct (Hplaced i j e _ Hin Hp) as (Hbd & _ & Hpos & Hbpos & Hne).
           pose proof (Hbackup i j e Hin Heb) as Hcopy.
           rewrite Heb.
           apply wpx_bind.
           apply (wpx_client_read Hconfig True [t] 0%nat
                    (tagline.disk e) (tagline.diskPosition e));
             [ exact Hbd | unfold word_range; lia | cbn; lia
             | exact Hfaults |].
           rewrite (Helse _ _ Hed), Hcopy. cbn [insert list_insert].
           apply wpx_bind, wpx_return_if_valid; [apply echo_valid |].
           intros g1.
           set (read := create_raid_request RAID_READ 1 (tagline.disk e)
                          (tagline.diskPosition e)).
           lazymatch goal with
           | |- wpx _ _ _ _ ?st =>
               eapply wpx_mono;
               [ apply (recover_write (fun _ _ => False) i j e
                          (tagline.backupDiskPosition e) read read [D i j]
                          st Hin Hp);
                 [| reflexivity]
               | cbv beta; intros ? ? Hx; exact Hx | auto ]
           end.
           apply (recovering_same i j _ _ _ _ _ _ s _ Hinv);
             try reflexivity.
           apply echo_valid.
        -- (* no copy on the disk *)
           apply wpx_ret. apply recovering_skip; [exact Hinv |].
           intros e' p Hin' Hp.
           rewrite (in_range_entry i j e' e Hin' Hin) in Hp.
           rewrite (place_on_nowhere d e Hed Heb) in Hp. discriminate.
    + (* the tagline is done *)
      cbv beta. intros [[operation' response'] tempbuf'] s'
        (Htab' & Hwf' & Hfaults' & Helse' & Hcached' & Hdone' & Hvalid'
         & Hlen').
      cbn. split_and!; try assumption.
      intros i' j' e p Hin Hp Hbefore.
      apply (Hdone' i' j' e p Hin Hp).
      destruct Hin as (_ & (c' & Hc' & Hj') & _).
      destruct (Z.eq_dec i' i) as [-> | Hne]; [| left; lia].
      right. split; [reflexivity |].
      assert (c' = c) as -> by congruence. lia.
  - (* after the scan *)
    cbv beta. intros [[operation response] tempbuf] s
      (Htab & Hwf & Hfaults & Helse & Hcached & Hdone & Hvalid & Hlen).
    apply wpx_bind, wpx_read_array.
    destruct (idx (array s) d) as [dk |] eqn:Hdk; [| exact I].
    apply wpx_bind, wpx_write_array. rewrite Hdk. apply wpx_ret.
    split; [reflexivity |].
    intros i j e p Hin Hp. cbn. apply (Hdone i j e p Hin Hp).
    destruct Hin as (Hi & _). left. lia.
Qed.

End Recover.

(** X26. Recovery restores the data: the array fails no request, and
    before the call every block that has a copy on the disk has its other
    copy intact on another disk (and what the cache holds for it is its
    content).  Then a recovery that returns, returns 0, and the disk holds
    the content of each of those blocks at the position the mapping records
    for it.  The blocks are the ones below the block count of their
    tagline, which are the ones that recovery scans. *)
Theorem recovery_restores `{raid_bus_h} (d : Z) (D : Z -> Z -> payload)
    (s s' : State FakeArray) (r : Z) :
  config_ok -> format_ok -> byte_range d ->
  cache_wf (cache_globals s) -> faults (raid s) = [] ->
  mirrored d D s ->
  raid_disk_recover fake_serve d s = Val r s' ->
  r = 0 /\ restored d D s s'.
Proof.
  intros Hconfig Hformat Hd Hwf Hfaults Hmirrored Hrun.
  exact (wpx_val _ _ _ _ _ _ _
           (raid_disk_recover_restores Hconfig d D s Hd Hmirrored Hformat
              Hwf Hfaults) Hrun).
Qed.

Lemma example_failed_in_range i j e :
  in_range example_failed i j e ->
  i = 0 /\ 0 <= j < 3 /\ e = tagline.mk 0 j 1 j.
Proof.
  intros (Hi & (c & Hc & Hj) & He).
  change (maxtaglines example_failed) with 2 in Hi.
  assert (Hcases : i = 0 \/ i = 1) by lia.
  destruct Hcases as [-> | ->]; vm_compute in Hc; injection Hc as <-;
    [| lia].
  split; [reflexivity |]. split; [lia |].
  assert (Hjs : j = 0 \/ j = 1 \/ j = 2) by lia.
  destruct Hjs as [-> | [-> | ->]]; vm_compute in He; injection He as <-;
    reflexivity.
Qed.

Lemma example_failed_mirrored : mirrored 0 example_content example_failed.
Proof.
  split_and!.
  - intros i j e p Hin _.
    destruct (example_failed_in_range i j e Hin) as (-> & Hj & ->).
    unfold well_placed, byte_range. cbn. lia.
  - intros i j e i' j' e' p Hin Hin' Hp Hp'.
    destruct (example_failed_in_range i j e Hin) as (-> & Hj & ->).
    destruct (example_failed_in_range i' j' e' Hin') as (-> & Hj' & ->).
    cbn in Hp, Hp'. split; [reflexivity | congruence].
  - intros i j e Hin _.
    destruct (example_failed_in_range i j e Hin) as (-> & Hj & ->).
    split.
    + assert (Hjs : j = 0 \/ j = 1 \/ j = 2) by lia.
      destruct Hjs as [-> | [-> | ->]]; vm_compute; reflexivity.
    + intros k e' Hk Hkey.
      assert (Hall : Forall (fun e' => cache.disk e' = 1)
                       (raid_cache.cacheArray (cache_globals example_failed)))
        by (vm_compute; repeat constructor).
      rewrite Forall_lookup in Hall. specialize (Hall k e' Hk).
      unfold slot_key in Hkey. cbn in Hkey. congruence.
  - intros i j e Hin He.
    destruct (example_failed_in_range i j e Hin) as (-> & Hj & ->).
    discriminate.
Qed.

Lemma example_failed_cache_wf : cache_wf (cache_globals example_failed).
Proof.
  apply (fill_wf [(0, 0, blk 1); (0, 1, blk 2); (0, 2, blk 3);
                  (1, 0, blk 1); (1, 1, blk 2); (1, 2, blk 3)] two_slots);
    [exact two_slots_wf |].
  vm_compute. reflexivity.
Qed.

Lemma small_format_ok : format_ok (H := small_config).
Proof. unfold format_ok, byte_range. cbn. lia. Qed.

Lemma recovery_restores_witness :
  let s' := end_state (raid_disk_recover (H := small_config) small_serve 0)
              example_failed in
  (0 : Z) = 0 /\ restored 0 example_content example_failed s'.
Proof.
  intros s'.
  apply (recovery_restores (H := small_config) 0 example_content
           example_failed s' 0 small_config_ok small_format_ok).
  - unfold byte_range. lia.
  - exact example_failed_cache_wf.
  - vm_compute. reflexivity.
  - exact example_failed_mirrored.
  - vm_compute. reflexivity.
Defined.


(** ** Reading, on any mapping *)

Lemma verdict_zero `{raid_bus_h} : verdict 0 0 = 0.
Proof.
  destruct (echo_accepted 0) as [Hv | Hs]; [exact Hv |].
  vm_compute in Hs. discriminate.
Qed.

Section ReadStored.
Context `{raid_bus_h}.
Hypothesis Hconfig : config_ok.
Variables (tag bnum n : Z) (buf0 : list payload) (s0 : State FakeArray).
Hypothesis Hreadable : readable tag bnum n s0.
Hypothesis Hroom : n <= Z.of_nat (length buf0).

Lemma read_back_next i (buf : list payload) e x y :
  0 <= i -> read_back tag bnum i s0 buf ->
  entry (Globtag s0) tag (bnum + i) = Some e ->
  idx buf i = Some y ->
  x = stored (raid s0) (tagline.disk e) (tagline.diskPosition e) ->
  read_back tag bnum (i + 1) s0 (upd buf i x).
Proof.
  intros Hi Hback He Hy -> i' e' Hi' He'.
  destruct (Z.eq_dec i' i) as [-> | Hne].
  - rewrite (idx_upd_eq _ _ _ _ Hy). congruence.
  - rewrite idx_upd_ne by (first [exact Hi | congruence]).
    apply Hback; [lia | exact He'].
Qed.

Lemma tagline_read_stored_turn
    (E : Z * list payload -> State FakeArray -> Prop) (i : Z)
    operation response buf s :
  0 <= i < n ->
  reading_stored tag bnum buf0 s0 i (operation, response, buf) s ->
  wpx True
    (e <- read_tag tag (bnum + i) ;;
     tempbuf <- call_get_raid_cache (tagline.disk e) (tagline.diskPosition e) ;;
     match tempbuf with
     | Some p =>
         b <- read_slot p ;;
         buf <- buf_store buf i b ;;
         ret (operation, response, buf)
     | None =>
         let operation :=
           create_raid_request RAID_READ 1
             (tagline.disk e) (tagline.diskPosition e) in
         let* (response, buf) :=
           client_raid_bus_request fake_serve operation buf i in
         b <- buf_at buf i ;;
         call_put_raid_cache (tagline.disk e) (tagline.diskPosition e) b ;;
         ret (operation, response, buf)
     end)
    (fun locals s' => reading_stored tag bnum buf0 s0 (i + 1) locals s') E s.
Proof using Hconfig Hreadable Hroom.
  intros Hi (Htab & Hwf & Hfaults & Hstored & Hcoh & Hvalid & Hlen & Hback).
  assert (Hg : Globtag s = Globtag s0) by (unfold tables in Htab; congruence).
  apply wpx_bind, wpx_read_tag. rewrite Hg.
  destruct (entry (Globtag s0) tag (bnum + i)) as [e |] eqn:He; [| exact I].
  destruct (Hreadable i e Hi He) as [Hdisk Hpos].
  destruct (key_of_position _ _ Hdisk Hpos) as [Hkey Hused].
  set (n' := Z.to_nat i).
  assert (Hn' : i = Z.of_nat n') by lia.
  assert (Hlt : (n' < length buf)%nat) by lia.
  destruct (lookup_lt_is_Some_2 buf n' Hlt) as [y Hy].
  assert (Hidx : idx buf i = Some y).
  { unfold idx. destruct (Z.ltb_spec i 0); [lia | exact Hy]. }
  apply wpx_bind, wpx_call_get_raid_cache.
  destruct (get_raid_cache_cases (tagline.disk e) (tagline.diskPosition e)
              (cache_globals s) Hwf)
    as (res & c' & Hget & _ & _ & Hres).
  rewrite Hget.
  pose proof (get_raid_cache_wf _ _ _ _ _ Hwf Hget) as Hwf'.
  assert (Hcoh' : coherent (set_cache_globals c' s)).
  { intros k e' Hk Hkused. cbn in Hk |- *.
    destruct (get_raid_cache_entries _ _ _ _ _ Hwf Hget k e' Hk)
      as (e1 & He1 & Hkey1 & Hdata1).
    unfold slot_key in Hkey1, Hkused.
    assert (cache.disk e' = cache.disk e1 /\ cache.block e' = cache.block e1)
      as [-> ->] by (split; congruence).
    rewrite Hdata1. apply (Hcoh k e1 He1). unfold slot_key. congruence. }
  destruct res as [slot |].
  - (* a hit *)
    destruct Hres as (e1 & He1 & Hkey1 & _ & Harr).
    apply wpx_bind, wpx_read_slot. unfold slot_data.
    cbn [cache_globals set_cache_globals].
    rewrite Harr, list_lookup_insert_eq by (eapply lookup_lt_Some; eauto).
    cbn [fmap option_fmap option_map cache.data].
    apply wpx_bind, wpx_buf_store. rewrite Hidx. apply wpx_ret.
    unfold reading_stored. split_and!; try assumption.
    + unfold upd. rewrite length_insert. exact Hlen.
    + apply (read_back_next i buf e _ y); try assumption; [lia |].
      rewrite (Hcoh slot e1 He1) by (rewrite Hkey1, Hkey; exact Hused).
      rewrite Hkey in Hkey1. unfold slot_key in Hkey1.
      rewrite Hstored. congruence.
  - (* a miss *)
    rewrite Hn'. apply wpx_bind.
    apply (wpx_client_read Hconfig True buf n' (tagline.disk e)
             (tagline.diskPosition e));
      [ exact Hdisk | unfold word_range; lia | exact Hlt | exact Hfaults |].
    rewrite <- Hn'. cbn [raid set_cache_globals].
    apply wpx_bind, wpx_buf_at.
    assert (Hidx' : idx (<[n' := stored (raid s) (tagline.disk e)
                                     (tagline.diskPosition e)]> buf) i
                    = Some (stored (raid s) (tagline.disk e)
                              (tagline.diskPosition e))).
    { unfold idx. destruct (Z.ltb_spec i 0); [lia |].
      apply list_lookup_insert_eq. exact Hlt. }
    rewrite Hidx'.
    apply wpx_bind, wpx_call_put_raid_cache.
    cbn [cache_globals set_raid set_cache_globals].
    destruct (put_raid_cache (tagline.disk e) (tagline.diskPosition e)
                (stored (raid s) (tagline.disk e) (tagline.diskPosition e))
                c') as [[r c''] |] eqn:Hput; [| exact I].
    apply wpx_ret.
    destruct (put_raid_cache_first _ _ _ _ _ _ Hwf' Hput)
      as (_ & Hwf'' & slot & Hslot & Harr'' & _).
    unfold reading_stored. cbn.
    split_and!; try assumption; try reflexivity.
    + intros k e' Hk Hkused. cbn in Hk |- *. rewrite Harr'' in Hk.
      destruct (decide (k = slot)) as [-> | Hne].
      * rewrite list_lookup_insert_eq in Hk by exact Hslot.
        injection Hk as <-. cbn.
        injection Hkey as -> ->. reflexivity.
      * rewrite list_lookup_insert_ne in Hk by congruence.
        exact (Hcoh' k e' Hk Hkused).
    + apply echo_valid.
    + rewrite length_insert. exact Hlen.
    + fold (upd buf i (stored (raid s) (tagline.disk e)
                         (tagline.diskPosition e))).
      apply (read_back_next i buf e _ y); try assumption; [lia |].
      rewrite Hstored. reflexivity.
Qed.

End ReadStored.

Lemma tagline_read_stored `{raid_bus_h} tag bnum blks buf
    (s0 : State FakeArray) :
  config_ok ->
  readable tag bnum (u8 blks) s0 -> u8 blks <= Z.of_nat (length buf) ->
  cache_wf (cache_globals s0) -> faults (raid s0) = [] -> coherent s0 ->
  wpx True (tagline_read fake_serve tag bnum blks buf)
    (fun r s' =>
       fst r = 0
       /\ read_back tag bnum (u8 blks) s0 (snd r)
       /\ length (snd r) = length buf
       /\ stored (raid s') = stored (raid s0)
       /\ coherent s')
    (fun _ _ => False) s0.
Proof.
  intros Hconfig Hreadable Hroom Hwf Hfaults Hcoh.
  unfold tagline_read. apply wpx_body. cbv zeta. apply wpx_bind.
  eapply wpx_mono;
    [ apply (wpx_for_ True _
               (reading_stored tag bnum buf s0)
               (fun r s' =>
                  fst r = 0
                  /\ read_back tag bnum (u8 blks) s0 (snd r)
                  /\ length (snd r) = length buf
                  /\ stored (raid s') = stored (raid s0)
                  /\ coherent s'))
    | | cbv beta; intros ? ? Hx; exact Hx ].
  - unfold reading_stored.
    split_and!; try assumption; try reflexivity; try apply verdict_zero.
    intros i e Hi. lia.
  - intros i [[operation response] buf1] s Hi Hinv.
    apply (tagline_read_stored_turn Hconfig tag bnum (u8 blks) buf s0);
      assumption.
  - cbv beta. intros [[operation response] buf1] s
      (Htab & Hwf1 & Hfaults1 & Hstored & Hcoh1 & Hvalid & Hlen & Hback).
    apply wpx_bind, wpx_return_if_valid; [exact Hvalid |].
    intros g. apply wpx_ret. cbn.
    split_and!; try assumption; try reflexivity.
    intros i e Hi He. apply Hback; [lia | exact He].
Qed.

(** X27. What a read returns, on any mapping: the array fails no request,
    the cache agrees with the array, the buffer has room for the blocks,
    and the first copy of each block is on a disk of the array.  Then a
    read that returns, returns 0, and block [i] of the buffer is what the
    array stores at the first copy of block [bnum + i], whether it came
    from the cache or over the bus.  The buffer keeps its length, the array
    keeps its content, and the cache still agrees with it. *)
Theorem read_returns_stored `{raid_bus_h} (tag bnum blks : Z)
    (buf buf' : list payload) (s s' : State FakeArray) (r : Z) :
  config_ok ->
  readable tag bnum (u8 blks) s -> u8 blks <= Z.of_nat (length buf) ->
  cache_wf (cache_globals s) -> faults (raid s) = [] -> coherent s ->
  tagline_read fake_serve tag bnum blks buf s = Val (r, buf') s' ->
  r = 0
  /\ read_back tag bnum (u8 blks) s buf'
  /\ length buf' = length buf
  /\ stored (raid s') = stored (raid s)
  /\ coherent s'.
Proof.
  intros Hconfig Hreadable Hroom Hwf Hfaults Hcoh Hrun.
  exact (wpx_val _ _ _ _ _ _ _
           (tagline_read_stored tag bnum blks buf s Hconfig Hreadable Hroom
              Hwf Hfaults Hcoh) Hrun).
Qed.

Lemma example_written_readable : readable 0 0 (u8 3) example_written.
Proof.
  intros i e Hi He. change (u8 3) with 3 in Hi.
  assert (Hcases : i = 0 \/ i = 1 \/ i = 2) by lia.
  destruct Hcases as [-> | [-> | ->]]; vm_compute in He;
    injection He as <-; unfold byte_range; cbn; lia.
Qed.

Lemma example_written_coherent : coherent example_written.
Proof.
  assert (Hall : Forall
                   (fun e => cache.data e
                             = stored (raid example_written) (cache.disk e)
                                 (cache.block e))
                   (raid_cache.cacheArray (cache_globals example_written)))
    by (vm_compute; repeat constructor).
  rewrite Forall_lookup in Hall.
  intros k e Hk _. exact (Hall k e Hk).
Qed.

Lemma read_returns_stored_witness :
  let m := tagline_read (H := small_config) small_serve 0 0 3
             [None; None; None] in
  let s' := end_state m example_written in
  (0 : Z) = 0
  /\ read_back 0 0 (u8 3) example_written [blk 1; blk 2; blk 3]
  /\ length [blk 1; blk 2; blk 3] = length [@None (list Byte.byte); None; None]
  /\ stored (raid s') = stored (raid example_written)
  /\ coherent s'.
Proof.
  intros m s'.
  apply (read_returns_stored (H := small_config) 0 0 3 [None; None; None]
           [blk 1; blk 2; blk 3] example_written s' 0 small_config_ok).
  - exact example_written_readable.
  - change (u8 3) with 3. cbn. lia.
  - exact example_failed_cache_wf.
  - vm_compute. reflexivity.
  - exact example_written_coherent.
  - vm_compute. reflexivity.
Defined.


(** ** Polling a healthy array *)

(** The answer of the array to a STATUS request carries the state of the
    disk in the identifier of the request. *)
Lemma status_reply (t q d v : Z) :
  byte_range t -> byte_range q -> byte_range d -> word_range v ->
  Z.lor (Z.shiftl (Z.shiftr (create_raid_request t q d 0) 32) 32) v
  = create_raid_request t q d v.
Proof.
  intros Ht Hq Hd Hv.
  rewrite !create_raid_request_packed
    by (first [assumption | unfold word_range; lia]).
  unfold packed, byte_range, word_range in *.
  rewrite Z.shiftr_div_pow2, Z.shiftl_mul_pow2 by lia.
  replace (t * 2 ^ 56 + q * 2 ^ 48 + d * 2 ^ 40 + 0 * 2 ^ 32 + 0)
    with ((t * 2 ^ 24 + q * 2 ^ 16 + d * 2 ^ 8) * 2 ^ 32) by lia.
  rewrite Z.div_mul by lia.
  rewrite lor_low by lia. lia.
Qed.

Section Polling.
Context `{raid_bus_h}.
Hypothesis Hstatus : status_ok.

(** A STATUS request to a healthy array: the array answers that the disk
    is ready, and keeps its content. *)
Lemma wpx_client_status {R} U (d : Z)
    (Q : RAIDOpCode * list payload -> State FakeArray -> Prop)
    (E : R -> State FakeArray -> Prop) s :
  byte_range d -> healthy (raid s) ->
  let op := create_raid_request RAID_STATUS 0 d 0 in
  Q (create_raid_request RAID_STATUS 0 d (u32 RAID_DISK_READY), [])
    (set_raid (mkFakeArray (stored (raid s)) [] [] (op :: requests (raid s)))
       s) ->
  wpx U (client_raid_bus_request fake_serve op [] 0) Q E s.
Proof using Hstatus.
  intros Hd [Hfailed Hf] op HQ.
  destruct Hstatus as (Hbyte & Hw & Hr & _).
  destruct (request_fields RAID_STATUS 0 d 0)
    as (Ht & Hb & Hdk & Hid & Hblocks);
    [assumption | unfold byte_range; lia | assumption
    | unfold word_range; lia |].
  fold op in Ht, Hb, Hdk, Hid, Hblocks.
  unfold client_raid_bus_request.
  change (u8 (shr64 op 56)) with (op_type op). rewrite Ht.
  rewrite (proj2 (Z.eqb_neq _ _) Hr), (proj2 (Z.eqb_neq _ _) Hw).
  cbn [orb]. apply wpx_bind, wpx_gets.
  unfold fake_serve. rewrite Hf, Hfailed, Ht.
  rewrite (proj2 (Z.eqb_neq _ _) Hr), (proj2 (Z.eqb_neq _ _) Hw),
    Z.eqb_refl.
  cbn [existsb tail].
  unfold op. rewrite status_reply;
    [| assumption | unfold byte_range; lia | assumption
     | unfold u32, word_range; apply Z.mod_pos_bound; lia].
  apply wpx_bind, wpx_modify, wpx_ret. exact HQ.
Qed.

(** The poll of a healthy array goes through every disk, and changes
    nothing but the response record. *)
Lemma raid_disk_signal_healthy (s : State FakeArray) :
  healthy (raid s) ->
  wpx False (raid_disk_signal fake_serve)
    (fun r s' => r = 0 /\ polling s (Z.max 0 RAID_DISKS) s')
    (fun _ _ => False) s.
Proof using Hstatus.
  intros Hh. unfold raid_disk_signal.
  apply wpx_body, wpx_bind.
  eapply wpx_mono;
    [apply (wpx_for_ False _ (fun i _ st => polling s i st)
              (fun _ _ => False))
    | intros [] s' Hp; apply wpx_ret; split; [reflexivity | exact Hp]
    | intros r s' []].
  - unfold polling. split_and!; try reflexivity; [exact Hh | lia].
  - intros j [] st Hj (Hown & Hrand & Hstored & Hhealthy & Hlog).
    destruct Hstatus as (Hbyte & _ & _ & Hready & Hdisks).
    assert (Hjb : byte_range j) by (unfold byte_range; lia).
    apply wpx_bind, wpx_client_status; [exact Hjb | exact Hhealthy |].
    unfold return_if_invalid, call_extract_raid_response.
    apply wpx_bind, wpx_bind, wpx_bind, wpx_gets.
    rewrite extract_status_response;
      [| assumption | unfold byte_range; lia | assumption
       | unfold word_range; lia
       | unfold u32, word_range; apply Z.mod_pos_bound; lia].
    apply wpx_bind, wpx_modify, wpx_ret.
    change (negb (0 =? 0)) with false. cbv iota.
    apply wpx_ret, wpx_bind, wpx_gets.
    cbn [GlobResponse set_GlobResponse set_raid RAIDresponse.id].
    rewrite (proj2 (Z.eqb_neq _ _) Hready).
    apply wpx_ret.
    unfold polling, healthy, own in *. cbn.
    split_and!; try assumption; try reflexivity.
    rewrite Nat2Z.inj_succ. lia.
Qed.

End Polling.


Lemma small_status_ok : status_ok (H := small_config).
Proof.
  unfold status_ok, byte_range. cbn. repeat split; try lia; discriminate.
Qed.

Lemma example_written_healthy : healthy (raid example_written).
Proof. split; vm_compute; reflexivity. Qed.


